(** * Access-code pool: allocation, deletion and reconciliation

    A shallow embedding of the Lambda handlers of the CloudFormation
    deployment portal:

    - [amplify/functions/shared/access-code-utils.ts]  (the DynamoDB table),
    - the EventBridge rule manager ([EventBridgeManager]),
    - the stack deployer ([assignAccessCodes], [deployStacks]),
    - the stack deleter ([deleteStackByAccessCode], [getDeletionStatus], ...),
    - the access code manager ([getAllAccessCodeStatuses]),
    - the periodic synchronisation ([syncStackRecord], [syncAllStacks]),
    - the stack output retriever ([getStackOutputs]).

    The handlers are asynchronous TypeScript functions that talk to three
    services.  They are embedded as computations in a state-and-exception
    monad over a [World] (the table in scan order, the EventBridge rules,
    the calls issued so far) and an [Env] that fixes what the services
    answer.  [await] is sequencing; [try]/[catch] is [try_catch].

    The services can refuse a write to the table, a call to CloudFormation
    and a call to EventBridge.  A read of the table (a scan, a get, a
    batch get) always succeeds and answers in full. *)

From Stdlib Require Import Ascii String ZArith Lia.
From stdpp Require Import base decidable option list strings gmap pretty numbers.

Local Open Scope Z_scope.

(** ** JavaScript helpers *)

Module Js.

(** Truthiness of an optional string: [undefined] and [''] are falsy. *)
Definition truthy (o : option string) : bool :=
  match o with
  | Some s => negb (String.eqb s EmptyString)
  | None => false
  end.

(** [a || b] on optional strings. *)
Definition or_default (o : option string) (d : string) : string :=
  match o with
  | Some s => if String.eqb s EmptyString then d else s
  | None => d
  end.

(** [hay.includes(needle)]. *)
Fixpoint includes (needle hay : string) : bool :=
  String.prefix needle hay ||
  match hay with
  | EmptyString => false
  | String _ rest => includes needle rest
  end.

(** [s.startsWith(p)]. *)
Definition startsWith (p s : string) : bool := String.prefix p s.

(** [l.includes(x)] on an array of strings. *)
Definition arr_includes (l : list string) (x : string) : bool :=
  existsb (String.eqb x) l.

(** [l.indexOf(x)]: the first position of [x], or -1. *)
Fixpoint indexOf (l : list string) (x : string) : Z :=
  match l with
  | [] => -1
  | y :: l' =>
      if String.eqb y x then 0
      else let r := indexOf l' x in if r <? 0 then -1 else r + 1
  end.

(** [l.filter((x, index) => p(x, index))], with the index starting at [i]. *)
Fixpoint filteri_from {A} (p : A → Z → bool) (i : Z) (l : list A) : list A :=
  match l with
  | [] => []
  | x :: l' =>
      if p x i then x :: filteri_from p (i + 1) l' else filteri_from p (i + 1) l'
  end.

Definition filteri {A} (p : A → Z → bool) (l : list A) : list A :=
  filteri_from p 0 l.

(** [l.slice(0, count)]: a negative [count] counts from the end. *)
Definition slice0 {A} (count : Z) (l : list A) : list A :=
  if count <? 0 then take (Z.to_nat (Z.of_nat (length l) + count)) l
  else take (Z.to_nat count) l.

(** [/^[0-9a-f]$/i]. *)
Definition is_hex (c : ascii) : bool :=
  let n := nat_of_ascii c in
  ((48 <=? n) && (n <=? 57) || (97 <=? n) && (n <=? 102) ||
   (65 <=? n) && (n <=? 70))%nat.

(** Consumes exactly [n] hexadecimal digits. *)
Fixpoint hex_run (n : nat) (s : string) : option string :=
  match n with
  | O => Some s
  | S n' =>
      match s with
      | String c rest => if is_hex c then hex_run n' rest else None
      | EmptyString => None
      end
  end.

Definition dash (s : string) : option string :=
  match s with
  | String c rest => if Ascii.eqb c "-"%char then Some rest else None
  | EmptyString => None
  end.

Definition and_then (o : option string) (f : string → option string) :
    option string :=
  match o with
  | Some s => f s
  | None => None
  end.

(** [/^[0-9a-f]{8}-[0-9a-f]{4}-[0-9a-f]{4}-[0-9a-f]{4}-[0-9a-f]{12}$/i.test(s)] *)
Definition uuidRegex_test (s : string) : bool :=
  let g1 := and_then (hex_run 8 s) dash in
  let g2 := and_then (and_then g1 (hex_run 4)) dash in
  let g3 := and_then (and_then g2 (hex_run 4)) dash in
  let g4 := and_then (and_then g3 (hex_run 4)) dash in
  match and_then g4 (hex_run 12) with
  | Some EmptyString => true
  | _ => false
  end.

End Js.

(** ** Data model *)

(** An instant.  ISO strings ([toISOString]), [Date] objects and [Date.now()]
    all denote instants; the embedding keeps the instant. *)
Definition Timestamp := N.

(** CloudFormation's stack statuses.  The first sixteen are those that
    [StackRecord.status] lists.  [syncStackRecord] stores the status that
    [DescribeStacks] reports through a cast that checks nothing
    ([stack.StackStatus as StackRecord['status']]), so that a record can
    also hold one of the other values of the SDK's [StackStatus], which
    come last. *)
Inductive StackStatus :=
  | CREATE_IN_PROGRESS | CREATE_COMPLETE | CREATE_FAILED
  | DELETE_IN_PROGRESS | DELETE_COMPLETE | DELETE_FAILED
  | ROLLBACK_IN_PROGRESS | ROLLBACK_COMPLETE | ROLLBACK_FAILED
  | UPDATE_IN_PROGRESS | UPDATE_COMPLETE | UPDATE_FAILED
  | UPDATE_ROLLBACK_IN_PROGRESS | UPDATE_ROLLBACK_COMPLETE
  | UPDATE_ROLLBACK_FAILED
  | REVIEW_IN_PROGRESS
  | UPDATE_COMPLETE_CLEANUP_IN_PROGRESS
  | UPDATE_ROLLBACK_COMPLETE_CLEANUP_IN_PROGRESS
  | IMPORT_IN_PROGRESS | IMPORT_COMPLETE
  | IMPORT_ROLLBACK_IN_PROGRESS | IMPORT_ROLLBACK_FAILED
  | IMPORT_ROLLBACK_COMPLETE.

(** [StackRecord['status']]: ['AVAILABLE'] or a CloudFormation status. *)
Inductive Status :=
  | AVAILABLE
  | Cfn (s : StackStatus).

Coercion Cfn : StackStatus >-> Status.

Global Instance StackStatus_eq_dec : EqDecision StackStatus.
Proof. solve_decision. Defined.

Global Instance Status_eq_dec : EqDecision Status.
Proof. solve_decision. Defined.

Definition status_eqb (a b : Status) : bool := bool_decide (a = b).

Definition StackStatus_name (s : StackStatus) : string :=
  match s with
  | CREATE_IN_PROGRESS => "CREATE_IN_PROGRESS"
  | CREATE_COMPLETE => "CREATE_COMPLETE"
  | CREATE_FAILED => "CREATE_FAILED"
  | DELETE_IN_PROGRESS => "DELETE_IN_PROGRESS"
  | DELETE_COMPLETE => "DELETE_COMPLETE"
  | DELETE_FAILED => "DELETE_FAILED"
  | ROLLBACK_IN_PROGRESS => "ROLLBACK_IN_PROGRESS"
  | ROLLBACK_COMPLETE => "ROLLBACK_COMPLETE"
  | ROLLBACK_FAILED => "ROLLBACK_FAILED"
  | UPDATE_IN_PROGRESS => "UPDATE_IN_PROGRESS"
  | UPDATE_COMPLETE => "UPDATE_COMPLETE"
  | UPDATE_FAILED => "UPDATE_FAILED"
  | UPDATE_ROLLBACK_IN_PROGRESS => "UPDATE_ROLLBACK_IN_PROGRESS"
  | UPDATE_ROLLBACK_COMPLETE => "UPDATE_ROLLBACK_COMPLETE"
  | UPDATE_ROLLBACK_FAILED => "UPDATE_ROLLBACK_FAILED"
  | REVIEW_IN_PROGRESS => "REVIEW_IN_PROGRESS"
  | UPDATE_COMPLETE_CLEANUP_IN_PROGRESS => "UPDATE_COMPLETE_CLEANUP_IN_PROGRESS"
  | UPDATE_ROLLBACK_COMPLETE_CLEANUP_IN_PROGRESS =>
      "UPDATE_ROLLBACK_COMPLETE_CLEANUP_IN_PROGRESS"
  | IMPORT_IN_PROGRESS => "IMPORT_IN_PROGRESS"
  | IMPORT_COMPLETE => "IMPORT_COMPLETE"
  | IMPORT_ROLLBACK_IN_PROGRESS => "IMPORT_ROLLBACK_IN_PROGRESS"
  | IMPORT_ROLLBACK_FAILED => "IMPORT_ROLLBACK_FAILED"
  | IMPORT_ROLLBACK_COMPLETE => "IMPORT_ROLLBACK_COMPLETE"
  end.

Record StackOutput := {
  outputKey : string;
  outputValue : string;
  description : option string;
}.

Global Instance StackOutput_eq_dec : EqDecision StackOutput.
Proof. solve_decision. Defined.

(** [interface StackRecord]; an optional property is an [option]. *)
Record StackRecord := {
  guid : string;
  stackArn : option string;
  stackName : option string;
  stackId : option string;
  status : Status;
  createdAt : option Timestamp;
  updatedAt : Timestamp;
  outputs : option (list StackOutput);
  lastSyncAt : option Timestamp;
  syncError : option string;
}.

Global Instance StackRecord_eq_dec : EqDecision StackRecord.
Proof. solve_decision. Defined.

(** [Partial<Omit<StackRecord, 'guid'>>] as [updateStackRecord] reads it: a
    key may be missing from the object ([None]), present with the value
    [undefined] ([Some None], the attribute is removed), or present with a
    value ([Some (Some v)], the attribute is set).  [status] is never set to
    [undefined] by any caller. *)
Record Updates := {
  u_stackArn : option (option string);
  u_stackName : option (option string);
  u_stackId : option (option string);
  u_status : option Status;
  u_createdAt : option (option Timestamp);
  u_outputs : option (option (list StackOutput));
  u_lastSyncAt : option (option Timestamp);
  u_syncError : option (option string);
}.

Definition no_updates : Updates :=
  {| u_stackArn := None; u_stackName := None; u_stackId := None;
     u_status := None; u_createdAt := None; u_outputs := None;
     u_lastSyncAt := None; u_syncError := None |}.

(** ** Errors *)

(** A thrown value that is not a [LambdaError]: an SDK exception or a plain
    [Error], with the three properties the handlers inspect. *)
Record JsError := {
  err_name : string;
  err_code : option string;
  err_message : string;
}.

(** The [details] object of a [LambdaError]. *)
Inductive Details :=
  | NoDetails
  | PoolSizeDetails (poolSize : Z)
  | CountMismatchDetails (selectedCount requestedCount : Z)
  | InvalidCodesDetails (invalidAccessCodes : list string)
  | UnavailableDetails (unavailableAccessCodes : list string)
      (availableAccessCodes : Z)
  | DuplicatesDetails (duplicates : list string)
  | InsufficientDetails (requested available total : Z)
  | StackCountDetails (provided : Z)
  | StackCountTypeDetails (provided type_of : string)
  | StackCountMaxDetails (provided maximum : Z)
  | TemplateUrlDetails (templateUrl : string)
  | StackNameDetails (stackName requiredPrefix : string)
  | BatchFailedDetails (successful failed total : Z) (lastError : string)
  | AccessCodeDetails (accessCode : string)
  | StackOperationDetails (stackName : option string) (status : Status)
  | OriginalErrorDetails (originalError : option string) (operation : string)
  | ProvidedDetails (provided : string)
  | StackStatusDetails (stackStatus : Status) (stackName : option string)
  | StackNameDetailsOnly (stackName : option string).

(** The [stackCount] of a request as the handler hands it to
    [deployStacks], unchecked from the JSON body: absent or [null], a value
    that is not an integer (with its JSON text and its [typeof]), or an
    integer. *)
Inductive StackCountArg :=
  | CountMissing
  | CountNotInteger (provided type_of : string)
  | CountInteger (n : Z).

(** [class LambdaError]; the human-readable message is not kept. *)
Record LambdaError := {
  statusCode : Z;
  code : string;
  details : Details;
}.

Inductive Exn :=
  | ELambda (e : LambdaError)
  | EJs (e : JsError).

(** [error.message || String(error)].  Only SDK exceptions and plain [Error]s
    reach the places that read it; a [LambdaError], whose message is not
    kept, is given its class name. *)
Definition error_text (e : Exn) : string :=
  match e with
  | ELambda _ => "LambdaError"
  | EJs e =>
      if String.eqb (err_message e) EmptyString then err_name e
      else err_message e
  end.

(** ** The three services *)

(** What a service call yields: an answer, or an exception. *)
Inductive Reply (A : Type) :=
  | Answer (a : A)
  | Fails (e : JsError).
Arguments Answer {A} a.
Arguments Fails {A} e.

(** The part of [CreateStackCommand]'s input that varies between calls: the
    stack name and the [UniqueId], [CreatedAt] and [BatchId] tags.  The
    template URL, the parameters and the capabilities are the same in every
    call of a batch. *)
Record CreateStackInput := {
  cs_StackName : string;
  cs_UniqueId : string;
  cs_CreatedAt : Timestamp;
  cs_BatchId : Timestamp;
}.

(** The [Outputs] entries of a described stack. *)
Record CfnOutput := {
  OutputKey : option string;
  OutputValue : option string;
  Description : option string;
}.

(** The properties of a described [Stack] that [syncStackRecord] reads.
    CloudFormation always reports a status. *)
Record Stack := {
  StackName : option string;
  StackId : option string;
  StackStatus_of : StackStatus;
  CreationTime : option Timestamp;
  Outputs : option (list CfnOutput);
}.

Inductive RuleStatus := ENABLED | DISABLED.

Global Instance RuleStatus_eq_dec : EqDecision RuleStatus.
Proof. solve_decision. Defined.

(** The calls sent to CloudFormation and EventBridge. *)
Inductive Call :=
  | CreateStack (input : CreateStackInput)
  | DescribeStacks (name : string)
  | DeleteStack (name : option string)
  | ListRules
  | DescribeRule (name : string)
  | EnableRule (name : string)
  | DisableRule (name : string).

(** [interface DeploymentConfig], the fields the deployer reads. *)
Record DeploymentConfig := {
  templateUrl : string;
  stackNamePrefix : option string;
  accessCodePoolSize : option Z;
}.

(** What the outside world answers during one invocation of a handler.

    - [time_at n] is the instant returned by the [n]-th reading of the clock;
    - [write_error n] is the exception, if any, of the [n]-th write sent to
      the table ([PutCommand] or [UpdateCommand]);
    - [create_stack], [describe_stacks], [delete_stack] are CloudFormation's
      replies; [describe_stacks] answers with [response.Stacks];
    - [eb_error c] is the exception, if any, that EventBridge raises on the
      call [c] for a reason of its own (a missing rule is found by looking
      at the rules of the [World]);
    - [url_protocol s] is [new URL(s).protocol], or [None] when the
      constructor throws.

    Reads of the table ([GetCommand], [ScanCommand], [BatchGetCommand]) are
    taken to succeed. *)
Record Env := {
  config : DeploymentConfig;
  url_protocol : string → option string;
  time_at : nat → Timestamp;
  write_error : nat → option JsError;
  create_stack : CreateStackInput → Reply (option string);
  describe_stacks : string → Reply (list Stack);
  delete_stack : option string → Reply unit;
  eb_error : Call → option JsError;
}.

(** The state shared by the handlers: the table (in the order a scan returns
    its items), the EventBridge rules, how often the clock was read and the
    table written to, and the calls sent so far (oldest first). *)
Record World := {
  table : list StackRecord;
  rules : list (string * RuleStatus);
  clock : nat;
  writes : nat;
  calls : list Call;
}.

Definition set_table (t : list StackRecord) (w : World) : World :=
  {| table := t; rules := rules w; clock := clock w; writes := writes w;
     calls := calls w |}.
Definition set_rules (r : list (string * RuleStatus)) (w : World) : World :=
  {| table := table w; rules := r; clock := clock w; writes := writes w;
     calls := calls w |}.
Definition tick_clock (w : World) : World :=
  {| table := table w; rules := rules w; clock := S (clock w);
     writes := writes w; calls := calls w |}.
Definition tick_writes (w : World) : World :=
  {| table := table w; rules := rules w; clock := clock w;
     writes := S (writes w); calls := calls w |}.
Definition log_call (c : Call) (w : World) : World :=
  {| table := table w; rules := rules w; clock := clock w;
     writes := writes w; calls := calls w ++ [c] |}.

(** ** The monad of handlers *)

Inductive Outcome (A : Type) :=
  | Ok (a : A)
  | Throw (e : Exn).
Arguments Ok {A} a.
Arguments Throw {A} e.

Definition M (A : Type) : Type := World → Outcome A * World.

Global Instance M_ret : MRet M := λ A a w, (Ok a, w).

Global Instance M_bind : MBind M := λ A B f m w,
  match m w with
  | (Ok a, w') => f a w'
  | (Throw e, w') => (Throw e, w')
  end.

Definition throw {A} (e : Exn) : M A := λ w, (Throw e, w).

Definition try_catch {A} (m : M A) (handler : Exn → M A) : M A := λ w,
  match m w with
  | (Ok a, w') => (Ok a, w')
  | (Throw e, w') => handler e w'
  end.

(** [try { m } catch { log }]: the exception is logged and dropped. *)
Definition advisory (m : M ()) : M () := try_catch m (λ _, mret ()).

(** [catch (error) { if (error instanceof LambdaError) throw error;
    throw handle(error, operation) }] *)
Definition rethrow_with {A} (handle : JsError → string → LambdaError)
    (operation : string) (m : M A) : M A :=
  try_catch m
    (λ error,
       match error with
       | ELambda _ => throw error
       | EJs e => throw (ELambda (handle e operation))
       end).

Definition get_world : M World := λ w, (Ok w, w).
Definition modify_world (f : World → World) : M () := λ w, (Ok (), f w).

Definition new_LambdaError {A} (sc : Z) (c : string) (d : Details) : M A :=
  throw (ELambda {| statusCode := sc; code := c; details := d |}).

(** ** The table: access-code-utils.ts *)

Definition same_guid (key : string) (r : StackRecord) : bool :=
  String.eqb (guid r) key.

(** [PutCommand]: the item replaces the one with its key, or is added. *)
Definition putItem (item : StackRecord) (t : list StackRecord) :
    list StackRecord :=
  if existsb (same_guid (guid item)) t
  then map (λ r, if same_guid (guid item) r then item else r) t
  else t ++ [item].

(** [UpdateCommand] on the item with key [key].  Every call in the handlers
    updates a key that was read from the table in the same invocation (see
    [assignAccessCodes_available] for the deployer).  DynamoDB would create
    the item when the key is missing; here the table is left as it is, and
    the theorems on an update are stated for a key that has a record. *)
Definition updateItem (key : string) (f : StackRecord → StackRecord)
    (t : list StackRecord) : list StackRecord :=
  map (λ r, if same_guid key r then f r else r) t.

Definition upd {A} (u : option (option A)) (old : option A) : option A :=
  match u with
  | Some v => v
  | None => old
  end.

(** The [SET] and [REMOVE] clauses built from [updates], and
    [SET updatedAt = now]. *)
Definition applyUpdates (u : Updates) (now : Timestamp) (r : StackRecord) :
    StackRecord :=
  {| guid := guid r;
     stackArn := upd (u_stackArn u) (stackArn r);
     stackName := upd (u_stackName u) (stackName r);
     stackId := upd (u_stackId u) (stackId r);
     status := default (status r) (u_status u);
     createdAt := upd (u_createdAt u) (createdAt r);
     updatedAt := now;
     outputs := upd (u_outputs u) (outputs r);
     lastSyncAt := upd (u_lastSyncAt u) (lastSyncAt r);
     syncError := upd (u_syncError u) (syncError r) |}.

Definition isAvailable (r : StackRecord) : bool := status_eqb (status r) AVAILABLE.

(** ** Results of the handlers *)

Record DeployedStack := {
  ds_stackName : string;
  ds_stackId : string;
  ds_uniqueId : string;
  ds_status : StackStatus;
  ds_createdAt : Timestamp;
}.

Record DeploymentResponse := {
  deployedStacks : list DeployedStack;
  assignedAccessCodes : list string;
}.

(** The local variables of the deployment loop. *)
Record Progress := {
  p_deployedStacks : list DeployedStack;
  successfulDeployments : Z;
  failedDeployments : Z;
}.

(** [interface RuleState], the fields that are read. *)
Record RuleState := {
  rs_name : string;
  rs_state : RuleStatus;
}.

(** What [findStackByAccessCode] and [getAllActiveStacks] return: the
    non-null assertions [stackName!] and [stackId!] do not check anything, so
    both stay optional. *)
Record FoundStack := {
  fs_stackName : option string;
  fs_stackId : option string;
  fs_uniqueId : string;
  fs_status : Status;
  fs_createdAt : Timestamp;
}.

(** [interface StackDeletionResponse], without the message. *)
Record StackDeletionResponse := {
  sd_success : bool;
  sd_deletionStatus : string;
}.

Record DeletionStatusResponse := {
  dsr_status : Status;
  dsr_progress : string;
  dsr_isComplete : bool;
}.

(** [interface BulkDeletionResponse], without the message. *)
Record BulkDeletionResponse := {
  bd_success : bool;
  bd_deletionStatuses : gmap string string;
}.

Record AccessCodeStatus := {
  acs_accessCode : string;
  acs_isLinked : bool;
  acs_stackName : option string;
  acs_stackId : option string;
  acs_createdAt : option Timestamp;
  acs_status : option Status;
}.

Record AccessCodeStatusResponse := {
  accessCodeStatuses : list AccessCodeStatus;
  totalAvailable : Z;
  totalLinked : Z;
}.

Record SyncRecordResult := {
  sr_success : bool;
  sr_error : option string;
}.

Record SyncResult := {
  totalProcessed : Z;
  successfulSyncs : Z;
  failedSyncs : Z;
  errors : list (string * string);
}.

Definition Status_name (s : Status) : string :=
  match s with
  | AVAILABLE => "AVAILABLE"
  | Cfn s => StackStatus_name s
  end.

(** [mapM] for the monad of handlers is defined once [M] is known; the
    chunks of [batchPutStackRecords] are plain lists. *)
Fixpoint chunks_fuel {A} (fuel n : nat) (l : list A) : list (list A) :=
  match fuel with
  | O => []
  | S fuel' =>
      match l with
      | [] => []
      | _ => take n l :: chunks_fuel fuel' n (drop n l)
      end
  end.

(** [for (let i = 0; i < l.length; i += n) batches.push(l.slice(i, i + n))] *)
Definition chunks {A} (n : nat) (l : list A) : list (list A) :=
  chunks_fuel (length l) n l.

(** [`${stackPrefix}-${accessCode}-${timestamp}-${i + 1}`] *)
Definition stackName_of (stackPrefix accessCode : string) (timestamp : Timestamp)
    (i : Z) : string :=
  stackPrefix +:+ "-" +:+ accessCode +:+ "-" +:+ pretty timestamp +:+ "-"
    +:+ pretty (i + 1).

Definition SYNC_RULE_NAME_PATTERN : string := "StackSyncScheduleRule".

Definition ResourceNotFoundException : JsError :=
  {| err_name := "ResourceNotFoundException"; err_code := None;
     err_message := "Rule does not exist." |}.

Definition rule_status (name : string) (rs : list (string * RuleStatus)) :
    option RuleStatus :=
  snd <$> find (λ r, String.eqb (fst r) name) rs.

Definition set_rule_status (name : string) (st : RuleStatus)
    (rs : list (string * RuleStatus)) : list (string * RuleStatus) :=
  map (λ r, if String.eqb (fst r) name then (fst r, st) else r) rs.

Section Handlers.

Context (env : Env).

(** [new Date()], [Date.now()] *)
Definition now : M Timestamp := λ w, (Ok (time_at env (clock w)), tick_clock w).

(** [docClient.send] of a write. *)
Definition send_write (f : list StackRecord → list StackRecord) : M () := λ w,
  match write_error env (writes w) with
  | Some e => (Throw (EJs e), tick_writes w)
  | None => (Ok (), set_table (f (table w)) (tick_writes w))
  end.

Definition getStackRecord (accessCode : string) : M (option StackRecord) :=
  w ← get_world; mret (find (same_guid accessCode) (table w)).

Definition putStackRecord (record : StackRecord) : M () :=
  send_write (putItem record).

Definition updateStackRecord (accessCode : string) (updates : Updates) : M () :=
  t ← now;
  send_write (updateItem accessCode (applyUpdates updates t)).

Definition getAllStackRecords : M (list StackRecord) :=
  w ← get_world; mret (table w).

(** [BatchGetCommand]: the items of the table whose key is asked for.
    DynamoDB refuses a request that names a key twice and may leave keys
    unprocessed, which the source does not look at; here the read answers
    in full, as every read of the table does. *)
Definition batchGetStackRecords (accessCodes : list string) :
    M (list StackRecord) :=
  w ← get_world;
  mret (List.filter (λ r, Js.arr_includes accessCodes (guid r)) (table w)).

Definition getAccessCodePool : M (list string) :=
  allRecords ← getAllStackRecords;
  mret (map guid allRecords).

Definition getAvailableAccessCodes : M (list string) :=
  allRecords ← getAllStackRecords;
  mret (map guid (List.filter isAvailable allRecords)).

Definition getNonAvailableStackRecords : M (list StackRecord) :=
  allRecords ← getAllStackRecords;
  mret (List.filter (λ r, negb (isAvailable r)) allRecords).

(** The stack deployer *)

Definition deployer_handleCloudFormationError (error : JsError) (operation : string) :
    LambdaError :=
  let d := OriginalErrorDetails (Some (err_name error)) operation in
  let name := err_name error in
  if String.eqb name "AlreadyExistsException" then
    {| statusCode := 409; code := "STACK_ALREADY_EXISTS"; details := d |}
  else if String.eqb name "LimitExceededException" then
    {| statusCode := 429; code := "STACK_LIMIT_EXCEEDED"; details := d |}
  else if String.eqb name "InsufficientCapabilitiesException" then
    {| statusCode := 400; code := "INSUFFICIENT_CAPABILITIES"; details := d |}
  else if String.eqb name "TokenAlreadyExistsException" then
    {| statusCode := 409; code := "TOKEN_ALREADY_EXISTS"; details := d |}
  else if String.eqb name "ThrottlingException" || String.eqb name "Throttling" then
    {| statusCode := 429; code := "CLOUDFORMATION_THROTTLED"; details := d |}
  else if String.eqb name "AccessDenied" || String.eqb name "UnauthorizedOperation" then
    {| statusCode := 403; code := "CLOUDFORMATION_ACCESS_DENIED"; details := d |}
  else if String.eqb name "ValidationException" then
    {| statusCode := 400; code := "CLOUDFORMATION_VALIDATION_ERROR"; details := d |}
  else if String.eqb name "ServiceUnavailableException" then
    {| statusCode := 503; code := "CLOUDFORMATION_UNAVAILABLE"; details := d |}
  else if Js.arr_includes ["ENOTFOUND"; "ECONNREFUSED"; "ETIMEDOUT"]
            (default "" (err_code error)) then
    {| statusCode := 503; code := "CLOUDFORMATION_CONNECTION_ERROR";
       details := OriginalErrorDetails (err_code error) operation |}
  else
    {| statusCode := 500; code := "CLOUDFORMATION_ERROR";
       details :=
         OriginalErrorDetails
           (if Js.truthy (Some name) then Some name else err_code error)
           operation |}.

(** [handleDynamoDBError] of the deployer. *)
Definition deployer_handleDynamoDBError (error : JsError) (operation : string) :
    LambdaError :=
  let d := OriginalErrorDetails (Some (err_name error)) operation in
  let name := err_name error in
  if String.eqb name "ThrottlingException" ||
     String.eqb name "ProvisionedThroughputExceededException" then
    {| statusCode := 429; code := "DYNAMODB_THROTTLED"; details := d |}
  else if String.eqb name "AccessDeniedException" ||
          String.eqb name "UnauthorizedOperation" then
    {| statusCode := 403; code := "DYNAMODB_ACCESS_DENIED"; details := d |}
  else if String.eqb name "ValidationException" then
    {| statusCode := 400; code := "DYNAMODB_VALIDATION_ERROR"; details := d |}
  else if String.eqb name "ResourceNotFoundException" then
    {| statusCode := 404; code := "DYNAMODB_TABLE_NOT_FOUND"; details := d |}
  else if String.eqb name "ServiceUnavailableException" then
    {| statusCode := 503; code := "DYNAMODB_UNAVAILABLE"; details := d |}
  else if Js.arr_includes ["ENOTFOUND"; "ECONNREFUSED"; "ETIMEDOUT"]
            (default "" (err_code error)) then
    {| statusCode := 503; code := "DYNAMODB_CONNECTION_ERROR";
       details := OriginalErrorDetails (err_code error) operation |}
  else
    {| statusCode := 500; code := "DYNAMODB_ERROR";
       details :=
         OriginalErrorDetails
           (if Js.truthy (Some name) then Some name else err_code error)
           operation |}.

(** The two functions below catch what their bodies throw: a
    [LambdaError] is thrown again, anything else is turned into one.  The
    reads of the table cannot fail in this model, so that the bodies throw
    nothing but the [LambdaError]s that they create. *)
Definition getAvailableAccessCodesFromDB : M (list string) :=
  rethrow_with deployer_handleDynamoDBError "Access Code availability check"
    (accessCodePool ← getAccessCodePool;
     if (length accessCodePool =? 0)%nat then
       new_LambdaError 500 "ACCESS_CODE_POOL_EMPTY" (PoolSizeDetails 0)
     else
       getAvailableAccessCodes).

Definition assignAccessCodes (count : Z) (selectedAccessCodes : option (list string)) :
    M (list string) :=
  rethrow_with deployer_handleCloudFormationError "Access Code assignment" (
  availableAccessCodes ← getAvailableAccessCodesFromDB;
  accessCodePool ← getAccessCodePool;
  let auto_assign : M (list string) :=
    if Z.of_nat (length availableAccessCodes) <? count then
      new_LambdaError 409 "INSUFFICIENT_ACCESS_CODES"
        (InsufficientDetails count (Z.of_nat (length availableAccessCodes))
           (Z.of_nat (length accessCodePool)))
    else
      mret (Js.slice0 count availableAccessCodes)
  in
  match selectedAccessCodes with
  | Some (c :: cs) =>
      let selected := c :: cs in
      if negb (Z.of_nat (length selected) =? count) then
        new_LambdaError 400 "ACCESS_CODE_COUNT_MISMATCH"
          (CountMismatchDetails (Z.of_nat (length selected)) count)
      else
        let invalidAccessCodes :=
          List.filter (λ accessCode, negb (Js.arr_includes accessCodePool accessCode))
            selected in
        if (0 <? length invalidAccessCodes)%nat then
          new_LambdaError 400 "INVALID_ACCESS_CODES"
            (InvalidCodesDetails invalidAccessCodes)
        else
          let unavailableAccessCodes :=
            List.filter
              (λ accessCode, negb (Js.arr_includes availableAccessCodes accessCode))
              selected in
          if (0 <? length unavailableAccessCodes)%nat then
            new_LambdaError 409 "ACCESS_CODES_NOT_AVAILABLE"
              (UnavailableDetails unavailableAccessCodes
                 (Z.of_nat (length availableAccessCodes)))
          else
            let duplicates :=
              Js.filteri
                (λ accessCode index,
                   negb (Js.indexOf selected accessCode =? index))
                selected in
            if (0 <? length duplicates)%nat then
              new_LambdaError 400 "DUPLICATE_ACCESS_CODES"
                (DuplicatesDetails duplicates)
            else
              mret selected
  | Some [] | None => auto_assign
  end).

(** CloudFormation *)

Definition cfn_send {A} (c : Call) (reply : Reply A) : M A := λ w,
  match reply with
  | Answer a => (Ok a, log_call c w)
  | Fails e => (Throw (EJs e), log_call c w)
  end.

Definition send_CreateStack (input : CreateStackInput) : M (option string) :=
  cfn_send (CreateStack input) (create_stack env input).

Definition send_DescribeStacks (name : string) : M (list Stack) :=
  cfn_send (DescribeStacks name) (describe_stacks env name).

Definition send_DeleteStack (name : option string) : M () :=
  cfn_send (DeleteStack name) (delete_stack env name).

(** EventBridge: eventbridge-utils.ts *)

Definition eb_send {A} (c : Call) (serve : M A) : M A := λ w,
  match eb_error env c with
  | Some e => (Throw (EJs e), log_call c w)
  | None => serve (log_call c w)
  end.

Definition send_ListRules : M (list string) :=
  eb_send ListRules (w ← get_world; mret (map fst (rules w))).

Definition send_DescribeRule (name : string) : M RuleStatus :=
  eb_send (DescribeRule name)
    (w ← get_world;
     match rule_status name (rules w) with
     | Some st => mret st
     | None => throw (EJs ResourceNotFoundException)
     end).

Definition send_set_rule (c : Call) (name : string) (st : RuleStatus) : M () :=
  eb_send c
    (w ← get_world;
     match rule_status name (rules w) with
     | Some _ => modify_world (set_rules (set_rule_status name st (rules w)))
     | None => throw (EJs ResourceNotFoundException)
     end).

Definition findActualRuleName : M string :=
  try_catch
    (names ← send_ListRules;
     match find (Js.includes SYNC_RULE_NAME_PATTERN) names with
     | Some name => mret name
     | None => mret SYNC_RULE_NAME_PATTERN
     end)
    (λ _, mret SYNC_RULE_NAME_PATTERN).

Definition checkActiveStackCount : M nat :=
  nonAvailableRecords ← getNonAvailableStackRecords;
  mret (length nonAvailableRecords).

Definition enableSyncRule : M () :=
  ruleName ← findActualRuleName;
  send_set_rule (EnableRule ruleName) ruleName ENABLED.

Definition disableSyncRule : M () :=
  ruleName ← findActualRuleName;
  send_set_rule (DisableRule ruleName) ruleName DISABLED.

Definition getCurrentRuleState : M RuleState :=
  ruleName ← findActualRuleName;
  st ← send_DescribeRule ruleName;
  mret {| rs_name := ruleName; rs_state := st |}.

Definition manageRuleBasedOnStackCount : M () :=
  advisory
    (activeStackCount ← checkActiveStackCount;
     currentRuleState ← getCurrentRuleState;
     let shouldBeEnabled := (0 <? activeStackCount)%nat in
     let isCurrentlyEnabled := bool_decide (rs_state currentRuleState = ENABLED) in
     if shouldBeEnabled && negb isCurrentlyEnabled then enableSyncRule
     else if negb shouldBeEnabled && isCurrentlyEnabled then disableSyncRule
     else mret ()).

Definition ensureRuleEnabled : M () :=
  advisory
    (currentRuleState ← getCurrentRuleState;
     if negb (bool_decide (rs_state currentRuleState = ENABLED))
     then enableSyncRule else mret ()).

Definition ensureRuleDisabled : M () :=
  advisory
    (currentRuleState ← getCurrentRuleState;
     if negb (bool_decide (rs_state currentRuleState = DISABLED))
     then disableSyncRule else mret ()).

(** [validateStackCount] on an integer: its last two tests.  The first two
    tests, which refuse a count that is missing or not an integer, are in
    [deployStacks_request] below. *)
Definition validateStackCount (stackCount : Z) : M () :=
  if stackCount <=? 0 then
    new_LambdaError 400 "INVALID_STACK_COUNT_RANGE" (StackCountDetails stackCount)
  else
    let maxPoolSize :=
      match accessCodePoolSize (config env) with
      | Some n => if n =? 0 then 60 else n
      | None => 60
      end in
    if maxPoolSize <? stackCount then
      new_LambdaError 400 "STACK_COUNT_EXCEEDS_POOL"
        (StackCountMaxDetails stackCount maxPoolSize)
    else mret ().

Definition validateTemplateUrl (url : string) : M () :=
  if String.eqb url "" then
    new_LambdaError 500 "TEMPLATE_URL_MISSING" NoDetails
  else
    match url_protocol env url with
    | Some protocol =>
        if Js.arr_includes ["http:"; "https:"] protocol then mret ()
        else new_LambdaError 500 "TEMPLATE_URL_INVALID" (TemplateUrlDetails url)
    | None => new_LambdaError 500 "TEMPLATE_URL_INVALID" (TemplateUrlDetails url)
    end.

(** One turn of the loop [for (let i = 0; i < stackCount; i++)]. *)
Definition deployOne (stackCount : Z) (stackPrefix : string)
    (timestamp : Timestamp) (i : Z) (accessCode : string) (st : Progress) :
    M Progress :=
  let stackName := stackName_of stackPrefix accessCode timestamp i in
  if negb (Js.startsWith (stackPrefix +:+ "-") stackName) then
    new_LambdaError 400 "INVALID_STACK_NAME_PREFIX"
      (StackNameDetails stackName stackPrefix)
  else
    try_catch
      (tagCreatedAt ← now;
       responseStackId ← send_CreateStack
         {| cs_StackName := stackName; cs_UniqueId := accessCode;
            cs_CreatedAt := tagCreatedAt; cs_BatchId := timestamp |};
       if Js.truthy responseStackId then
         let StackId := default "" responseStackId in
         createdAt ← now;
         let deployed :=
           p_deployedStacks st ++
             [{| ds_stackName := stackName; ds_stackId := StackId;
                 ds_uniqueId := accessCode; ds_status := CREATE_IN_PROGRESS;
                 ds_createdAt := createdAt |}] in
         advisory
           (updatedAt ← now;
            putStackRecord
              {| guid := accessCode; stackArn := Some StackId;
                 stackName := Some stackName; stackId := Some StackId;
                 status := CREATE_IN_PROGRESS; createdAt := Some createdAt;
                 updatedAt := updatedAt; outputs := None;
                 lastSyncAt := None; syncError := None |});;
         mret {| p_deployedStacks := deployed;
                 successfulDeployments := successfulDeployments st + 1;
                 failedDeployments := failedDeployments st |}
       else
         throw (EJs {| err_name := "Error"; err_code := None;
                       err_message := "No stack ID returned from CloudFormation" |}))
      (λ error,
         let failed := failedDeployments st + 1 in
         createdAt ← now;
         let deployed :=
           p_deployedStacks st ++
             [{| ds_stackName := stackName; ds_stackId := "";
                 ds_uniqueId := accessCode; ds_status := CREATE_FAILED;
                 ds_createdAt := createdAt |}] in
         advisory
           (updateStackRecord accessCode
              {| u_status := Some AVAILABLE; u_stackArn := Some None;
                 u_stackName := Some None; u_stackId := Some None;
                 u_createdAt := Some None; u_outputs := None;
                 u_lastSyncAt := None; u_syncError := None |});;
         if stackCount <? 2 * failed then
           new_LambdaError 500 "DEPLOYMENT_BATCH_FAILED"
             (BatchFailedDetails (successfulDeployments st) failed stackCount
                (match error with
                 | EJs e => err_message e
                 | ELambda _ => "LambdaError"
                 end))
         else
           mret {| p_deployedStacks := deployed;
                   successfulDeployments := successfulDeployments st;
                   failedDeployments := failed |}).

Fixpoint deployLoop (stackCount : Z) (stackPrefix : string)
    (timestamp : Timestamp) (i : Z) (accessCodes : list string)
    (st : Progress) : M Progress :=
  match accessCodes with
  | [] => mret st
  | accessCode :: rest =>
      st' ← deployOne stackCount stackPrefix timestamp i accessCode st;
      deployLoop stackCount stackPrefix timestamp (i + 1) rest st'
  end.

(** [deployStacks]; the loop visits [assignedAccessCodes[i]] for
    [i < stackCount], and the list has [stackCount] entries
    ([assignAccessCodes_length]).  The template parameters are handed to
    CloudFormation unchanged and are left out. *)
Definition deployStacks (stackCount : Z) (selectedAccessCodes : option (list string)) :
    M DeploymentResponse :=
  try_catch
    (validateStackCount stackCount;;
     validateTemplateUrl (templateUrl (config env));;
     assigned ← assignAccessCodes stackCount selectedAccessCodes;
     timestamp ← now;
     let stackPrefix :=
       Js.or_default (stackNamePrefix (config env)) "deployment-stack" in
     st ← deployLoop stackCount stackPrefix timestamp 0
            (take (Z.to_nat stackCount) assigned)
            {| p_deployedStacks := []; successfulDeployments := 0;
               failedDeployments := 0 |};
     (if 0 <? successfulDeployments st
      then advisory manageRuleBasedOnStackCount else mret ());;
     mret {| deployedStacks := p_deployedStacks st;
             assignedAccessCodes := assigned |})
    (λ error,
       match error with
       | ELambda _ => throw error
       | EJs e =>
           throw (ELambda (deployer_handleCloudFormationError e "stack deployment"))
       end).

(** [deployStacks] on the [stackCount] of the request.  A count that is
    missing or not an integer is refused by the first two tests of
    [validateStackCount], and the catch of [deployStacks] throws that
    [LambdaError] again as it is; an integer goes through the function as
    above. *)
Definition deployStacks_request (stackCount : StackCountArg)
    (selectedAccessCodes : option (list string)) : M DeploymentResponse :=
  match stackCount with
  | CountMissing => new_LambdaError 400 "MISSING_STACK_COUNT" NoDetails
  | CountNotInteger provided type_of =>
      new_LambdaError 400 "INVALID_STACK_COUNT_TYPE"
        (StackCountTypeDetails provided type_of)
  | CountInteger n => deployStacks n selectedAccessCodes
  end.

(** The stack deleter *)

Definition deleter_handleCloudFormationError (error : JsError) (operation : string) :
    LambdaError :=
  let d := OriginalErrorDetails (Some (err_name error)) operation in
  let name := err_name error in
  if String.eqb name "ValidationException" then
    {| statusCode := 404; code := "STACK_NOT_FOUND"; details := d |}
  else if String.eqb name "ThrottlingException" || String.eqb name "Throttling" then
    {| statusCode := 429; code := "CLOUDFORMATION_THROTTLED"; details := d |}
  else if String.eqb name "AccessDenied" || String.eqb name "UnauthorizedOperation" then
    {| statusCode := 403; code := "CLOUDFORMATION_ACCESS_DENIED"; details := d |}
  else if String.eqb name "ServiceUnavailableException" then
    {| statusCode := 503; code := "CLOUDFORMATION_UNAVAILABLE"; details := d |}
  else if Js.arr_includes ["ENOTFOUND"; "ECONNREFUSED"; "ETIMEDOUT"]
            (default "" (err_code error)) then
    {| statusCode := 503; code := "CLOUDFORMATION_CONNECTION_ERROR";
       details := OriginalErrorDetails (err_code error) operation |}
  else
    {| statusCode := 500; code := "CLOUDFORMATION_ERROR";
       details :=
         OriginalErrorDetails
           (if Js.truthy (Some name) then Some name else err_code error)
           operation |}.

(** [catch (error) { if (error instanceof LambdaError) throw error;
    throw handleCloudFormationError(error, operation) }] *)
Definition deleter_rethrow {A} (operation : string) (m : M A) : M A :=
  try_catch m
    (λ error,
       match error with
       | ELambda _ => throw error
       | EJs e => throw (ELambda (deleter_handleCloudFormationError e operation))
       end).

Definition validateAccessCode (accessCode : string) : M bool :=
  if String.eqb accessCode "" then mret false
  else if negb (Js.uuidRegex_test accessCode) then mret false
  else
    record ← getStackRecord accessCode;
    mret (bool_decide (record ≠ None)).

(** [record.createdAt ? new Date(record.createdAt) : new Date()] *)
Definition createdAt_or_now (record : StackRecord) : M Timestamp :=
  match createdAt record with
  | Some t => mret t
  | None => now
  end.

Definition toFoundStack (record : StackRecord) : M FoundStack :=
  t ← createdAt_or_now record;
  mret {| fs_stackName := stackName record; fs_stackId := stackId record;
          fs_uniqueId := guid record; fs_status := status record;
          fs_createdAt := t |}.

Definition findStackByAccessCode (accessCode : string) : M (option FoundStack) :=
  isValid ← validateAccessCode accessCode;
  if negb isValid then
    new_LambdaError 400 "INVALID_ACCESS_CODE" (AccessCodeDetails accessCode)
  else
    stackRecord ← getStackRecord accessCode;
    match stackRecord with
    | None => mret None
    | Some record =>
        if isAvailable record || negb (Js.truthy (stackArn record)) then mret None
        else stack ← toFoundStack record; mret (Some stack)
    end.

Definition inProgressStates : list Status :=
  [Cfn CREATE_IN_PROGRESS; Cfn ROLLBACK_IN_PROGRESS; Cfn UPDATE_IN_PROGRESS;
   Cfn UPDATE_ROLLBACK_IN_PROGRESS; Cfn REVIEW_IN_PROGRESS].

Definition set_DELETE_IN_PROGRESS : Updates :=
  {| u_status := Some (Cfn DELETE_IN_PROGRESS); u_stackArn := None;
     u_stackName := None; u_stackId := None; u_createdAt := None;
     u_outputs := None; u_lastSyncAt := None; u_syncError := None |}.

Definition deleteStackByAccessCode (accessCode : string) : M StackDeletionResponse :=
  deleter_rethrow "stack deletion"
    (found ← findStackByAccessCode accessCode;
     match found with
     | None => new_LambdaError 404 "STACK_NOT_FOUND" (AccessCodeDetails accessCode)
     | Some stack =>
         if status_eqb (fs_status stack) DELETE_IN_PROGRESS then
           mret {| sd_success := false; sd_deletionStatus := "DELETE_IN_PROGRESS" |}
         else if bool_decide (fs_status stack ∈ inProgressStates) then
           new_LambdaError 409 "STACK_OPERATION_IN_PROGRESS"
             (StackOperationDetails (fs_stackName stack) (fs_status stack))
         else
           send_DeleteStack (fs_stackName stack);;
           advisory (updateStackRecord accessCode set_DELETE_IN_PROGRESS);;
           mret {| sd_success := true; sd_deletionStatus := "DELETE_IN_PROGRESS" |}
     end).

Fixpoint mapM {A B} (f : A → M B) (l : list A) : M (list B) :=
  match l with
  | [] => mret []
  | x :: l' => y ← f x; ys ← mapM f l'; mret (y :: ys)
  end.

Definition isActive (record : StackRecord) : bool :=
  negb (isAvailable record) && Js.truthy (stackArn record).

Definition getAllActiveStacks : M (list FoundStack) :=
  allRecords ← getAllStackRecords;
  mapM toFoundStack (List.filter isActive allRecords).

(** One of the closures that [deleteAllStacks] starts. *)
Definition deleteOneOfAll (statuses : gmap string string) (stack : FoundStack) :
    M (gmap string string) :=
  try_catch
    (if status_eqb (fs_status stack) DELETE_IN_PROGRESS then
       mret (<[fs_uniqueId stack := "ALREADY_DELETING"]> statuses)
     else if bool_decide (fs_status stack ∈ inProgressStates) then
       mret (<[fs_uniqueId stack := "OPERATION_IN_PROGRESS"]> statuses)
     else
       send_DeleteStack (fs_stackName stack);;
       advisory (updateStackRecord (fs_uniqueId stack) set_DELETE_IN_PROGRESS);;
       mret (<[fs_uniqueId stack := "DELETE_INITIATED"]> statuses))
    (λ _, mret (<[fs_uniqueId stack := "DELETE_FAILED"]> statuses)).

Fixpoint foldM {A B} (f : B → A → M B) (b : B) (l : list A) : M B :=
  match l with
  | [] => mret b
  | x :: l' => b' ← f b x; foldM f b' l'
  end.

(** [deleteAllStacks].  The source starts one closure per stack and awaits
    them together; a closure writes one key of [deletionStatuses] and
    updates one item of the table, its own.  The closures are run here one
    after the other, in the order in which they are started. *)
Definition deleteAllStacks : M BulkDeletionResponse :=
  deleter_rethrow "bulk stack deletion"
    (activeStacks ← getAllActiveStacks;
     if (length activeStacks =? 0)%nat then
       mret {| bd_success := true; bd_deletionStatuses := ∅ |}
     else
       statuses ← foldM deleteOneOfAll ∅ activeStacks;
       mret {| bd_success := true; bd_deletionStatuses := statuses |}).

(** The [switch (status)] of [getDeletionStatus]. *)
Definition deletionProgress (st : Status) : string * bool :=
  match st with
  | Cfn DELETE_IN_PROGRESS =>
      ("Stack deletion is in progress. Resources are being removed.", false)
  | Cfn DELETE_COMPLETE =>
      ("Stack has been successfully deleted and Access Code is now available for reuse.",
       true)
  | Cfn DELETE_FAILED =>
      ("Stack deletion failed. Manual intervention may be required. The stack still exists and the Access Code remains linked.",
       true)
  | Cfn CREATE_IN_PROGRESS =>
      ("Stack is still being created. Deletion cannot proceed until creation completes.",
       false)
  | Cfn CREATE_COMPLETE | Cfn UPDATE_COMPLETE =>
      ("Stack is active and ready for deletion if needed.", false)
  | Cfn CREATE_FAILED | Cfn ROLLBACK_COMPLETE | Cfn ROLLBACK_FAILED
  | Cfn UPDATE_FAILED | Cfn UPDATE_ROLLBACK_COMPLETE
  | Cfn UPDATE_ROLLBACK_FAILED =>
      ("Stack is in error state (" +:+ Status_name st +:+
         "). The stack still exists and may require manual cleanup.", false)
  | Cfn ROLLBACK_IN_PROGRESS | Cfn UPDATE_IN_PROGRESS
  | Cfn UPDATE_ROLLBACK_IN_PROGRESS =>
      ("Stack operation is in progress (" +:+ Status_name st +:+
         "). Please wait for the operation to complete before attempting deletion.",
       false)
  | Cfn REVIEW_IN_PROGRESS =>
      ("Stack is under review. Please complete the review process before attempting deletion.",
       false)
  | _ =>
      ("Stack is in " +:+ Status_name st +:+
         " state. Current status may require manual review.", false)
  end.

(** The [switch (status)] of [getAllDeletionStatus]. *)
Definition bulkDeletionProgress (st : Status) : string * bool :=
  match st with
  | Cfn DELETE_IN_PROGRESS =>
      ("Stack deletion is in progress. Resources are being removed.", false)
  | Cfn DELETE_COMPLETE =>
      ("Stack has been successfully deleted and Access Code is now available for reuse.",
       true)
  | Cfn DELETE_FAILED =>
      ("Stack deletion failed. Manual intervention may be required.", true)
  | Cfn CREATE_IN_PROGRESS => ("Stack is still being created.", false)
  | Cfn CREATE_COMPLETE | Cfn UPDATE_COMPLETE => ("Stack is active.", false)
  | Cfn CREATE_FAILED | Cfn ROLLBACK_COMPLETE | Cfn ROLLBACK_FAILED
  | Cfn UPDATE_FAILED | Cfn UPDATE_ROLLBACK_COMPLETE
  | Cfn UPDATE_ROLLBACK_FAILED =>
      ("Stack is in error state (" +:+ Status_name st +:+ ").", false)
  | Cfn ROLLBACK_IN_PROGRESS | Cfn UPDATE_IN_PROGRESS
  | Cfn UPDATE_ROLLBACK_IN_PROGRESS =>
      ("Stack operation is in progress (" +:+ Status_name st +:+ ").", false)
  | Cfn REVIEW_IN_PROGRESS => ("Stack is under review.", false)
  | _ => ("Stack is in " +:+ Status_name st +:+ " state.", false)
  end.

Definition getAllDeletionStatus : M (gmap string DeletionStatusResponse) :=
  deleter_rethrow "bulk deletion status check"
    (activeStacks ← getAllActiveStacks;
     mret
       (foldl
          (λ deletionStatuses stack,
             <[fs_uniqueId stack :=
                 {| dsr_status := fs_status stack;
                    dsr_progress := fst (bulkDeletionProgress (fs_status stack));
                    dsr_isComplete := snd (bulkDeletionProgress (fs_status stack)) |}]>
               deletionStatuses)
          ∅ activeStacks)).

Definition getDeletionStatus (accessCode : string) : M DeletionStatusResponse :=
  deleter_rethrow "deletion status check"
    (found ← findStackByAccessCode accessCode;
     match found with
     | None =>
         mret {| dsr_status := Cfn DELETE_COMPLETE;
                 dsr_progress :=
                   "Stack has been successfully deleted and Access Code is now available for reuse.";
                 dsr_isComplete := true |}
     | Some stack =>
         mret {| dsr_status := fs_status stack;
                 dsr_progress := fst (deletionProgress (fs_status stack));
                 dsr_isComplete := snd (deletionProgress (fs_status stack)) |}
     end).

(** The access code manager *)

Definition stackRecordToAccessCodeStatus (record : StackRecord) : AccessCodeStatus :=
  {| acs_accessCode := guid record;
     acs_isLinked := negb (isAvailable record) && Js.truthy (stackArn record);
     acs_stackName := stackName record;
     acs_stackId := stackId record;
     acs_createdAt := createdAt record;
     acs_status := if isAvailable record then None else Some (status record) |}.

(** [new Map(stackRecords.map(record => [record.guid, record]))]: a later
    entry replaces an earlier one with the same key. *)
Definition recordMap_of (stackRecords : list StackRecord) : gmap string StackRecord :=
  foldl (λ m record, <[guid record := record]> m) ∅ stackRecords.

Definition getAllAccessCodeStatuses : M AccessCodeStatusResponse :=
  accessCodePool ← getAccessCodePool;
  if (length accessCodePool =? 0)%nat then
    new_LambdaError 500 "ACCESS_CODE_POOL_EMPTY" (PoolSizeDetails 0)
  else
    stackRecords ← batchGetStackRecords accessCodePool;
    let recordMap := recordMap_of stackRecords in
    let statuses :=
      map
        (λ accessCode,
           match recordMap !! accessCode with
           | None =>
               {| acs_accessCode := accessCode; acs_isLinked := false;
                  acs_stackName := None; acs_stackId := None;
                  acs_createdAt := None; acs_status := None |}
           | Some record => stackRecordToAccessCodeStatus record
           end)
        accessCodePool in
    let linked := Z.of_nat (length (List.filter acs_isLinked statuses)) in
    mret {| accessCodeStatuses := statuses;
            totalAvailable := Z.of_nat (length accessCodePool) - linked;
            totalLinked := linked |}.

(** The initializer: access-code-utils.ts *)

Definition batchPutStackRecords (records : list StackRecord) : M () :=
  if (length records =? 0)%nat then mret ()
  else
    foldM (λ _ batch, send_write (λ t, foldl (λ t' r, putItem r t') t batch))
      () (chunks 25 records).

Definition initializeAccessCodePool (accessCodes : list string) : M () :=
  existingRecords ← batchGetStackRecords accessCodes;
  let existingAccessCodes : gset string := list_to_set (map guid existingRecords) in
  newRecords ←
    mapM
      (λ accessCode,
         t ← now;
         mret {| guid := accessCode; stackArn := None; stackName := None;
                 stackId := None; status := AVAILABLE; createdAt := None;
                 updatedAt := t; outputs := None; lastSyncAt := None;
                 syncError := None |})
      (List.filter (λ accessCode, bool_decide (accessCode ∉ existingAccessCodes))
         accessCodes);
  if (0 <? length newRecords)%nat then batchPutStackRecords newRecords
  else mret ().

(** The periodic synchronisation: stack-sync/handler.ts *)

Definition convertCloudFormationOutputs (cfOutputs : option (list CfnOutput)) :
    list StackOutput :=
  match cfOutputs with
  | None => []
  | Some l =>
      map
        (λ output,
           {| outputKey := default "" (OutputKey output);
              outputValue := default "" (OutputValue output);
              description := Description output |})
        (List.filter
           (λ output, Js.truthy (OutputKey output) && Js.truthy (OutputValue output))
           l)
  end.

(** The assignments that mark a code as available again. *)
Definition mark_available (updates : Updates) : Updates :=
  {| u_status := Some AVAILABLE; u_stackArn := Some None;
     u_stackName := Some None; u_stackId := Some None;
     u_outputs := Some None; u_createdAt := Some None;
     u_lastSyncAt := u_lastSyncAt updates; u_syncError := u_syncError updates |}.

Definition with_status (st : Status) (u : Updates) : Updates :=
  {| u_status := Some st; u_stackArn := u_stackArn u;
     u_stackName := u_stackName u; u_stackId := u_stackId u;
     u_outputs := u_outputs u; u_createdAt := u_createdAt u;
     u_lastSyncAt := u_lastSyncAt u; u_syncError := u_syncError u |}.

Definition with_stackName (v : option string) (u : Updates) : Updates :=
  {| u_status := u_status u; u_stackArn := u_stackArn u;
     u_stackName := Some v; u_stackId := u_stackId u;
     u_outputs := u_outputs u; u_createdAt := u_createdAt u;
     u_lastSyncAt := u_lastSyncAt u; u_syncError := u_syncError u |}.

Definition with_stackId (v : option string) (u : Updates) : Updates :=
  {| u_status := u_status u; u_stackArn := u_stackArn u;
     u_stackName := u_stackName u; u_stackId := Some v;
     u_outputs := u_outputs u; u_createdAt := u_createdAt u;
     u_lastSyncAt := u_lastSyncAt u; u_syncError := u_syncError u |}.

Definition with_createdAt (v : option Timestamp) (u : Updates) : Updates :=
  {| u_status := u_status u; u_stackArn := u_stackArn u;
     u_stackName := u_stackName u; u_stackId := u_stackId u;
     u_outputs := u_outputs u; u_createdAt := Some v;
     u_lastSyncAt := u_lastSyncAt u; u_syncError := u_syncError u |}.

Definition with_outputs (v : option (list StackOutput)) (u : Updates) : Updates :=
  {| u_status := u_status u; u_stackArn := u_stackArn u;
     u_stackName := u_stackName u; u_stackId := u_stackId u;
     u_outputs := Some v; u_createdAt := u_createdAt u;
     u_lastSyncAt := u_lastSyncAt u; u_syncError := u_syncError u |}.

(** [if (cond) { updates.x = v; hasChanges = true; }] *)
Definition change_if (cond : bool) (f : Updates → Updates) (acc : Updates * bool) :
    Updates * bool :=
  if cond then (f (fst acc), true) else acc.

(** The body of [syncStackRecord] between the description of the stack and
    the write: the [updates] object and [hasChanges].  The source compares
    the outputs through their JSON texts,
    [JSON.stringify(record.outputs || []) !== JSON.stringify(newOutputs)];
    the texts are taken to differ exactly when the lists differ, that is,
    the table is taken to hand the outputs back with the keys in the order
    in which [convertCloudFormationOutputs] writes them. *)
Definition syncChanges (record : StackRecord) (stackExists : bool)
    (stack : option Stack) (now : Timestamp) : Updates * bool :=
  let updates :=
    {| u_lastSyncAt := Some (Some now); u_syncError := Some None;
       u_status := None; u_stackArn := None; u_stackName := None;
       u_stackId := None; u_outputs := None; u_createdAt := None |} in
  if negb stackExists then
    change_if (negb (isAvailable record)) mark_available (updates, false)
  else
    match stack with
    | None => (updates, false)
    | Some stack =>
        let currentStatus := StackStatus_of stack in
        if bool_decide (currentStatus = DELETE_COMPLETE) then
          (mark_available updates, true)
        else
          let s1 :=
            change_if (negb (status_eqb (status record) currentStatus))
              (with_status currentStatus) (updates, false) in
          let s2 :=
            change_if (negb (bool_decide (stackName record = StackName stack)))
              (with_stackName (StackName stack)) s1 in
          let s3 :=
            change_if (negb (bool_decide (stackId record = StackId stack)))
              (with_stackId (StackId stack)) s2 in
          let s4 :=
            change_if
              (bool_decide (createdAt record = None) &&
               bool_decide (CreationTime stack ≠ None))
              (with_createdAt (CreationTime stack)) s3 in
          if bool_decide (currentStatus = CREATE_COMPLETE) ||
             bool_decide (currentStatus = UPDATE_COMPLETE) then
            let newOutputs := convertCloudFormationOutputs (Outputs stack) in
            change_if
              (negb (bool_decide (default [] (outputs record) = newOutputs)))
              (with_outputs (Some newOutputs)) s4
          else s4
    end.

Definition only_lastSyncAt (now : Timestamp) : Updates :=
  {| u_lastSyncAt := Some (Some now); u_syncError := None; u_status := None;
     u_stackArn := None; u_stackName := None; u_stackId := None;
     u_outputs := None; u_createdAt := None |}.

Definition syncError_updates (errorMessage : string) (now : Timestamp) : Updates :=
  {| u_syncError := Some (Some errorMessage); u_lastSyncAt := Some (Some now);
     u_status := None; u_stackArn := None; u_stackName := None;
     u_stackId := None; u_outputs := None; u_createdAt := None |}.

(** The inner [try]/[catch] around [DescribeStacksCommand]: the pair
    [(stackExists, stack)]. *)
Definition describeForSync (arn : string) : M (bool * option Stack) :=
  try_catch
    (stacks ← send_DescribeStacks arn; mret (true, head stacks))
    (λ error,
       match error with
       | EJs e =>
           if String.eqb (err_name e) "ValidationError" &&
              Js.includes "does not exist" (err_message e)
           then mret (false, None)
           else throw error
       | ELambda _ => throw error
       end).

Definition syncStackRecord (record : StackRecord) : M SyncRecordResult :=
  try_catch
    (if negb (Js.truthy (stackArn record)) then
       mret {| sr_success := true; sr_error := None |}
     else
       described ← describeForSync (default "" (stackArn record));
       t ← now;
       let changes := syncChanges record (fst described) (snd described) t in
       (if snd changes then updateStackRecord (guid record) (fst changes)
        else updateStackRecord (guid record) (only_lastSyncAt t));;
       mret {| sr_success := true; sr_error := None |})
    (λ error,
       let errorMessage := error_text error in
       advisory
         (t ← now;
          updateStackRecord (guid record) (syncError_updates errorMessage t));;
       mret {| sr_success := false; sr_error := Some errorMessage |}).

Definition validateAllStacksDeletionComplete : M bool :=
  nonAvailableRecords ← getNonAvailableStackRecords;
  mret (negb (0 <? length nonAvailableRecords)%nat).

(** [if (allStacksDeleted) { try { ensureRuleDisabled() } catch { log } }] *)
Definition disableRuleWhenAllDeleted : M () :=
  allStacksDeleted ← validateAllStacksDeletionComplete;
  if allStacksDeleted : bool then advisory ensureRuleDisabled else mret ().

Definition syncOneOfAll (result : SyncResult) (record : StackRecord) : M SyncResult :=
  syncResult ← syncStackRecord record;
  if sr_success syncResult then
    mret {| totalProcessed := totalProcessed result;
            successfulSyncs := successfulSyncs result + 1;
            failedSyncs := failedSyncs result;
            errors := errors result |}
  else
    mret {| totalProcessed := totalProcessed result;
            successfulSyncs := successfulSyncs result;
            failedSyncs := failedSyncs result + 1;
            errors :=
              errors result ++
                [(guid record, Js.or_default (sr_error syncResult) "Unknown error")] |}.

Definition syncAllStacks : M SyncResult :=
  nonAvailableRecords ← getNonAvailableStackRecords;
  let result :=
    {| totalProcessed := Z.of_nat (length nonAvailableRecords);
       successfulSyncs := 0; failedSyncs := 0; errors := [] |} in
  if (length nonAvailableRecords =? 0)%nat then
    disableRuleWhenAllDeleted;;
    mret result
  else
    result' ← foldM syncOneOfAll result nonAvailableRecords;
    disableRuleWhenAllDeleted;;
    mret result'.

End Handlers.

(** ** Vocabulary of the specification *)

(** The specification's [InvalidSelection] covers four error codes of the
    deployer. *)
Definition InvalidSelection_codes : list string :=
  ["ACCESS_CODE_COUNT_MISMATCH"; "INVALID_ACCESS_CODES";
   "ACCESS_CODES_NOT_AVAILABLE"; "DUPLICATE_ACCESS_CODES"].

Definition available_ids (t : list StackRecord) : list string :=
  map guid (List.filter isAvailable t).

(** An explicit selection that the specification accepts. *)
Definition valid_selection (count : Z) (selected : list string)
    (t : list StackRecord) : Prop :=
  Z.of_nat (length selected) = count ∧
  (∀ c, c ∈ selected → c ∈ map guid t) ∧
  (∀ c, c ∈ selected → c ∈ available_ids t) ∧
  NoDup selected.

(** The specification's rule for an allocation without explicit ids: the
    first [count] available ids in ascending order by id. *)
Fixpoint insert_ascending (x : string) (l : list string) : list string :=
  match l with
  | [] => [x]
  | y :: l' => if String.leb x y then x :: y :: l' else y :: insert_ascending x l'
  end.

Definition ascending (l : list string) : list string :=
  foldr insert_ascending [] l.

Definition spec_auto_assignment (count : Z) (t : list StackRecord) : list string :=
  take (Z.to_nat count) (ascending (available_ids t)).

(** The request that turn [i] of the deployment loop sends for
    [accessCode] when it starts in the world [w]. *)
Definition create_input (env : Env) (stackPrefix : string) (timestamp : Timestamp)
    (i : Z) (accessCode : string) (w : World) : CreateStackInput :=
  {| cs_StackName := stackName_of stackPrefix accessCode timestamp i;
     cs_UniqueId := accessCode;
     cs_CreatedAt := time_at env (clock w);
     cs_BatchId := timestamp |}.

(** The stack id that a reply to [CreateStack] carries, if it carries one:
    the creation failed when there is none. *)
Definition created_id (reply : Reply (option string)) : option string :=
  match reply with
  | Answer (Some id) => if String.eqb id "" then None else Some id
  | _ => None
  end.

Definition creation_error_message (reply : Reply (option string)) : string :=
  match reply with
  | Fails e => err_message e
  | Answer _ => "No stack ID returned from CloudFormation"
  end.

(** The update that gives a code back: [status: 'AVAILABLE'] and the
    attributes of the stack removed. *)
Definition release_updates : Updates :=
  {| u_status := Some AVAILABLE; u_stackArn := Some None;
     u_stackName := Some None; u_stackId := Some None;
     u_createdAt := Some None; u_outputs := None;
     u_lastSyncAt := None; u_syncError := None |}.

(** The record that the deployer puts for a created stack. *)
Definition created_record (accessCode stackName StackId : string)
    (createdAt updatedAt : Timestamp) : StackRecord :=
  {| guid := accessCode; stackArn := Some StackId;
     stackName := Some stackName; stackId := Some StackId;
     status := CREATE_IN_PROGRESS; createdAt := Some createdAt;
     updatedAt := updatedAt; outputs := None;
     lastSyncAt := None; syncError := None |}.

(** The same services, with other answers to the writes of the table. *)
Definition with_write_error (we : nat → option JsError) (env : Env) : Env :=
  {| config := config env; url_protocol := url_protocol env;
     time_at := time_at env; write_error := we;
     create_stack := create_stack env; describe_stacks := describe_stacks env;
     delete_stack := delete_stack env; eb_error := eb_error env |}.

(** The creations that failed, among the calls of a log. *)
Definition failed_creations (env : Env) (log : list Call) : Z :=
  Z.of_nat
    (length
       (List.filter
          (λ c, match c with
                | CreateStack input =>
                    bool_decide (created_id (create_stack env input) = None)
                | _ => false
                end)
          log)).

Definition successful_creations (env : Env) (log : list Call) : Z :=
  Z.of_nat
    (length
       (List.filter
          (λ c, match c with
                | CreateStack input =>
                    bool_decide (created_id (create_stack env input) ≠ None)
                | _ => false
                end)
          log)).

(** The calls that were added to the log between [w] and [w']. *)
Definition new_calls (w w' : World) : list Call :=
  drop (length (calls w)) (calls w').

Definition no_progress : Progress :=
  {| p_deployedStacks := []; successfulDeployments := 0; failedDeployments := 0 |}.

(** What [describeForSync] yields for the stack [arn]: the pair
    [(stackExists, stack)], or the exception that is thrown again. *)
Definition described (env : Env) (arn : string) : Exn + (bool * option Stack) :=
  match describe_stacks env arn with
  | Answer stacks => inr (true, head stacks)
  | Fails e =>
      if String.eqb (err_name e) "ValidationError" &&
         Js.includes "does not exist" (err_message e)
      then inr (false, None)
      else inl (EJs e)
  end.

(** CloudFormation reports that the stack does not exist, or that it is in
    the state DELETE_COMPLETE. *)
Definition reports_gone (env : Env) (arn : string) : Prop :=
  (∃ e, describe_stacks env arn = Fails e ∧
        err_name e = "ValidationError" ∧
        Js.includes "does not exist" (err_message e) = true) ∨
  (∃ stack rest, describe_stacks env arn = Answer (stack :: rest) ∧
                 StackStatus_of stack = DELETE_COMPLETE).

(** The updates that a synchronisation of [record] may write: the changes
    found by comparing with the described stack (or [lastSyncAt] alone when
    nothing changed), or the error of the attempt. *)
Definition sync_write (env : Env) (record : StackRecord) (u : Updates) : Prop :=
  (∃ message t, u = syncError_updates message t) ∨
  (∃ d t,
     described env (default "" (stackArn record)) = inr d ∧
     u = if snd (syncChanges record (fst d) (snd d) t)
         then fst (syncChanges record (fst d) (snd d) t)
         else only_lastSyncAt t).

(** The record that a synchronisation of [record] at the instant [t] leaves
    when the table accepts the write, which it stamps with [tu]. *)
Definition synced (env : Env) (record : StackRecord) (t tu : Timestamp) :
    StackRecord :=
  if negb (Js.truthy (stackArn record)) then record
  else
    match described env (default "" (stackArn record)) with
    | inr d =>
        applyUpdates
          (if snd (syncChanges record (fst d) (snd d) t)
           then fst (syncChanges record (fst d) (snd d) t)
           else only_lastSyncAt t)
          tu record
    | inl e => applyUpdates (syncError_updates (error_text e) t) tu record
    end.

(** A record without its two time stamps of bookkeeping. *)
Definition forget_times (r : StackRecord) : StackRecord :=
  {| guid := guid r; stackArn := stackArn r; stackName := stackName r;
     stackId := stackId r; status := status r; createdAt := createdAt r;
     updatedAt := 0%N; outputs := outputs r; lastSyncAt := None;
     syncError := syncError r |}.

(** A record that was given back to the pool. *)
Definition is_reset (r : StackRecord) : Prop :=
  status r = AVAILABLE ∧ stackArn r = None ∧ stackName r = None ∧
  stackId r = None ∧ outputs r = None ∧ createdAt r = None ∧
  syncError r = None.

(** The table of a pool: one item per code, and every code either
    available or linked to a stack. *)
Definition record_ok (r : StackRecord) : Prop :=
  isAvailable r = true ∨ isActive r = true.

Definition store_ok (t : list StackRecord) : Prop :=
  NoDup (map guid t) ∧ Forall record_ok t.

(** The operations of the engine. *)
Inductive Op :=
  | Allocate (stackCount : Z) (selectedAccessCodes : option (list string))
  | DeleteOne (accessCode : string)
  | DeleteAll
  | Reconcile.

Definition run_op (env : Env) (op : Op) (w : World) : World :=
  match op with
  | Allocate stackCount selected => snd (deployStacks env stackCount selected w)
  | DeleteOne accessCode => snd (deleteStackByAccessCode env accessCode w)
  | DeleteAll => snd (deleteAllStacks env w)
  | Reconcile => snd (syncAllStacks env w)
  end.

(** A run: each operation meets the services in a state of their own. *)
Fixpoint run_ops (steps : list (Env * Op)) (w : World) : World :=
  match steps with
  | [] => w
  | (env, op) :: rest => run_ops rest (run_op env op w)
  end.

(** How an operation may change the record of a code: an allocation links
    or keeps an available code, a deletion keeps a linked code linked, a
    reconciliation writes one of its updates to a linked code. *)
Definition op_rel (env : Env) (op : Op) (r r' : StackRecord) : Prop :=
  guid r' = guid r ∧
  (r' = r ∨
   match op with
   | Allocate _ _ => isAvailable r = true ∧ record_ok r'
   | DeleteOne _ | DeleteAll => isActive r = true ∧ isActive r' = true
   | Reconcile =>
       isActive r = true ∧ ∃ u tu, r' = applyUpdates u tu r ∧ sync_write env r u
   end).

(** What the deployment loop over [codes] may do to a record. *)
Definition deploy_rel (codes : list string) (r r' : StackRecord) : Prop :=
  guid r' = guid r ∧ (guid r ∉ codes → r' = r) ∧ (r' = r ∨ record_ok r').

(** The numbers that the specification adds up. *)
Definition count_available (t : list StackRecord) : nat :=
  length (List.filter isAvailable t).

Definition count_linked (t : list StackRecord) : nat :=
  length (List.filter isActive t).

(** The rule that [findActualRuleName] resolves to. *)
Definition trigger_name (rs : list (string * RuleStatus)) : string :=
  match find (Js.includes SYNC_RULE_NAME_PATTERN) (map fst rs) with
  | Some name => name
  | None => SYNC_RULE_NAME_PATTERN
  end.

Definition is_DisableRule (c : Call) : bool :=
  match c with
  | DisableRule _ => true
  | _ => false
  end.

Definition is_eventbridge (c : Call) : bool :=
  match c with
  | ListRules | DescribeRule _ | EnableRule _ | DisableRule _ => true
  | _ => false
  end.

(** The specification's [*_PENDING] statuses are the [*_IN_PROGRESS]
    statuses of CloudFormation. *)
Definition has_suffix (suffix s : string) : bool :=
  (String.length suffix <=? String.length s)%nat &&
  String.eqb
    (String.substring (String.length s - String.length suffix)
       (String.length suffix) s)
    suffix.

Definition is_IN_PROGRESS (st : Status) : bool :=
  has_suffix "_IN_PROGRESS" (Status_name st).

Definition is_FAILED (st : Status) : bool :=
  has_suffix "_FAILED" (Status_name st).

(** Two worlds that differ at most in how often the clock was read. *)
Definition only_clock_differs (w w' : World) : Prop :=
  table w' = table w ∧ rules w' = rules w ∧ writes w' = writes w ∧
  calls w' = calls w.

(** ** Relations between the worlds before and after a step *)

(** Every run of [m] relates the world it starts in to the world it
    leaves. *)
Definition preserves (P : relation World) {A} (m : M A) : Prop :=
  ∀ w, P w (snd (m w)).

(** The calls to EventBridge touch the rules and the log of calls only. *)
Definition same_table (w w' : World) : Prop :=
  table w' = table w ∧ clock w' = clock w ∧ writes w' = writes w.

(** The step leaves the world as it was. *)
Definition unchanged (w w' : World) : Prop := w' = w.

(** The result that [syncAllStacks] starts its loop with. *)
Definition sync_start (t : list StackRecord) : SyncResult :=
  {| totalProcessed :=
       Z.of_nat (length (List.filter (λ r, negb (isAvailable r)) t));
     successfulSyncs := 0; failedSyncs := 0; errors := [] |}.

(** ** Sample data *)

Definition id_a : string := "aaaaaaaa-0000-4000-8000-000000000001".
Definition id_b : string := "bbbbbbbb-0000-4000-8000-000000000002".
Definition id_c : string := "cccccccc-0000-4000-8000-000000000003".

(** A record as [initializeAccessCodePool] writes it. *)
Definition fresh (g : string) : StackRecord :=
  {| guid := g; stackArn := None; stackName := None; stackId := None;
     status := AVAILABLE; createdAt := None; updatedAt := 0%N;
     outputs := None; lastSyncAt := None; syncError := None |}.

(** A record as [deployStacks] writes it. *)
Definition linked (g : string) (st : StackStatus) : StackRecord :=
  {| guid := g; stackArn := Some ("arn:aws:cloudformation:stack/" +:+ g);
     stackName := Some ("deployment-stack-" +:+ g);
     stackId := Some ("arn:aws:cloudformation:stack/" +:+ g);
     status := st; createdAt := Some 5%N; updatedAt := 6%N;
     outputs := None; lastSyncAt := None; syncError := None |}.

Definition sync_rule : string := "amplify-StackSyncScheduleRule-1A2B".

Definition world_of (t : list StackRecord) : World :=
  {| table := t; rules := [(sync_rule, ENABLED)]; clock := 0; writes := 0;
     calls := [] |}.

(** Every service answers; no stack is known to CloudFormation. *)
Definition quiet_env : Env :=
  {| config :=
       {| templateUrl := "https://example.com/template.yaml";
          stackNamePrefix := Some "deployment-stack";
          accessCodePoolSize := Some 60 |};
     url_protocol := λ _, Some "https:"%string;
     time_at := λ n, N.of_nat (1000 + n);
     write_error := λ _, None;
     create_stack := λ input, Answer (Some ("arn:" +:+ cs_StackName input));
     describe_stacks := λ _, Answer [];
     delete_stack := λ _, Answer ();
     eb_error := λ _, None |}.

(** A pool of ten codes, and services where the creation of a stack for
    the last five of them is refused. *)
Definition ten_ids : list string :=
  ["00000000-0000-4000-8000-000000000001"; "00000000-0000-4000-8000-000000000002";
   "00000000-0000-4000-8000-000000000003"; "00000000-0000-4000-8000-000000000004";
   "00000000-0000-4000-8000-000000000005"; "00000000-0000-4000-8000-000000000006";
   "00000000-0000-4000-8000-000000000007"; "00000000-0000-4000-8000-000000000008";
   "00000000-0000-4000-8000-000000000009"; "00000000-0000-4000-8000-00000000000a"].

Definition LimitExceededException : JsError :=
  {| err_name := "LimitExceededException"; err_code := None;
     err_message := "Limit for stack has been exceeded" |}.

Definition five_failures_env : Env :=
  {| config := config quiet_env; url_protocol := url_protocol quiet_env;
     time_at := time_at quiet_env; write_error := write_error quiet_env;
     create_stack :=
       λ input,
         if Js.arr_includes (drop 5 ten_ids) (cs_UniqueId input)
         then Fails LimitExceededException
         else Answer (Some ("arn:" +:+ cs_StackName input));
     describe_stacks := describe_stacks quiet_env;
     delete_stack := delete_stack quiet_env; eb_error := eb_error quiet_env |}.

(** CloudFormation no longer knows any stack. *)
Definition stack_does_not_exist : JsError :=
  {| err_name := "ValidationError"; err_code := None;
     err_message := "Stack with id deployment-stack does not exist" |}.

Definition gone_env : Env :=
  {| config := config quiet_env; url_protocol := url_protocol quiet_env;
     time_at := time_at quiet_env; write_error := write_error quiet_env;
     create_stack := create_stack quiet_env;
     describe_stacks := λ _, Fails stack_does_not_exist;
     delete_stack := delete_stack quiet_env; eb_error := eb_error quiet_env |}.

(** A pool of three codes as the initializer leaves it, and a run of the
    engine on it. *)
Definition sample_pool : World :=
  snd (initializeAccessCodePool quiet_env [id_a; id_b; id_c] (world_of [])).

Definition sample_run : list (Env * Op) :=
  [(quiet_env, Allocate 2 None); (quiet_env, Reconcile);
   (quiet_env, DeleteOne id_a); (quiet_env, Allocate 1 (Some [id_c]));
   (quiet_env, DeleteAll); (gone_env, Reconcile); (quiet_env, Allocate 1 None)].

(** A record agrees with the description [s] of its stack: a
    synchronisation finds nothing to change. *)
Definition in_step (r : StackRecord) (s : Stack) : Prop :=
  status r = Cfn (StackStatus_of s) ∧
  stackName r = StackName s ∧
  stackId r = StackId s ∧
  (createdAt r = None → CreationTime s = None) ∧
  (StackStatus_of s = CREATE_COMPLETE ∨ StackStatus_of s = UPDATE_COMPLETE →
   default [] (outputs r) = convertCloudFormationOutputs (Outputs s)).

(** A linked record that carries the error of an earlier synchronisation,
    and services where CloudFormation describes its stack just as the
    record has it. *)
Definition stale_record : StackRecord :=
  {| guid := id_a; stackArn := stackArn (linked id_a CREATE_COMPLETE);
     stackName := stackName (linked id_a CREATE_COMPLETE);
     stackId := stackId (linked id_a CREATE_COMPLETE);
     status := CREATE_COMPLETE; createdAt := Some 5%N; updatedAt := 6%N;
     outputs := None; lastSyncAt := Some 6%N;
     syncError := Some "Rate exceeded" |}.

Definition steady_env : Env :=
  {| config := config quiet_env; url_protocol := url_protocol quiet_env;
     time_at := time_at quiet_env; write_error := write_error quiet_env;
     create_stack := create_stack quiet_env;
     describe_stacks :=
       λ _, Answer [ {| StackName := stackName stale_record;
                        StackId := stackId stale_record;
                        StackStatus_of := CREATE_COMPLETE;
                        CreationTime := Some 5%N; Outputs := None |} ];
     delete_stack := delete_stack quiet_env; eb_error := eb_error quiet_env |}.

(** From [w] to [w'] the rules are as they were and no call that [P]
    selects was made. *)
Definition quiet (P : Call → bool) (w w' : World) : Prop :=
  rules w' = rules w ∧
  ∃ extra, calls w' = calls w ++ extra ∧ List.filter P extra = [].

(** The records that a reconciliation pass leaves to be reconciled. *)
Definition remaining (w : World) : nat :=
  length (List.filter (λ r, negb (isAvailable r)) (table w)).

(** ** Further code of the cited files *)

(** [deleteStackRecord] of access-code-utils.ts: [DeleteCommand] removes the
    item with the key, if there is one. *)
Definition deleteItem (key : string) (t : list StackRecord) : list StackRecord :=
  List.filter (λ r, negb (same_guid key r)) t.

Definition deleteStackRecord (env : Env) (accessCode : string) : M () :=
  send_write env (deleteItem accessCode).

(** The record that [initializeAccessCodePool] creates for a code. *)
Definition new_record (accessCode : string) (t : Timestamp) : StackRecord :=
  {| guid := accessCode; stackArn := None; stackName := None;
     stackId := None; status := AVAILABLE; createdAt := None;
     updatedAt := t; outputs := None; lastSyncAt := None;
     syncError := None |}.

(** The codes of the errors with which [deployStacks] refuses a request
    before it starts the first stack. *)
Definition refusal_codes : list string :=
  ["INVALID_STACK_COUNT_RANGE"; "STACK_COUNT_EXCEEDS_POOL";
   "TEMPLATE_URL_MISSING"; "TEMPLATE_URL_INVALID";
   "ACCESS_CODE_POOL_EMPTY"; "INSUFFICIENT_ACCESS_CODES"] ++
  InvalidSelection_codes.

(** The same for a request whose [stackCount] is of any kind. *)
Definition request_refusal_codes : list string :=
  ["MISSING_STACK_COUNT"; "INVALID_STACK_COUNT_TYPE"] ++ refusal_codes.

(** The largest [stackCount] that [validateStackCount] lets pass:
    [config?.accessCodePoolSize || 60]. *)
Definition maxPoolSize (env : Env) : Z :=
  match accessCodePoolSize (config env) with
  | Some n => if n =? 0 then 60 else n
  | None => 60
  end.

(** The code for which a call creates a stack, and the codes of the
    [CreateStack] calls of a log. *)
Definition create_code (c : Call) : option string :=
  match c with
  | CreateStack input => Some (cs_UniqueId input)
  | _ => None
  end.

Definition created_codes (log : list Call) : list string := omap create_code log.

(** From [w] to [w'] only calls that [P] selects were made. *)
Definition only_calls (P : Call → bool) (w w' : World) : Prop :=
  ∃ extra, calls w' = calls w ++ extra ∧ Forall (λ c, P c = true) extra.

Definition is_CreateStack (c : Call) : bool :=
  match c with
  | CreateStack _ => true
  | _ => false
  end.

Definition is_DeleteStack (c : Call) : bool :=
  match c with
  | DeleteStack _ => true
  | _ => false
  end.

Definition is_DescribeStacks (c : Call) : bool :=
  match c with
  | DescribeStacks _ => true
  | _ => false
  end.

(** [EnableRule] and [DisableRule]: the calls that change a rule. *)
Definition is_set_rule (c : Call) : bool :=
  match c with
  | EnableRule _ | DisableRule _ => true
  | _ => false
  end.

(** The table holds the record of the stack behind the outcome [d] of a
    deployment. *)
Definition recorded (t : list StackRecord) (d : DeployedStack) : Prop :=
  ∃ r, r ∈ t ∧ guid r = ds_uniqueId d ∧ status r = Cfn CREATE_IN_PROGRESS ∧
       stackArn r = Some (ds_stackId d) ∧ stackName r = Some (ds_stackName d).

Definition started (d : DeployedStack) : bool :=
  bool_decide (ds_status d = CREATE_IN_PROGRESS).

(** A pool of ten codes with the trigger switched off. *)
Definition idle_world : World :=
  {| table := map fresh ten_ids; rules := [(sync_rule, DISABLED)]; clock := 0;
     writes := 0; calls := [] |}.

(** What [deleteAllStacks] reports for a linked record: the closure does
    not send [DeleteStack] for a stack that is being deleted or that is in
    another operation, and reports how CloudFormation answered otherwise. *)
Definition deletable (st : Status) : bool :=
  negb (status_eqb st DELETE_IN_PROGRESS) &&
  negb (bool_decide (st ∈ inProgressStates)).

Definition bulk_status_of (env : Env) (st : Status) (name : option string) : string :=
  if status_eqb st DELETE_IN_PROGRESS then "ALREADY_DELETING"
  else if bool_decide (st ∈ inProgressStates) then "OPERATION_IN_PROGRESS"
  else
    match delete_stack env name with
    | Answer _ => "DELETE_INITIATED"
    | Fails _ => "DELETE_FAILED"
    end.

Definition bulk_status (env : Env) (r : StackRecord) : string :=
  bulk_status_of env (status r) (stackName r).

(** The entry of [errors] that a pass makes for a record when every write
    is accepted: none unless the record is linked and the description of
    its stack fails with something else than "does not exist". *)
Definition sync_failure (env : Env) (r : StackRecord) : option (string * string) :=
  if isActive r then
    match described env (default "" (stackArn r)) with
    | inl e => Some (guid r, Js.or_default (Some (error_text e)) "Unknown error")
    | inr _ => None
    end
  else None.

(** The request that a pass sends for a record. *)
Definition describe_call (r : StackRecord) : Call :=
  DescribeStacks (default "" (stackArn r)).

(** CloudFormation throttles every description. *)
Definition rate_exceeded : JsError :=
  {| err_name := "Throttling"; err_code := None; err_message := "Rate exceeded" |}.

Definition throttled_env : Env :=
  {| config := config quiet_env; url_protocol := url_protocol quiet_env;
     time_at := time_at quiet_env; write_error := write_error quiet_env;
     create_stack := create_stack quiet_env;
     describe_stacks := λ _, Fails rate_exceeded;
     delete_stack := delete_stack quiet_env; eb_error := eb_error quiet_env |}.

(** ** The stack output retriever *)

(** [interface StackOutputResponse] *)
Record StackOutputResponse := {
  so_outputs : list StackOutput;
  so_lastUpdated : Timestamp;
}.

(** What the retriever's [findStackByAccessCode] returns; [stackName!] and
    [stackId!] do not check anything, so both stay optional. *)
Record CachedStack := {
  rt_stackName : option string;
  rt_stackId : option string;
  rt_uniqueId : string;
  rt_status : Status;
  rt_outputs : option (list StackOutput);
  rt_lastUpdated : Timestamp;
}.

Definition retriever_handleCloudFormationError (error : JsError) (operation : string) :
    LambdaError :=
  let d := OriginalErrorDetails (Some (err_name error)) operation in
  let name := err_name error in
  if String.eqb name "StackNotFoundException" || String.eqb name "ValidationException" then
    {| statusCode := 404; code := "STACK_NOT_FOUND"; details := d |}
  else if String.eqb name "ThrottlingException" || String.eqb name "Throttling" then
    {| statusCode := 429; code := "CLOUDFORMATION_THROTTLED"; details := d |}
  else if String.eqb name "AccessDenied" || String.eqb name "UnauthorizedOperation" then
    {| statusCode := 403; code := "CLOUDFORMATION_ACCESS_DENIED"; details := d |}
  else if String.eqb name "ServiceUnavailableException" then
    {| statusCode := 503; code := "CLOUDFORMATION_UNAVAILABLE"; details := d |}
  else if Js.arr_includes ["ENOTFOUND"; "ECONNREFUSED"; "ETIMEDOUT"]
            (default "" (err_code error)) then
    {| statusCode := 503; code := "CLOUDFORMATION_CONNECTION_ERROR";
       details := OriginalErrorDetails (err_code error) operation |}
  else
    {| statusCode := 500; code := "CLOUDFORMATION_ERROR";
       details :=
         OriginalErrorDetails
           (if Js.truthy (Some name) then Some name else err_code error)
           operation |}.

Definition retriever_handleDynamoDBError (error : JsError) (operation : string) :
    LambdaError :=
  let d := OriginalErrorDetails (Some (err_name error)) operation in
  let name := err_name error in
  if String.eqb name "ThrottlingException" ||
     String.eqb name "ProvisionedThroughputExceededException" then
    {| statusCode := 429; code := "DYNAMODB_THROTTLED"; details := d |}
  else if String.eqb name "AccessDeniedException" ||
          String.eqb name "UnauthorizedOperation" then
    {| statusCode := 403; code := "DYNAMODB_ACCESS_DENIED"; details := d |}
  else if String.eqb name "ValidationException" then
    {| statusCode := 400; code := "DYNAMODB_VALIDATION_ERROR"; details := d |}
  else if String.eqb name "ResourceNotFoundException" then
    {| statusCode := 404; code := "DYNAMODB_TABLE_NOT_FOUND"; details := d |}
  else if String.eqb name "ServiceUnavailableException" then
    {| statusCode := 503; code := "DYNAMODB_UNAVAILABLE"; details := d |}
  else if Js.arr_includes ["ENOTFOUND"; "ECONNREFUSED"; "ETIMEDOUT"]
            (default "" (err_code error)) then
    {| statusCode := 503; code := "DYNAMODB_CONNECTION_ERROR";
       details := OriginalErrorDetails (err_code error) operation |}
  else
    {| statusCode := 500; code := "DYNAMODB_ERROR";
       details :=
         OriginalErrorDetails
           (if Js.truthy (Some name) then Some name else err_code error)
           operation |}.

Definition retriever_validateAccessCodeFormat (accessCode : string) : M () :=
  if negb (Js.truthy (Some accessCode)) then
    new_LambdaError 400 "MISSING_ACCESS_CODE" NoDetails
  else if negb (Js.uuidRegex_test accessCode) then
    new_LambdaError 400 "INVALID_ACCESS_CODE_FORMAT" (ProvidedDetails accessCode)
  else mret ().

(** The record is read, then the code is validated, which reads the record
    again; [lastUpdated] is [lastSyncAt || updatedAt]. *)
Definition retriever_findStackByAccessCode (accessCode : string) :
    M (option CachedStack) :=
  rethrow_with retriever_handleDynamoDBError "stack search"
    (stackRecord ← getStackRecord accessCode;
     isValid ← validateAccessCode accessCode;
     match stackRecord with
     | Some record =>
         if isValid && negb (isAvailable record) && Js.truthy (stackArn record)
         then
           mret (Some {| rt_stackName := stackName record;
                         rt_stackId := stackId record;
                         rt_uniqueId := guid record;
                         rt_status := status record;
                         rt_outputs := outputs record;
                         rt_lastUpdated :=
                           default (updatedAt record) (lastSyncAt record) |})
         else mret None
     | None => mret None
     end).

Definition validOutputStates : list Status :=
  [Cfn CREATE_COMPLETE; Cfn UPDATE_COMPLETE].

Definition errorStates : list Status :=
  [Cfn CREATE_FAILED; Cfn ROLLBACK_COMPLETE; Cfn ROLLBACK_FAILED;
   Cfn UPDATE_FAILED; Cfn UPDATE_ROLLBACK_COMPLETE; Cfn UPDATE_ROLLBACK_FAILED;
   Cfn DELETE_FAILED].

(** The loop of the fallback over [stackData.Outputs]. *)
Definition fallback_outputs (cfOutputs : option (list CfnOutput)) : list StackOutput :=
  match cfOutputs with
  | None => []
  | Some l =>
      foldl
        (λ outputs output,
           if Js.truthy (OutputKey output) && Js.truthy (OutputValue output) then
             outputs ++
               [{| outputKey := default "" (OutputKey output);
                   outputValue := default "" (OutputValue output);
                   description := Description output |}]
           else outputs)
        [] l
  end.

(** [stack.outputs && stack.outputs.length > 0] *)
Definition has_outputs (o : option (list StackOutput)) : bool :=
  match o with
  | Some (_ :: _) => true
  | _ => false
  end.

(** The fallback asks CloudFormation by the name of the stack.  A request
    with an undefined [StackName] is sent under the empty name, which no
    stack has; whatever CloudFormation answers to it, the inner [catch]
    turns a failure into empty outputs. *)
Definition outputs_fallback (env : Env) (stack : CachedStack) : M StackOutputResponse :=
  try_catch
    (stacks ← send_DescribeStacks env (default "" (rt_stackName stack));
     match head stacks with
     | None =>
         new_LambdaError 404 "STACK_DETAILS_NOT_FOUND"
           (StackNameDetailsOnly (rt_stackName stack))
     | Some stackData =>
         t ← now env;
         mret {| so_outputs := fallback_outputs (Outputs stackData);
                 so_lastUpdated := t |}
     end)
    (λ _, mret {| so_outputs := []; so_lastUpdated := rt_lastUpdated stack |}).

Definition getStackOutputs (env : Env) (accessCode : string) : M StackOutputResponse :=
  rethrow_with retriever_handleCloudFormationError "stack output retrieval"
    (retriever_validateAccessCodeFormat accessCode;;
     found ← retriever_findStackByAccessCode accessCode;
     match found with
     | None => new_LambdaError 404 "STACK_NOT_FOUND" NoDetails
     | Some stack =>
         if negb (bool_decide (rt_status stack ∈ validOutputStates)) then
           if bool_decide (rt_status stack ∈ errorStates) then
             new_LambdaError 400 "STACK_ERROR_STATE"
               (StackStatusDetails (rt_status stack) (rt_stackName stack))
           else
             mret {| so_outputs := []; so_lastUpdated := rt_lastUpdated stack |}
         else if has_outputs (rt_outputs stack) then
           mret {| so_outputs := default [] (rt_outputs stack);
                   so_lastUpdated := rt_lastUpdated stack |}
         else outputs_fallback env stack
     end).

(** What the retriever finds for a linked record. *)
Definition cached_stack (record : StackRecord) : CachedStack :=
  {| rt_stackName := stackName record; rt_stackId := stackId record;
     rt_uniqueId := guid record; rt_status := status record;
     rt_outputs := outputs record;
     rt_lastUpdated := default (updatedAt record) (lastSyncAt record) |}.

(** The codes of the errors that leave [getStackOutputs]. *)
Definition retriever_codes : list string :=
  ["MISSING_ACCESS_CODE"; "INVALID_ACCESS_CODE_FORMAT"; "STACK_NOT_FOUND";
   "STACK_ERROR_STATE"].

(** CloudFormation describes every stack as complete, with one output that
    has a value and one that has none. *)
Definition complete_stack : Stack :=
  {| StackName := stackName (linked id_a CREATE_COMPLETE);
     StackId := stackId (linked id_a CREATE_COMPLETE);
     StackStatus_of := CREATE_COMPLETE;
     CreationTime := Some 5%N;
     Outputs :=
       Some [ {| OutputKey := Some "WebsiteURL";
                 OutputValue := Some "https://example.com";
                 Description := Some "The site" |};
              {| OutputKey := Some "Empty"; OutputValue := None;
                 Description := None |} ] |}.

Definition complete_env : Env :=
  {| config := config quiet_env; url_protocol := url_protocol quiet_env;
     time_at := time_at quiet_env; write_error := write_error quiet_env;
     create_stack := create_stack quiet_env;
     describe_stacks := λ _, Answer [complete_stack];
     delete_stack := delete_stack quiet_env; eb_error := eb_error quiet_env |}.

(** CloudFormation accepts the [DeleteStack] for the stack of the record. *)
Definition delete_accepted (env : Env) (r : StackRecord) : bool :=
  match delete_stack env (stackName r) with
  | Answer _ => true
  | Fails _ => false
  end.

(** The records that [deleteAllStacks] marks as DELETE_IN_PROGRESS when
    the table accepts the writes. *)
Definition marked_by_deleteAll (env : Env) (r : StackRecord) : bool :=
  isActive r && deletable (status r) && delete_accepted env r.

(** The table [t0] and the table after the closures of the codes [seen]
    have run. *)
Definition deleteAll_rel (env : Env) (t0 : list StackRecord) (seen : list string)
    (r r' : StackRecord) : Prop :=
  r ∈ t0 ∧
  if bool_decide (guid r ∈ seen) && marked_by_deleteAll env r
  then ∃ tu, r' = applyUpdates set_DELETE_IN_PROGRESS tu r
  else r' = r.


(** The outcome [d] answers the request [input]: it is for the code and the
    stack name of the request, and it says CREATE_IN_PROGRESS with the id of
    the stack when CloudFormation accepted the request, CREATE_FAILED when
    it did not. *)
Definition reported (env : Env) (input : CreateStackInput) (d : DeployedStack) : Prop :=
  ds_uniqueId d = cs_UniqueId input ∧ ds_stackName d = cs_StackName input ∧
  match created_id (create_stack env input) with
  | Some id => ds_status d = CREATE_IN_PROGRESS ∧ ds_stackId d = id
  | None => ds_status d = CREATE_FAILED
  end.

(** A table that refuses every write. *)
Definition refused_writes : nat → option JsError :=
  λ _, Some {| err_name := "ProvisionedThroughputExceededException";
               err_code := None; err_message := "throttled" |}.

(* ---------------------------------------------------------------- *)

(** * Properties *)

(** ** The embedding on concrete inputs *)

Example uuidRegex_test_id_a : Js.uuidRegex_test id_a = true.
Proof. reflexivity. Qed.

Example uuidRegex_test_no_dashes :
  Js.uuidRegex_test "aaaaaaaa000040008000000000000001" = false.
Proof. reflexivity. Qed.

Example slice0_negative : Js.slice0 (-1) [id_a; id_b; id_c] = [id_a; id_b].
Proof. reflexivity. Qed.

Example sample_pool_table :
  map (λ r, (guid r, Status_name (status r))) (table sample_pool) =
  [(id_a, "AVAILABLE"); (id_b, "AVAILABLE"); (id_c, "AVAILABLE")].
Proof. reflexivity. Qed.

Example sample_run_table :
  map (λ r, (guid r, Status_name (status r), Js.truthy (stackArn r)))
    (table (run_ops sample_run sample_pool)) =
  [(id_a, "CREATE_IN_PROGRESS", true); (id_b, "AVAILABLE", false);
   (id_c, "AVAILABLE", false)].
Proof. by vm_compute. Qed.

Example sample_run_trigger :
  rules (run_ops (take 6 sample_run) sample_pool) = [(sync_rule, DISABLED)] ∧
  rules (run_ops sample_run sample_pool) = [(sync_rule, ENABLED)].
Proof. by vm_compute. Qed.

(** ** Running the monad *)

Lemma run_ret {A} (a : A) (w : World) : mret (M := M) a w = (Ok a, w).
Proof. reflexivity. Qed.

Lemma run_bind {A B} (m : M A) (f : A → M B) (w : World) :
  (m ≫= f) w =
  match m w with
  | (Ok a, w') => f a w'
  | (Throw e, w') => (Throw e, w')
  end.
Proof. reflexivity. Qed.

Lemma run_try_catch {A} (m : M A) (h : Exn → M A) (w : World) :
  try_catch m h w =
  match m w with
  | (Ok a, w') => (Ok a, w')
  | (Throw e, w') => h e w'
  end.
Proof. reflexivity. Qed.

Ltac munfold :=
  unfold mbind, M_bind, mret, M_ret, throw, try_catch, advisory, get_world,
    modify_world, new_LambdaError in *.

(** ** Reading the table *)

Lemma run_getAllStackRecords w : getAllStackRecords w = (Ok (table w), w).
Proof. reflexivity. Qed.

Lemma run_getAccessCodePool w : getAccessCodePool w = (Ok (map guid (table w)), w).
Proof. reflexivity. Qed.

Lemma run_getAvailableAccessCodes w :
  getAvailableAccessCodes w = (Ok (available_ids (table w)), w).
Proof. reflexivity. Qed.

Lemma run_getNonAvailableStackRecords w :
  getNonAvailableStackRecords w =
  (Ok (List.filter (λ r, negb (isAvailable r)) (table w)), w).
Proof. reflexivity. Qed.

Lemma run_getStackRecord accessCode w :
  getStackRecord accessCode w = (Ok (find (same_guid accessCode) (table w)), w).
Proof. reflexivity. Qed.

Lemma run_rethrow_with_ok {A} handle op (m : M A) w a w' :
  m w = (Ok a, w') → rethrow_with handle op m w = (Ok a, w').
Proof. intros H. unfold rethrow_with. by rewrite run_try_catch, H. Qed.

Lemma run_rethrow_with_lambda {A} handle op (m : M A) w e w' :
  m w = (Throw (ELambda e), w') →
  rethrow_with handle op m w = (Throw (ELambda e), w').
Proof. intros H. unfold rethrow_with. by rewrite run_try_catch, H. Qed.

Lemma run_getAvailableAccessCodesFromDB w :
  table w ≠ [] →
  getAvailableAccessCodesFromDB w = (Ok (available_ids (table w)), w).
Proof.
  intros Hne. unfold getAvailableAccessCodesFromDB. apply run_rethrow_with_ok.
  rewrite run_bind, run_getAccessCodePool, length_map.
  destruct (table w) eqn:Ht; [done|]. cbn [length Nat.eqb].
  by rewrite run_getAvailableAccessCodes, Ht.
Qed.

Lemma assignAccessCodes_auto count sel w :
  sel = None ∨ sel = Some [] →
  table w ≠ [] →
  assignAccessCodes count sel w =
  (if Z.of_nat (length (available_ids (table w))) <? count then
     Throw (ELambda {| statusCode := 409; code := "INSUFFICIENT_ACCESS_CODES";
                       details :=
                         InsufficientDetails count
                           (Z.of_nat (length (available_ids (table w))))
                           (Z.of_nat (length (table w))) |})
   else Ok (Js.slice0 count (available_ids (table w))), w).
Proof.
  intros Hsel Hne. unfold assignAccessCodes, rethrow_with.
  rewrite run_try_catch, run_bind, run_getAvailableAccessCodesFromDB by done.
  rewrite run_bind, run_getAccessCodePool, length_map.
  destruct Hsel as [-> | ->]; by destruct (_ <? count).
Qed.

(** ** Array helpers *)

Lemma arr_includes_elem_of l x : Js.arr_includes l x = true ↔ x ∈ l.
Proof.
  unfold Js.arr_includes. rewrite existsb_exists. split.
  - intros (y & Hin & Heq). apply String.eqb_eq in Heq as ->.
    by apply list_elem_of_In.
  - intros Hin. exists x. split; [by apply list_elem_of_In|apply String.eqb_refl].
Qed.

Lemma filter_not_includes_nil l sel :
  List.filter (λ c, negb (Js.arr_includes l c)) sel = [] ↔ ∀ c, c ∈ sel → c ∈ l.
Proof.
  induction sel as [|x sel IH]; cbn.
  - split; [intros _ c Hc; by apply elem_of_nil in Hc|done].
  - destruct (Js.arr_includes l x) eqn:Hx; cbn.
    + rewrite IH. apply arr_includes_elem_of in Hx. split.
      * intros H c [->|Hc]%elem_of_cons; auto.
      * intros H c Hc. apply H. by right.
    + split; [done|]. intros H. exfalso.
      assert (Js.arr_includes l x = true) as Hy
        by (apply arr_includes_elem_of, H; by left).
      congruence.
Qed.

Lemma indexOf_elem_of l x :
  x ∈ l → ∃ i : nat, Js.indexOf l x = Z.of_nat i ∧ l !! i = Some x.
Proof.
  induction l as [|y l IH]; [by intros ?%elem_of_nil|].
  intros Hin. cbn. destruct (String.eqb y x) eqn:Hy.
  - apply String.eqb_eq in Hy as ->. by exists 0%nat.
  - apply String.eqb_neq in Hy.
    apply elem_of_cons in Hin as [->|Hin]; [done|].
    destruct (IH Hin) as (i & Hi & Hl). rewrite Hi.
    destruct (Z.of_nat i <? 0) eqn:Hneg; [lia|].
    exists (S i). split; [lia|done].
Qed.

Lemma filteri_from_nil {A} (p : A → Z → bool) k (l : list A) :
  Js.filteri_from p k l = [] ↔
  ∀ (j : nat) x, l !! j = Some x → p x (k + Z.of_nat j) = false.
Proof.
  revert k. induction l as [|y l IH]; intros k; cbn.
  - split; [intros _ j x Hj; by rewrite lookup_nil in Hj|done].
  - destruct (p y k) eqn:Hy.
    + split; [done|]. intros H. specialize (H 0%nat y eq_refl).
      rewrite Z.add_0_r in H. congruence.
    + rewrite IH. split.
      * intros H [|j] x Hj; cbn in Hj.
        -- injection Hj as <-. by rewrite Z.add_0_r.
        -- specialize (H j x Hj). by replace (k + Z.of_nat (S j)) with (k + 1 + Z.of_nat j) by lia.
      * intros H j x Hj. specialize (H (S j) x Hj).
        by replace (k + Z.of_nat (S j)) with (k + 1 + Z.of_nat j) in H by lia.
Qed.

Lemma duplicates_nil (sel : list string) :
  Js.filteri (λ c index, negb (Js.indexOf sel c =? index)) sel = [] ↔ NoDup sel.
Proof.
  unfold Js.filteri. rewrite filteri_from_nil, NoDup_alt. split.
  - intros H i j x Hi Hj.
    pose proof (H i x Hi) as Hi'. pose proof (H j x Hj) as Hj'.
    apply negb_false_iff, Z.eqb_eq in Hi', Hj'. lia.
  - intros H j x Hj. apply negb_false_iff, Z.eqb_eq.
    destruct (indexOf_elem_of sel x) as (i & Hi & Hl).
    { apply list_elem_of_lookup. eauto. }
    rewrite Hi. rewrite (H i j x Hl Hj). lia.
Qed.

Lemma nonempty_length_pos {A} (l : list A) : (0 <? length l)%nat = false ↔ l = [].
Proof. destruct l; cbn; split; done. Qed.

(** ** Explicit selections *)

Lemma assignAccessCodes_explicit_cases count c cs w :
  table w ≠ [] →
  (valid_selection count (c :: cs) (table w) ∧
   assignAccessCodes count (Some (c :: cs)) w = (Ok (c :: cs), w)) ∨
  (¬ valid_selection count (c :: cs) (table w) ∧
   ∃ e, assignAccessCodes count (Some (c :: cs)) w = (Throw (ELambda e), w) ∧
        code e ∈ InvalidSelection_codes).
Proof.
  intros Hne. unfold assignAccessCodes, rethrow_with.
  rewrite run_try_catch, run_bind, run_getAvailableAccessCodesFromDB by done.
  rewrite run_bind, run_getAccessCodePool.
  set (sel := c :: cs).
  destruct (Z.of_nat (length sel) =? count) eqn:Hlen; cbn [negb].
  2:{ apply Z.eqb_neq in Hlen. right. split.
      - intros (? & _); done.
      - eexists. split; [reflexivity|]. cbn. set_solver. }
  apply Z.eqb_eq in Hlen.
  destruct (0 <? length (List.filter (λ a, negb (Js.arr_includes (map guid (table w)) a)) sel))%nat
    eqn:Hinv.
  { right. split.
    - intros (_ & Hpool & _). apply filter_not_includes_nil in Hpool.
      rewrite Hpool in Hinv. done.
    - eexists. split; [reflexivity|]. cbn. set_solver. }
  apply nonempty_length_pos in Hinv. rewrite filter_not_includes_nil in Hinv.
  destruct (0 <? length (List.filter (λ a, negb (Js.arr_includes (available_ids (table w)) a)) sel))%nat
    eqn:Hav.
  { right. split.
    - intros (_ & _ & Havail & _). apply filter_not_includes_nil in Havail.
      rewrite Havail in Hav. done.
    - eexists. split; [reflexivity|]. cbn. set_solver. }
  apply nonempty_length_pos in Hav. rewrite filter_not_includes_nil in Hav.
  destruct (0 <? length (Js.filteri (λ a index, negb (Js.indexOf sel a =? index)%Z) sel))%nat
    eqn:Hdup.
  { right. split.
    - intros (_ & _ & _ & Hnd). apply duplicates_nil in Hnd.
      rewrite Hnd in Hdup. done.
    - eexists. split; [reflexivity|]. cbn. set_solver. }
  apply nonempty_length_pos in Hdup. rewrite duplicates_nil in Hdup.
  by left.
Qed.

Lemma assignAccessCodes_explicit count c cs w :
  table w ≠ [] →
  (valid_selection count (c :: cs) (table w) →
   assignAccessCodes count (Some (c :: cs)) w = (Ok (c :: cs), w)) ∧
  (¬ valid_selection count (c :: cs) (table w) →
   ∃ e, assignAccessCodes count (Some (c :: cs)) w = (Throw (ELambda e), w) ∧
        code e ∈ InvalidSelection_codes).
Proof.
  intros Hne.
  destruct (assignAccessCodes_explicit_cases count c cs w Hne)
    as [(Hv & Hrun)|(Hv & Hrun)]; split; done.
Qed.

Lemma assignAccessCodes_empty_table count selected w :
  table w = [] →
  assignAccessCodes count selected w =
  (Throw (ELambda {| statusCode := 500; code := "ACCESS_CODE_POOL_EMPTY";
                     details := PoolSizeDetails 0 |}), w).
Proof.
  intros Ht. unfold assignAccessCodes, getAvailableAccessCodesFromDB, rethrow_with.
  by rewrite run_try_catch, run_bind, run_try_catch, run_bind, run_getAccessCodePool, Ht.
Qed.

(** The deployment loop runs over [stackCount] assigned codes. *)
Lemma assignAccessCodes_length count selected w codes w' :
  0 ≤ count →
  assignAccessCodes count selected w = (Ok codes, w') →
  Z.of_nat (length codes) = count.
Proof.
  intros Hcount Hrun.
  destruct (table w) as [|r0 t0] eqn:Htable.
  { by rewrite assignAccessCodes_empty_table in Hrun. }
  assert (table w ≠ []) as Hne by by rewrite Htable.
  assert (selected = None ∨ selected = Some [] ∨
          ∃ c cs, selected = Some (c :: cs)) as [->|[->|(c & cs & ->)]].
  { destruct selected as [[|c cs]|]; eauto. }
  1,2: rewrite assignAccessCodes_auto in Hrun by auto;
       destruct (_ <? count) eqn:Hlt; [done|]; injection Hrun as <- _;
       apply Z.ltb_ge in Hlt; unfold Js.slice0;
       destruct (count <? 0) eqn:Hneg; [lia|]; rewrite length_take; lia.
  destruct (assignAccessCodes_explicit_cases count c cs w Hne)
    as [((Hlen & _) & Hrun')|(_ & e & Hrun' & _)]; congruence.
Qed.

(** The codes that are assigned are available codes of the table, and the
    table is only read. *)
Lemma assignAccessCodes_available count selected w assigned w' :
  assignAccessCodes count selected w = (Ok assigned, w') →
  w' = w ∧ ∀ c, c ∈ assigned → c ∈ available_ids (table w).
Proof.
  intros Hrun. destruct (table w) as [|r0 t0] eqn:Ht.
  { by rewrite assignAccessCodes_empty_table in Hrun. }
  assert (table w ≠ []) as Hne by by rewrite Ht.
  rewrite <- Ht in *. clear Ht.
  destruct selected as [[|c cs]|].
  - rewrite assignAccessCodes_auto in Hrun by auto.
    destruct (_ <? count); [done|]. injection Hrun as <- <-. split; [done|].
    intros c Hc. unfold Js.slice0 in Hc.
    destruct (count <? 0); eapply elem_of_sublist; [done|apply sublist_take|done|apply sublist_take].
  - destruct (assignAccessCodes_explicit_cases count c cs w Hne)
      as [((_ & _ & Hav & _) & Hok)|(_ & e & Hthrow & _)]; [|congruence].
    rewrite Hok in Hrun. by injection Hrun as <- <-.
  - rewrite assignAccessCodes_auto in Hrun by auto.
    destruct (_ <? count); [done|]. injection Hrun as <- <-. split; [done|].
    intros c Hc. unfold Js.slice0 in Hc.
    destruct (count <? 0); eapply elem_of_sublist; [done|apply sublist_take|done|apply sublist_take].
Qed.

(** ** C8: validation of an allocation request *)

(** C8, as amended.  On a table that holds at least one code: a call with a
    non-empty explicit list returns that list when it has [count] entries,
    all of them codes of the pool, all of them available, none repeated, and
    fails with one of the InvalidSelection codes otherwise; a call with no
    explicit list, or an empty one, fails with INSUFFICIENT_ACCESS_CODES,
    carrying the requested, available and total counts, when fewer than
    [count] codes are available, and otherwise returns [slice(0, count)] of
    the available codes. *)
Theorem allocate_request_validation count selected w :
  table w ≠ [] →
  match selected with
  | Some (c :: cs) =>
      (valid_selection count (c :: cs) (table w) →
       assignAccessCodes count selected w = (Ok (c :: cs), w)) ∧
      (¬ valid_selection count (c :: cs) (table w) →
       ∃ e, assignAccessCodes count selected w = (Throw (ELambda e), w) ∧
            code e ∈ InvalidSelection_codes)
  | Some [] | None =>
      (Z.of_nat (length (available_ids (table w))) < count →
       assignAccessCodes count selected w =
       (Throw (ELambda
          {| statusCode := 409; code := "INSUFFICIENT_ACCESS_CODES";
             details :=
               InsufficientDetails count
                 (Z.of_nat (length (available_ids (table w))))
                 (Z.of_nat (length (table w))) |}), w)) ∧
      (count ≤ Z.of_nat (length (available_ids (table w))) →
       assignAccessCodes count selected w =
       (Ok (Js.slice0 count (available_ids (table w))), w))
  end.
Proof.
  intros Hne.
  assert (∀ sel, sel = None ∨ sel = Some [] →
    (Z.of_nat (length (available_ids (table w))) < count →
     assignAccessCodes count sel w =
     (Throw (ELambda
        {| statusCode := 409; code := "INSUFFICIENT_ACCESS_CODES";
           details :=
             InsufficientDetails count
               (Z.of_nat (length (available_ids (table w))))
               (Z.of_nat (length (table w))) |}), w)) ∧
    (count ≤ Z.of_nat (length (available_ids (table w))) →
     assignAccessCodes count sel w =
     (Ok (Js.slice0 count (available_ids (table w))), w))) as Hauto.
  { intros sel Hsel. rewrite assignAccessCodes_auto by done.
    split; intros Hc.
    - apply Z.ltb_lt in Hc. by rewrite Hc.
    - apply Z.ltb_ge in Hc. by rewrite Hc. }
  destruct selected as [[|c cs]|].
  - apply Hauto. by right.
  - by apply assignAccessCodes_explicit.
  - apply Hauto. by left.
Qed.

Lemma allocate_request_validation_witness :
  table (world_of [fresh id_a; linked id_b CREATE_COMPLETE]) ≠ [] ∧
  ∃ e,
    assignAccessCodes 1 (Some [id_b])
      (world_of [fresh id_a; linked id_b CREATE_COMPLETE]) =
    (Throw (ELambda e), world_of [fresh id_a; linked id_b CREATE_COMPLETE]) ∧
    code e ∈ InvalidSelection_codes.
Proof.
  split; [done|].
  apply (allocate_request_validation 1 (Some [id_b])
           (world_of [fresh id_a; linked id_b CREATE_COMPLETE])); [done|].
  intros (_ & _ & Hav & _). specialize (Hav id_b ltac:(by left)).
  apply list_elem_of_singleton in Hav. discriminate Hav.
Defined.

(** C8 as stated fails: an explicit list that is given but empty does not
    have [count] entries, and the call is served from the available codes;
    and on an empty table the error is ACCESS_CODE_POOL_EMPTY, which carries
    no requested or available count. *)
Lemma allocate_empty_selection_not_refused :
  assignAccessCodes 1 (Some []) (world_of [fresh id_a]) =
    (Ok [id_a], world_of [fresh id_a]) ∧
  assignAccessCodes 1 None (world_of []) =
    (Throw (ELambda {| statusCode := 500; code := "ACCESS_CODE_POOL_EMPTY";
                       details := PoolSizeDetails 0 |}), world_of []).
Proof. split; reflexivity. Qed.

(** ** C3: which codes an allocation without explicit ids takes *)

Lemma assignAccessCodes_first count w :
  0 < count ≤ Z.of_nat (length (available_ids (table w))) →
  assignAccessCodes count None w =
  (Ok (take (Z.to_nat count) (available_ids (table w))), w).
Proof.
  intros [Hpos Hle].
  assert (table w ≠ []) as Hne.
  { intros Ht. rewrite Ht in Hle. cbn in Hle. lia. }
  rewrite assignAccessCodes_auto by auto.
  apply Z.ltb_ge in Hle. rewrite Hle. unfold Js.slice0.
  destruct (count <? 0) eqn:Hneg; [lia|done].
Qed.

(** C3, as amended.  When at least [count] codes are available, a call
    without explicit ids returns the first [count] available ids in the
    order in which the scan of the table returns the records. *)
Theorem auto_assignment_scan_order count w :
  0 < count ≤ Z.of_nat (length (available_ids (table w))) →
  assignAccessCodes count None w =
  (Ok (take (Z.to_nat count) (available_ids (table w))), w).
Proof. apply assignAccessCodes_first. Qed.

Lemma auto_assignment_scan_order_witness :
  0 < 1 ≤ Z.of_nat (length (available_ids (table (world_of [fresh id_b; fresh id_a])))) ∧
  assignAccessCodes 1 None (world_of [fresh id_b; fresh id_a]) =
  (Ok [id_b], world_of [fresh id_b; fresh id_a]).
Proof.
  split; [vm_compute; split; congruence|].
  apply (auto_assignment_scan_order 1 (world_of [fresh id_b; fresh id_a])).
  vm_compute; split; congruence.
Defined.

(** C3 as stated fails: with [id_b] scanned before [id_a], one code is asked
    for and [id_b] is taken, not the least id; and two tables with the same
    set of available ids yield different selections. *)
Lemma auto_assignment_not_ascending :
  assignAccessCodes 1 None (world_of [fresh id_b; fresh id_a]) =
    (Ok [id_b], world_of [fresh id_b; fresh id_a]) ∧
  spec_auto_assignment 1 [fresh id_b; fresh id_a] = [id_a] ∧
  assignAccessCodes 1 None (world_of [fresh id_a; fresh id_b]) =
    (Ok [id_a], world_of [fresh id_a; fresh id_b]).
Proof. repeat split; reflexivity. Qed.

(** ** The stack deleter: finding the stack of a code *)

Lemma uuid_not_empty accessCode :
  Js.uuidRegex_test accessCode = true → String.eqb accessCode "" = false.
Proof. by destruct accessCode. Qed.

Lemma run_toFoundStack env record w :
  toFoundStack env record w =
  (Ok {| fs_stackName := stackName record; fs_stackId := stackId record;
         fs_uniqueId := guid record; fs_status := status record;
         fs_createdAt := default (time_at env (clock w)) (createdAt record) |},
   match createdAt record with Some _ => w | None => tick_clock w end).
Proof.
  unfold toFoundStack, createdAt_or_now. rewrite run_bind.
  by destruct (createdAt record).
Qed.

Lemma run_validateAccessCode accessCode w :
  Js.uuidRegex_test accessCode = true →
  validateAccessCode accessCode w =
  (Ok (bool_decide (find (same_guid accessCode) (table w) ≠ None)), w).
Proof.
  intros Huuid. unfold validateAccessCode.
  by rewrite uuid_not_empty, Huuid.
Qed.

Lemma validateAccessCode_bad_format accessCode w :
  Js.uuidRegex_test accessCode = false →
  validateAccessCode accessCode w = (Ok false, w).
Proof.
  intros Huuid. unfold validateAccessCode. rewrite Huuid.
  by destruct (String.eqb accessCode "").
Qed.

Lemma isActive_alt record :
  isAvailable record || negb (Js.truthy (stackArn record)) = negb (isActive record).
Proof. unfold isActive. by destruct (isAvailable record), (Js.truthy _). Qed.

Lemma run_findStackByAccessCode env accessCode w :
  Js.uuidRegex_test accessCode = true →
  findStackByAccessCode env accessCode w =
  match find (same_guid accessCode) (table w) with
  | None =>
      (Throw (ELambda {| statusCode := 400; code := "INVALID_ACCESS_CODE";
                         details := AccessCodeDetails accessCode |}), w)
  | Some record =>
      if isActive record then
        (Ok (Some {| fs_stackName := stackName record;
                     fs_stackId := stackId record;
                     fs_uniqueId := guid record; fs_status := status record;
                     fs_createdAt :=
                       default (time_at env (clock w)) (createdAt record) |}),
         match createdAt record with Some _ => w | None => tick_clock w end)
      else (Ok None, w)
  end.
Proof.
  intros Huuid. unfold findStackByAccessCode.
  rewrite run_bind, run_validateAccessCode by done.
  destruct (find (same_guid accessCode) (table w)) as [record|] eqn:Hfind.
  - rewrite bool_decide_true by done. cbn [negb].
    rewrite run_bind, run_getStackRecord, Hfind, isActive_alt.
    destruct (isActive record); cbn [negb]; [|done].
    by rewrite run_bind, run_toFoundStack.
  - rewrite bool_decide_false by (intros H; by apply H). done.
Qed.

Lemma run_deleter_rethrow_ok {A} op (m : M A) w a w' :
  m w = (Ok a, w') → deleter_rethrow op m w = (Ok a, w').
Proof. intros H. unfold deleter_rethrow. by rewrite run_try_catch, H. Qed.

Lemma run_deleter_rethrow_lambda {A} op (m : M A) w e w' :
  m w = (Throw (ELambda e), w') →
  deleter_rethrow op m w = (Throw (ELambda e), w').
Proof. intros H. unfold deleter_rethrow. by rewrite run_try_catch, H. Qed.

Lemma run_deleter_rethrow_js {A} op (m : M A) w e w' :
  m w = (Throw (EJs e), w') →
  deleter_rethrow op m w =
  (Throw (ELambda (deleter_handleCloudFormationError e op)), w').
Proof. intros H. unfold deleter_rethrow. by rewrite run_try_catch, H. Qed.

Lemma only_clock_differs_refl w : only_clock_differs w w.
Proof. by repeat split. Qed.

Lemma only_clock_differs_tick w : only_clock_differs w (tick_clock w).
Proof. by repeat split. Qed.

Lemma only_clock_differs_trans w1 w2 w3 :
  only_clock_differs w1 w2 → only_clock_differs w2 w3 → only_clock_differs w1 w3.
Proof.
  intros (?&?&?&?) (?&?&?&?). repeat split; congruence.
Qed.

Lemma run_mapM_toFoundStack env rs w :
  ∃ fs w',
    mapM (toFoundStack env) rs w = (Ok fs, w') ∧ only_clock_differs w w' ∧
    Forall2
      (λ r f, fs_uniqueId f = guid r ∧ fs_status f = status r ∧
              fs_stackName f = stackName r)
      rs fs.
Proof.
  revert w. induction rs as [|r rs IH]; intros w; cbn [mapM].
  - exists [], w. split; [done|]. split; [apply only_clock_differs_refl|constructor].
  - rewrite run_bind, run_toFoundStack.
    set (w1 := match createdAt r with Some _ => w | None => tick_clock w end).
    assert (only_clock_differs w w1) as Hw1.
    { unfold w1. destruct (createdAt r);
        [apply only_clock_differs_refl|apply only_clock_differs_tick]. }
    destruct (IH w1) as (fs & w' & Hrun & Hw' & Hfs).
    rewrite run_bind, Hrun. eexists _, w'. split; [reflexivity|].
    split; [by eapply only_clock_differs_trans|].
    constructor; [done|done].
Qed.

Lemma foldl_insert_lookup {A V} (key : A → string) (mk : A → V) l
    (m0 : gmap string V) g e :
  foldl (λ m x, <[key x := mk x]> m) m0 l !! g = Some e →
  m0 !! g = Some e ∨ ∃ x, x ∈ l ∧ key x = g ∧ e = mk x.
Proof.
  revert m0. induction l as [|x l IH]; intros m0; cbn [foldl]; [by left|].
  intros [H|(y & Hy & Hk & He)]%IH.
  - destruct (decide (key x = g)) as [Heq|Hne].
    + rewrite Heq, lookup_insert_eq in H. right. exists x.
      split; [by left|]. split; [done|congruence].
    + rewrite lookup_insert_ne in H by done. by left.
  - right. exists y. split; [by right|done].
Qed.

Lemma foldl_insert_is_Some {A V} (key : A → string) (mk : A → V) l
    (m0 : gmap string V) x :
  x ∈ l ∨ is_Some (m0 !! key x) →
  is_Some (foldl (λ m x, <[key x := mk x]> m) m0 l !! key x).
Proof.
  revert m0. induction l as [|y l IH]; intros m0; cbn [foldl].
  - intros [Hin|H]; [by apply elem_of_nil in Hin|done].
  - intros [Hin|H]; apply IH.
    + apply elem_of_cons in Hin as [->|Hin]; [right|by left].
      rewrite lookup_insert_eq. by eexists.
    + right. destruct (decide (key y = key x)) as [Heq|Hne].
      * rewrite Heq, lookup_insert_eq. by eexists.
      * by rewrite lookup_insert_ne.
Qed.

(** ** C9: the status projections *)

Lemma deletionProgress_complete st :
  snd (deletionProgress st) = true ↔ st = DELETE_COMPLETE ∨ st = DELETE_FAILED.
Proof.
  destruct st as [|[]]; cbn; split; try done; try (intros [H|H]; done); auto.
Qed.

Lemma bulkDeletionProgress_complete st :
  snd (bulkDeletionProgress st) = true ↔ st = DELETE_COMPLETE ∨ st = DELETE_FAILED.
Proof.
  destruct st as [|[]]; cbn; split; try done; try (intros [H|H]; done); auto.
Qed.

(** C9, as amended.  [getDeletionStatus] and [getAllDeletionStatus] leave
    the table as it is and answer from the stored status alone, with the
    message and the flag that [deletionProgress] (respectively
    [bulkDeletionProgress]) give for it; [isComplete] is true exactly for
    DELETE_COMPLETE and DELETE_FAILED, and false for every [*_IN_PROGRESS]
    status; a code whose record is not linked is reported as
    DELETE_COMPLETE with [isComplete] true; a code without a record is
    refused as INVALID_ACCESS_CODE. *)
Theorem status_projection env :
  (∀ accessCode w,
     Js.uuidRegex_test accessCode = true →
     ∃ w', only_clock_differs w w' ∧
       getDeletionStatus env accessCode w =
       (match find (same_guid accessCode) (table w) with
        | None =>
            Throw (ELambda {| statusCode := 400; code := "INVALID_ACCESS_CODE";
                              details := AccessCodeDetails accessCode |})
        | Some record =>
            if isActive record then
              Ok {| dsr_status := status record;
                    dsr_progress := fst (deletionProgress (status record));
                    dsr_isComplete := snd (deletionProgress (status record)) |}
            else
              Ok {| dsr_status := Cfn DELETE_COMPLETE;
                    dsr_progress :=
                      "Stack has been successfully deleted and Access Code is now available for reuse.";
                    dsr_isComplete := true |}
        end, w')) ∧
  (∀ w, ∃ m w',
     getAllDeletionStatus env w = (Ok m, w') ∧ only_clock_differs w w' ∧
     (∀ r, r ∈ table w → isActive r = true → is_Some (m !! guid r)) ∧
     (∀ g e, m !! g = Some e →
        (∃ r, r ∈ table w ∧ guid r = g ∧ isActive r = true ∧
              dsr_status e = status r) ∧
        dsr_progress e = fst (bulkDeletionProgress (dsr_status e)) ∧
        dsr_isComplete e = snd (bulkDeletionProgress (dsr_status e)))) ∧
  (∀ st,
     (snd (deletionProgress st) = true ↔ st = DELETE_COMPLETE ∨ st = DELETE_FAILED) ∧
     (snd (bulkDeletionProgress st) = true ↔
        st = DELETE_COMPLETE ∨ st = DELETE_FAILED) ∧
     (is_IN_PROGRESS st = true →
        snd (deletionProgress st) = false ∧ snd (bulkDeletionProgress st) = false)).
Proof.
  split; [|split].
  - intros accessCode w Huuid. unfold getDeletionStatus.
    pose proof (run_findStackByAccessCode env accessCode w Huuid) as Hfind.
    destruct (find (same_guid accessCode) (table w)) as [record|].
    + destruct (isActive record).
      * eexists. split; [|apply run_deleter_rethrow_ok; by rewrite run_bind, Hfind].
        destruct (createdAt record);
          [apply only_clock_differs_refl|apply only_clock_differs_tick].
      * exists w. split; [apply only_clock_differs_refl|].
        apply run_deleter_rethrow_ok. by rewrite run_bind, Hfind.
    + exists w. split; [apply only_clock_differs_refl|].
      apply run_deleter_rethrow_lambda. by rewrite run_bind, Hfind.
  - intros w. unfold getAllDeletionStatus, getAllActiveStacks.
    destruct (run_mapM_toFoundStack env (List.filter isActive (table w)) w)
      as (fs & w' & Hrun & Hw' & Hfs).
    eexists _, w'. split; [|split; [done|]].
    { apply run_deleter_rethrow_ok.
      rewrite !run_bind, run_getAllStackRecords, Hrun. reflexivity. }
    split.
    + intros r Hr Hact.
      assert (r ∈ List.filter isActive (table w)) as Hin.
      { apply list_elem_of_In, filter_In. split; [by apply list_elem_of_In|done]. }
      apply list_elem_of_lookup in Hin as (i & Hi).
      destruct (Forall2_lookup_l _ _ _ _ _ Hfs Hi) as (f & Hf & Hk & _).
      rewrite <- Hk.
      apply (foldl_insert_is_Some fs_uniqueId
               (λ stack, {| dsr_status := fs_status stack;
                            dsr_progress := fst (bulkDeletionProgress (fs_status stack));
                            dsr_isComplete := snd (bulkDeletionProgress (fs_status stack)) |})).
      left. by eapply list_elem_of_lookup_2.
    + intros g e He.
      apply (foldl_insert_lookup fs_uniqueId
               (λ stack, {| dsr_status := fs_status stack;
                            dsr_progress := fst (bulkDeletionProgress (fs_status stack));
                            dsr_isComplete := snd (bulkDeletionProgress (fs_status stack)) |}))
        in He as [He|(f & Hf & Hk & ->)]; [by rewrite lookup_empty in He|].
      split; [|done]. cbn.
      apply list_elem_of_lookup in Hf as (i & Hi).
      destruct (Forall2_lookup_r _ _ _ _ _ Hfs Hi) as (r & Hr & Hk' & Hst & _).
      apply list_elem_of_lookup_2, list_elem_of_In, filter_In in Hr as [Hr Hact].
      exists r. split; [by apply list_elem_of_In|]. split; [congruence|done].
  - intros st. split; [apply deletionProgress_complete|].
    split; [apply bulkDeletionProgress_complete|].
    destruct st as [|[]]; cbn; try done.
Qed.

Lemma status_projection_witness :
  Js.uuidRegex_test id_a = true ∧
  ∃ w', only_clock_differs (world_of [linked id_a DELETE_FAILED]) w' ∧
    getDeletionStatus quiet_env id_a (world_of [linked id_a DELETE_FAILED]) =
    (Ok {| dsr_status := Cfn DELETE_FAILED;
           dsr_progress := fst (deletionProgress DELETE_FAILED);
           dsr_isComplete := true |}, w').
Proof.
  split; [reflexivity|].
  exact (proj1 (status_projection quiet_env) id_a
           (world_of [linked id_a DELETE_FAILED]) eq_refl).
Defined.

(** C9 as stated fails: CREATE_FAILED is a failure terminal state, and
    [isComplete] is false for it; and a code that has no record is not
    reported as DELETE_COMPLETE, it is refused. *)
Lemma status_CREATE_FAILED_not_complete :
  is_FAILED CREATE_FAILED = true ∧
  fst (getDeletionStatus quiet_env id_a (world_of [linked id_a CREATE_FAILED])) =
    Ok {| dsr_status := Cfn CREATE_FAILED;
          dsr_progress :=
            "Stack is in error state (CREATE_FAILED). The stack still exists and may require manual cleanup.";
          dsr_isComplete := false |} ∧
  fst (getDeletionStatus quiet_env id_b (world_of [linked id_a CREATE_FAILED])) =
    Throw (ELambda {| statusCode := 400; code := "INVALID_ACCESS_CODE";
                      details := AccessCodeDetails id_b |}).
Proof. repeat split; reflexivity. Qed.

(** ** C4: the guards of [deleteStackByAccessCode] *)

Lemma run_updateStackRecord env accessCode updates w :
  updateStackRecord env accessCode updates w =
  match write_error env (writes w) with
  | Some e => (Throw (EJs e), tick_writes (tick_clock w))
  | None =>
      (Ok (),
       set_table
         (updateItem accessCode (applyUpdates updates (time_at env (clock w)))
            (table w))
         (tick_writes (tick_clock w)))
  end.
Proof.
  unfold updateStackRecord, now, send_write. rewrite run_bind. cbn.
  by destruct (write_error env (writes w)).
Qed.

Lemma run_putStackRecord env record w :
  putStackRecord env record w =
  match write_error env (writes w) with
  | Some e => (Throw (EJs e), tick_writes w)
  | None => (Ok (), set_table (putItem record (table w)) (tick_writes w))
  end.
Proof. reflexivity. Qed.

Lemma run_advisory_ok (m : M ()) w w' : m w = (Ok (), w') → advisory m w = (Ok (), w').
Proof. intros H. unfold advisory. by rewrite run_try_catch, H. Qed.

Lemma run_advisory (m : M ()) w : advisory m w = (Ok (), snd (m w)).
Proof.
  unfold advisory. rewrite run_try_catch.
  by destruct (m w) as [[[]|e] w'].
Qed.

Lemma inProgressStates_IN_PROGRESS st :
  st ∈ inProgressStates → is_IN_PROGRESS st = true ∧ st ≠ Cfn DELETE_IN_PROGRESS.
Proof.
  intros Hin. apply list_elem_of_In in Hin. cbn in Hin.
  destruct Hin as [<-|[<-|[<-|[<-|[<-|[]]]]]]; by split.
Qed.

Lemma same_guid_true key r : same_guid key r = true ↔ guid r = key.
Proof. unfold same_guid. apply String.eqb_eq. Qed.

Lemma same_guid_false key r : same_guid key r = false ↔ guid r ≠ key.
Proof. unfold same_guid. apply String.eqb_neq. Qed.

Lemma find_updateItem_same key f t r :
  (∀ x, guid (f x) = guid x) →
  find (same_guid key) t = Some r →
  find (same_guid key) (updateItem key f t) = Some (f r).
Proof.
  intros Hf. unfold updateItem. induction t as [|x t IH]; [done|]. cbn.
  destruct (same_guid key x) eqn:Hx.
  - intros [= ->]. unfold same_guid in *. by rewrite Hf, Hx.
  - rewrite Hx. apply IH.
Qed.

Lemma find_updateItem_other key key' f t :
  (∀ x, guid (f x) = guid x) →
  key' ≠ key →
  find (same_guid key') (updateItem key f t) = find (same_guid key') t.
Proof.
  intros Hf Hne. unfold updateItem. induction t as [|x t IH]; [done|]. cbn.
  destruct (same_guid key x) eqn:Hx.
  - apply same_guid_true in Hx.
    assert (same_guid key' x = false) as Hx' by (apply same_guid_false; congruence).
    assert (same_guid key' (f x) = false) as ->
      by (apply same_guid_false; rewrite Hf; congruence).
    by rewrite Hx'.
  - destruct (same_guid key' x); [done|apply IH].
Qed.

Lemma run_deleteStackByAccessCode env accessCode w record :
  Js.uuidRegex_test accessCode = true →
  find (same_guid accessCode) (table w) = Some record →
  let out := deleteStackByAccessCode env accessCode w in
  let untouched := table (snd out) = table w ∧ calls (snd out) = calls w in
  (isActive record = false →
     fst out = Throw (ELambda {| statusCode := 404; code := "STACK_NOT_FOUND";
                                 details := AccessCodeDetails accessCode |}) ∧
     untouched) ∧
  (isActive record = true →
     (status record = Cfn DELETE_IN_PROGRESS →
        fst out = Ok {| sd_success := false;
                        sd_deletionStatus := "DELETE_IN_PROGRESS" |} ∧
        untouched) ∧
     (status record ∈ inProgressStates →
        fst out =
          Throw (ELambda {| statusCode := 409;
                            code := "STACK_OPERATION_IN_PROGRESS";
                            details :=
                              StackOperationDetails (stackName record)
                                (status record) |}) ∧
        untouched) ∧
     (status record ≠ Cfn DELETE_IN_PROGRESS →
      status record ∉ inProgressStates →
        calls (snd out) = calls w ++ [DeleteStack (stackName record)] ∧
        match delete_stack env (stackName record) with
        | Fails e =>
            fst out =
              Throw (ELambda (deleter_handleCloudFormationError e "stack deletion")) ∧
            table (snd out) = table w
        | Answer _ =>
            fst out = Ok {| sd_success := true;
                            sd_deletionStatus := "DELETE_IN_PROGRESS" |} ∧
            ∃ t,
              table (snd out) =
              match write_error env (writes w) with
              | Some _ => table w
              | None =>
                  updateItem accessCode (applyUpdates set_DELETE_IN_PROGRESS t)
                    (table w)
              end
        end)).
Proof.
  intros Huuid Hfind out untouched. subst out untouched.
  unfold deleteStackByAccessCode.
  pose proof (run_findStackByAccessCode env accessCode w Huuid) as Hrun.
  rewrite Hfind in Hrun.
  split.
  - intros Hact. rewrite Hact in Hrun.
    erewrite run_deleter_rethrow_lambda; [done|]. by rewrite run_bind, Hrun.
  - intros Hact. rewrite Hact in Hrun.
    set (w1 := match createdAt record with Some _ => w | None => tick_clock w end) in *.
    assert (only_clock_differs w w1) as (Ht1 & _ & Hwr1 & Hc1).
    { unfold w1. destruct (createdAt record);
        [apply only_clock_differs_refl|apply only_clock_differs_tick]. }
    split; [|split].
    + intros Hst.
      erewrite run_deleter_rethrow_ok; [done|].
      rewrite run_bind, Hrun. cbn [fs_status]. rewrite Hst. reflexivity.
    + intros Hprog.
      destruct (inProgressStates_IN_PROGRESS _ Hprog) as [_ Hne].
      erewrite run_deleter_rethrow_lambda; [done|].
      rewrite run_bind, Hrun. cbn [fs_status fs_stackName].
      unfold status_eqb. rewrite bool_decide_false by done.
      by rewrite (bool_decide_eq_true_2 _ Hprog).
    + intros Hne Hprog.
      unfold deleter_rethrow. rewrite run_try_catch, run_bind, Hrun.
      cbn [fs_status fs_stackName].
      unfold status_eqb. rewrite bool_decide_false by done.
      rewrite (bool_decide_eq_false_2 _ Hprog).
      rewrite run_bind. unfold send_DeleteStack, cfn_send.
      destruct (delete_stack env (stackName record)) as [[]|e].
      * rewrite run_bind, run_advisory, run_updateStackRecord.
        cbn [writes log_call]. rewrite Hwr1.
        destruct (write_error env (writes w)); cbn; rewrite Hc1, ?Ht1;
          (split; [done|]); (split; [done|]);
          by exists (time_at env (clock w1)).
      * cbn. rewrite Hc1, Ht1. done.
Qed.




(** ** The deployment loop *)

Lemma prefix_dash p rest : String.prefix (p +:+ "-") (p +:+ "-" +:+ rest) = true.
Proof.
  induction p as [|c p IH].
  - change (String.prefix "-" (String "-" rest) = true).
    cbn. by destruct rest.
  - change (String.prefix (String c (p +:+ "-")) (String c (p +:+ "-" +:+ rest)) = true).
    cbn [String.prefix]. destruct (ascii_dec c c); [done|congruence].
Qed.

Lemma startsWith_stackName stackPrefix accessCode timestamp i :
  Js.startsWith (stackPrefix +:+ "-")
    (stackName_of stackPrefix accessCode timestamp i) = true.
Proof. apply prefix_dash. Qed.

Lemma run_deployOne env stackCount stackPrefix timestamp i accessCode st w :
  deployOne env stackCount stackPrefix timestamp i accessCode st w =
  let input := create_input env stackPrefix timestamp i accessCode w in
  let name := stackName_of stackPrefix accessCode timestamp i in
  let t1 := time_at env (S (clock w)) in
  let t2 := time_at env (S (S (clock w))) in
  let w3 := tick_clock (tick_clock (log_call (CreateStack input) (tick_clock w))) in
  match created_id (create_stack env input) with
  | Some id =>
      (Ok {| p_deployedStacks :=
               p_deployedStacks st ++
                 [{| ds_stackName := name; ds_stackId := id;
                     ds_uniqueId := accessCode;
                     ds_status := CREATE_IN_PROGRESS; ds_createdAt := t1 |}];
             successfulDeployments := successfulDeployments st + 1;
             failedDeployments := failedDeployments st |},
       snd (send_write env (putItem (created_record accessCode name id t1 t2)) w3))
  | None =>
      (if stackCount <? 2 * (failedDeployments st + 1) then
         Throw (ELambda
           {| statusCode := 500; code := "DEPLOYMENT_BATCH_FAILED";
              details :=
                BatchFailedDetails (successfulDeployments st)
                  (failedDeployments st + 1) stackCount
                  (creation_error_message (create_stack env input)) |})
       else
         Ok {| p_deployedStacks :=
                 p_deployedStacks st ++
                   [{| ds_stackName := name; ds_stackId := "";
                       ds_uniqueId := accessCode;
                       ds_status := CREATE_FAILED; ds_createdAt := t1 |}];
               successfulDeployments := successfulDeployments st;
               failedDeployments := failedDeployments st + 1 |},
       snd (send_write env
              (updateItem accessCode (applyUpdates release_updates t2)) w3))
  end.
Proof.
  unfold deployOne. rewrite startsWith_stackName. cbn [negb].
  rewrite run_try_catch, run_bind. unfold now at 1. cbn [fst snd].
  rewrite run_bind. unfold send_CreateStack, cfn_send, create_input.
  cbn zeta.
  destruct (create_stack env _) as [[id|]|e] eqn:Hreply; cbn [created_id].
  - unfold Js.truthy. destruct (String.eqb id "") eqn:Hid; cbn [negb].
    + cbn. rewrite !run_bind. unfold now at 1.
      rewrite run_bind, run_advisory, run_updateStackRecord.
      unfold send_write. cbn.
      destruct (write_error env (writes w)); by destruct (stackCount <? _).
    + rewrite !run_bind. unfold now at 1. cbn [fst snd default].
      rewrite run_bind, run_advisory, !run_bind. unfold now at 1.
      rewrite run_putStackRecord. unfold send_write. cbn.
      by destruct (write_error env (writes w)).
  - cbn. rewrite !run_bind. unfold now at 1.
    rewrite run_bind, run_advisory, run_updateStackRecord.
    unfold send_write. cbn.
    destruct (write_error env (writes w)); by destruct (stackCount <? _).
  - cbn. rewrite !run_bind. unfold now at 1.
    rewrite run_bind, run_advisory, run_updateStackRecord.
    unfold send_write. cbn.
    destruct (write_error env (writes w)); by destruct (stackCount <? _).
Qed.

Lemma clock_send_write env f w : clock (snd (send_write env f w)) = clock w.
Proof. unfold send_write. by destruct (write_error env (writes w)). Qed.

Lemma calls_send_write env f w : calls (snd (send_write env f w)) = calls w.
Proof. unfold send_write. by destruct (write_error env (writes w)). Qed.

Lemma rules_send_write env f w : rules (snd (send_write env f w)) = rules w.
Proof. unfold send_write. by destruct (write_error env (writes w)). Qed.

Lemma table_send_write env f w :
  table (snd (send_write env f w)) =
  match write_error env (writes w) with
  | Some _ => table w
  | None => f (table w)
  end.
Proof. unfold send_write. by destruct (write_error env (writes w)). Qed.

(** ** A write to the table does not change what is reported *)

Lemma deployLoop_write_independent env we stackCount stackPrefix timestamp codes :
  ∀ i st w1 w2,
    clock w1 = clock w2 →
    fst (deployLoop (with_write_error we env) stackCount stackPrefix timestamp
           i codes st w1) =
    fst (deployLoop env stackCount stackPrefix timestamp i codes st w2) ∧
    clock (snd (deployLoop (with_write_error we env) stackCount stackPrefix
                  timestamp i codes st w1)) =
    clock (snd (deployLoop env stackCount stackPrefix timestamp i codes st w2)).
Proof.
  induction codes as [|c codes IH]; intros i st w1 w2 Hclock; [done|].
  cbn [deployLoop]. rewrite !run_bind, !run_deployOne. cbn zeta.
  unfold create_input. cbn [time_at create_stack with_write_error].
  rewrite Hclock.
  destruct (created_id (create_stack env _)) as [id|].
  - apply IH. rewrite !clock_send_write. cbn. congruence.
  - destruct (stackCount <? _).
    + cbn [fst snd]. rewrite !clock_send_write. cbn.
      split; [done|congruence].
    + apply IH. rewrite !clock_send_write. cbn. congruence.
Qed.

Lemma fst_then_mret {A} (m : M ()) (a : A) w :
  fst (m w) = Ok () → fst ((m;; mret a) w) = Ok a.
Proof. intros H. rewrite run_bind. by destruct (m w) as [[[]|] ?]. Qed.

Lemma deployStacks_write_independent env we stackCount selected w :
  fst (deployStacks (with_write_error we env) stackCount selected w) =
  fst (deployStacks env stackCount selected w).
Proof.
  unfold deployStacks. rewrite !run_try_catch, !run_bind.
  change (validateStackCount (with_write_error we env))
    with (validateStackCount env).
  destruct (validateStackCount env stackCount w) as [[[]|e] w1]; [|done].
  rewrite !run_bind.
  change (validateTemplateUrl (with_write_error we env))
    with (validateTemplateUrl env).
  cbn [config with_write_error].
  destruct (validateTemplateUrl env _ w1) as [[[]|e] w2]; [|done].
  rewrite !run_bind.
  destruct (assignAccessCodes stackCount selected w2) as [[assigned|e] w3]; [|done].
  rewrite !run_bind.
  change (now (with_write_error we env)) with (now env).
  destruct (now env w3) as [[timestamp|e] w4]; [|done].
  rewrite !run_bind.
  destruct (deployLoop_write_independent env we stackCount
              (Js.or_default (stackNamePrefix (config env)) "deployment-stack")
              timestamp (take (Z.to_nat stackCount) assigned) 0
              no_progress w4 w4 eq_refl) as [Hfst _].
  unfold no_progress in Hfst.
  destruct (deployLoop (with_write_error we env) _ _ _ _ _ _ w4) as [r1 w5].
  destruct (deployLoop env _ _ _ _ _ _ w4) as [r2 w6].
  cbn [fst] in Hfst. subst r2.
  destruct r1 as [st|e]; [|by destruct e].
  set (resp := {| deployedStacks := p_deployedStacks st; assignedAccessCodes := assigned |}).
  assert (∀ env' w',
    fst (((if 0 <? successfulDeployments st
           then advisory (manageRuleBasedOnStackCount env') else mret ());;
          mret resp) w') = Ok resp) as Hend.
  { intros env' w'. apply fst_then_mret.
    destruct (0 <? successfulDeployments st); [by rewrite run_advisory|done]. }
  generalize (Hend (with_write_error we env) w5) (Hend env w6).
  match goal with
  | |- fst ?x = _ → fst ?y = _ → _ => destruct x as [r1 ?], y as [r2 ?]
  end.
  cbn [fst]. by intros -> ->.
Qed.

Lemma deleteStackByAccessCode_write_independent env we accessCode w :
  fst (deleteStackByAccessCode (with_write_error we env) accessCode w) =
  fst (deleteStackByAccessCode env accessCode w).
Proof.
  unfold deleteStackByAccessCode, deleter_rethrow.
  rewrite !run_try_catch, !run_bind.
  change (findStackByAccessCode (with_write_error we env))
    with (findStackByAccessCode env).
  destruct (findStackByAccessCode env accessCode w) as [[[stack|]|e] w1];
    [|done|done].
  destruct (status_eqb (fs_status stack) DELETE_IN_PROGRESS); [done|].
  destruct (bool_decide (fs_status stack ∈ inProgressStates)); [done|].
  rewrite !run_bind.
  change (send_DeleteStack (with_write_error we env))
    with (send_DeleteStack env).
  destruct (send_DeleteStack env (fs_stackName stack) w1) as [[[]|e] w2]; [|done].
  by rewrite !run_bind, !run_advisory.
Qed.

(** ** Steps that keep a relation between the worlds *)


Section Preserves.

Context (P : relation World) `{!PreOrder P}.

Lemma preserves_ret {A} (a : A) : preserves P (mret a).
Proof. intros w. reflexivity. Qed.

Lemma preserves_throw {A} e : preserves P (throw (A := A) e).
Proof. intros w. reflexivity. Qed.

Lemma preserves_new_LambdaError {A} sc c d :
  preserves P (new_LambdaError (A := A) sc c d).
Proof. intros w. reflexivity. Qed.

Lemma preserves_get_world : preserves P get_world.
Proof. intros w. reflexivity. Qed.

Lemma preserves_bind {A B} (m : M A) (f : A → M B) :
  preserves P m → (∀ a, preserves P (f a)) → preserves P (m ≫= f).
Proof.
  intros Hm Hf w. rewrite run_bind. specialize (Hm w).
  destruct (m w) as [[a|e] w1]; cbn [snd] in *; [|done].
  etransitivity; [done|apply Hf].
Qed.

Lemma preserves_try_catch {A} (m : M A) h :
  preserves P m → (∀ e, preserves P (h e)) → preserves P (try_catch m h).
Proof.
  intros Hm Hh w. rewrite run_try_catch. specialize (Hm w).
  destruct (m w) as [[a|e] w1]; cbn [snd] in *; [done|].
  etransitivity; [done|apply Hh].
Qed.

Lemma preserves_advisory m : preserves P m → preserves P (advisory m).
Proof.
  intros Hm. apply preserves_try_catch; [done|]. intros _. apply preserves_ret.
Qed.

Lemma preserves_foldM {A B} (f : B → A → M B) l :
  (∀ b a, preserves P (f b a)) → ∀ b, preserves P (foldM f b l).
Proof.
  intros Hf. induction l as [|x l IH]; intros b; cbn [foldM].
  - apply preserves_ret.
  - apply preserves_bind; [apply Hf|apply IH].
Qed.

Lemma preserves_mapM {A B} (f : A → M B) l :
  (∀ a, preserves P (f a)) → preserves P (mapM f l).
Proof.
  intros Hf. induction l as [|x l IH]; cbn [mapM].
  - apply preserves_ret.
  - apply preserves_bind; [apply Hf|]. intros y.
    apply preserves_bind; [apply IH|]. intros ys. apply preserves_ret.
Qed.

Lemma preserves_getAllStackRecords : preserves P getAllStackRecords.
Proof. intros w. reflexivity. Qed.

Lemma preserves_getNonAvailableStackRecords : preserves P getNonAvailableStackRecords.
Proof. intros w. reflexivity. Qed.

Lemma preserves_getStackRecord accessCode : preserves P (getStackRecord accessCode).
Proof. intros w. reflexivity. Qed.

Lemma preserves_assignAccessCodes count selected :
  preserves P (assignAccessCodes count selected).
Proof.
  unfold assignAccessCodes, getAvailableAccessCodesFromDB, getAccessCodePool,
    getAvailableAccessCodes, rethrow_with.
  repeat first
    [ apply preserves_bind; [|intros ?]
    | apply preserves_try_catch; [|intros ?]
    | apply preserves_getAllStackRecords
    | apply preserves_ret
    | apply preserves_throw
    | apply preserves_new_LambdaError
    | match goal with
      | |- preserves _ (if ?b then _ else _) => destruct b
      | |- preserves _ (match ?x with _ => _ end) => destruct x
      end ].
Qed.

End Preserves.

Ltac papply lem :=
  apply lem;
  try match goal with |- PreOrder _ => exact _ end.

Ltac preserves_step :=
  first
    [ papply preserves_ret
    | papply preserves_throw
    | papply preserves_new_LambdaError
    | papply preserves_get_world
    | papply preserves_getAllStackRecords
    | papply preserves_getNonAvailableStackRecords
    | papply preserves_getStackRecord
    | papply preserves_assignAccessCodes
    | papply preserves_advisory
    | papply preserves_bind; [|intros ?]
    | papply preserves_try_catch; [|intros ?]
    | match goal with
      | |- preserves _ (if ?b then _ else _) => destruct b
      | |- preserves _ (match ?x with _ => _ end) => destruct x
      end ].


Global Instance same_table_preorder : PreOrder same_table.
Proof.
  split.
  - by intros w.
  - intros w1 w2 w3 (?&?&?) (?&?&?). repeat split; congruence.
Qed.

Lemma same_table_eb_send {A} env c (serve : M A) :
  preserves same_table serve → preserves same_table (eb_send env c serve).
Proof.
  intros Hs w. unfold eb_send. destruct (eb_error env c); [done|].
  destruct (Hs (log_call c w)) as (?&?&?). done.
Qed.

Lemma same_table_modify_rules r : preserves same_table (modify_world (set_rules r)).
Proof. by intros w. Qed.

Ltac same_table_step :=
  first [ apply same_table_eb_send | apply same_table_modify_rules | preserves_step ].

Lemma same_table_findActualRuleName env : preserves same_table (findActualRuleName env).
Proof. unfold findActualRuleName, send_ListRules. repeat same_table_step. Qed.

Lemma same_table_getCurrentRuleState env : preserves same_table (getCurrentRuleState env).
Proof.
  unfold getCurrentRuleState, send_DescribeRule.
  repeat first [apply same_table_findActualRuleName | same_table_step].
Qed.

Lemma same_table_enableSyncRule env : preserves same_table (enableSyncRule env).
Proof.
  unfold enableSyncRule, send_set_rule.
  repeat first [apply same_table_findActualRuleName | same_table_step].
Qed.

Lemma same_table_disableSyncRule env : preserves same_table (disableSyncRule env).
Proof.
  unfold disableSyncRule, send_set_rule.
  repeat first [apply same_table_findActualRuleName | same_table_step].
Qed.

Lemma same_table_manageRuleBasedOnStackCount env :
  preserves same_table (manageRuleBasedOnStackCount env).
Proof.
  unfold manageRuleBasedOnStackCount, checkActiveStackCount.
  repeat first
    [ apply same_table_getCurrentRuleState | apply same_table_enableSyncRule
    | apply same_table_disableSyncRule | same_table_step ].
Qed.

Lemma same_table_ensureRuleDisabled env : preserves same_table (ensureRuleDisabled env).
Proof.
  unfold ensureRuleDisabled.
  repeat first
    [ apply same_table_getCurrentRuleState | apply same_table_disableSyncRule
    | same_table_step ].
Qed.

(** ** Items of the table after a write *)

Lemma elem_of_updateItem key f t r :
  r ∈ updateItem key f t ↔
  ∃ r0, r0 ∈ t ∧ r = if same_guid key r0 then f r0 else r0.
Proof.
  unfold updateItem. rewrite list_elem_of_fmap. split.
  - intros (r0 & -> & Hr0). by exists r0.
  - intros (r0 & Hr0 & ->). by exists r0.
Qed.

Lemma elem_of_putItem item t r :
  r ∈ putItem item t → r = item ∨ (r ∈ t ∧ guid r ≠ guid item).
Proof.
  unfold putItem. destruct (existsb (same_guid (guid item)) t) eqn:Hex.
  - intros (r0 & -> & Hr0)%list_elem_of_fmap.
    destruct (same_guid (guid item) r0) eqn:Hg; [by left|].
    right. split; [done|]. by apply same_guid_false.
  - intros [Hr| ->%list_elem_of_singleton]%elem_of_app; [|by left].
    right. split; [done|]. intros Heq.
    assert (existsb (same_guid (guid item)) t = true) as Hex'; [|congruence].
    apply existsb_exists. exists r.
    split; [by apply list_elem_of_In|by apply same_guid_true].
Qed.

Lemma map_guid_updateItem key f t :
  (∀ r, guid (f r) = guid r) → map guid (updateItem key f t) = map guid t.
Proof.
  intros Hf. unfold updateItem. rewrite map_map. apply map_ext.
  intros r. by destruct (same_guid key r).
Qed.

Lemma map_guid_putItem item t :
  guid item ∈ map guid t → map guid (putItem item t) = map guid t.
Proof.
  intros Hin. unfold putItem.
  assert (existsb (same_guid (guid item)) t = true) as ->.
  { apply list_elem_of_fmap in Hin as (r & Hg & Hr).
    apply existsb_exists. exists r.
    split; [by apply list_elem_of_In|by apply same_guid_true]. }
  rewrite map_map. apply map_ext. intros r.
  destruct (same_guid (guid item) r) eqn:Hg; [|done].
  by apply same_guid_true in Hg.
Qed.

(** ** C2: failures of the creation of a stack *)

Lemma failed_creations_app env l1 l2 :
  failed_creations env (l1 ++ l2) = failed_creations env l1 + failed_creations env l2.
Proof. unfold failed_creations. rewrite List.filter_app, length_app. lia. Qed.

Lemma successful_creations_app env l1 l2 :
  successful_creations env (l1 ++ l2) =
  successful_creations env l1 + successful_creations env l2.
Proof. unfold successful_creations. rewrite List.filter_app, length_app. lia. Qed.

Lemma failed_creations_nonneg env l : 0 ≤ failed_creations env l.
Proof. unfold failed_creations. lia. Qed.

Lemma calls_deployOne env stackCount stackPrefix timestamp i accessCode st w :
  calls (snd (deployOne env stackCount stackPrefix timestamp i accessCode st w)) =
  calls w ++ [CreateStack (create_input env stackPrefix timestamp i accessCode w)].
Proof.
  rewrite run_deployOne. cbn zeta.
  destruct (created_id _); cbn [snd]; by rewrite calls_send_write.
Qed.

Lemma deployLoop_counts env stackCount stackPrefix timestamp codes :
  ∀ i st w,
    let out := deployLoop env stackCount stackPrefix timestamp i codes st w in
    ∃ log,
      calls (snd out) = calls w ++ log ∧
      match fst out with
      | Ok st' =>
          failedDeployments st' = failedDeployments st + failed_creations env log ∧
          successfulDeployments st' =
            successfulDeployments st + successful_creations env log ∧
          (2 * failedDeployments st ≤ stackCount →
           2 * failedDeployments st' ≤ stackCount) ∧
          map ds_uniqueId (p_deployedStacks st') =
            map ds_uniqueId (p_deployedStacks st) ++ codes
      | Throw e =>
          stackCount < 2 * (failedDeployments st + failed_creations env log) ∧
          ∃ message,
            e = ELambda
                  {| statusCode := 500; code := "DEPLOYMENT_BATCH_FAILED";
                     details :=
                       BatchFailedDetails
                         (successfulDeployments st + successful_creations env log)
                         (failedDeployments st + failed_creations env log)
                         stackCount message |}
      end.
Proof.
  induction codes as [|c codes IH]; intros i st w out; subst out.
  - exists []. cbn. rewrite !app_nil_r. split; [done|].
    unfold failed_creations, successful_creations. cbn.
    repeat split; lia.
  - cbn [deployLoop]. rewrite run_bind.
    pose proof (calls_deployOne env stackCount stackPrefix timestamp i c st w) as Hcalls.
    rewrite run_deployOne in *. cbn zeta in *.
    set (input := create_input env stackPrefix timestamp i c w) in *.
    destruct (created_id (create_stack env input)) as [id|] eqn:Hid.
    + cbn [fst snd] in *.
      match goal with
      | |- context [deployLoop _ _ _ _ _ _ ?st1 ?w1] =>
          destruct (IH (i + 1) st1 w1) as (log & Hlog & Hres)
      end.
      exists (CreateStack input :: log). split.
      { rewrite Hlog, Hcalls. by rewrite <- app_assoc. }
      change (CreateStack input :: log) with ([CreateStack input] ++ log).
      rewrite failed_creations_app, successful_creations_app.
      assert (failed_creations env [CreateStack input] = 0) as ->.
      { unfold failed_creations. cbn. rewrite Hid. done. }
      assert (successful_creations env [CreateStack input] = 1) as ->.
      { unfold successful_creations. cbn. rewrite Hid. done. }
      destruct (fst (deployLoop _ _ _ _ _ _ _ _)) as [st'|e]; cbn in Hres |- *.
      * destruct Hres as (Hf & Hs & Hle & Hids).
        rewrite map_app, <- app_assoc in Hids. repeat split; [lia|lia|lia|done].
      * destruct Hres as (Hlt & message & ->). split; [lia|].
        exists message. do 3 f_equal; lia.
    + assert (failed_creations env [CreateStack input] = 1) as Hf1.
      { unfold failed_creations. cbn. rewrite Hid. done. }
      assert (successful_creations env [CreateStack input] = 0) as Hs1.
      { unfold successful_creations. cbn. rewrite Hid. done. }
      destruct (stackCount <? 2 * (failedDeployments st + 1)) eqn:Hhalf.
      * cbn [fst snd] in *. exists [CreateStack input].
        split; [done|]. rewrite Hf1, Hs1. apply Z.ltb_lt in Hhalf.
        split; [done|]. eexists. do 3 f_equal. lia.
      * cbn [fst snd] in *. apply Z.ltb_ge in Hhalf.
        match goal with
        | |- context [deployLoop _ _ _ _ _ _ ?st1 ?w1] =>
            destruct (IH (i + 1) st1 w1) as (log & Hlog & Hres)
        end.
        exists (CreateStack input :: log). split.
        { rewrite Hlog, Hcalls. by rewrite <- app_assoc. }
        change (CreateStack input :: log) with ([CreateStack input] ++ log).
        rewrite failed_creations_app, successful_creations_app, Hf1, Hs1.
        destruct (fst (deployLoop _ _ _ _ _ _ _ _)) as [st'|e]; cbn in Hres |- *.
        -- destruct Hres as (Hf & Hs & Hle & Hids).
           rewrite map_app, <- app_assoc in Hids.
           repeat split; [lia|lia|lia|done].
        -- destruct Hres as (Hlt & message & ->). split; [lia|].
           exists message. do 3 f_equal; lia.
Qed.

Lemma elem_of_table_after_put env item w r :
  r ∈ table (snd (send_write env (putItem item) w)) → r = item ∨ r ∈ table w.
Proof.
  rewrite table_send_write. destruct (write_error env (writes w)); [by right|].
  intros [?|[? _]]%elem_of_putItem; auto.
Qed.

Lemma elem_of_table_after_update env key u t w r :
  r ∈ table (snd (send_write env (updateItem key (applyUpdates u t)) w)) →
  r ∈ table w ∨ ∃ r0, r0 ∈ table w ∧ guid r0 = key ∧ r = applyUpdates u t r0.
Proof.
  rewrite table_send_write. destruct (write_error env (writes w)); [by left|].
  intros (r0 & Hr0 & ->)%elem_of_updateItem.
  destruct (same_guid key r0) eqn:Hg; [|by left].
  right. exists r0. split; [done|]. split; [by apply same_guid_true|done].
Qed.

Lemma deployLoop_outcomes env stackCount stackPrefix timestamp
    (fails : string → bool) codes :
  ∀ i st w,
    NoDup codes →
    (∀ input, cs_UniqueId input ∈ codes →
       (created_id (create_stack env input) = None ↔
        fails (cs_UniqueId input) = true)) →
    2 * (failedDeployments st + Z.of_nat (length (List.filter fails codes)))
      ≤ stackCount →
    (∀ r, r ∈ table w → guid r ∈ codes → status r = AVAILABLE) →
    ∃ st' w',
      deployLoop env stackCount stackPrefix timestamp i codes st w = (Ok st', w') ∧
      map (λ d, (ds_uniqueId d, ds_status d)) (p_deployedStacks st') =
        map (λ d, (ds_uniqueId d, ds_status d)) (p_deployedStacks st) ++
        map (λ c, (c, if fails c then CREATE_FAILED else CREATE_IN_PROGRESS)) codes ∧
      (∀ r, r ∈ table w' → guid r ∉ codes → r ∈ table w) ∧
      (∀ r, r ∈ table w' → guid r ∈ codes → fails (guid r) = true →
         status r = AVAILABLE).
Proof.
  induction codes as [|c codes IH]; intros i st w Hnd Hfails Hhalf Havail.
  - exists st, w. cbn. rewrite app_nil_r. repeat split; [done|].
    intros r _ Hr. by apply elem_of_nil in Hr.
  - apply list.NoDup_cons in Hnd as [Hc Hnd].
    cbn [deployLoop]. rewrite run_bind, run_deployOne. cbn zeta.
    set (input := create_input env stackPrefix timestamp i c w).
    set (w3 := tick_clock (tick_clock (log_call (CreateStack input) (tick_clock w)))).
    assert (table w3 = table w) as Hw3 by done.
    pose proof (Hfails input ltac:(by left)) as Hc_fails. cbn [cs_UniqueId input create_input] in Hc_fails.
    assert (∀ input, cs_UniqueId input ∈ codes →
       (created_id (create_stack env input) = None ↔
        fails (cs_UniqueId input) = true))
      as Hfails'.
    { intros inp Hin. apply Hfails. by right. }
    cbn [List.filter] in Hhalf.
    destruct (fails c) eqn:Hfc.
    + (* the creation fails *)
      assert (created_id (create_stack env input) = None) as Hnone
        by (by apply Hc_fails).
      rewrite Hnone.
      cbn [length] in Hhalf.
      assert ((stackCount <? 2 * (failedDeployments st + 1)) = false) as ->
        by (apply Z.ltb_ge; lia).
      match goal with
      | |- context [deployLoop _ _ _ _ _ _ ?st1 ?w1] =>
          destruct (IH (i + 1) st1 w1 Hnd Hfails') as (st' & w' & Hrun & Houts & HT1 & HT2)
      end.
      { cbn. lia. }
      { intros r [Hr|(r0 & Hr0 & Hg & ->)]%elem_of_table_after_update Hin; [|done].
        apply Havail; [by rewrite <- Hw3|by right]. }
      exists st', w'. split; [done|]. split.
      { rewrite Houts. cbn. rewrite map_app, <- app_assoc. cbn. by rewrite Hfc. }
      split.
      * intros r Hr Hnot. apply not_elem_of_cons in Hnot as [Hne Hnot].
        apply HT1 in Hr; [|done].
        apply elem_of_table_after_update in Hr as [Hr|(r0 & Hr0 & Hg & ->)];
          [by rewrite <- Hw3|done].
      * intros r Hr Hin Hfr.
        destruct (decide (guid r ∈ codes)) as [Hin'|Hnot]; [by apply HT2|].
        apply elem_of_cons in Hin as [Hg|Hin]; [|done].
        apply HT1 in Hr; [|done].
        apply elem_of_table_after_update in Hr as [Hr|(r0 & Hr0 & Hg' & ->)]; [|done].
        apply Havail; [by rewrite <- Hw3|]. rewrite Hg. by left.
    + (* the creation succeeds *)
      destruct (created_id (create_stack env input)) as [id|] eqn:Hid.
      2:{ destruct Hc_fails as [Hnone _]. by specialize (Hnone eq_refl). }
      match goal with
      | |- context [deployLoop _ _ _ _ _ _ ?st1 ?w1] =>
          destruct (IH (i + 1) st1 w1 Hnd Hfails') as (st' & w' & Hrun & Houts & HT1 & HT2)
      end.
      { cbn. lia. }
      { intros r [->|Hr]%elem_of_table_after_put Hin; [done|].
        apply Havail; [by rewrite <- Hw3|by right]. }
      exists st', w'. split; [done|]. split.
      { rewrite Houts. cbn. rewrite map_app, <- app_assoc. cbn. by rewrite Hfc. }
      split.
      * intros r Hr Hnot. apply not_elem_of_cons in Hnot as [Hne Hnot].
        apply HT1 in Hr; [|done].
        apply elem_of_table_after_put in Hr as [->|Hr]; [done|by rewrite <- Hw3].
      * intros r Hr Hin Hfr.
        destruct (decide (guid r ∈ codes)) as [Hin'|Hnot]; [by apply HT2|].
        apply elem_of_cons in Hin as [Hg|Hin]; [|done].
        rewrite Hg in Hfr. congruence.
Qed.

Lemma isAvailable_true r : isAvailable r = true ↔ status r = AVAILABLE.
Proof. unfold isAvailable, status_eqb. apply bool_decide_eq_true. Qed.

Lemma isAvailable_false r : isAvailable r = false ↔ status r ≠ AVAILABLE.
Proof. unfold isAvailable, status_eqb. apply bool_decide_eq_false. Qed.

Lemma available_ids_sublist t : available_ids t `sublist_of` map guid t.
Proof.
  unfold available_ids. induction t as [|r t IH]; cbn; [constructor|].
  destruct (isAvailable r); cbn; by constructor.
Qed.

Lemma NoDup_available_ids t : NoDup (map guid t) → NoDup (available_ids t).
Proof. intros Hnd. eapply sublist_NoDup; [done|apply available_ids_sublist]. Qed.

Lemma filter_none {A} (p : A → bool) l :
  (∀ x, x ∈ l → p x = false) → List.filter p l = [].
Proof.
  induction l as [|x l IH]; intros H; cbn; [done|].
  rewrite (H x) by by left. apply IH. intros y Hy. apply H. by right.
Qed.

Lemma filter_all {A} (p : A → bool) l :
  (∀ x, x ∈ l → p x = true) → List.filter p l = l.
Proof.
  induction l as [|x l IH]; intros H; cbn; [done|].
  rewrite (H x) by by left. f_equal. apply IH. intros y Hy. apply H. by right.
Qed.

Lemma guid_inj_on_table t r r' :
  NoDup (map guid t) → r ∈ t → r' ∈ t → guid r = guid r' → r = r'.
Proof.
  intros Hnd (i & Hi)%list_elem_of_lookup (j & Hj)%list_elem_of_lookup Hg.
  assert (i = j) as ->.
  { eapply NoDup_lookup; [done| |].
    - by rewrite list_lookup_fmap, Hi.
    - rewrite list_lookup_fmap, Hj. cbn. by rewrite Hg. }
  congruence.
Qed.

Lemma elem_of_available_ids t g :
  g ∈ available_ids t ↔ ∃ r, r ∈ t ∧ guid r = g ∧ status r = AVAILABLE.
Proof.
  unfold available_ids. rewrite list_elem_of_fmap. split.
  - intros (r & -> & Hr). apply list_elem_of_In, filter_In in Hr as [Hr Hav].
    exists r. split; [by apply list_elem_of_In|]. split; [done|].
    by apply isAvailable_true.
  - intros (r & Hr & <- & Hst). exists r. split; [done|].
    apply list_elem_of_In, filter_In. split; [by apply list_elem_of_In|].
    by apply isAvailable_true.
Qed.

Lemma available_ids_available t r :
  NoDup (map guid t) → r ∈ t → guid r ∈ available_ids t → status r = AVAILABLE.
Proof.
  intros Hnd Hr (r' & Hr' & Hg & Hst)%elem_of_available_ids.
  by rewrite <- (guid_inj_on_table t r' r Hnd Hr' Hr Hg).
Qed.

Lemma table_manageRule env (b : bool) w :
  table (snd ((if b then advisory (manageRuleBasedOnStackCount env) else mret ()) w)) =
  table w.
Proof.
  destruct b; [|done].
  assert (preserves same_table (advisory (manageRuleBasedOnStackCount env))) as H.
  { papply preserves_advisory. apply same_table_manageRuleBasedOnStackCount. }
  by destruct (H w) as (? & _).
Qed.

(** Ten codes are asked for, the first five creations succeed and the last
    five fail. *)
Lemma ten_codes_five_failures env w :
  let assigned := take 10 (available_ids (table w)) in
  validateStackCount env 10 w = (Ok (), w) →
  validateTemplateUrl env (templateUrl (config env)) w = (Ok (), w) →
  NoDup (map guid (table w)) →
  (10 ≤ length (available_ids (table w)))%nat →
  (∀ input, cs_UniqueId input ∈ take 5 assigned →
     created_id (create_stack env input) ≠ None) →
  (∀ input, cs_UniqueId input ∈ drop 5 assigned →
     created_id (create_stack env input) = None) →
  ∃ response w',
    deployStacks env 10 None w = (Ok response, w') ∧
    assignedAccessCodes response = assigned ∧
    map (λ d, (ds_uniqueId d, ds_status d)) (deployedStacks response) =
      map (λ c, (c, CREATE_IN_PROGRESS)) (take 5 assigned) ++
      map (λ c, (c, CREATE_FAILED)) (drop 5 assigned) ∧
    (∀ r, r ∈ table w' → guid r ∈ drop 5 assigned → status r = AVAILABLE).
Proof.
  intros assigned Hcount Hurl Hnd Hlen Hok Hfail.
  assert (NoDup assigned) as Hnd_assigned.
  { eapply sublist_NoDup; [by apply NoDup_available_ids|apply sublist_take]. }
  assert (length assigned = 10%nat) as Hlen_assigned.
  { unfold assigned. rewrite length_take. lia. }
  assert (assigned = take 5 assigned ++ drop 5 assigned) as Hsplit
    by (by rewrite take_drop).
  assert (∀ c, c ∈ take 5 assigned → c ∉ drop 5 assigned) as Hdisjoint.
  { rewrite Hsplit in Hnd_assigned. by apply list.NoDup_app in Hnd_assigned as (_ & ? & _). }
  set (fails := λ c : string, bool_decide (c ∈ drop 5 assigned)).
  unfold deployStacks. rewrite run_try_catch, run_bind, Hcount, run_bind, Hurl.
  rewrite run_bind, assignAccessCodes_first by lia.
  change (take (Z.to_nat 10) (available_ids (table w))) with assigned.
  rewrite run_bind. unfold now at 1. cbn [fst snd].
  rewrite run_bind.
  rewrite (take_ge assigned) by (rewrite Hlen_assigned; cbn; lia).
  destruct (deployLoop_outcomes env 10
              (Js.or_default (stackNamePrefix (config env)) "deployment-stack")
              (time_at env (clock w)) fails assigned 0 no_progress (tick_clock w))
    as (st' & w' & Hrun & Houts & _ & Havail); [done| | | |].
  { intros input Hin. unfold fails. rewrite bool_decide_eq_true.
    rewrite Hsplit in Hin. apply elem_of_app in Hin as [Hin|Hin].
    - split; [by intros ?%Hok|]. intros Hin'. by apply Hdisjoint in Hin.
    - split; [done|]. intros _. by apply Hfail. }
  { cbn [failedDeployments no_progress].
    assert (length (List.filter fails assigned) = 5%nat) as ->; [|lia].
    rewrite Hsplit at 1. rewrite List.filter_app, length_app.
    assert (List.filter fails (take 5 assigned) = []) as ->.
    { apply filter_none. intros c Hc. unfold fails.
      apply bool_decide_eq_false. by apply Hdisjoint. }
    assert (List.filter fails (drop 5 assigned) = drop 5 assigned) as ->.
    { apply filter_all. intros c Hc. unfold fails. by apply bool_decide_eq_true. }
    rewrite length_drop. cbn. lia. }
  { intros r Hr Hin. apply available_ids_available with (t := table w); [done|done|].
    apply elem_of_take in Hin as (i & Hi & _). by eapply list_elem_of_lookup_2. }
  unfold no_progress in Hrun. rewrite Hrun.
  set (resp := {| deployedStacks := p_deployedStacks st'; assignedAccessCodes := assigned |}).
  rewrite run_bind.
  pose proof (table_manageRule env (0 <? successfulDeployments st') w') as Htable.
  match type of Htable with
  | table (snd ?x) = _ => destruct x as [[[]|e] w''] eqn:Hrule
  end.
  2:{ exfalso. destruct (0 <? successfulDeployments st').
      - rewrite run_advisory in Hrule. done.
      - done. }
  cbn [snd] in Htable.
  exists resp, w''. split; [done|]. split; [done|]. split.
  - cbn [deployedStacks resp]. rewrite Houts. cbn [p_deployedStacks no_progress map app].
    rewrite Hsplit at 1. rewrite map_app. f_equal.
    + apply map_ext_in. intros c Hc%list_elem_of_In. unfold fails.
      rewrite bool_decide_false; [done|]. by apply Hdisjoint.
    + apply map_ext_in. intros c Hc%list_elem_of_In. unfold fails.
      by rewrite bool_decide_true.
  - intros r Hr Hin. rewrite Htable in Hr. apply Havail; [done| |].
    + rewrite Hsplit. apply elem_of_app. by right.
    + unfold fails. by apply bool_decide_eq_true.
Qed.

(** C2.  A creation that fails gives the code back (the record is written
    with the status AVAILABLE and without the attributes of a stack, when
    the table accepts the write; it was available before), records a
    CREATE_FAILED outcome and lets the loop go on, unless the failures now
    exceed half of the batch: then the loop stops with
    DEPLOYMENT_BATCH_FAILED, which carries the numbers of successful and
    failed creations.  A batch ends with that error exactly when its failed
    creations exceed half of [stackCount].  With ten codes, the first five
    creations accepted and the last five refused, the ten outcomes are five
    CREATE_IN_PROGRESS and five CREATE_FAILED, and the records of the five
    failed codes have the status AVAILABLE. *)
Theorem partial_failure_containment env :
  (∀ stackCount stackPrefix timestamp i accessCode st w,
     created_id
       (create_stack env (create_input env stackPrefix timestamp i accessCode w)) =
       None →
     let out := deployOne env stackCount stackPrefix timestamp i accessCode st w in
     (∃ t,
        table (snd out) =
        match write_error env (writes w) with
        | None => updateItem accessCode (applyUpdates release_updates t) (table w)
        | Some _ => table w
        end) ∧
     (write_error env (writes w) = None →
      ∀ r, r ∈ table (snd out) → guid r = accessCode →
        status r = AVAILABLE ∧ stackArn r = None ∧ stackName r = None ∧
        stackId r = None ∧ createdAt r = None) ∧
     (2 * (failedDeployments st + 1) ≤ stackCount →
      fst out =
      Ok {| p_deployedStacks :=
              p_deployedStacks st ++
                [{| ds_stackName := stackName_of stackPrefix accessCode timestamp i;
                    ds_stackId := ""; ds_uniqueId := accessCode;
                    ds_status := CREATE_FAILED;
                    ds_createdAt := time_at env (S (clock w)) |}];
            successfulDeployments := successfulDeployments st;
            failedDeployments := failedDeployments st + 1 |}) ∧
     (stackCount < 2 * (failedDeployments st + 1) →
      fst out =
      Throw (ELambda
        {| statusCode := 500; code := "DEPLOYMENT_BATCH_FAILED";
           details :=
             BatchFailedDetails (successfulDeployments st)
               (failedDeployments st + 1) stackCount
               (creation_error_message
                  (create_stack env
                     (create_input env stackPrefix timestamp i accessCode w))) |}))) ∧
  (∀ stackCount stackPrefix timestamp codes w,
     0 ≤ stackCount →
     let out := deployLoop env stackCount stackPrefix timestamp 0 codes no_progress w in
     let failures := failed_creations env (new_calls w (snd out)) in
     let successes := successful_creations env (new_calls w (snd out)) in
     match fst out with
     | Ok st =>
         2 * failures ≤ stackCount ∧ failedDeployments st = failures ∧
         successfulDeployments st = successes ∧
         map ds_uniqueId (p_deployedStacks st) = codes
     | Throw e =>
         stackCount < 2 * failures ∧
         ∃ message,
           e = ELambda
                 {| statusCode := 500; code := "DEPLOYMENT_BATCH_FAILED";
                    details :=
                      BatchFailedDetails successes failures stackCount message |}
     end) ∧
  (∀ w,
     let assigned := take 10 (available_ids (table w)) in
     validateStackCount env 10 w = (Ok (), w) →
     validateTemplateUrl env (templateUrl (config env)) w = (Ok (), w) →
     NoDup (map guid (table w)) →
     (10 ≤ length (available_ids (table w)))%nat →
     (∀ input, cs_UniqueId input ∈ take 5 assigned →
        created_id (create_stack env input) ≠ None) →
     (∀ input, cs_UniqueId input ∈ drop 5 assigned →
        created_id (create_stack env input) = None) →
     ∃ response w',
       deployStacks env 10 None w = (Ok response, w') ∧
       assignedAccessCodes response = assigned ∧
       map (λ d, (ds_uniqueId d, ds_status d)) (deployedStacks response) =
         map (λ c, (c, CREATE_IN_PROGRESS)) (take 5 assigned) ++
         map (λ c, (c, CREATE_FAILED)) (drop 5 assigned) ∧
       (∀ r, r ∈ table w' → guid r ∈ drop 5 assigned → status r = AVAILABLE)).
Proof.
  split; [|split].
  - intros stackCount stackPrefix timestamp i accessCode st w Hnone out. subst out.
    rewrite run_deployOne. cbn zeta. rewrite Hnone. cbn [fst snd].
    split; [|split; [|split]].
    + exists (time_at env (S (S (clock w)))). rewrite table_send_write. cbn.
      by destruct (write_error env (writes w)).
    + intros Hw r Hr Hg. rewrite table_send_write in Hr. cbn in Hr.
      rewrite Hw in Hr. apply elem_of_updateItem in Hr as (r0 & Hr0 & ->).
      destruct (same_guid accessCode r0) eqn:Hsame; [done|].
      apply same_guid_false in Hsame. done.
    + intros Hle. apply Z.ltb_ge in Hle. by rewrite Hle.
    + intros Hlt. apply Z.ltb_lt in Hlt. by rewrite Hlt.
  - intros stackCount stackPrefix timestamp codes w Hpos out failures successes.
    destruct (deployLoop_counts env stackCount stackPrefix timestamp codes 0
                no_progress w) as (log & Hlog & Hres).
    fold out in Hlog, Hres.
    assert (new_calls w (snd out) = log) as Hnew.
    { unfold new_calls. rewrite Hlog. apply drop_app_length. }
    subst failures successes. rewrite Hnew.
    destruct (fst out) as [st|e]; cbn in Hres.
    + destruct Hres as (Hf & Hs & Hle & Hids). repeat split; [lia|lia|lia|done].
    + destruct Hres as (Hlt & message & ->). split; [lia|]. by exists message.
  - apply ten_codes_five_failures.
Qed.

Lemma partial_failure_containment_witness :
  validateStackCount five_failures_env 10 (world_of (map fresh ten_ids)) =
    (Ok (), world_of (map fresh ten_ids)) ∧
  validateTemplateUrl five_failures_env (templateUrl (config five_failures_env))
    (world_of (map fresh ten_ids)) = (Ok (), world_of (map fresh ten_ids)) ∧
  NoDup (map guid (table (world_of (map fresh ten_ids)))) ∧
  (10 ≤ length (available_ids (table (world_of (map fresh ten_ids)))))%nat ∧
  ∃ response w',
    deployStacks five_failures_env 10 None (world_of (map fresh ten_ids)) =
      (Ok response, w') ∧
    assignedAccessCodes response = ten_ids ∧
    map (λ d, (ds_uniqueId d, ds_status d)) (deployedStacks response) =
      map (λ c, (c, CREATE_IN_PROGRESS)) (take 5 ten_ids) ++
      map (λ c, (c, CREATE_FAILED)) (drop 5 ten_ids) ∧
    (∀ r, r ∈ table w' → guid r ∈ drop 5 ten_ids → status r = AVAILABLE).
Proof.
  assert (NoDup (map guid (table (world_of (map fresh ten_ids))))) as Hnd.
  { apply (bool_decide_unpack _). by vm_compute. }
  split; [reflexivity|]. split; [reflexivity|]. split; [exact Hnd|].
  split; [vm_compute; lia|].
  apply (proj2 (proj2 (partial_failure_containment five_failures_env))
           (world_of (map fresh ten_ids))).
  - reflexivity.
  - reflexivity.
  - exact Hnd.
  - vm_compute. lia.
  - intros input Hin.
    change (take 5 (take 10 (available_ids (table (world_of (map fresh ten_ids))))))
      with (take 5 ten_ids) in Hin.
    assert (Js.arr_includes (drop 5 ten_ids) (cs_UniqueId input) = false) as Hno.
    { apply elem_of_take in Hin as (i & Hi & Hlt).
      do 5 (destruct i as [|i]; [injection Hi as <-; reflexivity|]). lia. }
    cbn [create_stack five_failures_env]. rewrite Hno. done.
  - intros input Hin.
    change (drop 5 (take 10 (available_ids (table (world_of (map fresh ten_ids))))))
      with (drop 5 ten_ids) in Hin.
    apply arr_includes_elem_of in Hin.
    cbn [create_stack five_failures_env]. by rewrite Hin.
Defined.

(** ** The synchronisation of one record *)

Lemma run_describeForSync env arn w :
  describeForSync env arn w =
  (match described env arn with
   | inr d => Ok d
   | inl e => Throw e
   end, log_call (DescribeStacks arn) w).
Proof.
  unfold describeForSync, described, send_DescribeStacks, cfn_send.
  rewrite run_try_catch, run_bind.
  destruct (describe_stacks env arn) as [stacks|e]; [done|].
  by destruct (String.eqb (err_name e) "ValidationError" && _).
Qed.

Lemma run_syncStackRecord_skip env record w :
  Js.truthy (stackArn record) = false →
  syncStackRecord env record w = (Ok {| sr_success := true; sr_error := None |}, w).
Proof. intros H. unfold syncStackRecord. by rewrite run_try_catch, H. Qed.

Lemma run_syncStackRecord env record w :
  Js.truthy (stackArn record) = true →
  syncStackRecord env record w =
  let arn := default "" (stackArn record) in
  let w1 := log_call (DescribeStacks arn) w in
  let t := time_at env (clock w) in
  match described env arn with
  | inr d =>
      let u :=
        if snd (syncChanges record (fst d) (snd d) t)
        then fst (syncChanges record (fst d) (snd d) t)
        else only_lastSyncAt t in
      match write_error env (writes w) with
      | None =>
          (Ok {| sr_success := true; sr_error := None |},
           snd (send_write env
                  (updateItem (guid record)
                     (applyUpdates u (time_at env (S (clock w)))))
                  (tick_clock (tick_clock w1))))
      | Some e =>
          (Ok {| sr_success := false; sr_error := Some (error_text (EJs e)) |},
           snd (send_write env
                  (updateItem (guid record)
                     (applyUpdates
                        (syncError_updates (error_text (EJs e))
                           (time_at env (S (S (clock w)))))
                        (time_at env (S (S (S (clock w)))))))
                  (tick_clock (tick_clock (tick_writes (tick_clock (tick_clock w1)))))))
      end
  | inl e =>
      (Ok {| sr_success := false; sr_error := Some (error_text e) |},
       snd (send_write env
              (updateItem (guid record)
                 (applyUpdates (syncError_updates (error_text e) t)
                    (time_at env (S (clock w)))))
              (tick_clock (tick_clock w1))))
  end.
Proof.
  intros Harn. unfold syncStackRecord. rewrite run_try_catch, Harn. cbn [negb].
  rewrite run_bind, run_describeForSync. cbn zeta.
  destruct (described env _) as [e|d].
  - rewrite run_bind, run_advisory, run_bind. unfold now at 1. cbn [fst snd].
    rewrite run_updateStackRecord. unfold send_write. cbn.
    by destruct (write_error env (writes w)).
  - rewrite run_bind. unfold now at 1. cbn [fst snd]. rewrite run_bind.
    assert (∀ u,
      updateStackRecord env (guid record) u
        (tick_clock (log_call (DescribeStacks (default "" (stackArn record))) w)) =
      match write_error env (writes w) with
      | Some e =>
          (Throw (EJs e),
           tick_writes (tick_clock (tick_clock
             (log_call (DescribeStacks (default "" (stackArn record))) w))))
      | None =>
          (Ok (),
           snd (send_write env
                  (updateItem (guid record)
                     (applyUpdates u (time_at env (S (clock w)))))
                  (tick_clock (tick_clock
                     (log_call (DescribeStacks (default "" (stackArn record))) w)))))
      end) as Hupd.
    { intros u. rewrite run_updateStackRecord. unfold send_write. cbn.
      by destruct (write_error env (writes w)). }
    change (clock (log_call (DescribeStacks (default "" (stackArn record))) w))
      with (clock w).
    destruct (snd (syncChanges record (fst d) (snd d) (time_at env (clock w))));
      rewrite Hupd; destruct (write_error env (writes w)) as [e|]; try done.
    all: rewrite run_bind, run_advisory, run_bind; unfold now at 1; cbn [fst snd].
    all: rewrite run_updateStackRecord; unfold send_write; cbn.
    all: by destruct (write_error env (S (writes w))).
Qed.

Lemma syncStackRecord_returns env record w :
  ∃ result, fst (syncStackRecord env record w) = Ok result.
Proof.
  destruct (Js.truthy (stackArn record)) eqn:Harn.
  - rewrite run_syncStackRecord by done. cbn zeta.
    destruct (described env _); [by eexists|].
    destruct (write_error env (writes w)); by eexists.
  - rewrite run_syncStackRecord_skip by done. by eexists.
Qed.

Lemma run_syncOneOfAll env result record w :
  ∃ result',
    syncOneOfAll env result record w =
    (Ok result', snd (syncStackRecord env record w)).
Proof.
  unfold syncOneOfAll. rewrite run_bind.
  destruct (syncStackRecord_returns env record w) as (r & Hr).
  destruct (syncStackRecord env record w) as [o w1]. cbn [fst snd] in *. subst o.
  destruct (sr_success r); by eexists.
Qed.

Lemma updateItem_id key t : updateItem key id t = t.
Proof.
  unfold updateItem. induction t as [|r t IH]; cbn; [done|].
  f_equal; [by destruct (same_guid key r)|apply IH].
Qed.

(** What one synchronisation does to the table, whatever the table answers
    to the writes. *)
Lemma sync_step_general env record w :
  ∃ f,
    table (snd (syncStackRecord env record w)) = updateItem (guid record) f (table w) ∧
    (f = id ∨
     ∃ u tu, f = applyUpdates u tu ∧ sync_write env record u ∧
             Js.truthy (stackArn record) = true).
Proof.
  destruct (Js.truthy (stackArn record)) eqn:Harn.
  2:{ exists id. rewrite run_syncStackRecord_skip, updateItem_id by done. auto. }
  rewrite run_syncStackRecord by done. cbn zeta.
  destruct (described env (default "" (stackArn record))) as [e|d] eqn:Hd.
  - cbn [snd]. rewrite table_send_write. cbn [writes tick_clock log_call table].
    destruct (write_error env (writes w)).
    + exists id. rewrite updateItem_id. auto.
    + eexists. split; [reflexivity|]. right. eexists _, _. split; [reflexivity|].
      split; [|done]. left. by eexists _, _.
  - destruct (write_error env (writes w)) eqn:Hw; cbn [snd];
      rewrite table_send_write; cbn [writes tick_clock tick_writes log_call table].
    + destruct (write_error env (S (writes w))).
      * exists id. rewrite updateItem_id. auto.
      * eexists. split; [reflexivity|]. right. eexists _, _. split; [reflexivity|].
        split; [|done]. left. by eexists _, _.
    + rewrite Hw. eexists. split; [reflexivity|]. right. eexists _, _.
      split; [reflexivity|]. split; [|done]. right. exists d. by eexists.
Qed.

(** What one synchronisation does to the table when the table accepts the
    writes. *)
Lemma sync_step_ok env record w :
  (∀ n, write_error env n = None) →
  ∃ f t tu,
    table (snd (syncStackRecord env record w)) = updateItem (guid record) f (table w) ∧
    (∀ x, guid (f x) = guid x) ∧
    f record = synced env record t tu.
Proof.
  intros Hw. unfold synced.
  destruct (Js.truthy (stackArn record)) eqn:Harn; cbn [negb].
  2:{ exists id, 0%N, 0%N. by rewrite run_syncStackRecord_skip, updateItem_id. }
  rewrite run_syncStackRecord by done. cbn zeta.
  destruct (described env (default "" (stackArn record))) as [e|d] eqn:Hd.
  - cbn [snd]. rewrite table_send_write, Hw. cbn [tick_clock log_call table].
    eexists _, _, _. split; [reflexivity|]. by split.
  - rewrite Hw. cbn [snd]. rewrite table_send_write, Hw.
    cbn [tick_clock log_call table].
    eexists _, _, _. split; [reflexivity|]. by split.
Qed.

Lemma sync_fold env (Q : StackRecord → StackRecord → Prop) :
  (∀ r w, ∃ f,
     table (snd (syncStackRecord env r w)) = updateItem (guid r) f (table w) ∧
     (∀ x, guid (f x) = guid x) ∧ Q r (f r)) →
  ∀ rs result w,
    NoDup (map guid (table w)) →
    NoDup (map guid rs) →
    (∀ r, r ∈ rs → r ∈ table w) →
    Forall2 (λ x x', guid x' = guid x ∧ (x ∈ rs → Q x x') ∧ (x ∉ rs → x' = x))
      (table w) (table (snd (foldM (syncOneOfAll env) result rs w))).
Proof.
  intros Hstep. induction rs as [|r rs IH]; intros result w Hnd Hrs Hin.
  - cbn. apply Forall_Forall2_diag, Forall_forall. intros x _.
    split; [done|]. split; [by intros ?%elem_of_nil|done].
  - cbn [foldM]. rewrite run_bind.
    destruct (run_syncOneOfAll env result r w) as (result' & ->).
    destruct (Hstep r w) as (f & Htable & Hguid & HQ).
    set (w1 := snd (syncStackRecord env r w)) in *.
    cbn [map] in Hrs. apply list.NoDup_cons in Hrs as [Hr Hrs].
    assert (∀ x, x ∈ table w → guid x = guid r → x = r) as Hsame.
    { intros x Hx Hg. apply (guid_inj_on_table (table w)); [done|done| |done].
      apply Hin. by left. }
    assert (NoDup (map guid (table w1))) as Hnd1.
    { rewrite Htable, map_guid_updateItem; done. }
    assert (∀ r2, r2 ∈ rs → r2 ∈ table w1) as Hin1.
    { intros r2 Hr2. rewrite Htable. apply elem_of_updateItem. exists r2.
      split; [apply Hin; by right|].
      destruct (same_guid (guid r) r2) eqn:Hg; [|done].
      apply same_guid_true in Hg. exfalso. apply Hr.
      rewrite <- Hg. apply list_elem_of_fmap. by exists r2. }
    specialize (IH result' w1 Hnd1 Hrs Hin1).
    rewrite Htable in IH. unfold updateItem in IH.
    apply Forall2_fmap_l in IH.
    apply Forall2_same_length_lookup. apply Forall2_same_length_lookup in IH.
    destruct IH as [Hlen IH]. split; [done|].
    intros i x x' Hx Hx'. specialize (IH i x x' Hx Hx'). cbn in IH.
    assert (x ∈ table w) as Hxin by by eapply list_elem_of_lookup_2.
    destruct (same_guid (guid r) x) eqn:Hg.
    + apply same_guid_true in Hg. assert (x = r) as -> by by apply Hsame.
      destruct IH as (Hg' & _ & Hnot).
      assert (f r ∉ rs) as Hfr.
      { intros Hfr. apply Hr. rewrite <- (Hguid r).
        apply list_elem_of_fmap. by exists (f r). }
      rewrite (Hnot Hfr). split; [apply Hguid|].
      split; [done|]. intros Hn. exfalso. apply Hn. by left.
    + apply same_guid_false in Hg. destruct IH as (Hg' & HQ' & Hnot).
      split; [done|]. split.
      * intros [->|Hxrs]%elem_of_cons; [done|]. by apply HQ'.
      * intros Hn. apply Hnot. intros Hxrs. apply Hn. by right.
Qed.

(** ** A pass over the table *)

Lemma map_guid_filter_sublist (p : StackRecord → bool) t :
  map guid (List.filter p t) `sublist_of` map guid t.
Proof.
  induction t as [|r t IH]; cbn; [constructor|].
  destruct (p r); cbn; by constructor.
Qed.

Lemma elem_of_filter {A} (p : A → bool) l x :
  x ∈ List.filter p l ↔ x ∈ l ∧ p x = true.
Proof. rewrite !list_elem_of_In. apply filter_In. Qed.

Lemma foldM_syncOneOfAll_returns env rs :
  ∀ result w, ∃ result', fst (foldM (syncOneOfAll env) result rs w) = Ok result'.
Proof.
  induction rs as [|r rs IH]; intros result w; cbn [foldM]; [by eexists|].
  rewrite run_bind. destruct (run_syncOneOfAll env result r w) as (result' & ->).
  apply IH.
Qed.

Lemma same_table_disableRuleWhenAllDeleted env :
  preserves same_table (disableRuleWhenAllDeleted env).
Proof.
  unfold disableRuleWhenAllDeleted, validateAllStacksDeletionComplete.
  repeat first [apply same_table_ensureRuleDisabled | same_table_step].
Qed.


Lemma table_syncAllStacks env w :
  table (snd (syncAllStacks env w)) =
  table (snd (foldM (syncOneOfAll env) (sync_start (table w))
                (List.filter (λ r, negb (isAvailable r)) (table w)) w)).
Proof.
  unfold syncAllStacks. rewrite run_bind, run_getNonAvailableStackRecords.
  fold (sync_start (table w)).
  destruct (List.filter (λ r, negb (isAvailable r)) (table w)) as [|r rs] eqn:Hrs.
  - cbn [length Nat.eqb foldM]. rewrite run_bind.
    pose proof (same_table_disableRuleWhenAllDeleted env w) as (Ht & _).
    destruct (disableRuleWhenAllDeleted env w) as [[[]|e] w1]; done.
  - cbn [length Nat.eqb]. rewrite run_bind.
    destruct (foldM_syncOneOfAll_returns env (r :: rs) (sync_start (table w)) w)
      as (result' & Hres).
    destruct (foldM (syncOneOfAll env) (sync_start (table w)) (r :: rs) w)
      as [o w1]. cbn [fst snd] in *. subst o.
    rewrite run_bind.
    pose proof (same_table_disableRuleWhenAllDeleted env w1) as (Ht & _).
    destruct (disableRuleWhenAllDeleted env w1) as [[[]|e] w2]; done.
Qed.

Lemma sync_pass_general env w :
  NoDup (map guid (table w)) →
  Forall2
    (λ x x',
       guid x' = guid x ∧
       (x' = x ∨
        isAvailable x = false ∧ Js.truthy (stackArn x) = true ∧
        ∃ u tu, x' = applyUpdates u tu x ∧ sync_write env x u))
    (table w) (table (snd (syncAllStacks env w))).
Proof.
  intros Hnd. rewrite table_syncAllStacks.
  set (rs := List.filter (λ r, negb (isAvailable r)) (table w)).
  set (Q := λ x x' : StackRecord,
         x' = x ∨ Js.truthy (stackArn x) = true ∧
                  ∃ u tu, x' = applyUpdates u tu x ∧ sync_write env x u).
  assert (∀ r w0, ∃ f,
     table (snd (syncStackRecord env r w0)) = updateItem (guid r) f (table w0) ∧
     (∀ x, guid (f x) = guid x) ∧ Q r (f r)) as Hstep.
  { intros r w0.
    destruct (sync_step_general env r w0) as (f & Ht & [->|(u & tu & -> & Hu & Harn)]).
    - exists id. split; [done|]. split; [done|]. by left.
    - eexists. split; [done|]. split; [done|]. right. split; [done|]. by eexists _, _. }
  assert (NoDup (map guid rs)) as Hrs
    by (eapply sublist_NoDup; [done|apply map_guid_filter_sublist]).
  assert (∀ r, r ∈ rs → r ∈ table w) as Hin
    by (intros r Hr; by apply elem_of_filter in Hr as [? _]).
  refine (list.Forall2_impl _ _ _ _
            (sync_fold env Q Hstep rs (sync_start (table w)) w Hnd Hrs Hin) _).
  cbn. intros x x' (Hg & HQ & Hnot). split; [done|].
  destruct (isAvailable x) eqn:Hav.
  - left. apply Hnot. intros [_ H]%elem_of_filter. by rewrite Hav in H.
  - destruct (decide (x ∈ rs)) as [Hxin|Hnin]; [|left; by apply Hnot].
    destruct (HQ Hxin) as [->|(Harn & Hu)]; [by left|]. right. done.
Qed.

Lemma sync_pass_ok env w :
  (∀ n, write_error env n = None) →
  NoDup (map guid (table w)) →
  Forall2
    (λ x x',
       guid x' = guid x ∧
       if isAvailable x then x' = x else ∃ t tu, x' = synced env x t tu)
    (table w) (table (snd (syncAllStacks env w))).
Proof.
  intros Hw Hnd. rewrite table_syncAllStacks.
  set (rs := List.filter (λ r, negb (isAvailable r)) (table w)).
  set (Q := λ x x' : StackRecord, ∃ t tu, x' = synced env x t tu).
  assert (∀ r w0, ∃ f,
     table (snd (syncStackRecord env r w0)) = updateItem (guid r) f (table w0) ∧
     (∀ x, guid (f x) = guid x) ∧ Q r (f r)) as Hstep.
  { intros r w0.
    destruct (sync_step_ok env r w0 Hw) as (f & t & tu & Ht & Hg & Hf).
    exists f. split; [done|]. split; [done|]. by exists t, tu. }
  assert (NoDup (map guid rs)) as Hrs
    by (eapply sublist_NoDup; [done|apply map_guid_filter_sublist]).
  assert (∀ r, r ∈ rs → r ∈ table w) as Hin
    by (intros r Hr; by apply elem_of_filter in Hr as [? _]).
  pose proof (sync_fold env Q Hstep rs (sync_start (table w)) w Hnd Hrs Hin) as Hfold.
  apply Forall2_same_length_lookup in Hfold as [Hlen Hfold].
  apply Forall2_same_length_lookup. split; [done|].
  intros i x x' Hx Hx'. destruct (Hfold i x x' Hx Hx') as (Hg & HQ & Hnot).
  split; [done|].
  assert (x ∈ table w) as Hxin by by eapply list_elem_of_lookup_2.
  destruct (isAvailable x) eqn:Hav.
  - apply Hnot. intros [_ Hp]%elem_of_filter. by rewrite Hav in Hp.
  - apply HQ. apply elem_of_filter. by rewrite Hav.
Qed.

(** ** How the operations change the table *)

Lemma Forall2_map_self {A} (R : A → A → Prop) (g : A → A) l :
  (∀ x, x ∈ l → R x (g x)) → Forall2 R l (map g l).
Proof.
  induction l as [|x l IH]; intros H; cbn; [constructor|].
  constructor; [apply H; by left|]. apply IH. intros y Hy. apply H. by right.
Qed.

Lemma Forall2_compose {A} (R1 R2 R3 : A → A → Prop) l1 l2 l3 :
  Forall2 R1 l1 l2 → Forall2 R2 l2 l3 →
  (∀ x y z, R1 x y → R2 y z → R3 x z) → Forall2 R3 l1 l3.
Proof.
  intros H12. revert l3. induction H12 as [|x y l1 l2 Hxy H12 IH]; intros l3 H23 Hc.
  - inversion H23. constructor.
  - inversion H23 as [|? z ? l3' Hyz H23']; subst. constructor; eauto.
Qed.

Lemma Forall2_guid (R : StackRecord → StackRecord → Prop) t t' :
  Forall2 R t t' → (∀ r r', R r r' → guid r' = guid r) → map guid t' = map guid t.
Proof.
  intros H HR. induction H as [|r r' t t' Hr H IH]; cbn; [done|].
  by rewrite (HR r r' Hr), IH.
Qed.

Lemma created_id_truthy reply id :
  created_id reply = Some id → Js.truthy (Some id) = true.
Proof.
  destruct reply as [[id'|]|e]; cbn; try done.
  destruct (String.eqb id' "") eqn:Hid; [done|]. intros [= <-]. by rewrite Hid.
Qed.

Lemma putItem_map item t :
  guid item ∈ map guid t →
  putItem item t = map (λ r, if same_guid (guid item) r then item else r) t.
Proof.
  intros Hin. unfold putItem.
  assert (existsb (same_guid (guid item)) t = true) as ->; [|done].
  apply list_elem_of_fmap in Hin as (r & Hg & Hr).
  apply existsb_exists. exists r.
  split; [by apply list_elem_of_In|by apply same_guid_true].
Qed.

Lemma deploy_rel_refl codes t : Forall2 (deploy_rel codes) t t.
Proof. apply Forall_Forall2_diag, Forall_forall. intros r _. repeat split; auto. Qed.

Lemma deployOne_table env stackCount stackPrefix timestamp i c st w :
  c ∈ map guid (table w) →
  Forall2 (deploy_rel [c]) (table w)
    (table (snd (deployOne env stackCount stackPrefix timestamp i c st w))).
Proof.
  intros Hc. rewrite run_deployOne. cbn zeta.
  destruct (created_id _) as [id|] eqn:Hid; cbn [snd]; rewrite table_send_write;
    destruct (write_error env _); cbn [table tick_clock log_call];
    try apply deploy_rel_refl.
  - rewrite putItem_map by done. apply Forall2_map_self. intros r Hr.
    cbn [guid created_record].
    destruct (same_guid c r) eqn:Hg.
    + apply same_guid_true in Hg. split; [done|]. split.
      * intros Hn. exfalso. apply Hn. rewrite Hg. by left.
      * right. right. unfold isActive, isAvailable, status_eqb.
        cbn [status stackArn created_record].
        by rewrite (created_id_truthy _ _ Hid).
    + repeat split; auto.
  - apply Forall2_map_self. intros r Hr.
    destruct (same_guid c r) eqn:Hg.
    + apply same_guid_true in Hg. split; [done|]. split.
      * intros Hn. exfalso. apply Hn. rewrite Hg. by left.
      * right. by left.
    + repeat split; auto.
Qed.

Lemma deployLoop_table env stackCount stackPrefix timestamp codes :
  ∀ i st w,
    (∀ c, c ∈ codes → c ∈ map guid (table w)) →
    Forall2 (deploy_rel codes) (table w)
      (table (snd (deployLoop env stackCount stackPrefix timestamp i codes st w))).
Proof.
  induction codes as [|c codes IH]; intros i st w Hin.
  - apply deploy_rel_refl.
  - cbn [deployLoop]. rewrite run_bind.
    pose proof (deployOne_table env stackCount stackPrefix timestamp i c st w
                  (Hin c ltac:(by left))) as Hstep.
    destruct (deployOne env stackCount stackPrefix timestamp i c st w)
      as [[st1|e] w1]; cbn [snd] in *.
    + eapply Forall2_compose; [exact Hstep|apply IH|].
      * intros c' Hc'.
        rewrite (Forall2_guid _ _ _ Hstep) by (by intros ?? (? & _)).
        apply Hin. by right.
      * intros x y z (Hg1 & Hn1 & Hok1) (Hg2 & Hn2 & Hok2).
        split; [congruence|]. split.
        -- intros Hn. apply not_elem_of_cons in Hn as [Hne Hn].
           assert (z = y) as -> by (apply Hn2; congruence).
           apply Hn1. by intros ?%list_elem_of_singleton.
        -- destruct Hok2 as [->|Hok2]; [done|by right].
    + eapply list.Forall2_impl; [exact Hstep|].
      intros x y (Hg & Hn & Hok). split; [done|]. split; [|done].
      intros Hn'. apply Hn. intros Heq%list_elem_of_singleton. apply Hn'.
      rewrite Heq. by left.
Qed.

Lemma Forall2_impl_elem {A B} (R Q : A → B → Prop) l k :
  Forall2 R l k → (∀ x y, x ∈ l → R x y → Q x y) → Forall2 Q l k.
Proof.
  intros H. induction H as [|x y l k Hxy H IH]; intros HQ; constructor.
  - apply HQ; [by left|done].
  - apply IH. intros x' y' Hx'. apply HQ. by right.
Qed.


Global Instance unchanged_preorder : PreOrder unchanged.
Proof. split; [by intros w|]. intros w1 w2 w3 H1 H2. unfold unchanged in *. congruence. Qed.

Lemma unchanged_validateStackCount env stackCount :
  preserves unchanged (validateStackCount env stackCount).
Proof. unfold validateStackCount. repeat preserves_step. Qed.

Lemma unchanged_validateTemplateUrl env url :
  preserves unchanged (validateTemplateUrl env url).
Proof. unfold validateTemplateUrl. repeat preserves_step. Qed.

Lemma op_rel_refl env op t : Forall2 (op_rel env op) t t.
Proof. apply Forall_Forall2_diag, Forall_forall. intros r _. split; auto. Qed.

Lemma available_ids_guids t c : c ∈ available_ids t → c ∈ map guid t.
Proof. intros H. eapply elem_of_sublist; [done|apply available_ids_sublist]. Qed.

Lemma deployStacks_table env stackCount selected w :
  NoDup (map guid (table w)) →
  Forall2 (op_rel env (Allocate stackCount selected)) (table w)
    (table (snd (deployStacks env stackCount selected w))).
Proof.
  intros Hnd. unfold deployStacks. rewrite run_try_catch, run_bind.
  pose proof (unchanged_validateStackCount env stackCount w) as Hv1.
  destruct (validateStackCount env stackCount w) as [[[]|e] w1];
    cbn [snd] in Hv1; unfold unchanged in Hv1; subst w1.
  2:{ destruct e; apply op_rel_refl. }
  rewrite run_bind.
  pose proof (unchanged_validateTemplateUrl env (templateUrl (config env)) w) as Hv2.
  destruct (validateTemplateUrl env _ w) as [[[]|e] w1];
    cbn [snd] in Hv2; unfold unchanged in Hv2; subst w1.
  2:{ destruct e; apply op_rel_refl. }
  rewrite run_bind.
  destruct (assignAccessCodes stackCount selected w) as [[assigned|e] w1] eqn:Hassign.
  2:{ pose proof (preserves_assignAccessCodes unchanged stackCount selected w) as Hu.
      rewrite Hassign in Hu. cbn [snd] in Hu. unfold unchanged in Hu. subst w1.
      destruct e; apply op_rel_refl. }
  apply assignAccessCodes_available in Hassign as [-> Havail].
  rewrite run_bind. unfold now at 1. cbn [fst snd]. rewrite run_bind.
  set (codes := take (Z.to_nat stackCount) assigned).
  assert (∀ c, c ∈ codes → c ∈ available_ids (table w)) as Hcodes.
  { intros c Hc. apply Havail. eapply elem_of_sublist; [done|apply sublist_take]. }
  assert (∀ t', Forall2 (deploy_rel codes) (table w) t' →
               Forall2 (op_rel env (Allocate stackCount selected)) (table w) t')
    as Hconv.
  { intros t' Hloop. eapply Forall2_impl_elem; [exact Hloop|].
    intros r r' Hr (Hg & Hn & Hok). split; [done|].
    destruct (decide (guid r ∈ codes)) as [Hin|Hnin]; [|left; by apply Hn].
    destruct Hok as [->|Hok]; [by left|]. right. split; [|done].
    apply isAvailable_true.
    apply (available_ids_available (table w)); [done|done|by apply Hcodes]. }
  match goal with
  | |- context [deployLoop env ?n ?p ?ts ?i codes ?st ?w0] =>
      pose proof (deployLoop_table env n p ts codes i st w0
                    (λ c Hc, available_ids_guids _ _ (Hcodes c Hc))) as Hloop;
      destruct (deployLoop env n p ts i codes st w0) as [[st'|e] w2]
  end; cbn [snd table tick_clock] in Hloop.
  - rewrite run_bind.
    pose proof (table_manageRule env (0 <? successfulDeployments st') w2) as Htable.
    match type of Htable with
    | table (snd ?x) = _ => destruct x as [[[]|e] w3]
    end; cbn [snd] in *.
    + rewrite run_ret. cbn [snd]. rewrite Htable. by apply Hconv.
    + destruct e; unfold throw; cbn [snd]; rewrite Htable; by apply Hconv.
  - destruct e; unfold throw; cbn [snd]; by apply Hconv.
Qed.

Lemma isActive_set_DELETE_IN_PROGRESS t r :
  isActive r = true → isActive (applyUpdates set_DELETE_IN_PROGRESS t r) = true.
Proof.
  unfold isActive. intros [_ Harn]%andb_true_iff. cbn. by rewrite Harn.
Qed.

Lemma find_same_guid key t r :
  find (same_guid key) t = Some r → r ∈ t ∧ guid r = key.
Proof.
  intros [Hin Hg]%find_some. split; [by apply list_elem_of_In|by apply same_guid_true].
Qed.

(** Marking one linked code as DELETE_IN_PROGRESS. *)
Lemma delete_update_rel env op key t tu :
  match op with DeleteOne _ | DeleteAll => True | _ => False end →
  NoDup (map guid t) →
  (∃ r, r ∈ t ∧ guid r = key ∧ isActive r = true) →
  Forall2 (op_rel env op) t
    (updateItem key (applyUpdates set_DELETE_IN_PROGRESS tu) t).
Proof.
  intros Hop Hnd (r0 & Hr0 & Hg0 & Hact). apply Forall2_map_self. intros r Hr.
  destruct (same_guid key r) eqn:Hg.
  - apply same_guid_true in Hg.
    assert (r = r0) as -> by (apply (guid_inj_on_table t); congruence).
    split; [done|]. right.
    destruct op; try done; split; try done; by apply isActive_set_DELETE_IN_PROGRESS.
  - split; auto.
Qed.

Lemma unchanged_validateAccessCode accessCode :
  preserves unchanged (validateAccessCode accessCode).
Proof. unfold validateAccessCode. repeat preserves_step. Qed.

Lemma deleteStackByAccessCode_table env accessCode w :
  NoDup (map guid (table w)) →
  Forall2 (op_rel env (DeleteOne accessCode)) (table w)
    (table (snd (deleteStackByAccessCode env accessCode w))).
Proof.
  intros Hnd.
  destruct (Js.uuidRegex_test accessCode) eqn:Huuid.
  2:{ unfold deleteStackByAccessCode, deleter_rethrow, findStackByAccessCode.
      rewrite run_try_catch, !run_bind, validateAccessCode_bad_format by done.
      apply op_rel_refl. }
  destruct (find (same_guid accessCode) (table w)) as [record|] eqn:Hfind.
  2:{ unfold deleteStackByAccessCode, deleter_rethrow.
      rewrite run_try_catch, run_bind, run_findStackByAccessCode, Hfind by done.
      apply op_rel_refl. }
  pose proof (run_deleteStackByAccessCode env accessCode w record Huuid Hfind)
    as [Hinactive Hactive].
  cbn zeta in *.
  destruct (isActive record) eqn:Hact.
  2:{ destruct (Hinactive eq_refl) as (_ & -> & _). apply op_rel_refl. }
  destruct (Hactive eq_refl) as (Hdip & Hprog & Hdel). clear Hinactive Hactive.
  destruct (decide (status record = Cfn DELETE_IN_PROGRESS)) as [Hst|Hst].
  { destruct (Hdip Hst) as (_ & -> & _). apply op_rel_refl. }
  destruct (decide (status record ∈ inProgressStates)) as [Hip|Hip].
  { destruct (Hprog Hip) as (_ & -> & _). apply op_rel_refl. }
  destruct (Hdel Hst Hip) as (_ & Hreply).
  destruct (delete_stack env (stackName record)).
  - destruct Hreply as (_ & t & ->).
    destruct (write_error env (writes w)); [apply op_rel_refl|].
    apply delete_update_rel; [done|done|].
    apply find_same_guid in Hfind as [? ?]. by exists record.
  - destruct Hreply as (_ & ->). apply op_rel_refl.
Qed.

Lemma table_deleteOneOfAll env statuses stack w :
  table (snd (deleteOneOfAll env statuses stack w)) = table w ∨
  ∃ t, table (snd (deleteOneOfAll env statuses stack w)) =
       updateItem (fs_uniqueId stack) (applyUpdates set_DELETE_IN_PROGRESS t) (table w).
Proof.
  unfold deleteOneOfAll. rewrite run_try_catch.
  destruct (status_eqb (fs_status stack) DELETE_IN_PROGRESS); [by left|].
  destruct (bool_decide (fs_status stack ∈ inProgressStates)); [by left|].
  rewrite run_bind. unfold send_DeleteStack, cfn_send.
  destruct (delete_stack env (fs_stackName stack)) as [[]|e]; [|by left].
  rewrite run_bind, run_advisory, run_updateStackRecord.
  cbn [writes log_call]. destruct (write_error env (writes w)); [by left|].
  right. by eexists.
Qed.

Lemma deleteOneOfAll_returns env statuses stack w :
  ∃ statuses', fst (deleteOneOfAll env statuses stack w) = Ok statuses'.
Proof.
  unfold deleteOneOfAll. rewrite run_try_catch.
  destruct (status_eqb (fs_status stack) DELETE_IN_PROGRESS); [by eexists|].
  destruct (bool_decide (fs_status stack ∈ inProgressStates)); [by eexists|].
  rewrite run_bind. unfold send_DeleteStack, cfn_send.
  destruct (delete_stack env (fs_stackName stack)) as [[]|e]; [|by eexists].
  rewrite run_bind, run_advisory. by eexists.
Qed.

Lemma foldM_returns_deleteOneOfAll env stacks :
  ∀ statuses w, ∃ statuses', fst (foldM (deleteOneOfAll env) statuses stacks w) = Ok statuses'.
Proof.
  induction stacks as [|stack stacks IH]; intros statuses w; cbn [foldM]; [by eexists|].
  rewrite run_bind. destruct (deleteOneOfAll_returns env statuses stack w) as (s' & Hs).
  destruct (deleteOneOfAll env statuses stack w) as [o w1]. cbn [fst] in Hs. subst o.
  apply IH.
Qed.

Lemma op_rel_delete_trans env t0 t t' :
  Forall2 (op_rel env DeleteAll) t0 t →
  Forall2 (op_rel env DeleteAll) t t' →
  Forall2 (op_rel env DeleteAll) t0 t'.
Proof.
  intros H1 H2. eapply Forall2_compose; [exact H1|exact H2|].
  intros x y z (Hg1 & H1') (Hg2 & H2'). split; [congruence|].
  destruct H1' as [->|(Hx & Hy)]; [done|].
  destruct H2' as [->|(_ & Hz)]; right; done.
Qed.

Lemma deleteAll_fold env stacks :
  ∀ statuses w0 w,
    NoDup (map guid (table w0)) →
    (∀ stack, stack ∈ stacks →
       ∃ r, r ∈ table w0 ∧ guid r = fs_uniqueId stack ∧ isActive r = true) →
    Forall2 (op_rel env DeleteAll) (table w0) (table w) →
    Forall2 (op_rel env DeleteAll) (table w0)
      (table (snd (foldM (deleteOneOfAll env) statuses stacks w))).
Proof.
  induction stacks as [|stack stacks IH]; intros statuses w0 w Hnd Hstacks Hrel;
    [done|].
  cbn [foldM]. rewrite run_bind.
  destruct (deleteOneOfAll_returns env statuses stack w) as (statuses' & Hret).
  pose proof (table_deleteOneOfAll env statuses stack w) as Htable.
  destruct (deleteOneOfAll env statuses stack w) as [o w1].
  cbn [fst snd] in *. subst o.
  apply IH; [done|intros s Hs; apply Hstacks; by right|].
  destruct Htable as [->|(t & ->)]; [done|].
  eapply op_rel_delete_trans; [exact Hrel|].
  assert (map guid (table w) = map guid (table w0)) as Hguids.
  { eapply Forall2_guid; [exact Hrel|]. by intros ?? (? & _). }
  apply delete_update_rel; [done|by rewrite Hguids|].
  destruct (Hstacks stack ltac:(by left)) as (r0 & Hr0 & Hg0 & Hact0).
  apply list_elem_of_lookup in Hr0 as (i & Hi).
  destruct (Forall2_lookup_l _ _ _ _ _ Hrel Hi) as (r & Hr & Hg & Hstep).
  exists r. split; [by eapply list_elem_of_lookup_2|]. split; [congruence|].
  destruct Hstep as [->|(_ & ?)]; done.
Qed.

Lemma deleteAllStacks_table env w :
  NoDup (map guid (table w)) →
  Forall2 (op_rel env DeleteAll) (table w) (table (snd (deleteAllStacks env w))).
Proof.
  intros Hnd. unfold deleteAllStacks, deleter_rethrow, getAllActiveStacks.
  rewrite run_try_catch, !run_bind, run_getAllStackRecords.
  destruct (run_mapM_toFoundStack env (List.filter isActive (table w)) w)
    as (stacks & w1 & Hrun & (Ht1 & _) & Hstacks).
  rewrite Hrun.
  destruct (length stacks =? 0)%nat; [rewrite run_ret; cbn [snd]; rewrite Ht1; apply op_rel_refl|].
  rewrite run_bind.
  pose proof (deleteAll_fold env stacks ∅ w w1 Hnd) as Hfold.
  destruct (foldM_returns_deleteOneOfAll env stacks ∅ w1) as (statuses & Hret).
  destruct (foldM (deleteOneOfAll env) ∅ stacks w1) as [o w2].
  cbn [fst snd] in *. subst o. rewrite run_ret. cbn [snd].
  apply Hfold; [|rewrite Ht1; apply op_rel_refl].
  intros stack (i & Hi)%list_elem_of_lookup.
  destruct (Forall2_lookup_r _ _ _ _ _ Hstacks Hi) as (r & Hr & Hg & _).
  apply list_elem_of_lookup_2, elem_of_filter in Hr as [Hr Hact].
  by exists r.
Qed.

(** ** The pool over a run of operations *)

Lemma run_op_rel env op w :
  NoDup (map guid (table w)) →
  Forall2 (op_rel env op) (table w) (table (run_op env op w)).
Proof.
  intros Hnd. destruct op as [stackCount selected|accessCode| |]; cbn [run_op].
  - by apply deployStacks_table.
  - by apply deleteStackByAccessCode_table.
  - by apply deleteAllStacks_table.
  - eapply list.Forall2_impl; [by apply sync_pass_general|].
    intros x x' (Hg & Hstep). split; [done|].
    destruct Hstep as [->|(Hav & Harn & Hwrite)]; [by left|right].
    split; [|done]. unfold isActive. by rewrite Hav, Harn.
Qed.

Lemma syncChanges_status record stackExists stack t :
  isAvailable record = false →
  let u := if snd (syncChanges record stackExists stack t)
           then fst (syncChanges record stackExists stack t)
           else only_lastSyncAt t in
  u_status u = Some AVAILABLE ∨
  (u_stackArn u = None ∧ ∀ st, u_status u = Some st → st ≠ AVAILABLE).
Proof.
  intros Hav. unfold syncChanges. rewrite Hav. cbn [negb change_if].
  destruct stackExists; cbn [negb]; [|by left].
  destruct stack as [stack|]; [|right; by cbn].
  destruct (bool_decide (StackStatus_of stack = DELETE_COMPLETE)); [by left|].
  right.
  repeat match goal with
         | |- context [change_if ?b _ _] => destruct b; cbn [change_if]
         | |- context [if ?b || ?c then _ else _] => destruct (b || c)
         end; cbn; split; try done; intros st [= <-]; done.
Qed.

Lemma sync_write_record_ok env r u tu :
  isActive r = true → sync_write env r u → record_ok (applyUpdates u tu r).
Proof.
  intros Hact Hwrite. pose proof Hact as [Hav Harn]%andb_true_iff.
  apply negb_true_iff in Hav.
  destruct Hwrite as [(message & t & ->)|(d & t & _ & ->)].
  - right. unfold isActive, isAvailable in *. cbn. by rewrite Hav, Harn.
  - destruct (syncChanges_status r (fst d) (snd d) t Hav) as [Hst|(Harn' & Hst)];
      cbn zeta in *.
    + left. unfold isAvailable. cbn. by rewrite Hst.
    + right. unfold isActive, isAvailable in *. cbn. rewrite Harn'. cbn.
      rewrite Harn, andb_true_r.
      destruct (u_status _) as [st|] eqn:Hu; cbn; [|by rewrite Hav].
      specialize (Hst st eq_refl). by destruct st.
Qed.

Lemma op_rel_record_ok env op r r' :
  op_rel env op r r' → record_ok r → record_ok r'.
Proof.
  intros (_ & [->|Hstep]) Hok; [done|].
  destruct op; try (by destruct Hstep); try (right; by destruct Hstep).
  destruct Hstep as (Hact & u & tu & -> & Hwrite). by eapply sync_write_record_ok.
Qed.

Lemma run_op_store_ok env op w :
  store_ok (table w) →
  map guid (table (run_op env op w)) = map guid (table w) ∧
  store_ok (table (run_op env op w)).
Proof.
  intros (Hnd & Hok). pose proof (run_op_rel env op w Hnd) as Hrel.
  assert (map guid (table (run_op env op w)) = map guid (table w)) as Hguids.
  { eapply Forall2_guid; [exact Hrel|]. by intros ?? (? & _). }
  split; [done|]. split; [by rewrite Hguids|].
  apply Forall_forall. intros r' (i & Hi)%list_elem_of_In%list_elem_of_lookup.
  destruct (Forall2_lookup_r _ _ _ _ _ Hrel Hi) as (r & Hr & Hstep).
  eapply op_rel_record_ok; [exact Hstep|].
  eapply list.Forall_lookup_1; [|exact Hr]. done.
Qed.

Lemma run_ops_store_ok steps :
  ∀ w, store_ok (table w) →
       map guid (table (run_ops steps w)) = map guid (table w) ∧
       store_ok (table (run_ops steps w)).
Proof.
  induction steps as [|[env op] steps IH]; intros w Hok; cbn [run_ops]; [done|].
  destruct (run_op_store_ok env op w Hok) as (Hguids & Hok').
  destruct (IH _ Hok') as (Hguids' & Hok''). split; [congruence|done].
Qed.

Lemma count_record_ok t :
  Forall record_ok t → (count_available t + count_linked t = length t)%nat.
Proof.
  unfold count_available, count_linked.
  induction 1 as [|r t Hr _ IH]; cbn [List.filter length]; [done|].
  unfold record_ok, isActive in *.
  destruct (isAvailable r), (Js.truthy (stackArn r)); cbn in *;
    try lia; destruct Hr; done.
Qed.

Lemma length_filter_map {A B} (p : B → bool) (f : A → B) l :
  length (List.filter p (map f l)) = length (List.filter (λ x, p (f x)) l).
Proof.
  induction l as [|x l IH]; cbn; [done|]. destruct (p (f x)); cbn; by rewrite IH.
Qed.

Lemma recordMap_of_lookup t r :
  NoDup (map guid t) → r ∈ t → recordMap_of t !! guid r = Some r.
Proof.
  intros Hnd Hr. unfold recordMap_of.
  destruct (foldl_insert_is_Some guid (λ x, x) t ∅ r (or_introl Hr)) as (e & He).
  rewrite He. f_equal.
  apply foldl_insert_lookup in He as [He|(x & Hx & Hg & ->)]; [done|].
  by apply (guid_inj_on_table t).
Qed.

(** What the access code manager reports of a table. *)
Lemma run_getAllAccessCodeStatuses w :
  NoDup (map guid (table w)) → table w ≠ [] →
  ∃ response,
    getAllAccessCodeStatuses w = (Ok response, w) ∧
    accessCodeStatuses response = map stackRecordToAccessCodeStatus (table w) ∧
    totalLinked response = Z.of_nat (count_linked (table w)) ∧
    totalAvailable response =
      Z.of_nat (length (table w)) - Z.of_nat (count_linked (table w)).
Proof.
  intros Hnd Hne. unfold getAllAccessCodeStatuses, getAccessCodePool.
  rewrite !run_bind, run_getAllStackRecords, run_ret.
  rewrite length_map.
  destruct (table w) as [|r0 t0] eqn:Htable; [done|]. rewrite <- Htable in *.
  replace (length (table w) =? 0)%nat with false
    by (symmetry; apply Nat.eqb_neq; rewrite Htable; cbn; lia).
  unfold batchGetStackRecords. rewrite !run_bind. unfold get_world at 1.
  cbn [fst snd]. rewrite run_ret.
  rewrite (filter_all _ (table w)).
  2:{ intros r Hr. apply arr_includes_elem_of, list_elem_of_fmap. by exists r. }
  assert (map
            (λ accessCode,
               match recordMap_of (table w) !! accessCode with
               | None =>
                   {| acs_accessCode := accessCode; acs_isLinked := false;
                      acs_stackName := None; acs_stackId := None;
                      acs_createdAt := None; acs_status := None |}
               | Some record => stackRecordToAccessCodeStatus record
               end)
            (map guid (table w)) =
          map stackRecordToAccessCodeStatus (table w)) as Hstatuses.
  { rewrite map_map. apply map_ext_in. intros r Hr%list_elem_of_In.
    by rewrite recordMap_of_lookup. }
  rewrite Hstatuses, length_filter_map.
  eexists. split; [reflexivity|]. done.
Qed.


(** The initializer leaves a table of a pool. *)
Lemma putItem_store_ok r t :
  record_ok r → store_ok t → store_ok (putItem r t).
Proof.
  intros Hr (Hnd & Hok). unfold store_ok, putItem.
  destruct (existsb (same_guid (guid r)) t) eqn:Hex.
  - split.
    + rewrite map_map.
      erewrite map_ext; [exact Hnd|]. intros x. cbn.
      destruct (same_guid (guid r) x) eqn:Hg; [|done].
      by apply same_guid_true in Hg.
    + apply Forall_forall. intros x (y & <- & Hy)%in_map_iff.
      destruct (same_guid (guid r) y); [done|].
      by eapply (proj1 (Forall_forall _ _) Hok).
  - split.
    + rewrite map_app. apply list.NoDup_app. split; [done|]. split.
      * intros g (x & -> & Hx)%list_elem_of_fmap Heq%list_elem_of_singleton.
        assert (existsb (same_guid (guid r)) t = true) as Hex'; [|congruence].
        apply existsb_exists. exists x.
        split; [by apply list_elem_of_In|by apply same_guid_true].
      * apply NoDup_singleton.
    + apply Forall_app. split; [done|]. by constructor.
Qed.

Lemma foldl_putItem_store_ok batch :
  Forall record_ok batch →
  ∀ t, store_ok t → store_ok (foldl (λ t' r, putItem r t') t batch).
Proof.
  induction 1 as [|r batch Hr _ IH]; intros t Hok; cbn [foldl]; [done|].
  apply IH. by apply putItem_store_ok.
Qed.

Lemma chunks_fuel_Forall {A} (P : A → Prop) fuel n :
  ∀ l, Forall P l → Forall (Forall P) (chunks_fuel fuel n l).
Proof.
  induction fuel as [|fuel IH]; intros l Hl; cbn [chunks_fuel]; [constructor|].
  destruct l as [|x l]; [constructor|].
  constructor; [by apply Forall_take|]. apply IH. by apply Forall_drop.
Qed.

Lemma store_ok_batches env batches :
  Forall (Forall record_ok) batches →
  ∀ w, store_ok (table w) →
       store_ok
         (table
            (snd
               (foldM
                  (λ _ batch,
                     send_write env (λ t, foldl (λ t' r, putItem r t') t batch))
                  () batches w))).
Proof.
  induction 1 as [|batch batches Hbatch _ IH]; intros w Hok; cbn [foldM]; [done|].
  rewrite run_bind. unfold send_write at 1.
  destruct (write_error env (writes w)); [done|].
  destruct batches; apply IH; cbn; by apply foldl_putItem_store_ok.
Qed.

Lemma run_mapM_fresh env accessCodes :
  ∀ w, ∃ records w',
    mapM
      (λ accessCode,
         t ← now env;
         mret {| guid := accessCode; stackArn := None; stackName := None;
                 stackId := None; status := AVAILABLE; createdAt := None;
                 updatedAt := t; outputs := None; lastSyncAt := None;
                 syncError := None |})
      accessCodes w = (Ok records, w') ∧
    table w' = table w ∧ Forall record_ok records.
Proof.
  match goal with |- context [mapM ?g _ _] => set (f := g) end.
  induction accessCodes as [|accessCode accessCodes IH]; intros w; cbn [mapM].
  - by exists [], w.
  - rewrite run_bind. unfold f at 1. rewrite run_bind. unfold now at 1.
    cbn [fst snd]. rewrite run_ret, run_bind.
    destruct (IH (tick_clock w)) as (records & w' & -> & Htable & Hok).
    rewrite run_ret. eexists _, w'. split; [done|]. split; [done|].
    constructor; [by left|done].
Qed.

Lemma initializeAccessCodePool_store_ok env accessCodes w :
  store_ok (table w) →
  store_ok (table (snd (initializeAccessCodePool env accessCodes w))).
Proof.
  intros Hok. unfold initializeAccessCodePool, batchGetStackRecords.
  rewrite !run_bind. unfold get_world at 1. cbn [fst snd].
  rewrite run_ret, run_bind.
  match goal with
  | |- context [mapM ?f ?l w] =>
      destruct (run_mapM_fresh env l w) as (records & w' & Hrun & Htable & Hrecords)
  end.
  rewrite Hrun.
  destruct (0 <? length records)%nat; [|by rewrite run_ret; cbn [snd]; rewrite Htable].
  unfold batchPutStackRecords.
  destruct (length records =? 0)%nat; [by rewrite run_ret; cbn [snd]; rewrite Htable|].
  apply store_ok_batches; [|by rewrite Htable].
  by apply chunks_fuel_Forall.
Qed.

(** C1. Pool conservation: along every run of allocations, deletions and
    reconciliations from a table of a pool (one item per code, each
    available or linked to a stack) the codes of the table stay the same,
    every code stays either available or linked, the number of available
    codes plus the number of linked codes is the size of the pool, and the
    access code manager reports these two numbers. *)
Theorem pool_conservation steps w :
  store_ok (table w) →
  let w' := run_ops steps w in
  map guid (table w') = map guid (table w) ∧
  store_ok (table w') ∧
  (count_available (table w') + count_linked (table w') = length (table w))%nat ∧
  (table w ≠ [] →
   ∃ response,
     getAllAccessCodeStatuses w' = (Ok response, w') ∧
     totalAvailable response = Z.of_nat (count_available (table w')) ∧
     totalLinked response = Z.of_nat (count_linked (table w')) ∧
     totalAvailable response + totalLinked response = Z.of_nat (length (table w))).
Proof.
  intros Hok w'. destruct (run_ops_store_ok steps w Hok) as (Hguids & Hok').
  fold w' in Hguids, Hok'.
  assert (length (table w') = length (table w)) as Hlen.
  { by rewrite <- (length_map guid (table w')), Hguids, length_map. }
  pose proof (count_record_ok (table w') (proj2 Hok')) as Hcount.
  split; [done|]. split; [done|]. split; [lia|]. intros Hne.
  destruct (run_getAllAccessCodeStatuses w' (proj1 Hok')) as (response & Hrun & _ & Hl & Ha).
  { intros Hnil. rewrite Hnil in Hlen. by destruct (table w). }
  exists response. split; [done|]. lia.
Qed.

Lemma pool_conservation_witness :
  store_ok (table sample_pool) ∧
  (count_available (table (run_ops sample_run sample_pool)) +
   count_linked (table (run_ops sample_run sample_pool)) = 3)%nat.
Proof.
  assert (store_ok (table sample_pool)) as Hok.
  { split; [refine (bool_decide_unpack _ _); vm_compute; exact I|].
    vm_compute. repeat constructor. }
  split; [exact Hok|].
  exact (proj1 (proj2 (proj2 (pool_conservation sample_run sample_pool Hok)))).
Defined.

(** ** Reconciliation gives codes back to the pool *)

Lemma described_gone env arn d :
  described env arn = inr d →
  fst d = false ∨ (∃ stack, snd d = Some stack ∧ StackStatus_of stack = DELETE_COMPLETE) →
  reports_gone env arn.
Proof.
  unfold described, reports_gone. intros Hd Hgone.
  destruct (describe_stacks env arn) as [stacks|e] eqn:Hdescribe.
  - injection Hd as <-. cbn in Hgone.
    destruct Hgone as [?|(stack & Hhead & Hst)]; [done|].
    right. destruct stacks as [|stack' rest]; [done|].
    injection Hhead as ->. by exists stack, rest.
  - left. exists e. split; [done|].
    destruct (String.eqb (err_name e) "ValidationError") eqn:Hname; [|done].
    destruct (Js.includes "does not exist" (err_message e)); [|done].
    by apply String.eqb_eq in Hname.
Qed.

Lemma reports_gone_described env arn :
  reports_gone env arn →
  ∃ d, described env arn = inr d ∧
       (fst d = false ∨
        ∃ stack, snd d = Some stack ∧ StackStatus_of stack = DELETE_COMPLETE).
Proof.
  unfold described. intros [(e & -> & Hname & ->)|(stack & rest & -> & Hst)].
  - rewrite Hname. cbn. eexists. split; [done|]. by left.
  - eexists. split; [done|]. right. by exists stack.
Qed.

Lemma is_reset_mark_available u tu r :
  u_syncError u = Some None → is_reset (applyUpdates (mark_available u) tu r).
Proof. intros Hu. unfold is_reset. cbn. by rewrite Hu. Qed.

(** The two ways of [syncChanges] on a record that is not available: the
    reset, exactly when the stack is gone, or updates that keep the link. *)
Lemma syncChanges_cases record stackExists stack t :
  isAvailable record = false →
  let u := if snd (syncChanges record stackExists stack t)
           then fst (syncChanges record stackExists stack t)
           else only_lastSyncAt t in
  ((stackExists = false ∨
    ∃ s, stack = Some s ∧ StackStatus_of s = DELETE_COMPLETE) ∧
   ∃ u0, u = mark_available u0 ∧ u_syncError u0 = Some None) ∨
  (stackExists = true ∧
   (∀ s, stack = Some s → StackStatus_of s ≠ DELETE_COMPLETE) ∧
   u_stackArn u = None ∧ ∀ st, u_status u = Some st → st ≠ AVAILABLE).
Proof.
  intros Hav. unfold syncChanges. rewrite Hav. cbn [negb change_if].
  destruct stackExists; cbn [negb fst snd].
  2:{ left. split; [by left|]. by eexists. }
  destruct stack as [stack|]; [|right; by cbn].
  destruct (bool_decide (StackStatus_of stack = DELETE_COMPLETE)) eqn:Hdc.
  { apply bool_decide_eq_true in Hdc. left. split; [right; by exists stack|].
    by eexists. }
  apply bool_decide_eq_false in Hdc.
  right. split; [done|]. split; [by intros s [= <-]|].
  repeat match goal with
         | |- context [change_if ?b _ _] => destruct b; cbn [change_if]
         | |- context [if ?b || ?c then _ else _] => destruct (b || c)
         end; cbn; split; try done; intros st [= <-]; done.
Qed.

Lemma synced_reset env r t tu :
  isActive r = true → reports_gone env (default "" (stackArn r)) →
  is_reset (synced env r t tu).
Proof.
  intros [Hav%negb_true_iff Harn]%andb_true_iff
    (d & Hd & Hgone)%reports_gone_described.
  unfold synced. rewrite Harn, Hd. cbn [negb].
  destruct (syncChanges_cases r (fst d) (snd d) t Hav)
    as [(_ & u0 & -> & Hu0)|(Hex & Hstack & _)]; cbn zeta in *.
  - by apply is_reset_mark_available.
  - destruct Hgone as [?|(s & Hs & Hst)]; [congruence|]. by destruct (Hstack s).
Qed.

Lemma sync_write_available env r u tu :
  isAvailable r = false → sync_write env r u →
  isAvailable (applyUpdates u tu r) = true →
  reports_gone env (default "" (stackArn r)) ∧ is_reset (applyUpdates u tu r).
Proof.
  intros Hav [(message & t & ->)|(d & t & Hd & ->)] Hav'.
  { unfold isAvailable in *. cbn in Hav'. congruence. }
  destruct (syncChanges_cases r (fst d) (snd d) t Hav)
    as [(Hgone & u0 & Hu & Hu0)|(_ & _ & _ & Hst)]; cbn zeta in *.
  - split; [by eapply described_gone|].
    rewrite Hu. by apply is_reset_mark_available.
  - exfalso. unfold isAvailable in *. cbn in Hav'.
    destruct (u_status _) as [st|]; cbn in Hav'; [|congruence].
    specialize (Hst st eq_refl). by destruct st.
Qed.

(** C5. A reconciliation pass over a table that accepts its writes resets
    every linked record whose stack CloudFormation reports as missing or as
    DELETE_COMPLETE: status AVAILABLE, and stackArn, stackName, stackId,
    outputs, createdAt and syncError removed.  And whenever an allocation, a
    deletion or a reconciliation leaves a record available that was linked
    before, the operation was a reconciliation, CloudFormation reported the
    stack as gone, and the record is reset in this way. *)
Theorem reconcile_reset env w i r :
  NoDup (map guid (table w)) →
  table w !! i = Some r →
  isActive r = true →
  ((∀ n, write_error env n = None) →
   reports_gone env (default "" (stackArn r)) →
   ∃ r', table (run_op env Reconcile w) !! i = Some r' ∧
         guid r' = guid r ∧ is_reset r') ∧
  (∀ op r',
     table (run_op env op w) !! i = Some r' →
     isAvailable r' = true →
     op = Reconcile ∧ reports_gone env (default "" (stackArn r)) ∧ is_reset r').
Proof.
  intros Hnd Hi Hact. pose proof Hact as [Hav%negb_true_iff Harn]%andb_true_iff.
  split.
  - intros Hwrites Hgone. cbn [run_op].
    destruct (Forall2_lookup_l _ _ _ _ _ (sync_pass_ok env w Hwrites Hnd) Hi)
      as (r' & Hi' & Hg & Hsync).
    rewrite Hav in Hsync. destruct Hsync as (t & tu & ->).
    exists (synced env r t tu). split; [done|]. split; [done|].
    by apply synced_reset.
  - intros op r' Hi' Hav'.
    destruct (Forall2_lookup_l _ _ _ _ _ (run_op_rel env op w Hnd) Hi)
      as (r'' & Hi'' & Hg & Hstep).
    assert (r'' = r') as -> by congruence.
    destruct Hstep as [->|Hstep]; [congruence|].
    destruct op as [stackCount selected|accessCode| |].
    + destruct Hstep as (? & _). congruence.
    + destruct Hstep as (_ & [Hav''%negb_true_iff _]%andb_true_iff). congruence.
    + destruct Hstep as (_ & [Hav''%negb_true_iff _]%andb_true_iff). congruence.
    + destruct Hstep as (_ & u & tu & -> & Hwrite). split; [done|].
      by eapply sync_write_available.
Qed.

Lemma reconcile_reset_witness :
  NoDup (map guid (table (world_of [linked id_a CREATE_COMPLETE; fresh id_b]))) ∧
  isActive (linked id_a CREATE_COMPLETE) = true ∧
  reports_gone gone_env (default "" (stackArn (linked id_a CREATE_COMPLETE))) ∧
  ∃ r',
    table (run_op gone_env Reconcile
             (world_of [linked id_a CREATE_COMPLETE; fresh id_b])) !! 0%nat =
      Some r' ∧
    guid r' = id_a ∧ is_reset r'.
Proof.
  assert (NoDup (map guid (table (world_of [linked id_a CREATE_COMPLETE; fresh id_b]))))
    as Hnd.
  { apply (bool_decide_unpack _). by vm_compute. }
  assert (reports_gone gone_env (default "" (stackArn (linked id_a CREATE_COMPLETE))))
    as Hgone.
  { left. exists stack_does_not_exist. repeat split; reflexivity. }
  split; [exact Hnd|]. split; [reflexivity|]. split; [exact Hgone|].
  apply (proj1 (reconcile_reset gone_env
                  (world_of [linked id_a CREATE_COMPLETE; fresh id_b]) 0
                  (linked id_a CREATE_COMPLETE) Hnd eq_refl eq_refl));
    [intros n; reflexivity|exact Hgone].
Defined.

(** ** A second reconciliation pass *)

Lemma status_eqb_refl st : status_eqb st st = true.
Proof. by apply bool_decide_eq_true. Qed.

(** After the write of a synchronisation that keeps the link, the record
    agrees with the description of the stack. *)
Lemma syncChanges_in_step r s t tu :
  isAvailable r = false → StackStatus_of s ≠ DELETE_COMPLETE →
  in_step
    (applyUpdates
       (if snd (syncChanges r true (Some s) t)
        then fst (syncChanges r true (Some s) t)
        else only_lastSyncAt t)
       tu r)
    s.
Proof.
  intros Hav Hdc. unfold syncChanges, in_step. cbn [negb].
  rewrite (bool_decide_eq_false_2 _ Hdc).
  destruct (status_eqb (status r) (StackStatus_of s)) eqn:H1;
    [apply bool_decide_eq_true in H1|];
  (destruct (bool_decide (stackName r = StackName s)) eqn:H2;
    [apply bool_decide_eq_true in H2|]);
  (destruct (bool_decide (stackId r = StackId s)) eqn:H3;
    [apply bool_decide_eq_true in H3|]);
  (destruct (bool_decide (createdAt r = None)) eqn:H4;
    [apply bool_decide_eq_true in H4|apply bool_decide_eq_false in H4]);
  (destruct (bool_decide (CreationTime s ≠ None)) eqn:H5;
    [|apply bool_decide_eq_false in H5]);
  (destruct (bool_decide (StackStatus_of s = CREATE_COMPLETE)) eqn:H6;
    [|apply bool_decide_eq_false in H6]);
  (destruct (bool_decide (StackStatus_of s = UPDATE_COMPLETE)) eqn:H7;
    [|apply bool_decide_eq_false in H7]);
  cbn [negb andb orb change_if fst snd];
  try (destruct (bool_decide
                   (default [] (outputs r) = convertCloudFormationOutputs (Outputs s)))
         eqn:H8; [apply bool_decide_eq_true in H8|]);
  cbn; repeat split; try done;
  try (intros [?|?]; done);
  try (intros _; destruct (CreationTime s); [exfalso; by apply H5|done]).
Qed.

Lemma in_step_no_changes r s t :
  in_step r s → StackStatus_of s ≠ DELETE_COMPLETE →
  snd (syncChanges r true (Some s) t) = false.
Proof.
  intros (Hst & Hname & Hid & Hcreated & Houtputs) Hdc. unfold syncChanges.
  cbn [negb]. rewrite (bool_decide_eq_false_2 _ Hdc).
  rewrite Hst, status_eqb_refl.
  rewrite (bool_decide_eq_true_2 _ Hname), (bool_decide_eq_true_2 _ Hid).
  cbn [negb change_if].
  assert (bool_decide (createdAt r = None) && bool_decide (CreationTime s ≠ None)
          = false) as ->.
  { destruct (bool_decide (createdAt r = None)) eqn:Hc; [|done].
    apply bool_decide_eq_true in Hc. cbn.
    apply bool_decide_eq_false. intros Hne. by apply Hne, Hcreated. }
  cbn [change_if].
  destruct (bool_decide (StackStatus_of s = CREATE_COMPLETE) ||
            bool_decide (StackStatus_of s = UPDATE_COMPLETE)) eqn:Hco; [|done].
  rewrite bool_decide_eq_true_2; [done|]. apply Houtputs.
  apply orb_true_iff in Hco as [H%bool_decide_eq_true|H%bool_decide_eq_true]; auto.
Qed.

Lemma synced_twice env r t tu t' tu' :
  isAvailable r = false →
  forget_times (synced env (synced env r t tu) t' tu') =
  forget_times (synced env r t tu).
Proof.
  intros Hav. destruct (Js.truthy (stackArn r)) eqn:Harn.
  2:{ assert (synced env r t tu = r) as -> by (unfold synced; by rewrite Harn).
      unfold synced. by rewrite Harn. }
  destruct (described env (default "" (stackArn r))) as [e|d] eqn:Hd.
  { assert (synced env r t tu =
            applyUpdates (syncError_updates (error_text e) t) tu r) as ->
      by (unfold synced; by rewrite Harn, Hd).
    unfold synced. cbn [stackArn applyUpdates syncError_updates upd u_stackArn].
    by rewrite Harn, Hd. }
  set (u := if snd (syncChanges r (fst d) (snd d) t)
            then fst (syncChanges r (fst d) (snd d) t)
            else only_lastSyncAt t).
  assert (synced env r t tu = applyUpdates u tu r) as ->
    by (unfold synced; by rewrite Harn, Hd).
  destruct (syncChanges_cases r (fst d) (snd d) t Hav)
    as [(_ & u0 & Hu0 & _)|(Hex & Hstack & Hu & _)]; cbn zeta in *; fold u in Hu0 || fold u in Hu.
  { rewrite Hu0. unfold synced. done. }
  unfold synced. cbn [stackArn applyUpdates]. rewrite Hu. cbn [upd].
  rewrite Harn, Hd. cbn [negb].
  destruct (snd d) as [s|] eqn:Hs.
  - assert (StackStatus_of s ≠ DELETE_COMPLETE) as Hdc by by apply Hstack.
    assert (in_step (applyUpdates u tu r) s) as Hin.
    { unfold u. rewrite Hex. by apply syncChanges_in_step. }
    rewrite Hex. by rewrite (in_step_no_changes _ s t' Hin Hdc).
  - rewrite Hex. done.
Qed.

Lemma syncChanges_syncError r stackExists stack t :
  u_syncError (fst (syncChanges r stackExists stack t)) = Some None.
Proof.
  unfold syncChanges.
  destruct stackExists; cbn [negb]; [|by destruct (negb (isAvailable r))].
  destruct stack as [s|]; [|done].
  destruct (bool_decide (StackStatus_of s = DELETE_COMPLETE)); [done|].
  repeat match goal with
         | |- context [change_if ?b _ _] => destruct b; cbn [change_if]
         | |- context [if ?b || ?c then _ else _] => destruct (b || c)
         end; done.
Qed.

Lemma lookup_updateItem key f t i r :
  t !! i = Some r →
  updateItem key f t !! i = Some (if same_guid key r then f r else r).
Proof. intros Hi. unfold updateItem. by rewrite list_lookup_fmap, Hi. Qed.

Lemma Forall2_map_eq {A B} (f : A → B) l k :
  Forall2 (λ x y, f y = f x) l k → map f k = map f l.
Proof. induction 1 as [|x y l k Hxy _ IH]; cbn; [done|]. by rewrite Hxy, IH. Qed.

Lemma reconcile_twice env w :
  NoDup (map guid (table w)) →
  (∀ n, write_error env n = None) →
  map forget_times (table (run_op env Reconcile (run_op env Reconcile w))) =
  map forget_times (table (run_op env Reconcile w)).
Proof.
  intros Hnd Hwrites. cbn [run_op].
  pose proof (sync_pass_ok env w Hwrites Hnd) as H1.
  set (w1 := snd (syncAllStacks env w)) in *.
  assert (map guid (table w1) = map guid (table w)) as Hguids.
  { eapply Forall2_guid; [exact H1|]. by intros ?? (? & _). }
  assert (NoDup (map guid (table w1))) as Hnd1 by by rewrite Hguids.
  pose proof (sync_pass_ok env w1 Hwrites Hnd1) as H2.
  assert (Forall2 (λ x1 x2, forget_times x2 = forget_times x1)
            (table w1) (table (snd (syncAllStacks env w1)))) as H.
  { eapply Forall2_impl_elem; [exact H2|]. intros x1 x2 Hx1 (_ & Hstep).
    destruct (isAvailable x1) eqn:Hav1; [by rewrite Hstep|].
    destruct Hstep as (t' & tu' & ->).
    apply list_elem_of_lookup in Hx1 as (i & Hi).
    destruct (Forall2_lookup_r _ _ _ _ _ H1 Hi) as (x & _ & _ & Hx).
    destruct (isAvailable x) eqn:Hav.
    - subst x1. congruence.
    - destruct Hx as (t & tu & ->). by apply synced_twice. }
  by apply Forall2_map_eq.
Qed.

(** C6: the defect.  The clause on [syncError] is what the code means to
    do, and the code fails it on one path.  A pass in which CloudFormation
    throttles [DescribeStacks] leaves its message in the [syncError] of the
    record.  The next pass, in which CloudFormation describes the stack
    just as the record has it, counts the record as synchronised, and the
    record still carries the message: [syncStackRecord] has then found
    nothing to change and writes [lastSyncAt] alone, not the updates that
    it prepared with [syncError: undefined].  On the other path, where the
    description brings a change (here the outputs), the same pass removes
    the message. *)
Lemma reconcile_keeps_syncError :
  map syncError
    (table (run_op throttled_env Reconcile
              (world_of [linked id_a CREATE_COMPLETE]))) =
    [Some "Rate exceeded"] ∧
  fst (syncAllStacks steady_env
         (run_op throttled_env Reconcile
            (world_of [linked id_a CREATE_COMPLETE]))) =
    Ok {| totalProcessed := 1; successfulSyncs := 1; failedSyncs := 0;
          errors := [] |} ∧
  map syncError
    (table (run_op steady_env Reconcile
              (run_op throttled_env Reconcile
                 (world_of [linked id_a CREATE_COMPLETE])))) =
    [Some "Rate exceeded"] ∧
  fst (syncStackRecord steady_env stale_record (world_of [stale_record])) =
    Ok {| sr_success := true; sr_error := None |} ∧
  map syncError
    (table (snd (syncStackRecord steady_env stale_record (world_of [stale_record])))) =
    [Some "Rate exceeded"] ∧
  map syncError
    (table (run_op complete_env Reconcile
              (run_op throttled_env Reconcile
                 (world_of [linked id_a CREATE_COMPLETE])))) =
    [None].
Proof. repeat split; reflexivity. Qed.

(** Two reconciliation passes in a row.  When the table accepts the writes
    and CloudFormation answers the same to both, the second pass changes
    no field of any record other than the two time stamps [lastSyncAt] and
    [updatedAt]. *)
Theorem reconcile_idempotent env w :
  NoDup (map guid (table w)) →
  (∀ n, write_error env n = None) →
  map forget_times (table (run_op env Reconcile (run_op env Reconcile w))) =
    map forget_times (table (run_op env Reconcile w)).
Proof. intros Hnd Hwrites. by apply reconcile_twice. Qed.

Lemma reconcile_idempotent_witness :
  NoDup (map guid (table (world_of [linked id_a CREATE_IN_PROGRESS; fresh id_b]))) ∧
  map forget_times
    (table (run_op steady_env Reconcile
              (run_op steady_env Reconcile
                 (world_of [linked id_a CREATE_IN_PROGRESS; fresh id_b])))) =
  map forget_times
    (table (run_op steady_env Reconcile
              (world_of [linked id_a CREATE_IN_PROGRESS; fresh id_b]))).
Proof.
  assert (NoDup (map guid (table (world_of [linked id_a CREATE_IN_PROGRESS; fresh id_b]))))
    as Hnd.
  { apply (bool_decide_unpack _). by vm_compute. }
  split; [exact Hnd|].
  apply (reconcile_idempotent steady_env
           (world_of [linked id_a CREATE_IN_PROGRESS; fresh id_b]) Hnd).
  intros n. reflexivity.
Defined.

(** ** The trigger after a reconciliation pass *)

Global Instance quiet_preorder P : PreOrder (quiet P).
Proof.
  split.
  - intros w. split; [done|]. exists []. by rewrite app_nil_r.
  - intros w1 w2 w3 (Hr1 & e1 & Hc1 & He1) (Hr2 & e2 & Hc2 & He2).
    split; [congruence|]. exists (e1 ++ e2).
    split; [by rewrite Hc2, Hc1, app_assoc|].
    by rewrite List.filter_app, He1, He2.
Qed.

Lemma quiet_new_calls P w w' :
  quiet P w w' → List.filter P (new_calls w w') = [].
Proof.
  intros (_ & extra & Hc & He). unfold new_calls.
  by rewrite Hc, drop_app_length.
Qed.

Lemma quiet_now env P : preserves (quiet P) (now env).
Proof. intros w. split; [done|]. exists []. by rewrite app_nil_r. Qed.

Lemma quiet_send_write env P f : preserves (quiet P) (send_write env f).
Proof.
  intros w. unfold send_write.
  destruct (write_error env (writes w)); cbn; (split; [done|]);
    exists []; by rewrite app_nil_r.
Qed.

Lemma quiet_log_call P c w : P c = false → quiet P w (log_call c w).
Proof. intros Hc. split; [done|]. exists [c]. split; [done|]. cbn. by rewrite Hc. Qed.

Lemma quiet_cfn_send {A} P c (reply : Reply A) :
  P c = false → preserves (quiet P) (cfn_send c reply).
Proof. intros Hc w. unfold cfn_send. destruct reply; by apply quiet_log_call. Qed.

Lemma quiet_eb_send {A} env P c (serve : M A) :
  P c = false → preserves (quiet P) serve → preserves (quiet P) (eb_send env c serve).
Proof.
  intros Hc Hs w. unfold eb_send. destruct (eb_error env c).
  - by apply quiet_log_call.
  - etransitivity; [by apply quiet_log_call|apply Hs].
Qed.

Lemma quiet_syncStackRecord env P record :
  (∀ arn, P (DescribeStacks arn) = false) →
  preserves (quiet P) (syncStackRecord env record).
Proof.
  intros HP.
  unfold syncStackRecord, describeForSync, send_DescribeStacks, updateStackRecord.
  repeat first
    [ apply quiet_now | apply quiet_send_write | by apply quiet_cfn_send
    | preserves_step ].
Qed.

Lemma quiet_syncOneOfAll env P result record :
  (∀ arn, P (DescribeStacks arn) = false) →
  preserves (quiet P) (syncOneOfAll env result record).
Proof.
  intros HP. unfold syncOneOfAll.
  repeat first [ by apply quiet_syncStackRecord | preserves_step ].
Qed.

Lemma run_disableRuleWhenAllDeleted env w :
  disableRuleWhenAllDeleted env w =
  (Ok (), if (0 <? remaining w)%nat then w else snd (ensureRuleDisabled env w)).
Proof.
  unfold disableRuleWhenAllDeleted, validateAllStacksDeletionComplete, remaining.
  rewrite !run_bind, run_getNonAvailableStackRecords, run_ret.
  destruct (0 <? _)%nat; cbn [negb]; [done|]. apply run_advisory.
Qed.

(** A pass is the loop over the records that are not available, then the
    decision about the trigger. *)
Lemma run_syncAllStacks env w :
  let loop :=
    foldM (syncOneOfAll env) (sync_start (table w))
      (List.filter (λ r, negb (isAvailable r)) (table w)) w in
  ∃ result,
    syncAllStacks env w =
    (Ok result,
     if (0 <? remaining (snd loop))%nat then snd loop
     else snd (ensureRuleDisabled env (snd loop))).
Proof.
  cbn zeta. unfold syncAllStacks.
  rewrite run_bind, run_getNonAvailableStackRecords.
  set (rs := List.filter (λ r, negb (isAvailable r)) (table w)).
  destruct rs as [|r rs'] eqn:Hrs.
  - cbn [length Nat.eqb foldM]. rewrite run_bind, run_disableRuleWhenAllDeleted.
    rewrite run_ret. by eexists.
  - cbn [length Nat.eqb]. rewrite run_bind.
    destruct (foldM_syncOneOfAll_returns env (r :: rs')
                {| totalProcessed := Z.of_nat (length (r :: rs'));
                   successfulSyncs := 0; failedSyncs := 0; errors := [] |} w)
      as (result & Hresult).
    assert (sync_start (table w) =
            {| totalProcessed := Z.of_nat (length (r :: rs'));
               successfulSyncs := 0; failedSyncs := 0; errors := [] |}) as ->.
    { unfold sync_start. fold rs. by rewrite Hrs. }
    destruct (foldM _ _ _ w) as [o w1]. cbn [fst snd] in *. subst o.
    rewrite run_bind, run_disableRuleWhenAllDeleted. rewrite run_ret.
    by eexists.
Qed.

Lemma run_findActualRuleName_ok env w :
  (∀ c, eb_error env c = None) →
  findActualRuleName env w = (Ok (trigger_name (rules w)), log_call ListRules w).
Proof.
  intros Hok. unfold findActualRuleName, send_ListRules.
  rewrite run_try_catch, run_bind. unfold eb_send at 1. rewrite Hok.
  rewrite run_bind. unfold get_world at 1. cbn [fst snd]. rewrite run_ret.
  unfold trigger_name. cbn [rules log_call].
  by destruct (find _ _).
Qed.

Lemma run_ensureRuleDisabled_ok env w :
  (∀ c, eb_error env c = None) →
  snd (ensureRuleDisabled env w) =
  let name := trigger_name (rules w) in
  let w1 := log_call (DescribeRule name) (log_call ListRules w) in
  match rule_status name (rules w) with
  | Some ENABLED =>
      set_rules (set_rule_status name DISABLED (rules w))
        (log_call (DisableRule name) (log_call ListRules w1))
  | _ => w1
  end.
Proof.
  intros Hok. unfold ensureRuleDisabled. rewrite run_advisory. cbn [snd].
  rewrite run_bind. unfold getCurrentRuleState.
  rewrite run_bind, run_findActualRuleName_ok by done.
  rewrite run_bind. unfold send_DescribeRule, eb_send at 1. rewrite Hok.
  rewrite run_bind. unfold get_world at 1. cbn [fst snd rules log_call].
  destruct (rule_status (trigger_name (rules w)) (rules w)) as [[]|] eqn:Hst;
    [|done|done].
  rewrite !run_ret. cbn [rs_state negb]. rewrite bool_decide_eq_false_2 by done.
  cbn [negb]. unfold disableSyncRule.
  rewrite run_bind, run_findActualRuleName_ok by done.
  cbn [rules log_call]. unfold send_set_rule, eb_send. rewrite Hok.
  rewrite run_bind. unfold get_world at 1. cbn [fst snd rules log_call].
  by rewrite Hst.
Qed.

Lemma map_fst_set_rule_status name st rs :
  map fst (set_rule_status name st rs) = map fst rs.
Proof.
  unfold set_rule_status. rewrite map_map. apply map_ext.
  intros r. by destruct (String.eqb (fst r) name).
Qed.

Lemma trigger_name_set_rule_status name st rs :
  trigger_name (set_rule_status name st rs) = trigger_name rs.
Proof. unfold trigger_name. by rewrite map_fst_set_rule_status. Qed.

Lemma rule_status_set_rule_status name st rs :
  rule_status name rs ≠ None →
  rule_status name (set_rule_status name st rs) = Some st.
Proof.
  unfold rule_status, set_rule_status.
  induction rs as [|[n s] rs IH]; cbn; [done|].
  destruct (String.eqb n name) eqn:Hn; cbn; rewrite Hn; [done|]. apply IH.
Qed.

(** C7. A reconciliation pass never raises, whatever EventBridge answers.
    When records that are not available remain after it, the pass has made
    no call to EventBridge and the rules are as they were.  When none
    remains and EventBridge answers, the trigger, if it exists, is DISABLED
    afterwards; and when it was DISABLED already, the rules are as they
    were and no DisableRule was sent. *)
Theorem trigger_disable_policy env w :
  let w' := snd (syncAllStacks env w) in
  (∃ result, fst (syncAllStacks env w) = Ok result) ∧
  (remaining w' ≠ 0%nat →
   rules w' = rules w ∧ List.filter is_eventbridge (new_calls w w') = []) ∧
  (remaining w' = 0%nat →
   (∀ c, eb_error env c = None) →
   (rule_status (trigger_name (rules w)) (rules w) ≠ None →
    rule_status (trigger_name (rules w')) (rules w') = Some DISABLED) ∧
   (rule_status (trigger_name (rules w)) (rules w) = Some DISABLED →
    rules w' = rules w ∧ List.filter is_DisableRule (new_calls w w') = [])).
Proof.
  cbn zeta. destruct (run_syncAllStacks env w) as (result & Hrun). cbn zeta in Hrun.
  set (loop := foldM (syncOneOfAll env) (sync_start (table w))
                 (List.filter (λ r, negb (isAvailable r)) (table w)) w) in *.
  assert (∀ P, (∀ arn, P (DescribeStacks arn) = false) → quiet P w (snd loop))
    as Hquiet.
  { intros P HP. apply (preserves_foldM (quiet P)). intros ??.
    by apply quiet_syncOneOfAll. }
  assert (remaining (snd (syncAllStacks env w)) = remaining (snd loop)) as Hremaining.
  { unfold remaining. by rewrite table_syncAllStacks. }
  rewrite Hremaining, Hrun. cbn [fst snd].
  split; [by exists result|].
  destruct (Hquiet is_eventbridge ltac:(done)) as (Hrules & _).
  split.
  - intros Hne. destruct (Nat.ltb_spec 0 (remaining (snd loop))); [|lia].
    split; [done|]. by apply quiet_new_calls, Hquiet.
  - intros Hzero Hok. rewrite Hzero. cbn [Nat.ltb Nat.leb].
    rewrite run_ensureRuleDisabled_ok by done. cbn zeta. rewrite Hrules.
    split.
    + intros Hexists.
      destruct (rule_status (trigger_name (rules w)) (rules w)) as [[]|] eqn:Hst;
        [|by cbn [rules log_call]; rewrite Hrules|done].
      cbn [rules set_rules]. rewrite trigger_name_set_rule_status.
      apply rule_status_set_rule_status. by rewrite Hst.
    + intros Hst. rewrite Hst. split; [done|].
      apply quiet_new_calls.
      etransitivity; [apply (Hquiet is_DisableRule); done|].
      etransitivity; by apply quiet_log_call.
Qed.

Lemma trigger_disable_policy_witness :
  remaining (snd (syncAllStacks gone_env (world_of [linked id_a DELETE_IN_PROGRESS])))
    = 0%nat ∧
  rule_status sync_rule
    (rules (snd (syncAllStacks gone_env (world_of [linked id_a DELETE_IN_PROGRESS]))))
    = Some DISABLED.
Proof.
  split; [reflexivity|].
  apply (proj1 (proj2 (proj2 (trigger_disable_policy gone_env
                                (world_of [linked id_a DELETE_IN_PROGRESS])))
                  eq_refl (λ _, eq_refl))).
  discriminate.
Defined.

(** * Further properties of the handlers *)

(** ** The table: writes and reads *)

Lemma find_putItem_same item t :
  find (same_guid (guid item)) (putItem item t) = Some item.
Proof.
  unfold putItem. destruct (existsb (same_guid (guid item)) t) eqn:Hex.
  - apply existsb_exists in Hex as (r & Hr & Hg).
    induction t as [|x t IH]; [done|]. cbn.
    destruct (same_guid (guid item) x) eqn:Hx.
    + assert (same_guid (guid item) item = true) as -> by by apply same_guid_true.
      done.
    + rewrite Hx. apply IH. destruct Hr as [->|Hr]; [congruence|done].
  - induction t as [|x t IH]; cbn.
    + by assert (same_guid (guid item) item = true) as -> by by apply same_guid_true.
    + cbn in Hex. apply orb_false_iff in Hex as [Hx Hex]. rewrite Hx. by apply IH.
Qed.

Lemma find_putItem_other key item t :
  key ≠ guid item →
  find (same_guid key) (putItem item t) = find (same_guid key) t.
Proof.
  intros Hne. unfold putItem.
  assert (same_guid key item = false) as Hitem by (apply same_guid_false; congruence).
  destruct (existsb (same_guid (guid item)) t).
  - induction t as [|x t IH]; [done|]. cbn.
    destruct (same_guid (guid item) x) eqn:Hx.
    + rewrite Hitem. apply same_guid_true in Hx.
      assert (same_guid key x = false) as -> by (apply same_guid_false; congruence).
      done.
    + destruct (same_guid key x); [done|apply IH].
  - induction t as [|x t IH]; cbn; [by rewrite Hitem|].
    destruct (same_guid key x); [done|apply IH].
Qed.

(** A record that the table accepts is the one read back under its code;
    the records of the other codes are read as before; the write adds a
    code to the table only when the code is new. *)
Theorem putStackRecord_then_get env record w :
  write_error env (writes w) = None →
  let w' := snd (putStackRecord env record w) in
  fst (putStackRecord env record w) = Ok () ∧
  getStackRecord (guid record) w' = (Ok (Some record), w') ∧
  (∀ key, key ≠ guid record →
     fst (getStackRecord key w') = fst (getStackRecord key w)) ∧
  (∀ key, key ∈ map guid (table w') ↔
          key = guid record ∨ key ∈ map guid (table w)) ∧
  length (table w') =
    (if bool_decide (guid record ∈ map guid (table w)) then length (table w)
     else S (length (table w))).
Proof.
  intros Hwrite. cbn zeta. rewrite run_putStackRecord, Hwrite. cbn [fst snd].
  rewrite !run_getStackRecord. cbn [table set_table tick_writes].
  split; [done|]. split; [by rewrite find_putItem_same|]. split.
  { intros key Hne. rewrite !run_getStackRecord. cbn [fst table set_table tick_writes].
    by rewrite find_putItem_other. }
  assert (map guid (putItem record (table w)) =
          if bool_decide (guid record ∈ map guid (table w)) then map guid (table w)
          else map guid (table w) ++ [guid record]) as Hguids.
  { destruct (bool_decide _) eqn:Hin.
    + apply bool_decide_eq_true in Hin. by apply map_guid_putItem.
    + apply bool_decide_eq_false in Hin. unfold putItem.
      assert (existsb (same_guid (guid record)) (table w) = false) as ->.
      { apply not_true_is_false. intros (r & Hr & Hg)%existsb_exists. apply Hin.
        apply list_elem_of_fmap. exists r.
        split; [symmetry; by apply same_guid_true|by apply list_elem_of_In]. }
      by rewrite map_app. }
  split.
  - intros key. rewrite Hguids. destruct (bool_decide _) eqn:Hin.
    + apply bool_decide_eq_true in Hin. split; [by right|]. by intros [->|?].
    + rewrite elem_of_app, list_elem_of_singleton. tauto.
  - rewrite <- (length_map guid (putItem _ _)), Hguids.
    destruct (bool_decide _); [by rewrite length_map|].
    rewrite length_app, length_map. cbn. lia.
Qed.

Lemma putStackRecord_then_get_witness :
  write_error quiet_env (writes (world_of [fresh id_a])) = None ∧
  getStackRecord id_b
    (snd (putStackRecord quiet_env (linked id_b CREATE_IN_PROGRESS)
            (world_of [fresh id_a]))) =
  (Ok (Some (linked id_b CREATE_IN_PROGRESS)),
   snd (putStackRecord quiet_env (linked id_b CREATE_IN_PROGRESS)
          (world_of [fresh id_a]))).
Proof.
  split; [reflexivity|].
  apply (putStackRecord_then_get quiet_env (linked id_b CREATE_IN_PROGRESS)
           (world_of [fresh id_a]) eq_refl).
Defined.

(** An update that the table accepts, of a code that has a record: the
    record read back is the old one with the updates applied and
    [updatedAt] set; its code is kept; the table holds the same codes and
    the records of the other codes are read as before. *)
Theorem updateStackRecord_then_get env accessCode updates w r :
  write_error env (writes w) = None →
  find (same_guid accessCode) (table w) = Some r →
  let w' := snd (updateStackRecord env accessCode updates w) in
  let r' := applyUpdates updates (time_at env (clock w)) r in
  fst (updateStackRecord env accessCode updates w) = Ok () ∧
  getStackRecord accessCode w' = (Ok (Some r'), w') ∧
  guid r' = accessCode ∧ updatedAt r' = time_at env (clock w) ∧
  (u_status updates = None → status r' = status r) ∧
  (u_stackArn updates = None → stackArn r' = stackArn r) ∧
  (u_syncError updates = Some None → syncError r' = None) ∧
  map guid (table w') = map guid (table w) ∧
  (∀ key, key ≠ accessCode →
     fst (getStackRecord key w') = fst (getStackRecord key w)).
Proof.
  intros Hwrite Hfind. cbn zeta. rewrite run_updateStackRecord, Hwrite.
  cbn [fst snd]. rewrite !run_getStackRecord. cbn [table set_table tick_writes tick_clock].
  split; [done|]. split.
  { by rewrite (find_updateItem_same _ _ _ r). }
  split. { cbn. by apply find_same_guid in Hfind as [_ ?]. }
  split; [done|]. split; [intros Hu; cbn; by rewrite Hu|].
  split; [intros Hu; cbn; by rewrite Hu|].
  split; [intros Hu; cbn; by rewrite Hu|]. split.
  - by apply map_guid_updateItem.
  - intros key Hne. rewrite !run_getStackRecord.
    cbn [fst table set_table tick_writes tick_clock].
    by rewrite find_updateItem_other.
Qed.

Lemma updateStackRecord_then_get_witness :
  write_error quiet_env (writes (world_of [linked id_a CREATE_COMPLETE])) = None ∧
  find (same_guid id_a) (table (world_of [linked id_a CREATE_COMPLETE])) =
    Some (linked id_a CREATE_COMPLETE) ∧
  fst (getStackRecord id_a
         (snd (updateStackRecord quiet_env id_a set_DELETE_IN_PROGRESS
                 (world_of [linked id_a CREATE_COMPLETE])))) =
  Ok (Some (applyUpdates set_DELETE_IN_PROGRESS 1000%N (linked id_a CREATE_COMPLETE))).
Proof.
  split; [reflexivity|]. split; [reflexivity|].
  pose proof (updateStackRecord_then_get quiet_env id_a set_DELETE_IN_PROGRESS
                (world_of [linked id_a CREATE_COMPLETE]) (linked id_a CREATE_COMPLETE)
                eq_refl eq_refl) as (_ & Hget & _).
  cbn zeta in Hget. by rewrite Hget.
Defined.

Lemma find_deleteItem_same key t : find (same_guid key) (deleteItem key t) = None.
Proof.
  unfold deleteItem. induction t as [|x t IH]; [done|]. cbn.
  destruct (same_guid key x) eqn:Hx; cbn; [done|]. by rewrite Hx.
Qed.

Lemma find_deleteItem_other key key' t :
  key' ≠ key →
  find (same_guid key') (deleteItem key t) = find (same_guid key') t.
Proof.
  intros Hne. unfold deleteItem. induction t as [|x t IH]; [done|]. cbn.
  destruct (same_guid key x) eqn:Hx; cbn.
  - apply same_guid_true in Hx.
    assert (same_guid key' x = false) as -> by (apply same_guid_false; congruence).
    done.
  - destruct (same_guid key' x); [done|apply IH].
Qed.

(** After a deletion that the table accepts, no record is read under the
    code, the records of the other codes are read as before, and deleting
    a code that has no record changes nothing. *)
Theorem deleteStackRecord_then_get env accessCode w :
  write_error env (writes w) = None →
  let w' := snd (deleteStackRecord env accessCode w) in
  fst (deleteStackRecord env accessCode w) = Ok () ∧
  getStackRecord accessCode w' = (Ok None, w') ∧
  (∀ key, key ≠ accessCode →
     fst (getStackRecord key w') = fst (getStackRecord key w)) ∧
  (accessCode ∉ map guid (table w) → table w' = table w).
Proof.
  intros Hwrite. cbn zeta. unfold deleteStackRecord, send_write. rewrite Hwrite.
  cbn [fst snd]. rewrite !run_getStackRecord. cbn [table set_table tick_writes].
  split; [done|]. split; [by rewrite find_deleteItem_same|]. split.
  - intros key Hne. rewrite !run_getStackRecord. cbn [fst table set_table tick_writes].
    by rewrite find_deleteItem_other.
  - intros Hnotin. unfold deleteItem. apply filter_all. intros r Hr.
    apply negb_true_iff, same_guid_false. intros Hg. apply Hnotin.
    apply list_elem_of_fmap. by exists r.
Qed.

Lemma deleteStackRecord_then_get_witness :
  write_error quiet_env (writes (world_of [fresh id_a; fresh id_b])) = None ∧
  fst (getStackRecord id_a
         (snd (deleteStackRecord quiet_env id_a (world_of [fresh id_a; fresh id_b])))) =
    Ok None ∧
  fst (getStackRecord id_b
         (snd (deleteStackRecord quiet_env id_a (world_of [fresh id_a; fresh id_b])))) =
    Ok (Some (fresh id_b)).
Proof.
  split; [reflexivity|].
  pose proof (deleteStackRecord_then_get quiet_env id_a
                (world_of [fresh id_a; fresh id_b]) eq_refl) as (_ & Hget & Hother & _).
  cbn zeta in Hget, Hother. split; [by rewrite Hget|].
  by rewrite (Hother id_b).
Defined.

(** ** Batches *)

Lemma chunks_fuel_spec {A} (n : nat) :
  (0 < n)%nat →
  ∀ fuel (l : list A),
    (length l ≤ fuel)%nat →
    concat (chunks_fuel fuel n l) = l ∧
    Forall (λ batch, 0 < length batch ≤ n)%nat (chunks_fuel fuel n l) ∧
    (length l ≤ length (chunks_fuel fuel n l) * n)%nat ∧
    ((length (chunks_fuel fuel n l) - 1) * n < length l ∨ l = [])%nat.
Proof.
  intros Hn. induction fuel as [|fuel IH]; intros l Hlen.
  - destruct l; [|cbn in Hlen; lia]. cbn. repeat split; auto; lia.
  - destruct l as [|x l]; [cbn; repeat split; auto; lia|].
    cbn [chunks_fuel]. set (l0 := x :: l) in *.
    assert (0 < length l0)%nat as Hpos by (unfold l0; cbn; lia).
    destruct (IH (drop n l0)) as (Hcat & Hall & Hup & Hlow).
    { rewrite length_drop. lia. }
    pose proof (length_drop l0 n) as Hdrop.
    pose proof (length_take l0 n) as Htake.
    split; [cbn [concat]; by rewrite Hcat, take_drop|].
    split; [constructor; [lia|done]|].
    cbn [length]. split; [nia|]. left.
    destruct Hlow as [Hlow|Hnil].
    + destruct (chunks_fuel fuel n (drop n l0)) as [|b bs] eqn:Hc.
      * cbn. lia.
      * cbn [length] in *. nia.
    + rewrite Hnil. destruct fuel; cbn; lia.
Qed.

(** The batches of [batchPutStackRecords] and [batchGetStackRecords]: put
    end to end they are the list, none is empty, none is longer than the
    limit, and there are as few of them as the limit allows. *)
Theorem chunks_spec {A} (n : nat) (l : list A) :
  (0 < n)%nat →
  concat (chunks n l) = l ∧
  Forall (λ batch, 0 < length batch ≤ n)%nat (chunks n l) ∧
  (length l ≤ length (chunks n l) * n)%nat ∧
  ((length (chunks n l) - 1) * n < length l ∨ l = [])%nat.
Proof. intros Hn. by apply chunks_fuel_spec. Qed.

Lemma chunks_spec_witness :
  (0 < 25)%nat ∧
  concat (chunks 25 (replicate 60 id_a)) = replicate 60 id_a ∧
  map length (chunks 25 (replicate 60 id_a)) = [25; 25; 10]%nat.
Proof.
  split; [lia|]. split; [|reflexivity].
  apply (chunks_spec 25 (replicate 60 id_a)). lia.
Defined.

(** ** The initializer *)

Lemma existing_codes accessCodes t c :
  c ∈ accessCodes →
  c ∈ (list_to_set
         (map guid (List.filter (λ r, Js.arr_includes accessCodes (guid r)) t))
       : gset string) ↔
  c ∈ map guid t.
Proof.
  intros Hc. rewrite elem_of_list_to_set, !list_elem_of_fmap. split.
  - intros (r & -> & [Hr _]%elem_of_filter). by exists r.
  - intros (r & -> & Hr). exists r. split; [done|]. apply elem_of_filter.
    split; [done|]. by apply arr_includes_elem_of.
Qed.

Lemma run_mapM_new_record env accessCodes :
  ∀ w, ∃ records w',
    mapM
      (λ accessCode,
         t ← now env;
         mret {| guid := accessCode; stackArn := None; stackName := None;
                 stackId := None; status := AVAILABLE; createdAt := None;
                 updatedAt := t; outputs := None; lastSyncAt := None;
                 syncError := None |})
      accessCodes w = (Ok records, w') ∧
    table w' = table w ∧ writes w' = writes w ∧ calls w' = calls w ∧
    rules w' = rules w ∧
    Forall2 (λ c r, ∃ t, r = new_record c t) accessCodes records.
Proof.
  match goal with |- context [mapM ?g _ _] => set (f := g) end.
  induction accessCodes as [|accessCode accessCodes IH]; intros w; cbn [mapM].
  - exists [], w. by repeat split.
  - rewrite run_bind. unfold f at 1. rewrite run_bind. unfold now at 1.
    cbn [fst snd]. rewrite run_ret, run_bind.
    destruct (IH (tick_clock w)) as (records & w' & -> & Ht & Hw & Hc & Hr & Hall).
    rewrite run_ret. eexists _, w'. split; [done|]. repeat split; try done.
    constructor; [by eexists|done].
Qed.

(** [initializeAccessCodePool] step by step: the codes that have no record
    yet, a record for each, and the batches. *)
Lemma run_initializeAccessCodePool env accessCodes w :
  ∃ records w1,
    Forall2 (λ c r, ∃ t, r = new_record c t)
      (List.filter (λ c, bool_decide (c ∉ map guid (table w))) accessCodes) records ∧
    table w1 = table w ∧ writes w1 = writes w ∧ calls w1 = calls w ∧
    rules w1 = rules w ∧
    initializeAccessCodePool env accessCodes w =
    (if (0 <? length records)%nat then batchPutStackRecords env records w1
     else (Ok (), w1)).
Proof.
  unfold initializeAccessCodePool, batchGetStackRecords.
  rewrite !run_bind. unfold get_world at 1. cbn [fst snd]. rewrite run_ret, run_bind.
  match goal with
  | |- context [mapM ?f ?l w] =>
      destruct (run_mapM_new_record env l w)
        as (records & w1 & Hrun & Ht & Hw & Hc & Hr & Hall)
  end.
  rewrite Hrun. exists records, w1. split.
  { erewrite filter_ext_in; [exact Hall|]. intros c Hc'%list_elem_of_In. cbn.
    apply bool_decide_ext. by rewrite existing_codes. }
  repeat split; try done. by destruct (0 <? length records)%nat.
Qed.

Lemma batches_invariant env (I : list StackRecord → Prop) batches :
  (∀ t batch, batch ∈ batches → I t → I (foldl (λ t' r, putItem r t') t batch)) →
  ∀ w, I (table w) →
       I (table
            (snd
               (foldM
                  (λ _ batch,
                     send_write env (λ t, foldl (λ t' r, putItem r t') t batch))
                  () batches w))).
Proof.
  induction batches as [|batch batches IH]; intros Hstep w Hw; cbn [foldM]; [done|].
  rewrite run_bind. unfold send_write at 1.
  destruct (write_error env (writes w)); [done|].
  assert (∀ t b, b ∈ batches → I t → I (foldl (λ t' r, putItem r t') t b)) as Hstep'.
  { intros t b Hb. apply Hstep. by right. }
  destruct batches; apply IH; try done; cbn; apply Hstep; try done; by left.
Qed.

Lemma putItem_appends t0 (P : StackRecord → Prop) r t :
  guid r ∉ map guid t0 → P r →
  (∃ added, t = t0 ++ added ∧ Forall P added) →
  ∃ added, putItem r t = t0 ++ added ∧ Forall P added.
Proof.
  intros Hnew HP (added & -> & Hall). unfold putItem.
  destruct (existsb _ _).
  - exists (map (λ x, if same_guid (guid r) x then r else x) added).
    rewrite map_app. split.
    + f_equal. rewrite <- (map_id t0) at 2. apply map_ext_in.
      intros x Hx%list_elem_of_In.
      destruct (same_guid (guid r) x) eqn:Hg; [|done].
      apply same_guid_true in Hg. exfalso. apply Hnew. rewrite <- Hg.
      apply list_elem_of_fmap. by exists x.
    + apply Forall_forall. intros y (x & <- & Hx)%in_map_iff.
      destruct (same_guid (guid r) x); [done|].
      by eapply (proj1 (Forall_forall _ _) Hall).
  - exists (added ++ [r]). rewrite app_assoc. split; [done|].
    apply Forall_app. split; [done|by constructor].
Qed.

Lemma initializeAccessCodePool_appends env accessCodes w :
  ∃ added,
    table (snd (initializeAccessCodePool env accessCodes w)) = table w ++ added ∧
    Forall (λ r, isAvailable r = true ∧ Js.truthy (stackArn r) = false ∧
                 guid r ∈ accessCodes ∧ guid r ∉ map guid (table w)) added.
Proof.
  destruct (run_initializeAccessCodePool env accessCodes w)
    as (records & w1 & Hrecords & Ht & _ & _ & _ & ->).
  set (P := λ r, isAvailable r = true ∧ Js.truthy (stackArn r) = false ∧
                 guid r ∈ accessCodes ∧ guid r ∉ map guid (table w)).
  assert (Forall P records) as HP.
  { apply Forall_forall. intros r (i & Hi)%list_elem_of_In%list_elem_of_lookup.
    destruct (Forall2_lookup_r _ _ _ _ _ Hrecords Hi) as (c & Hc & t & ->).
    apply list_elem_of_lookup_2, elem_of_filter in Hc as [Hc Hnew].
    apply bool_decide_eq_true in Hnew. by repeat split. }
  assert (∃ added, table w1 = table w ++ added ∧ Forall P added) as Hstart.
  { exists []. by rewrite app_nil_r. }
  destruct (0 <? length records)%nat; [|done].
  unfold batchPutStackRecords. destruct (length records =? 0)%nat; [done|].
  apply (batches_invariant env (λ t, ∃ added, t = table w ++ added ∧ Forall P added));
    [|done].
  intros t batch Hbatch.
  assert (Forall P batch) as Hall.
  { pose proof (chunks_fuel_Forall P (length records) 25 records HP) as Hchunks.
    by eapply (proj1 (list.Forall_forall _ _) Hchunks). }
  clear Hbatch. revert t. induction Hall as [|r batch Hr _ IH]; intros t Ht'; [done|].
  cbn [foldl]. apply IH. apply putItem_appends; [by destruct Hr as (_&_&_&?)|done|done].
Qed.

Lemma find_app_old key (t added : list StackRecord) :
  key ∈ map guid t →
  find (same_guid key) (t ++ added) = find (same_guid key) t.
Proof.
  intros (r & -> & Hr)%list_elem_of_fmap.
  induction t as [|x t IH]; [by apply elem_of_nil in Hr|]. cbn.
  destruct (same_guid (guid r) x) eqn:Hx; [done|].
  apply IH. apply elem_of_cons in Hr as [->|Hr]; [|done].
  apply same_guid_false in Hx. done.
Qed.

(** The initializer never touches a record that is in the table, whatever
    the table answers to the writes and whatever list it is given: every
    old record is still there and is what is read under its code; a record
    that was not there is AVAILABLE, without a stack, and for a code of the
    list that had no record. *)
Theorem initializeAccessCodePool_keeps_existing env accessCodes w :
  let w' := snd (initializeAccessCodePool env accessCodes w) in
  (∀ r, r ∈ table w → r ∈ table w') ∧
  (∀ key, key ∈ map guid (table w) →
     fst (getStackRecord key w') = fst (getStackRecord key w)) ∧
  (∀ r, r ∈ table w' →
     r ∈ table w ∨
     (isAvailable r = true ∧ Js.truthy (stackArn r) = false ∧
      guid r ∈ accessCodes ∧ guid r ∉ map guid (table w))).
Proof.
  cbn zeta.
  destruct (initializeAccessCodePool_appends env accessCodes w)
    as (added & Htable & Hadded).
  split; [intros r Hr; rewrite Htable; apply elem_of_app; by left|]. split.
  - intros key Hkey. rewrite !run_getStackRecord. cbn [fst].
    by rewrite Htable, find_app_old.
  - intros r. rewrite Htable. intros [Hr|Hr]%elem_of_app; [by left|right].
    by apply (proj1 (list.Forall_forall _ _) Hadded).
Qed.

Lemma run_send_write_accepted env f w :
  write_error env (writes w) = None →
  send_write env f w = (Ok (), set_table (f (table w)) (tick_writes w)).
Proof. intros H. unfold send_write. by rewrite H. Qed.

Lemma run_batches_accepted env batches :
  (∀ n, write_error env n = None) →
  ∀ w,
    fst (foldM
           (λ _ batch, send_write env (λ t, foldl (λ t' r, putItem r t') t batch))
           () batches w) = Ok () ∧
    table
      (snd (foldM
              (λ _ batch, send_write env (λ t, foldl (λ t' r, putItem r t') t batch))
              () batches w)) =
    foldl (λ t' r, putItem r t') (table w) (concat batches).
Proof.
  intros Hwrites. induction batches as [|batch batches IH]; intros w; cbn [foldM].
  - by rewrite run_ret.
  - rewrite run_bind, run_send_write_accepted by done.
    cbn [concat]. rewrite foldl_app. apply IH.
Qed.

Lemma foldl_putItem_new records :
  ∀ t,
    NoDup (map guid records) →
    (∀ r, r ∈ records → guid r ∉ map guid t) →
    foldl (λ t' r, putItem r t') t records = t ++ records.
Proof.
  induction records as [|r records IH]; intros t Hnd Hnew; cbn [foldl].
  - by rewrite app_nil_r.
  - cbn in Hnd. apply list.NoDup_cons in Hnd as [Hr Hnd].
    assert (putItem r t = t ++ [r]) as ->.
    { unfold putItem.
      assert (existsb (same_guid (guid r)) t = false) as ->; [|done].
      apply not_true_is_false. intros (x & Hx & Hg)%existsb_exists.
      apply (Hnew r); [by left|]. apply list_elem_of_fmap. exists x.
      split; [symmetry; by apply same_guid_true|by apply list_elem_of_In]. }
    rewrite IH; [by rewrite <- app_assoc|done|].
    intros x Hx. rewrite map_app. intros [Hin|Hin%list_elem_of_singleton]%elem_of_app.
    + apply (Hnew x); [by right|done].
    + apply Hr. rewrite <- Hin. apply list_elem_of_fmap. by exists x.
Qed.

Lemma initializeAccessCodePool_accepted env accessCodes w :
  NoDup accessCodes →
  (∀ n, write_error env n = None) →
  ∃ records,
    Forall2 (λ c r, ∃ t, r = new_record c t)
      (List.filter (λ c, bool_decide (c ∉ map guid (table w))) accessCodes) records ∧
    fst (initializeAccessCodePool env accessCodes w) = Ok () ∧
    table (snd (initializeAccessCodePool env accessCodes w)) = table w ++ records.
Proof.
  intros Hnd Hwrites.
  destruct (run_initializeAccessCodePool env accessCodes w)
    as (records & w1 & Hrecords & Ht & _ & _ & _ & ->).
  exists records. split; [done|].
  assert (map guid records =
          List.filter (λ c, bool_decide (c ∉ map guid (table w))) accessCodes) as Hguids.
  { clear -Hrecords. induction Hrecords as [|c r cs rs (t & ->) _ IH]; cbn; [done|].
    by rewrite IH. }
  destruct (0 <? length records)%nat eqn:Hlen.
  2:{ apply Nat.ltb_ge in Hlen. destruct records; [|cbn in Hlen; lia].
      by rewrite app_nil_r. }
  unfold batchPutStackRecords.
  destruct (length records =? 0)%nat eqn:Hz.
  { apply Nat.eqb_eq in Hz. apply Nat.ltb_lt in Hlen. lia. }
  destruct (run_batches_accepted env (chunks 25 records) Hwrites w1) as (-> & ->).
  split; [done|].
  unfold chunks.
  rewrite (proj1 (chunks_fuel_spec 25 ltac:(lia) (length records) records ltac:(lia))).
  rewrite Ht. apply foldl_putItem_new.
  - rewrite Hguids. apply NoDup_ListNoDup, List.NoDup_filter, NoDup_ListNoDup. done.
  - intros r Hr.
    assert (guid r ∈ map guid records) as Hg by (apply list_elem_of_fmap; by exists r).
    rewrite Hguids in Hg. apply elem_of_filter in Hg as [_ Hg].
    by apply bool_decide_eq_true in Hg.
Qed.

(** With a list of codes without repetition and a table that accepts the
    writes, the initializer succeeds, appends one AVAILABLE record for each
    code that had none, in the order of the list, and afterwards every code
    of the list has a record. *)
Theorem initializeAccessCodePool_complete env accessCodes w :
  NoDup accessCodes →
  (∀ n, write_error env n = None) →
  let w' := snd (initializeAccessCodePool env accessCodes w) in
  fst (initializeAccessCodePool env accessCodes w) = Ok () ∧
  (∀ c, c ∈ map guid (table w') ↔ c ∈ map guid (table w) ∨ c ∈ accessCodes) ∧
  length (table w') =
    (length (table w) +
     length (List.filter (λ c, bool_decide (c ∉ map guid (table w))) accessCodes))%nat ∧
  (∀ r, r ∈ table w' → r ∈ table w ∨ ∃ t, r = new_record (guid r) t) ∧
  (NoDup (map guid (table w)) → NoDup (map guid (table w'))).
Proof.
  intros Hnd Hwrites. cbn zeta.
  destruct (initializeAccessCodePool_accepted env accessCodes w Hnd Hwrites)
    as (records & Hrecords & Hfst & Htable).
  assert (map guid records =
          List.filter (λ c, bool_decide (c ∉ map guid (table w))) accessCodes) as Hguids.
  { clear -Hrecords. induction Hrecords as [|c r cs rs (t & ->) _ IH]; cbn; [done|].
    by rewrite IH. }
  rewrite Htable, map_app, Hguids. split; [done|]. split; [|split; [|split]].
  - intros c. rewrite elem_of_app, elem_of_filter, bool_decide_eq_true.
    destruct (decide (c ∈ map guid (table w))); tauto.
  - by rewrite length_app, <- Hguids, length_map.
  - intros r [Hr|Hr]%elem_of_app; [by left|right].
    apply list_elem_of_lookup in Hr as (i & Hi).
    destruct (Forall2_lookup_r _ _ _ _ _ Hrecords Hi) as (c & _ & t & ->).
    by exists t.
  - intros Hold. apply list.NoDup_app. split; [done|]. split.
    + intros c Hc [_ Hnew%bool_decide_eq_true]%elem_of_filter. done.
    + apply NoDup_ListNoDup, List.NoDup_filter, NoDup_ListNoDup. done.
Qed.

Lemma initializeAccessCodePool_complete_witness :
  NoDup [id_a; id_b; id_c] ∧
  length
    (table (snd (initializeAccessCodePool quiet_env [id_a; id_b; id_c]
                   (world_of [linked id_b CREATE_COMPLETE])))) = 3%nat.
Proof.
  assert (NoDup [id_a; id_b; id_c]) as Hnd.
  { apply (bool_decide_unpack _). by vm_compute. }
  split; [exact Hnd|].
  pose proof (initializeAccessCodePool_complete quiet_env [id_a; id_b; id_c]
                (world_of [linked id_b CREATE_COMPLETE]) Hnd (λ _, eq_refl))
    as (_ & _ & Hlength & _).
  cbn zeta in Hlength. rewrite Hlength. reflexivity.
Defined.

(** When every code of the list has a record already, the initializer
    sends no write and leaves the table, the rules and the log of calls as
    they were: running it again after a complete run changes nothing. *)
Theorem initializeAccessCodePool_again env accessCodes w :
  (∀ c, c ∈ accessCodes → c ∈ map guid (table w)) →
  let w' := snd (initializeAccessCodePool env accessCodes w) in
  fst (initializeAccessCodePool env accessCodes w) = Ok () ∧
  table w' = table w ∧ writes w' = writes w ∧ calls w' = calls w ∧
  rules w' = rules w.
Proof.
  intros Hall. cbn zeta.
  destruct (run_initializeAccessCodePool env accessCodes w)
    as (records & w1 & Hrecords & Ht & Hw & Hc & Hr & ->).
  rewrite filter_none in Hrecords.
  2:{ intros c Hc'. apply bool_decide_eq_false. intros Hnot. by apply Hnot, Hall. }
  apply Forall2_nil_inv_l in Hrecords as ->. done.
Qed.

Lemma initializeAccessCodePool_again_witness :
  (∀ c, c ∈ [id_a; id_b] →
        c ∈ map guid (table (snd (initializeAccessCodePool quiet_env [id_a; id_b]
                                    (world_of []))))) ∧
  writes (snd (initializeAccessCodePool five_failures_env [id_a; id_b]
                 (snd (initializeAccessCodePool quiet_env [id_a; id_b] (world_of []))))) =
  1%nat.
Proof.
  assert (∀ c, c ∈ [id_a; id_b] →
               c ∈ map guid (table (snd (initializeAccessCodePool quiet_env [id_a; id_b]
                                           (world_of []))))) as Hall.
  { intros c Hc. vm_compute.
    apply elem_of_cons in Hc as [->|Hc]; [by left|].
    apply list_elem_of_singleton in Hc as ->. right. by left. }
  split; [exact Hall|].
  pose proof (initializeAccessCodePool_again five_failures_env [id_a; id_b]
                (snd (initializeAccessCodePool quiet_env [id_a; id_b] (world_of [])))
                Hall) as (_ & _ & Hw & _).
  cbn zeta in Hw. rewrite Hw. reflexivity.
Defined.

(** ** The deployer: what a request can end with *)

Lemma validateStackCount_cases env stackCount w :
  (validateStackCount env stackCount w = (Ok (), w) ∧
   0 < stackCount ≤ maxPoolSize env) ∨
  (∃ e, validateStackCount env stackCount w = (Throw (ELambda e), w) ∧
        statusCode e = 400 ∧
        code e ∈ ["INVALID_STACK_COUNT_RANGE"; "STACK_COUNT_EXCEEDS_POOL"] ∧
        ¬ 0 < stackCount ≤ maxPoolSize env).
Proof.
  unfold validateStackCount. fold (maxPoolSize env).
  destruct (stackCount <=? 0) eqn:H0.
  - right. eexists. split; [done|]. split; [done|]. split; [by left|]. lia.
  - destruct (maxPoolSize env <? stackCount) eqn:H1.
    + right. eexists. split; [done|]. split; [done|]. split; [right; by left|]. lia.
    + left. split; [done|]. lia.
Qed.

Lemma validateTemplateUrl_cases env url w :
  validateTemplateUrl env url w = (Ok (), w) ∨
  (∃ e, validateTemplateUrl env url w = (Throw (ELambda e), w) ∧
        statusCode e = 500 ∧
        code e ∈ ["TEMPLATE_URL_MISSING"; "TEMPLATE_URL_INVALID"]).
Proof.
  unfold validateTemplateUrl. destruct (String.eqb url "").
  - right. eexists. split; [done|]. split; [done|]. by left.
  - destruct (url_protocol env url) as [protocol|].
    + destruct (Js.arr_includes _ protocol); [by left|].
      right. eexists. split; [done|]. split; [done|]. right. by left.
    + right. eexists. split; [done|]. split; [done|]. right. by left.
Qed.

Lemma assignAccessCodes_cases count selected w :
  (∃ assigned, assignAccessCodes count selected w = (Ok assigned, w)) ∨
  (∃ e, assignAccessCodes count selected w = (Throw (ELambda e), w) ∧
        code e ∈ ["ACCESS_CODE_POOL_EMPTY"; "INSUFFICIENT_ACCESS_CODES"] ++
                 InvalidSelection_codes).
Proof.
  destruct (table w) as [|r0 t0] eqn:Htable.
  { right. rewrite assignAccessCodes_empty_table by done. eexists.
    split; [done|]. by left. }
  assert (table w ≠ []) as Hne by by rewrite Htable.
  assert (selected = None ∨ selected = Some [] ∨
          ∃ c cs, selected = Some (c :: cs)) as [->|[->|(c & cs & ->)]].
  { destruct selected as [[|c cs]|]; eauto. }
  1,2: rewrite assignAccessCodes_auto by auto;
       destruct (_ <? count); [right; eexists; split; [done|]; right; by left
                              |left; by eexists].
  destruct (assignAccessCodes_explicit_cases count c cs w Hne)
    as [(_ & Hrun)|(_ & e & Hrun & Hcode)]; [left; by eexists|].
  right. exists e. split; [done|]. by do 2 right.
Qed.

Lemma refusal_codes_intro c :
  c ∈ ["INVALID_STACK_COUNT_RANGE"; "STACK_COUNT_EXCEEDS_POOL"] ∨
  c ∈ ["TEMPLATE_URL_MISSING"; "TEMPLATE_URL_INVALID"] ∨
  c ∈ ["ACCESS_CODE_POOL_EMPTY"; "INSUFFICIENT_ACCESS_CODES"] ++ InvalidSelection_codes →
  c ∈ refusal_codes.
Proof.
  rewrite !list_elem_of_In. unfold refusal_codes, InvalidSelection_codes. cbn.
  intuition auto 15.
Qed.

Lemma deployStacks_cases env stackCount selected w :
  match deployStacks env stackCount selected w with
  | (Ok response, w') =>
      0 < stackCount ≤ maxPoolSize env ∧
      Z.of_nat (length (assignedAccessCodes response)) = stackCount ∧
      (∀ c, c ∈ assignedAccessCodes response → c ∈ available_ids (table w)) ∧
      map ds_uniqueId (deployedStacks response) = assignedAccessCodes response
  | (Throw (ELambda e), w') =>
      (code e = "DEPLOYMENT_BATCH_FAILED" ∧ statusCode e = 500 ∧ 0 < stackCount) ∨
      (code e ∈ refusal_codes ∧ w' = w)
  | (Throw (EJs _), _) => False
  end.
Proof.
  unfold deployStacks. rewrite run_try_catch, run_bind.
  destruct (validateStackCount_cases env stackCount w)
    as [(-> & Hrange)|(e & -> & _ & Hcode & _)].
  2:{ right. split; [|done]. by apply refusal_codes_intro; auto. }
  rewrite run_bind.
  destruct (validateTemplateUrl_cases env (templateUrl (config env)) w)
    as [->|(e & -> & _ & Hcode)].
  2:{ right. split; [|done]. by apply refusal_codes_intro; auto. }
  rewrite run_bind.
  destruct (assignAccessCodes_cases stackCount selected w)
    as [(assigned & Hassign)|(e & -> & Hcode)].
  2:{ right. split; [|done]. by apply refusal_codes_intro; auto. }
  rewrite Hassign.
  destruct (assignAccessCodes_available _ _ _ _ _ Hassign) as (_ & Havailable).
  assert (0 ≤ stackCount) as Hcount by lia.
  pose proof (assignAccessCodes_length stackCount selected w assigned w Hcount Hassign)
    as Hlength.
  rewrite run_bind. unfold now at 1. cbn [fst snd].
  rewrite firstn_all2 by lia.
  rewrite run_bind.
  pose proof (deployLoop_counts env stackCount
                (Js.or_default (stackNamePrefix (config env)) "deployment-stack")
                (time_at env (clock w)) assigned 0 no_progress (tick_clock w)) as Hloop.
  cbn zeta in Hloop. unfold no_progress in Hloop.
  destruct (deployLoop _ _ _ _ _ _ _ _) as [[st|e] w1]; cbn [fst snd] in Hloop.
  - destruct Hloop as (log & _ & _ & _ & _ & Hids). cbn in Hids.
    rewrite run_bind.
    match goal with
    | |- context [(if ?b then advisory ?m else mret ()) w1] =>
        assert (∃ w2, (if b then advisory m else mret ()) w1 = (Ok (), w2))
          as (w2 & ->)
          by (destruct b; [rewrite run_advisory|rewrite run_ret]; by eexists)
    end.
    rewrite run_ret. cbn. done.
  - destruct Hloop as (log & _ & _ & message & ->). left. cbn. repeat split; lia.
Qed.

Lemma refusal_codes_not_count c :
  c ∈ refusal_codes →
  c ≠ "MISSING_STACK_COUNT" ∧ c ≠ "INVALID_STACK_COUNT_TYPE".
Proof.
  intros Hc. apply list_elem_of_In in Hc. cbn in Hc.
  repeat (destruct Hc as [<-|Hc]; [by split|]). done.
Qed.

(** What a call of [deployStacks] can end with, for a [stackCount] of any
    kind and a selection that is absent or a list of strings, when the
    reads of the table succeed.  A response is given to an integer count
    only, lists one outcome for each assigned code, in order, and the
    assigned codes are [stackCount] codes that were AVAILABLE.  A failure
    is either a refusal of the request, with one of twelve codes and
    before anything was sent or written, or DEPLOYMENT_BATCH_FAILED (500);
    MISSING_STACK_COUNT answers a count that is absent and
    INVALID_STACK_COUNT_TYPE one that is not an integer, and no other; no
    other error leaves the function, and INVALID_STACK_NAME_PREFIX in
    particular never does. *)
Theorem deployStacks_outcomes env stackCount selected w :
  match deployStacks_request env stackCount selected w with
  | (Ok response, w') =>
      ∃ n, stackCount = CountInteger n ∧
           0 < n ≤ maxPoolSize env ∧
           Z.of_nat (length (assignedAccessCodes response)) = n ∧
           (∀ c, c ∈ assignedAccessCodes response → c ∈ available_ids (table w)) ∧
           map ds_uniqueId (deployedStacks response) = assignedAccessCodes response
  | (Throw (ELambda e), w') =>
      (code e = "DEPLOYMENT_BATCH_FAILED" ∧ statusCode e = 500 ∧
       ∃ n, stackCount = CountInteger n ∧ 0 < n) ∨
      (code e ∈ request_refusal_codes ∧ w' = w ∧
       (code e = "MISSING_STACK_COUNT" ↔ stackCount = CountMissing) ∧
       (code e = "INVALID_STACK_COUNT_TYPE" ↔
        ∃ provided type_of, stackCount = CountNotInteger provided type_of))
  | (Throw (EJs _), _) => False
  end.
Proof.
  destruct stackCount as [|provided type_of|n]; cbn [deployStacks_request].
  - right. split; [by left|]. split; [done|]. split; [done|].
    split; [done|]. by intros (? & ? & ?).
  - right. split; [right; by left|]. split; [done|]. split; [done|].
    split; [|done]. intros _. by eexists _, _.
  - pose proof (deployStacks_cases env n selected w) as H.
    destruct (deployStacks env n selected w) as [[response|[e|e]] w']; [|..|done].
    + exists n. by split.
    + destruct H as [(Hcode & Hstatus & Hn)|(Hcode & ->)].
      { left. split; [done|]. split; [done|]. by exists n. }
      right. destruct (refusal_codes_not_count _ Hcode) as [H1 H2].
      split; [by do 2 right|]. split; [done|]. split.
      * split; [done|by intros ?].
      * split; [done|]. by intros (? & ? & ?).
Qed.

(** ** The calls that a handler makes *)

Global Instance only_calls_preorder P : PreOrder (only_calls P).
Proof.
  split.
  - intros w. exists []. by rewrite app_nil_r.
  - intros w1 w2 w3 (e1 & Hc1 & He1) (e2 & Hc2 & He2). exists (e1 ++ e2).
    split; [by rewrite Hc2, Hc1, app_assoc|]. by apply Forall_app.
Qed.

Lemma only_calls_new_calls P w w' :
  only_calls P w w' → Forall (λ c, P c = true) (new_calls w w').
Proof.
  intros (extra & Hc & He). unfold new_calls. by rewrite Hc, drop_app_length.
Qed.

Lemma only_calls_log_call P c w : P c = true → only_calls P w (log_call c w).
Proof. intros Hc. exists [c]. split; [done|]. by constructor. Qed.

Lemma only_calls_silent P w w' : calls w' = calls w → only_calls P w w'.
Proof. intros Hc. exists []. by rewrite app_nil_r. Qed.

Lemma only_calls_now env P : preserves (only_calls P) (now env).
Proof. intros w. by apply only_calls_silent. Qed.

Lemma only_calls_send_write env P f : preserves (only_calls P) (send_write env f).
Proof.
  intros w. apply only_calls_silent. unfold send_write.
  by destruct (write_error env (writes w)).
Qed.

Lemma only_calls_modify_rules P r : preserves (only_calls P) (modify_world (set_rules r)).
Proof. intros w. by apply only_calls_silent. Qed.

Lemma only_calls_cfn_send {A} P c (reply : Reply A) :
  P c = true → preserves (only_calls P) (cfn_send c reply).
Proof. intros Hc w. unfold cfn_send. destruct reply; by apply only_calls_log_call. Qed.

Lemma only_calls_eb_send {A} env P c (serve : M A) :
  P c = true → preserves (only_calls P) serve →
  preserves (only_calls P) (eb_send env c serve).
Proof.
  intros Hc Hs w. unfold eb_send. destruct (eb_error env c).
  - by apply only_calls_log_call.
  - etransitivity; [by apply only_calls_log_call|apply Hs].
Qed.

Ltac only_calls_step :=
  first
    [ apply only_calls_now | apply only_calls_send_write
    | apply only_calls_modify_rules
    | apply only_calls_cfn_send; [done]
    | apply only_calls_eb_send; [done|]
    | preserves_step ].

Lemma only_calls_findActualRuleName env P :
  (∀ c, is_eventbridge c = true → P c = true) →
  preserves (only_calls P) (findActualRuleName env).
Proof.
  intros HP. unfold findActualRuleName, send_ListRules.
  repeat first [apply only_calls_eb_send; [by apply HP|] | only_calls_step].
Qed.

Lemma only_calls_getCurrentRuleState env P :
  (∀ c, is_eventbridge c = true → P c = true) →
  preserves (only_calls P) (getCurrentRuleState env).
Proof.
  intros HP. unfold getCurrentRuleState, send_DescribeRule.
  repeat first
    [ by apply only_calls_findActualRuleName
    | apply only_calls_eb_send; [by apply HP|] | only_calls_step ].
Qed.

Lemma only_calls_set_rule env P (enable : bool) :
  (∀ c, is_eventbridge c = true → P c = true) →
  preserves (only_calls P) (if enable then enableSyncRule env else disableSyncRule env).
Proof.
  intros HP. destruct enable; unfold enableSyncRule, disableSyncRule, send_set_rule;
  repeat first
    [ by apply only_calls_findActualRuleName
    | apply only_calls_eb_send; [by apply HP|] | only_calls_step ].
Qed.

Lemma only_calls_manageRuleBasedOnStackCount env P :
  (∀ c, is_eventbridge c = true → P c = true) →
  preserves (only_calls P) (manageRuleBasedOnStackCount env).
Proof.
  intros HP. unfold manageRuleBasedOnStackCount, checkActiveStackCount.
  repeat first
    [ by apply only_calls_getCurrentRuleState
    | by apply (only_calls_set_rule env P true)
    | by apply (only_calls_set_rule env P false)
    | only_calls_step ].
Qed.

Lemma deployLoop_calls env stackCount stackPrefix timestamp codes :
  ∀ i st w,
    ∃ inputs k,
      calls (snd (deployLoop env stackCount stackPrefix timestamp i codes st w)) =
        calls w ++ map CreateStack inputs ∧
      map cs_UniqueId inputs = take k codes ∧
      Forall (λ input,
                Js.startsWith (stackPrefix +:+ "-") (cs_StackName input) = true)
        inputs.
Proof.
  induction codes as [|c codes IH]; intros i st w; cbn [deployLoop].
  - exists [], 0%nat. by rewrite run_ret, app_nil_r.
  - rewrite run_bind.
    pose proof (calls_deployOne env stackCount stackPrefix timestamp i c st w) as Hcalls.
    destruct (deployOne env stackCount stackPrefix timestamp i c st w) as [[st'|e] w1];
      cbn [snd] in Hcalls.
    + destruct (IH (i + 1) st' w1) as (inputs & k & Hc & Hids & Hnames).
      exists (create_input env stackPrefix timestamp i c w :: inputs), (S k).
      rewrite Hc, Hcalls, <- app_assoc. split; [done|]. cbn. rewrite Hids.
      split; [done|]. constructor; [apply startsWith_stackName|done].
    + exists [create_input env stackPrefix timestamp i c w], 1%nat. cbn [snd].
      rewrite Hcalls. split; [done|]. split; [done|].
      constructor; [apply startsWith_stackName|done].
Qed.

Lemma assignAccessCodes_NoDup count selected w assigned w' :
  NoDup (map guid (table w)) →
  assignAccessCodes count selected w = (Ok assigned, w') →
  NoDup assigned.
Proof.
  intros Hnd Hrun. destruct (table w) as [|r0 t0] eqn:Htable.
  { by rewrite assignAccessCodes_empty_table in Hrun. }
  assert (table w ≠ []) as Hne by by rewrite Htable.
  rewrite <- Htable in *.
  assert (selected = None ∨ selected = Some [] ∨
          ∃ c cs, selected = Some (c :: cs)) as [->|[->|(c & cs & ->)]].
  { destruct selected as [[|c cs]|]; eauto. }
  1,2: rewrite assignAccessCodes_auto in Hrun by auto;
       destruct (_ <? count); [done|]; injection Hrun as <- _;
       unfold Js.slice0; destruct (count <? 0);
       (eapply sublist_NoDup; [by apply NoDup_available_ids|apply sublist_take]).
  destruct (assignAccessCodes_explicit_cases count c cs w Hne)
    as [((_ & _ & _ & Hsel) & Hrun')|(_ & e & Hrun' & _)]; [|congruence].
  rewrite Hrun' in Hrun. by injection Hrun as <- _.
Qed.

Lemma created_codes_app l k : created_codes (l ++ k) = created_codes l ++ created_codes k.
Proof. unfold created_codes. apply omap_app. Qed.

Lemma created_codes_CreateStack inputs :
  created_codes (map CreateStack inputs) = map cs_UniqueId inputs.
Proof. induction inputs as [|x l IH]; [done|]. cbn. by f_equal. Qed.

Lemma created_codes_eventbridge log :
  Forall (λ c, is_eventbridge c = true) log → created_codes log = [].
Proof.
  induction 1 as [|c log Hc _ IH]; [done|]. unfold created_codes in *. cbn.
  rewrite IH. by destruct c.
Qed.

(** The stacks that one call of [deployStacks] asks CloudFormation for: at
    most [stackCount] of them, each for a different code, each for a code
    that was AVAILABLE when the call started, each with a name that starts
    with the configured prefix; apart from them the call talks to
    EventBridge only. *)
Theorem deployStacks_creates env stackCount selected w :
  NoDup (map guid (table w)) →
  let w' := snd (deployStacks env stackCount selected w) in
  let stackPrefix := Js.or_default (stackNamePrefix (config env)) "deployment-stack" in
  NoDup (created_codes (new_calls w w')) ∧
  (∀ c, c ∈ created_codes (new_calls w w') → c ∈ available_ids (table w)) ∧
  Z.of_nat (length (created_codes (new_calls w w'))) ≤ Z.max 0 stackCount ∧
  Forall (λ c, match c with
               | CreateStack input =>
                   Js.startsWith (stackPrefix +:+ "-") (cs_StackName input) = true
               | _ => is_eventbridge c = true
               end) (new_calls w w').
Proof.
  intros Hnd. cbn zeta.
  assert (∀ w0, new_calls w w0 = [] →
            NoDup (created_codes (new_calls w w0)) ∧
            (∀ c, c ∈ created_codes (new_calls w w0) → c ∈ available_ids (table w)) ∧
            Z.of_nat (length (created_codes (new_calls w w0))) ≤ Z.max 0 stackCount ∧
            Forall (λ c, match c with
               | CreateStack input =>
                   Js.startsWith
                     (Js.or_default (stackNamePrefix (config env)) "deployment-stack"
                        +:+ "-") (cs_StackName input) = true
               | _ => is_eventbridge c = true
               end) (new_calls w w0)) as Hnothing.
  { intros w0 ->. cbn. repeat split; try lia; try constructor.
    intros c Hc. by apply elem_of_nil in Hc. }
  assert (new_calls w w = []) as Hsame by (unfold new_calls; by rewrite drop_all).
  remember (snd (deployStacks env stackCount selected w)) as w' eqn:Hw'.
  revert Hw'. unfold deployStacks. rewrite run_try_catch, run_bind.
  destruct (validateStackCount_cases env stackCount w)
    as [(-> & Hrange)|(e & -> & _)]; [|intros ->; by apply Hnothing].
  rewrite run_bind.
  destruct (validateTemplateUrl_cases env (templateUrl (config env)) w)
    as [->|(e & -> & _)]; [|intros ->; by apply Hnothing].
  rewrite run_bind.
  destruct (assignAccessCodes_cases stackCount selected w)
    as [(assigned & Hassign)|(e & -> & _)]; [|intros ->; by apply Hnothing].
  rewrite Hassign.
  destruct (assignAccessCodes_available _ _ _ _ _ Hassign) as (_ & Havailable).
  pose proof (assignAccessCodes_NoDup _ _ _ _ _ Hnd Hassign) as Hdistinct.
  rewrite run_bind. unfold now at 1. cbn [fst snd]. rewrite run_bind.
  set (stackPrefix := Js.or_default (stackNamePrefix (config env)) "deployment-stack").
  set (codes := take (Z.to_nat stackCount) assigned).
  destruct (deployLoop_calls env stackCount stackPrefix (time_at env (clock w)) codes
              0 no_progress (tick_clock w)) as (inputs & k & Hcalls & Hids & Hnames).
  unfold no_progress in Hcalls.
  assert (∀ w2, only_calls is_eventbridge
                  (snd (deployLoop env stackCount stackPrefix (time_at env (clock w))
                          0 codes
                          {| p_deployedStacks := []; successfulDeployments := 0;
                             failedDeployments := 0 |} (tick_clock w))) w2 →
                NoDup (created_codes (new_calls w w2)) ∧
                (∀ c, c ∈ created_codes (new_calls w w2) → c ∈ available_ids (table w)) ∧
                Z.of_nat (length (created_codes (new_calls w w2))) ≤ Z.max 0 stackCount ∧
                Forall (λ c, match c with
                   | CreateStack input =>
                       Js.startsWith (stackPrefix +:+ "-") (cs_StackName input) = true
                   | _ => is_eventbridge c = true
                   end) (new_calls w w2)) as Hdone.
  { intros w2 (extra & Hc2 & Hextra). unfold new_calls.
    rewrite Hc2, Hcalls. cbn [calls tick_clock]. rewrite <- app_assoc, drop_app_length.
    rewrite created_codes_app, created_codes_CreateStack,
      (created_codes_eventbridge extra), app_nil_r, Hids by done.
    assert (take k codes `sublist_of` assigned) as Hsub.
    { etransitivity; [apply sublist_take|apply sublist_take]. }
    split; [by eapply sublist_NoDup|]. split.
    { intros c Hc. apply Havailable. by eapply elem_of_sublist. }
    split.
    { rewrite length_take. unfold codes. rewrite length_take. lia. }
    apply Forall_app. split.
    - apply Forall_forall. intros c (input & <- & Hin)%in_map_iff.
      by eapply (proj1 (Forall_forall _ _) Hnames).
    - eapply list.Forall_impl; [exact Hextra|]. intros c Hc. by destruct c. }
  destruct (deployLoop _ _ _ _ _ _ _ _) as [[st|e] w1]; cbn [fst snd] in *.
  - rewrite run_bind.
    destruct (0 <? successfulDeployments st).
    + rewrite run_advisory, run_ret. cbn [snd]. intros ->. apply Hdone.
      by apply only_calls_manageRuleBasedOnStackCount.
    + rewrite !run_ret. cbn [snd]. intros ->. apply Hdone. reflexivity.
  - intros ->. apply Hdone. destruct e; reflexivity.
Qed.

Lemma deployStacks_creates_witness :
  NoDup (map guid (table (world_of (map fresh ten_ids)))) ∧
  created_codes
    (new_calls (world_of (map fresh ten_ids))
       (snd (deployStacks quiet_env 3 None (world_of (map fresh ten_ids))))) =
  take 3 ten_ids ∧
  NoDup
    (created_codes
       (new_calls (world_of (map fresh ten_ids))
          (snd (deployStacks quiet_env 3 None (world_of (map fresh ten_ids)))))).
Proof.
  assert (NoDup (map guid (table (world_of (map fresh ten_ids))))) as Hnd.
  { apply (bool_decide_unpack _). by vm_compute. }
  split; [exact Hnd|]. split; [by vm_compute|].
  apply (deployStacks_creates quiet_env 3 None (world_of (map fresh ten_ids)) Hnd).
Defined.

(** ** The trigger follows the table *)

Lemma run_manageRuleBasedOnStackCount_ok env w :
  (∀ c, eb_error env c = None) →
  snd (manageRuleBasedOnStackCount env w) =
  let name := trigger_name (rules w) in
  let w1 := log_call (DescribeRule name) (log_call ListRules w) in
  match rule_status name (rules w) with
  | Some ENABLED =>
      if (0 <? remaining w)%nat then w1
      else set_rules (set_rule_status name DISABLED (rules w))
             (log_call (DisableRule name) (log_call ListRules w1))
  | Some DISABLED =>
      if (0 <? remaining w)%nat
      then set_rules (set_rule_status name ENABLED (rules w))
             (log_call (EnableRule name) (log_call ListRules w1))
      else w1
  | None => w1
  end.
Proof.
  intros Hok. unfold manageRuleBasedOnStackCount, checkActiveStackCount.
  rewrite run_advisory. cbn [snd].
  rewrite !run_bind, run_getNonAvailableStackRecords, run_ret. fold (remaining w).
  rewrite run_bind. unfold getCurrentRuleState.
  rewrite run_bind, run_findActualRuleName_ok by done.
  rewrite run_bind. unfold send_DescribeRule, eb_send at 1. rewrite Hok.
  rewrite run_bind. unfold get_world at 1. cbn [fst snd rules log_call].
  destruct (rule_status (trigger_name (rules w)) (rules w)) as [st|] eqn:Hst;
    [|done].
  rewrite !run_ret. cbn [rs_state].
  assert (∀ w0 (enable : bool),
            rules w0 = rules w →
            snd ((if enable then enableSyncRule env else disableSyncRule env) w0) =
            set_rules
              (set_rule_status (trigger_name (rules w))
                 (if enable then ENABLED else DISABLED) (rules w))
              (log_call ((if enable then EnableRule else DisableRule)
                           (trigger_name (rules w)))
                 (log_call ListRules w0))) as Hset.
  { intros w0 enable Hrules.
    destruct enable; unfold enableSyncRule, disableSyncRule;
      rewrite run_bind, run_findActualRuleName_ok by done;
      rewrite Hrules; unfold send_set_rule, eb_send; rewrite Hok;
      rewrite run_bind; unfold get_world at 1; cbn [fst snd rules log_call];
      by rewrite Hrules, Hst. }
  destruct st, (0 <? remaining w)%nat; cbn [andb negb];
    rewrite ?bool_decide_eq_true_2, ?bool_decide_eq_false_2 by done;
    cbn [andb negb]; try done.
  - by rewrite (Hset _ false).
  - by rewrite (Hset _ true).
Qed.

(** [manageRuleBasedOnStackCount] never raises and touches neither the
    table nor CloudFormation.  When EventBridge answers and the rule
    exists, the rule is ENABLED afterwards exactly when the table holds a
    record that is not AVAILABLE, and a rule that is already in that state
    is neither enabled nor disabled again. *)
Theorem manageRule_follows_table env w :
  let w' := snd (manageRuleBasedOnStackCount env w) in
  let want := if (0 <? remaining w)%nat then ENABLED else DISABLED in
  fst (manageRuleBasedOnStackCount env w) = Ok () ∧
  table w' = table w ∧
  Forall (λ c, is_eventbridge c = true) (new_calls w w') ∧
  ((∀ c, eb_error env c = None) →
   (rule_status (trigger_name (rules w)) (rules w) ≠ None →
    rule_status (trigger_name (rules w')) (rules w') = Some want) ∧
   (rule_status (trigger_name (rules w)) (rules w) = Some want →
    rules w' = rules w ∧ List.filter is_set_rule (new_calls w w') = [])).
Proof.
  cbn zeta. split.
  { unfold manageRuleBasedOnStackCount. by rewrite run_advisory. }
  split; [apply same_table_manageRuleBasedOnStackCount|].
  split.
  { by apply only_calls_new_calls, only_calls_manageRuleBasedOnStackCount. }
  intros Hok. rewrite run_manageRuleBasedOnStackCount_ok by done. cbn zeta.
  assert (∀ w0 extra, calls w0 = calls w ++ extra → new_calls w w0 = extra) as Hnew.
  { intros w0 extra Hc. unfold new_calls. by rewrite Hc, drop_app_length. }
  destruct (rule_status (trigger_name (rules w)) (rules w)) as [st|] eqn:Hst;
    [|by split].
  destruct st, (0 <? remaining w)%nat eqn:Hpos; cbn [rules set_rules log_call].
  - split; [done|]. intros _. split; [done|].
    by erewrite Hnew by (cbn [calls log_call]; by rewrite <- !app_assoc).
  - split; [|done]. intros _. rewrite trigger_name_set_rule_status.
    apply rule_status_set_rule_status. by rewrite Hst.
  - split; [|done]. intros _. rewrite trigger_name_set_rule_status.
    apply rule_status_set_rule_status. by rewrite Hst.
  - split; [done|]. intros _. split; [done|].
    by erewrite Hnew by (cbn [calls log_call]; by rewrite <- !app_assoc).
Qed.

Lemma manageRule_follows_table_witness :
  rule_status sync_rule
    (rules (snd (manageRuleBasedOnStackCount quiet_env
                   {| table := [linked id_a CREATE_COMPLETE];
                      rules := [(sync_rule, DISABLED)]; clock := 0; writes := 0;
                      calls := [] |}))) = Some ENABLED.
Proof.
  apply (proj1 (proj2 (proj2 (proj2
    (manageRule_follows_table quiet_env
       {| table := [linked id_a CREATE_COMPLETE];
          rules := [(sync_rule, DISABLED)]; clock := 0; writes := 0;
          calls := [] |}))) (λ _, eq_refl))).
  discriminate.
Defined.

(** ** Started stacks are recorded, and the trigger is enabled *)

Lemma elem_of_putItem_same item t : item ∈ putItem item t.
Proof.
  pose proof (find_putItem_same item t) as H. apply find_same_guid in H as [H _]. done.
Qed.

Lemma elem_of_putItem_other item t r :
  r ∈ t → guid r ≠ guid item → r ∈ putItem item t.
Proof.
  intros Hr Hne. unfold putItem. destruct (existsb _ _).
  - apply list_elem_of_fmap. exists r. split; [|done].
    assert (same_guid (guid item) r = false) as -> by by apply same_guid_false.
    done.
  - apply elem_of_app. by left.
Qed.

Lemma elem_of_updateItem_other key f t r :
  r ∈ t → guid r ≠ key → r ∈ updateItem key f t.
Proof.
  intros Hr Hne. apply elem_of_updateItem. exists r. split; [done|].
  assert (same_guid key r = false) as -> by by apply same_guid_false.
  done.
Qed.

Lemma deployLoop_records env stackCount stackPrefix timestamp codes :
  (∀ n, write_error env n = None) →
  ∀ i st w st' w',
    NoDup codes →
    (∀ d, d ∈ p_deployedStacks st → ds_uniqueId d ∉ codes) →
    (∀ d, d ∈ p_deployedStacks st → started d = true → recorded (table w) d) →
    successfulDeployments st =
      Z.of_nat (length (List.filter started (p_deployedStacks st))) →
    deployLoop env stackCount stackPrefix timestamp i codes st w = (Ok st', w') →
    (∀ d, d ∈ p_deployedStacks st' → started d = true → recorded (table w') d) ∧
    successfulDeployments st' =
      Z.of_nat (length (List.filter started (p_deployedStacks st'))) ∧
    rules w' = rules w.
Proof.
  intros Hwrites. induction codes as [|c codes IH];
    intros i st w st' w' Hnd Hfresh Hrec Hcount; cbn [deployLoop].
  { rewrite run_ret. by intros [= <- <-]. }
  apply list.NoDup_cons in Hnd as [Hc Hnd].
  rewrite run_bind, run_deployOne. cbn zeta.
  set (input := create_input env stackPrefix timestamp i c w).
  set (w3 := tick_clock (tick_clock (log_call (CreateStack input) (tick_clock w)))).
  assert (∀ d, d ∈ p_deployedStacks st → ds_uniqueId d ≠ c) as Hother.
  { intros d Hd Heq. apply (Hfresh d Hd). rewrite Heq. by left. }
  destruct (created_id (create_stack env input)) as [id|].
  - rewrite run_send_write_accepted by done. cbn [snd]. intros Hrun.
    eapply IH in Hrun as (H1 & H2 & H3); [by rewrite H3|done|..];
      cbn [p_deployedStacks successfulDeployments table set_table].
    + intros d [Hd| ->%list_elem_of_singleton]%elem_of_app.
      * intros Hin. apply (Hfresh d Hd). by right.
      * done.
    + intros d [Hd| ->%list_elem_of_singleton]%elem_of_app Hstarted.
      * destruct (Hrec d Hd Hstarted) as (r & Hr & Hg & Hrest).
        exists r. split; [|done]. apply elem_of_putItem_other; [done|].
        cbn. rewrite Hg. by apply Hother.
      * eexists. split; [apply elem_of_putItem_same|]. done.
    + rewrite List.filter_app, length_app, Hcount. cbn [List.filter].
      unfold started. cbn [ds_status].
      rewrite (bool_decide_eq_true_2 (CREATE_IN_PROGRESS = CREATE_IN_PROGRESS)) by done.
      cbn [length]. lia.
  - destruct (stackCount <? 2 * (failedDeployments st + 1)); [done|].
    rewrite run_send_write_accepted by done. cbn [snd]. intros Hrun.
    eapply IH in Hrun as (H1 & H2 & H3); [by rewrite H3|done|..];
      cbn [p_deployedStacks successfulDeployments table set_table].
    + intros d [Hd| ->%list_elem_of_singleton]%elem_of_app.
      * intros Hin. apply (Hfresh d Hd). by right.
      * done.
    + intros d [Hd| ->%list_elem_of_singleton]%elem_of_app Hstarted; [|done].
      destruct (Hrec d Hd Hstarted) as (r & Hr & Hg & Hrest).
      exists r. split; [|done]. apply elem_of_updateItem_other; [done|].
      rewrite Hg. by apply Hother.
    + rewrite List.filter_app, length_app, Hcount. cbn [List.filter].
      unfold started. cbn [ds_status].
      rewrite (bool_decide_eq_false_2 (CREATE_FAILED = CREATE_IN_PROGRESS)) by done.
      cbn [length]. lia.
Qed.

Lemma remaining_pos w r :
  r ∈ table w → isAvailable r = false → (0 <? remaining w)%nat = true.
Proof.
  intros Hr Hav. apply Nat.ltb_lt. unfold remaining.
  assert (r ∈ List.filter (λ r, negb (isAvailable r)) (table w)) as Hin.
  { apply elem_of_filter. split; [done|]. by rewrite Hav. }
  destruct (List.filter _ _); [by apply elem_of_nil in Hin|cbn; lia].
Qed.

(** [deployStacks] on a table that accepts the writes. *)
Lemma run_deployStacks_records env stackCount selected w response w' :
  NoDup (map guid (table w)) →
  (∀ n, write_error env n = None) →
  deployStacks env stackCount selected w = (Ok response, w') →
  (∀ d, d ∈ deployedStacks response → started d = true → recorded (table w') d) ∧
  ((∀ c, eb_error env c = None) →
   rule_status (trigger_name (rules w)) (rules w) ≠ None →
   (∃ d, d ∈ deployedStacks response ∧ started d = true) →
   rule_status (trigger_name (rules w')) (rules w') = Some ENABLED).
Proof.
  intros Hnd Hwrites. unfold deployStacks. rewrite run_try_catch, run_bind.
  destruct (validateStackCount_cases env stackCount w)
    as [(-> & Hrange)|(e & -> & _)]; [|done].
  rewrite run_bind.
  destruct (validateTemplateUrl_cases env (templateUrl (config env)) w)
    as [->|(e & -> & _)]; [|done].
  rewrite run_bind.
  destruct (assignAccessCodes_cases stackCount selected w)
    as [(assigned & Hassign)|(e & -> & _)]; [|done].
  rewrite Hassign.
  pose proof (assignAccessCodes_NoDup _ _ _ _ _ Hnd Hassign) as Hdistinct.
  rewrite run_bind. unfold now at 1. cbn [fst snd]. rewrite run_bind.
  set (stackPrefix := Js.or_default (stackNamePrefix (config env)) "deployment-stack").
  set (codes := take (Z.to_nat stackCount) assigned).
  pose proof (deployLoop_records env stackCount stackPrefix (time_at env (clock w))
                codes Hwrites 0 no_progress (tick_clock w)) as Hloop.
  unfold no_progress in Hloop.
  destruct (deployLoop _ _ _ _ _ _ _ _) as [[st|e] w1] eqn:Hrun; [|by destruct e].
  assert (NoDup codes) as Hcodes
    by (eapply sublist_NoDup; [done|apply sublist_take]).
  destruct (Hloop st w1 Hcodes) as (Hrecorded & Hcount & Hrules);
    [intros d Hd; by apply elem_of_nil in Hd
    |intros d Hd; by apply elem_of_nil in Hd|done|done|].
  clear Hloop. cbn [rules tick_clock] in Hrules.
  rewrite run_bind.
  destruct (0 <? successfulDeployments st) eqn:Hsome.
  - rewrite run_advisory, run_ret. intros [= <- <-]. cbn [deployedStacks].
    pose proof (same_table_manageRuleBasedOnStackCount env w1) as (Htable & _).
    split; [intros d Hd Hs; rewrite Htable; by apply Hrecorded|].
    intros Hok Hexists (d & Hd & Hstarted).
    destruct (Hrecorded d Hd Hstarted) as (r & Hr & _ & Hst & _).
    rewrite run_manageRuleBasedOnStackCount_ok by done. cbn zeta.
    rewrite (remaining_pos w1 r Hr) by (unfold isAvailable; by rewrite Hst).
    rewrite Hrules.
    destruct (rule_status (trigger_name (rules w)) (rules w)) as [[]|] eqn:Hrule;
      [| |done]; cbn [rules set_rules log_call]; rewrite ?Hrules.
    + done.
    + rewrite trigger_name_set_rule_status.
      apply rule_status_set_rule_status. by rewrite Hrule.
  - rewrite !run_ret. intros [= <- <-]. cbn [deployedStacks].
    split; [done|]. intros _ _ (d & Hd & Hstarted). exfalso.
    apply Z.ltb_ge in Hsome.
    assert (d ∈ List.filter started (p_deployedStacks st)) as Hin
      by by apply elem_of_filter.
    destruct (List.filter started (p_deployedStacks st));
      [by apply elem_of_nil in Hin|cbn in Hcount; lia].
Qed.

(** When the table accepts the writes, every stack that a response of
    [deployStacks] reports as started has its record in the table, linked
    to the stack and in the status CREATE_IN_PROGRESS; and when EventBridge
    answers as well and the rule exists, a response that reports a started
    stack leaves the rule ENABLED. *)
Theorem deployStacks_records env stackCount selected w response w' :
  NoDup (map guid (table w)) →
  (∀ n, write_error env n = None) →
  deployStacks env stackCount selected w = (Ok response, w') →
  (∀ d, d ∈ deployedStacks response → started d = true → recorded (table w') d) ∧
  ((∀ c, eb_error env c = None) →
   rule_status (trigger_name (rules w)) (rules w) ≠ None →
   (∃ d, d ∈ deployedStacks response ∧ started d = true) →
   rule_status (trigger_name (rules w')) (rules w') = Some ENABLED).
Proof. apply run_deployStacks_records. Qed.


Lemma deployStacks_records_witness :
  NoDup (map guid (table idle_world)) ∧
  (∀ n, write_error quiet_env n = None) ∧
  rule_status sync_rule (rules (snd (deployStacks quiet_env 2 None idle_world))) =
    Some ENABLED.
Proof.
  assert (NoDup (map guid (table idle_world))) as Hnd.
  { apply (bool_decide_unpack _). by vm_compute. }
  split; [exact Hnd|]. split; [done|].
  destruct (deployStacks quiet_env 2 None idle_world) as [[response|e] w'] eqn:Hrun.
  - destruct (deployStacks_records quiet_env 2 None idle_world response w' Hnd
                (λ _, eq_refl) Hrun) as (_ & Henabled).
    assert (deployedStacks response =
            deployedStacks
              (match fst (deployStacks quiet_env 2 None idle_world) with
               | Ok r => r
               | Throw _ => response
               end)) as Hresponse by by rewrite Hrun.
    assert (rules w' = rules (snd (deployStacks quiet_env 2 None idle_world)))
      as Hrules by by rewrite Hrun.
    cbn [snd]. rewrite Hrules.
    assert (trigger_name (rules (snd (deployStacks quiet_env 2 None idle_world))) =
            sync_rule) as <- by by vm_compute.
    rewrite <- Hrules. apply Henabled; [done|discriminate|].
    rewrite Hresponse. vm_compute. eexists. split; [by left|reflexivity].
  - exfalso. assert (fst (deployStacks quiet_env 2 None idle_world) = Throw e) as H
      by by rewrite Hrun.
    vm_compute in H. discriminate.
Defined.

(** ** The deleter: one code *)

Lemma quiet_validateAccessCode P accessCode : preserves (quiet P) (validateAccessCode accessCode).
Proof. unfold validateAccessCode. repeat preserves_step. Qed.

Lemma quiet_toFoundStack env P record : preserves (quiet P) (toFoundStack env record).
Proof.
  unfold toFoundStack, createdAt_or_now.
  repeat first [apply quiet_now | preserves_step].
Qed.

Lemma quiet_findStackByAccessCode env P accessCode :
  preserves (quiet P) (findStackByAccessCode env accessCode).
Proof.
  unfold findStackByAccessCode.
  repeat first
    [ apply quiet_validateAccessCode | apply quiet_toFoundStack | preserves_step ].
Qed.

Lemma quiet_updateStackRecord env P key u :
  preserves (quiet P) (updateStackRecord env key u).
Proof.
  unfold updateStackRecord.
  repeat first [apply quiet_now | apply quiet_send_write | preserves_step].
Qed.

Lemma quiet_deleteStackByAccessCode env P accessCode :
  (∀ name, P (DeleteStack name) = false) →
  preserves (quiet P) (deleteStackByAccessCode env accessCode).
Proof.
  intros HP. unfold deleteStackByAccessCode, deleter_rethrow, send_DeleteStack.
  repeat first
    [ apply quiet_findStackByAccessCode | apply quiet_updateStackRecord
    | by apply quiet_cfn_send | preserves_step ].
Qed.

Lemma deleter_rethrow_no_js {A} op (m : M A) w e :
  fst (deleter_rethrow op m w) ≠ Throw (EJs e).
Proof.
  unfold deleter_rethrow. rewrite run_try_catch.
  by destruct (m w) as [[a|[l|j]] w'].
Qed.

(** What [deleteStackByAccessCode] does besides its answer.  A code that
    is not in the format of the pool, or that has no record, is refused
    with INVALID_ACCESS_CODE (400) and nothing is sent or written.  In
    every case the rules of EventBridge are left as they are, the call
    sends nothing or one [DeleteStack], for the stack name of the record of
    the code, and no error other than a [LambdaError] leaves the function. *)
Theorem deleteStackByAccessCode_effects env accessCode w :
  let out := deleteStackByAccessCode env accessCode w in
  (Js.uuidRegex_test accessCode = false ∨
   find (same_guid accessCode) (table w) = None →
   out = (Throw (ELambda {| statusCode := 400; code := "INVALID_ACCESS_CODE";
                            details := AccessCodeDetails accessCode |}), w)) ∧
  rules (snd out) = rules w ∧
  (new_calls w (snd out) = [] ∨
   ∃ r, find (same_guid accessCode) (table w) = Some r ∧ isActive r = true ∧
        new_calls w (snd out) = [DeleteStack (stackName r)]) ∧
  (∀ e, fst out ≠ Throw (EJs e)).
Proof.
  cbn zeta.
  assert (∀ w0, calls w0 = calls w → new_calls w w0 = []) as Hnone.
  { intros w0 Hc. unfold new_calls. by rewrite Hc, drop_all. }
  assert (Js.uuidRegex_test accessCode = false ∨
          find (same_guid accessCode) (table w) = None →
          deleteStackByAccessCode env accessCode w =
          (Throw (ELambda {| statusCode := 400; code := "INVALID_ACCESS_CODE";
                             details := AccessCodeDetails accessCode |}), w))
    as Hrefused.
  { intros Hbad. unfold deleteStackByAccessCode.
    apply run_deleter_rethrow_lambda. rewrite run_bind.
    destruct (Js.uuidRegex_test accessCode) eqn:Huuid.
    - destruct Hbad as [?|Hfind]; [done|].
      by rewrite run_findStackByAccessCode, Hfind.
    - unfold findStackByAccessCode.
      by rewrite run_bind, validateAccessCode_bad_format. }
  split; [done|].
  split; [apply (quiet_deleteStackByAccessCode env (λ _, false)); done|].
  split; [|intros e; apply deleter_rethrow_no_js].
  destruct (Js.uuidRegex_test accessCode) eqn:Huuid;
    [|left; rewrite Hrefused by auto; by apply Hnone].
  destruct (find (same_guid accessCode) (table w)) as [r|] eqn:Hfind;
    [|left; rewrite Hrefused by auto; by apply Hnone].
  destruct (run_deleteStackByAccessCode env accessCode w r Huuid Hfind)
    as [Hinactive Hactive]. cbn zeta in *.
  destruct (isActive r) eqn:Hact.
  2:{ left. apply Hnone. by destruct (Hinactive eq_refl) as (_ & _ & ?). }
  destruct (Hactive eq_refl) as (Hdip & Hprog & Hdel).
  destruct (decide (status r = Cfn DELETE_IN_PROGRESS)) as [Hst|Hst].
  { left. apply Hnone. by destruct (Hdip Hst) as (_ & _ & ?). }
  destruct (decide (status r ∈ inProgressStates)) as [Hip|Hip].
  { left. apply Hnone. by destruct (Hprog Hip) as (_ & _ & ?). }
  right. exists r. split; [done|]. split; [done|].
  destruct (Hdel Hst Hip) as (Hcalls & _). unfold new_calls.
  by rewrite Hcalls, drop_app_length.
Qed.

Lemma deleteStackByAccessCode_effects_witness :
  Js.uuidRegex_test "not-a-code" = false ∧
  deleteStackByAccessCode quiet_env "not-a-code" (world_of [linked id_a CREATE_COMPLETE]) =
  (Throw (ELambda {| statusCode := 400; code := "INVALID_ACCESS_CODE";
                     details := AccessCodeDetails "not-a-code" |}),
   world_of [linked id_a CREATE_COMPLETE]).
Proof.
  split; [reflexivity|].
  apply (proj1 (deleteStackByAccessCode_effects quiet_env "not-a-code"
                  (world_of [linked id_a CREATE_COMPLETE]))).
  by left.
Defined.

(** ** The deleter: all stacks *)

Lemma run_deleteOneOfAll env statuses stack w :
  ∃ w',
    deleteOneOfAll env statuses stack w =
    (Ok (<[fs_uniqueId stack :=
             bulk_status_of env (fs_status stack) (fs_stackName stack)]> statuses),
     w') ∧
    rules w' = rules w ∧
    calls w' =
      calls w ++
      (if deletable (fs_status stack) then [DeleteStack (fs_stackName stack)] else []).
Proof.
  unfold deleteOneOfAll, bulk_status_of, deletable. rewrite run_try_catch.
  destruct (status_eqb (fs_status stack) DELETE_IN_PROGRESS).
  { exists w. by rewrite run_ret, app_nil_r. }
  destruct (bool_decide (fs_status stack ∈ inProgressStates)).
  { exists w. by rewrite run_ret, app_nil_r. }
  cbn [negb andb]. rewrite run_bind. unfold send_DeleteStack, cfn_send.
  destruct (delete_stack env (fs_stackName stack)) as [[]|e].
  - rewrite run_bind, run_advisory, run_ret.
    eexists. split; [done|].
    pose proof (quiet_updateStackRecord env (λ _, false) (fs_uniqueId stack)
                  set_DELETE_IN_PROGRESS
                  (log_call (DeleteStack (fs_stackName stack)) w))
      as (Hrules & extra & Hcalls & _).
    split; [done|]. rewrite Hcalls.
    assert (extra = []) as ->; [|by rewrite app_nil_r].
    rewrite run_updateStackRecord in Hcalls. cbn [writes log_call] in Hcalls.
    destruct (write_error env (writes w)); cbn in Hcalls;
      apply (f_equal length) in Hcalls; rewrite !length_app in Hcalls;
      destruct extra; cbn in Hcalls; [done|lia|done|lia].
  - rewrite run_ret. by eexists.
Qed.

Lemma run_foldM_deleteOneOfAll env stacks :
  ∀ statuses w,
    ∃ w',
      foldM (deleteOneOfAll env) statuses stacks w =
      (Ok (foldl (λ m stack,
                    <[fs_uniqueId stack :=
                        bulk_status_of env (fs_status stack) (fs_stackName stack)]> m)
             statuses stacks), w') ∧
      rules w' = rules w ∧
      calls w' =
        calls w ++
        map (λ stack, DeleteStack (fs_stackName stack))
          (List.filter (λ stack, deletable (fs_status stack)) stacks).
Proof.
  induction stacks as [|stack stacks IH]; intros statuses w; cbn [foldM foldl].
  - exists w. by rewrite run_ret, app_nil_r.
  - rewrite run_bind.
    destruct (run_deleteOneOfAll env statuses stack w) as (w1 & -> & Hr1 & Hc1).
    destruct (IH (<[fs_uniqueId stack :=
                      bulk_status_of env (fs_status stack) (fs_stackName stack)]>
                    statuses) w1) as (w' & -> & Hr & Hc).
    exists w'. split; [done|]. split; [congruence|]. rewrite Hc, Hc1. cbn [List.filter].
    destruct (deletable (fs_status stack)); cbn [map]; by rewrite <- app_assoc.
Qed.

Lemma found_stacks_calls rs fs :
  Forall2
    (λ r f, fs_uniqueId f = guid r ∧ fs_status f = status r ∧
            fs_stackName f = stackName r) rs fs →
  map (λ stack, DeleteStack (fs_stackName stack))
    (List.filter (λ stack, deletable (fs_status stack)) fs) =
  map (λ r, DeleteStack (stackName r))
    (List.filter (λ r, deletable (status r)) rs).
Proof.
  induction 1 as [|r f rs fs (_ & Hst & Hname) _ IH]; [done|]. cbn.
  rewrite Hst. destruct (deletable (status r)); cbn; by rewrite ?Hname, IH.
Qed.

Lemma filter_filter {A} (p q : A → bool) l :
  List.filter q (List.filter p l) = List.filter (λ x, p x && q x) l.
Proof.
  induction l as [|x l IH]; [done|]. cbn.
  destruct (p x); cbn; [destruct (q x)|]; by rewrite IH.
Qed.

(** [deleteAllStacks] on a table with one record per code. *)
Lemma run_deleteAllStacks env w :
  NoDup (map guid (table w)) →
  ∃ response w',
    deleteAllStacks env w = (Ok response, w') ∧
    bd_success response = true ∧
    (∀ r, r ∈ table w → isActive r = true →
       bd_deletionStatuses response !! guid r = Some (bulk_status env r)) ∧
    (∀ key, is_Some (bd_deletionStatuses response !! key) →
       ∃ r, r ∈ table w ∧ isActive r = true ∧ guid r = key) ∧
    rules w' = rules w ∧
    new_calls w w' =
      map (λ r, DeleteStack (stackName r))
        (List.filter (λ r, isActive r && deletable (status r)) (table w)).
Proof.
  intros Hnd. unfold deleteAllStacks, getAllActiveStacks.
  destruct (run_mapM_toFoundStack env (List.filter isActive (table w)) w)
    as (stacks & w1 & Hrun & (Ht1 & Hr1 & _ & Hc1) & Hstacks).
  destruct (run_foldM_deleteOneOfAll env stacks ∅ w1) as (w2 & Hfold & Hr2 & Hc2).
  set (statuses := foldl (λ m stack,
                    <[fs_uniqueId stack :=
                        bulk_status_of env (fs_status stack) (fs_stackName stack)]> m)
             ∅ stacks) in *.
  assert ((∀ r, r ∈ table w → isActive r = true →
             statuses !! guid r = Some (bulk_status env r)) ∧
          (∀ key, is_Some (statuses !! key) →
             ∃ r, r ∈ table w ∧ isActive r = true ∧ guid r = key)) as (Hin & Hout).
  { split.
    - intros r Hr Hact.
      assert (r ∈ List.filter isActive (table w)) as Hr' by by apply elem_of_filter.
      apply list_elem_of_lookup in Hr' as (i & Hi).
      destruct (Forall2_lookup_l _ _ _ _ _ Hstacks Hi) as (f & Hf & Hg & _).
      destruct (foldl_insert_is_Some fs_uniqueId
                  (λ stack, bulk_status_of env (fs_status stack) (fs_stackName stack))
                  stacks ∅ f) as (e & He).
      { left. by eapply list_elem_of_lookup_2. }
      fold statuses in He. rewrite <- Hg, He. f_equal.
      apply foldl_insert_lookup in He as [He|(x & Hx & Hkey & ->)]; [done|].
      apply list_elem_of_lookup in Hx as (j & Hj).
      destruct (Forall2_lookup_r _ _ _ _ _ Hstacks Hj) as (r' & Hr' & Hg' & Hst' & Hn').
      apply list_elem_of_lookup_2, elem_of_filter in Hr' as [Hr' _].
      assert (r' = r) as -> by (apply (guid_inj_on_table (table w)); congruence).
      unfold bulk_status. by rewrite Hst', Hn'.
    - intros key (e & He).
      apply foldl_insert_lookup in He as [He|(x & Hx & Hkey & _)]; [done|].
      apply list_elem_of_lookup in Hx as (j & Hj).
      destruct (Forall2_lookup_r _ _ _ _ _ Hstacks Hj) as (r' & Hr' & Hg' & _).
      apply list_elem_of_lookup_2, elem_of_filter in Hr' as [Hr' Hact].
      exists r'. split; [done|]. split; [done|congruence]. }
  exists {| bd_success := true; bd_deletionStatuses := statuses |}, w2.
  split.
  { apply run_deleter_rethrow_ok.
    rewrite run_bind, run_bind, run_getAllStackRecords, Hrun.
    destruct stacks as [|stack stacks'].
    - cbn [length Nat.eqb]. cbn [foldM] in Hfold. rewrite run_ret in Hfold.
      assert (w2 = w1) as -> by congruence. by rewrite run_ret.
    - cbn [length Nat.eqb]. by rewrite run_bind, Hfold. }
  split; [done|]. split; [exact Hin|]. split; [exact Hout|]. split; [congruence|].
  unfold new_calls. rewrite Hc2, Hc1, drop_app_length.
  by rewrite (found_stacks_calls _ _ Hstacks), filter_filter.
Qed.

(** [deleteAllStacks] never fails because a deletion failed, and what it
    reports does not depend on what the table answers to the writes.  On a
    table with one record per code it returns one status for each linked
    code and none for any other code: ALREADY_DELETING, OPERATION_IN_PROGRESS,
    or how CloudFormation answered the [DeleteStack] that was sent.  It
    sends [DeleteStack] for exactly the linked stacks that are neither
    being deleted nor in another operation, and leaves the rules of
    EventBridge as they are. *)
Theorem deleteAllStacks_statuses env w :
  NoDup (map guid (table w)) →
  ∃ response w',
    deleteAllStacks env w = (Ok response, w') ∧
    bd_success response = true ∧
    (∀ r, r ∈ table w → isActive r = true →
       bd_deletionStatuses response !! guid r = Some (bulk_status env r)) ∧
    (∀ key, is_Some (bd_deletionStatuses response !! key) →
       ∃ r, r ∈ table w ∧ isActive r = true ∧ guid r = key) ∧
    rules w' = rules w ∧
    new_calls w w' =
      map (λ r, DeleteStack (stackName r))
        (List.filter (λ r, isActive r && deletable (status r)) (table w)).
Proof. apply run_deleteAllStacks. Qed.

Lemma deleteAllStacks_statuses_witness :
  NoDup (map guid (table (world_of [linked id_a CREATE_COMPLETE; fresh id_b;
                                    linked id_c CREATE_IN_PROGRESS]))) ∧
  ∃ response w',
    deleteAllStacks quiet_env
      (world_of [linked id_a CREATE_COMPLETE; fresh id_b;
                 linked id_c CREATE_IN_PROGRESS]) = (Ok response, w') ∧
    bd_deletionStatuses response !! id_a = Some "DELETE_INITIATED" ∧
    bd_deletionStatuses response !! id_c = Some "OPERATION_IN_PROGRESS".
Proof.
  assert (NoDup (map guid (table (world_of [linked id_a CREATE_COMPLETE; fresh id_b;
                                            linked id_c CREATE_IN_PROGRESS])))) as Hnd.
  { apply (bool_decide_unpack _). by vm_compute. }
  split; [exact Hnd|].
  destruct (deleteAllStacks_statuses quiet_env _ Hnd)
    as (response & w' & Hrun & _ & Hin & _).
  exists response, w'. split; [done|]. split.
  - apply (Hin (linked id_a CREATE_COMPLETE)); [by left|done].
  - apply (Hin (linked id_c CREATE_IN_PROGRESS)); [by do 2 right; left|done].
Defined.

(** ** The synchronisation: outputs *)

(** The outputs that the synchronisation stores for a stack: each has a
    key and a value that are not empty; they are the outputs of
    CloudFormation that have both, in the same order and with their
    descriptions, so that nothing is dropped when every output has both. *)
Theorem convertCloudFormationOutputs_spec cfOutputs :
  let complete := λ o, Js.truthy (OutputKey o) && Js.truthy (OutputValue o) in
  let stored := convertCloudFormationOutputs cfOutputs in
  Forall (λ o, outputKey o ≠ "" ∧ outputValue o ≠ "") stored ∧
  map (λ o, (Some (outputKey o), Some (outputValue o), description o)) stored =
    map (λ o, (OutputKey o, OutputValue o, Description o))
      (List.filter complete (default [] cfOutputs)) ∧
  (Forall (λ o, complete o = true) (default [] cfOutputs) →
   length stored = length (default [] cfOutputs)).
Proof.
  cbn zeta. unfold convertCloudFormationOutputs.
  destruct cfOutputs as [l|]; cbn [default]; [|by repeat split].
  change (id l) with l. split; [|split].
  - apply Forall_forall. intros o (x & <- & [_ Hx]%filter_In)%in_map_iff.
    apply andb_true_iff in Hx as [Hk Hv]. unfold Js.truthy in *.
    destruct (OutputKey x) as [k|], (OutputValue x) as [v|]; try done. cbn.
    apply negb_true_iff in Hk, Hv. by split; apply String.eqb_neq.
  - induction l as [|x l IH]; [done|]. cbn [List.filter].
    destruct (Js.truthy (OutputKey x) && Js.truthy (OutputValue x)) eqn:Hx; [|done].
    cbn [map]. rewrite IH. f_equal. apply andb_true_iff in Hx as [Hk Hv].
    unfold Js.truthy in *.
    by destruct (OutputKey x) as [k|], (OutputValue x) as [v|].
  - intros Hall. rewrite length_map. f_equal. apply filter_all.
    intros o Ho. by apply (proj1 (list.Forall_forall _ _) Hall).
Qed.

(** ** The synchronisation: the report of a pass *)

Lemma run_syncOneOfAll_cases env result record w :
  ∃ w',
    calls w' =
      calls w ++ (if Js.truthy (stackArn record) then [describe_call record] else []) ∧
    ((syncOneOfAll env result record w =
        (Ok {| totalProcessed := totalProcessed result;
               successfulSyncs := successfulSyncs result + 1;
               failedSyncs := failedSyncs result;
               errors := errors result |}, w') ∧
      ((∀ n, write_error env n = None) → isAvailable record = false →
       sync_failure env record = None)) ∨
     (∃ msg,
        syncOneOfAll env result record w =
          (Ok {| totalProcessed := totalProcessed result;
                 successfulSyncs := successfulSyncs result;
                 failedSyncs := failedSyncs result + 1;
                 errors := errors result ++ [(guid record, msg)] |}, w') ∧
        Js.truthy (stackArn record) = true ∧
        ((∀ n, write_error env n = None) → isAvailable record = false →
         sync_failure env record = Some (guid record, msg)))).
Proof.
  unfold syncOneOfAll, sync_failure, isActive. rewrite run_bind.
  destruct (Js.truthy (stackArn record)) eqn:Harn.
  - rewrite run_syncStackRecord by done. cbn zeta.
    destruct (described env _) as [e|d] eqn:Hd.
    + eexists. split; [|right; eexists; split; [reflexivity|]].
      * by rewrite calls_send_write.
      * split; [done|]. intros _ ->. done.
    + destruct (write_error env (writes w)) as [e|] eqn:Hw.
      * eexists. split; [|right; eexists; split; [reflexivity|]].
        -- by rewrite calls_send_write.
        -- split; [done|]. intros Hacc. by rewrite Hacc in Hw.
      * eexists. split; [|left; split; [reflexivity|]].
        -- by rewrite calls_send_write.
        -- intros _ ->. done.
  - rewrite run_syncStackRecord_skip by done. cbn [fst snd sr_success].
    exists w. split; [by rewrite app_nil_r|]. left. split; [done|].
    intros _ _. by rewrite andb_false_r.
Qed.

Lemma run_foldM_syncOneOfAll env rs :
  ∀ result w, ∃ result' w' es,
    foldM (syncOneOfAll env) result rs w = (Ok result', w') ∧
    totalProcessed result' = totalProcessed result ∧
    successfulSyncs result' + failedSyncs result' =
      successfulSyncs result + failedSyncs result + Z.of_nat (length rs) ∧
    successfulSyncs result ≤ successfulSyncs result' ∧
    errors result' = errors result ++ es ∧
    failedSyncs result' = failedSyncs result + Z.of_nat (length es) ∧
    Forall (λ e, ∃ r, r ∈ rs ∧ Js.truthy (stackArn r) = true ∧ fst e = guid r) es ∧
    calls w' =
      calls w ++ map describe_call (List.filter (λ r, Js.truthy (stackArn r)) rs) ∧
    ((∀ n, write_error env n = None) →
     Forall (λ r, isAvailable r = false) rs →
     es = omap (sync_failure env) rs).
Proof.
  induction rs as [|r rs IH]; intros result w; cbn [foldM].
  - exists result, w, []. rewrite run_ret, !app_nil_r. cbn.
    repeat split; try done; lia.
  - rewrite run_bind.
    destruct (run_syncOneOfAll_cases env result r w)
      as (w1 & Hc1 & [[-> Hnone]|(msg & -> & Harn & Hsome)]); cbn [fst snd].
    + destruct (IH {| totalProcessed := totalProcessed result;
                      successfulSyncs := successfulSyncs result + 1;
                      failedSyncs := failedSyncs result;
                      errors := errors result |} w1)
        as (result' & w' & es & -> & Ht & Hsum & Hle & Herr & Hfail & Hes & Hc & Hacc).
      cbn [totalProcessed successfulSyncs failedSyncs errors] in *.
      exists result', w', es. repeat split; try done.
      * rewrite length_cons. lia.
      * lia.
      * eapply list.Forall_impl; [exact Hes|]. intros e (x & Hx & Hxa & He).
        exists x. split; [by right|done].
      * rewrite Hc, Hc1, <- app_assoc. f_equal. cbn [List.filter].
        by destruct (Js.truthy (stackArn r)).
      * intros Hw Hall. apply list.Forall_cons in Hall as [Hr Hrs].
        change (omap (sync_failure env) (r :: rs))
          with (match sync_failure env r with
                | Some y => y :: omap (sync_failure env) rs
                | None => omap (sync_failure env) rs
                end).
        rewrite (Hnone Hw Hr).
        by apply Hacc.
    + destruct (IH {| totalProcessed := totalProcessed result;
                      successfulSyncs := successfulSyncs result;
                      failedSyncs := failedSyncs result + 1;
                      errors := errors result ++ [(guid r, msg)] |} w1)
        as (result' & w' & es & -> & Ht & Hsum & Hle & Herr & Hfail & Hes & Hc & Hacc).
      cbn [totalProcessed successfulSyncs failedSyncs errors] in *.
      exists result', w', ((guid r, msg) :: es). repeat split; try done.
      * rewrite length_cons. lia.
      * by rewrite Herr, <- app_assoc.
      * rewrite length_cons. lia.
      * constructor; [exists r; split; [by left|done]|].
        eapply list.Forall_impl; [exact Hes|]. intros e (x & Hx & Hxa & He).
        exists x. split; [by right|done].
      * rewrite Hc, Hc1, <- app_assoc. f_equal. cbn [List.filter].
        by rewrite Harn.
      * intros Hw Hall. apply list.Forall_cons in Hall as [Hr Hrs].
        change (omap (sync_failure env) (r :: rs))
          with (match sync_failure env r with
                | Some y => y :: omap (sync_failure env) rs
                | None => omap (sync_failure env) rs
                end).
        rewrite (Hsome Hw Hr).
        f_equal. by apply Hacc.
Qed.

Lemma run_syncAllStacks_loop env w result w1 :
  foldM (syncOneOfAll env) (sync_start (table w))
    (List.filter (λ r, negb (isAvailable r)) (table w)) w = (Ok result, w1) →
  syncAllStacks env w =
  (Ok result,
   if (0 <? remaining w1)%nat then w1 else snd (ensureRuleDisabled env w1)).
Proof.
  unfold syncAllStacks, sync_start.
  rewrite run_bind, run_getNonAvailableStackRecords. cbn [fst snd].
  destruct (List.filter (λ r, negb (isAvailable r)) (table w)) as [|r rs'].
  - cbn [length Nat.eqb foldM]. rewrite run_ret. intros [= <- <-].
    by rewrite run_bind, run_disableRuleWhenAllDeleted, run_ret.
  - cbn [length Nat.eqb]. rewrite run_bind. intros ->. cbn [fst snd].
    by rewrite run_bind, run_disableRuleWhenAllDeleted, run_ret.
Qed.

Lemma omap_filter_None {A B} (f : A → option B) (p : A → bool) l :
  (∀ x, p x = false → f x = None) → omap f (List.filter p l) = omap f l.
Proof.
  intros Hf. induction l as [|x l IH]; [done|]. cbn.
  destruct (p x) eqn:Hp; cbn; [by rewrite IH|]. by rewrite (Hf x Hp).
Qed.

(** The numbers that a pass reports add up, whatever CloudFormation, the
    table and EventBridge answer: the pass returns a report, it has
    processed the records that are not available, each of them counts as
    one success or as one failure, and [errors] has one entry for each
    failure, which names a linked record of the table. *)
Theorem syncAllStacks_accounting env w :
  ∃ result w',
    syncAllStacks env w = (Ok result, w') ∧
    totalProcessed result = Z.of_nat (remaining w) ∧
    successfulSyncs result + failedSyncs result = totalProcessed result ∧
    0 ≤ successfulSyncs result ∧
    failedSyncs result = Z.of_nat (length (errors result)) ∧
    Forall (λ e, ∃ r, r ∈ table w ∧ isActive r = true ∧ fst e = guid r)
      (errors result).
Proof.
  destruct (run_foldM_syncOneOfAll env
              (List.filter (λ r, negb (isAvailable r)) (table w))
              (sync_start (table w)) w)
    as (result & w1 & es & Hrun & Ht & Hsum & Hle & Herr & Hfail & Hes & _).
  rewrite (run_syncAllStacks_loop env w result w1 Hrun).
  cbn [sync_start totalProcessed successfulSyncs failedSyncs errors] in *.
  cbn [app] in Herr. subst es.
  eexists _, _. split; [reflexivity|]. unfold remaining.
  repeat split; try lia.
  eapply list.Forall_impl; [exact Hes|]. intros e (r & Hr & Harn & He).
  apply list_elem_of_In, filter_In in Hr as [Hr Hav].
  exists r. split; [by apply list_elem_of_In|]. split; [|done].
  unfold isActive. by rewrite Hav, Harn.
Qed.

(** When the table accepts every write, the failures of a pass are the
    failed descriptions: [errors] lists, in the order of the scan, the
    linked records whose stack CloudFormation could not describe (for
    another reason than that the stack does not exist), each with the text
    of its error, and every other record that is not available counts as a
    success. *)
Theorem syncAllStacks_errors env w :
  (∀ n, write_error env n = None) →
  ∃ result w',
    syncAllStacks env w = (Ok result, w') ∧
    errors result = omap (sync_failure env) (table w) ∧
    successfulSyncs result =
      Z.of_nat (remaining w) - Z.of_nat (length (omap (sync_failure env) (table w))).
Proof.
  intros Hacc.
  destruct (run_foldM_syncOneOfAll env
              (List.filter (λ r, negb (isAvailable r)) (table w))
              (sync_start (table w)) w)
    as (result & w1 & es & Hrun & Ht & Hsum & Hle & Herr & Hfail & Hes & _ & Hes').
  rewrite (run_syncAllStacks_loop env w result w1 Hrun).
  cbn [sync_start totalProcessed successfulSyncs failedSyncs errors] in *.
  cbn [app] in Herr. subst es.
  assert (errors result = omap (sync_failure env) (table w)) as Heq.
  { rewrite Hes'; [|done|].
    - apply omap_filter_None. intros x Hx. unfold sync_failure, isActive.
      by rewrite Hx.
    - apply list.Forall_forall. intros x Hx.
      apply list_elem_of_In, filter_In in Hx as [_ Hx].
      by apply negb_true_iff in Hx. }
  eexists _, _. split; [reflexivity|]. split; [done|].
  rewrite <- Heq. unfold remaining. lia.
Qed.

Lemma syncAllStacks_errors_witness :
  ∃ result w',
    syncAllStacks throttled_env
      (world_of [linked id_a CREATE_COMPLETE; fresh id_b;
                 linked id_c CREATE_IN_PROGRESS]) = (Ok result, w') ∧
    errors result = [(id_a, "Rate exceeded"); (id_c, "Rate exceeded")] ∧
    successfulSyncs result = 0.
Proof.
  destruct (syncAllStacks_errors throttled_env
              (world_of [linked id_a CREATE_COMPLETE; fresh id_b;
                         linked id_c CREATE_IN_PROGRESS]))
    as (result & w' & Hrun & Herr & Hsucc); [done|].
  exists result, w'. split; [exact Hrun|]. split; [exact Herr|exact Hsucc].
Defined.

Lemma only_calls_ensureRuleDisabled env P :
  (∀ c, is_eventbridge c = true → P c = true) →
  preserves (only_calls P) (ensureRuleDisabled env).
Proof.
  intros HP. unfold ensureRuleDisabled.
  repeat first
    [ by apply only_calls_getCurrentRuleState
    | by apply (only_calls_set_rule env P false)
    | only_calls_step ].
Qed.

(** What a pass asks of the services.  It sends one [DescribeStacks] for
    each linked record, in the order of the scan and by the ARN that the
    record holds, also when a description or a write fails on the way; it
    never creates or deletes a stack; and it speaks to EventBridge only
    afterwards, and only when no record is left that is not available. *)
Theorem syncAllStacks_describes env w :
  let w' := snd (syncAllStacks env w) in
  ∃ extra,
    new_calls w w' = map describe_call (List.filter isActive (table w)) ++ extra ∧
    Forall (λ c, is_eventbridge c = true) extra ∧
    (extra ≠ [] → remaining w' = 0%nat).
Proof.
  cbn zeta.
  destruct (run_foldM_syncOneOfAll env
              (List.filter (λ r, negb (isAvailable r)) (table w))
              (sync_start (table w)) w)
    as (result & w1 & es & Hrun & _ & _ & _ & _ & _ & _ & Hcalls & _).
  rewrite (run_syncAllStacks_loop env w result w1 Hrun). cbn [snd].
  rewrite filter_filter in Hcalls. fold isActive in Hcalls.
  change (λ x, negb (isAvailable x) && Js.truthy (stackArn x)) with isActive in Hcalls.
  destruct (0 <? remaining w1)%nat eqn:Hrem.
  - exists []. unfold new_calls. rewrite Hcalls, drop_app_length, app_nil_r.
    by repeat split.
  - destruct (only_calls_ensureRuleDisabled env is_eventbridge (λ c H, H) w1)
      as (extra & Hextra & Heb).
    exists extra. unfold new_calls.
    rewrite Hextra, Hcalls, <- app_assoc, drop_app_length.
    repeat split; [done|]. intros _.
    destruct (same_table_ensureRuleDisabled env w1) as (Htable & _).
    unfold remaining in *. rewrite Htable. apply Nat.ltb_ge in Hrem. lia.
Qed.

(** ** The synchronisation: what a pass leaves in a record *)

Lemma sync_pass_record env w r :
  (∀ n, write_error env n = None) →
  NoDup (map guid (table w)) →
  r ∈ table w → isActive r = true →
  ∃ t tu, synced env r t tu ∈ table (snd (syncAllStacks env w)).
Proof.
  intros Hacc Hnd Hr Hact.
  apply list_elem_of_lookup in Hr as (i & Hi).
  destruct (Forall2_lookup_l _ _ _ _ _ (sync_pass_ok env w Hacc Hnd) Hi)
    as (r' & Hi' & _ & Hr').
  apply andb_true_iff in Hact as [Hav _]. apply negb_true_iff in Hav.
  rewrite Hav in Hr'. destruct Hr' as (t & tu & ->).
  exists t, tu. by eapply list_elem_of_lookup_2.
Qed.

(** A description that fails changes neither the status nor the link of a
    record.  When the table accepts the writes and CloudFormation cannot
    describe the stack of a linked record, for another reason than that
    the stack does not exist, the pass leaves the record with its status,
    its stack, its outputs and its time of creation, and with the text of
    the error in [syncError] and a time in [lastSyncAt]. *)
Theorem sync_failed_description env w r e :
  (∀ n, write_error env n = None) →
  NoDup (map guid (table w)) →
  r ∈ table w → isActive r = true →
  described env (default "" (stackArn r)) = inl e →
  ∃ r',
    r' ∈ table (snd (syncAllStacks env w)) ∧
    guid r' = guid r ∧ status r' = status r ∧
    stackArn r' = stackArn r ∧ stackName r' = stackName r ∧
    stackId r' = stackId r ∧ outputs r' = outputs r ∧
    createdAt r' = createdAt r ∧
    syncError r' = Some (error_text e) ∧ is_Some (lastSyncAt r').
Proof.
  intros Hacc Hnd Hr Hact Hd.
  destruct (sync_pass_record env w r Hacc Hnd Hr Hact) as (t & tu & Hin).
  eexists. split; [exact Hin|].
  apply andb_true_iff in Hact as [_ Harn].
  unfold synced. rewrite Harn, Hd. cbn. by repeat split.
Qed.

Lemma sync_failed_description_witness :
  ∃ r',
    r' ∈ table (snd (syncAllStacks throttled_env
                       (world_of [linked id_a CREATE_IN_PROGRESS; fresh id_b]))) ∧
    guid r' = id_a ∧ status r' = CREATE_IN_PROGRESS ∧
    syncError r' = Some "Rate exceeded".
Proof.
  destruct (sync_failed_description throttled_env
              (world_of [linked id_a CREATE_IN_PROGRESS; fresh id_b])
              (linked id_a CREATE_IN_PROGRESS) (EJs rate_exceeded))
    as (r' & Hin & Hguid & Hstatus & _ & _ & _ & _ & _ & Herr & _).
  - done.
  - apply (bool_decide_unpack _). by vm_compute.
  - by left.
  - done.
  - done.
  - exists r'. by repeat split.
Defined.

Lemma synced_adopts env r s rest t tu :
  isActive r = true →
  describe_stacks env (default "" (stackArn r)) = Answer (s :: rest) →
  StackStatus_of s ≠ DELETE_COMPLETE →
  guid (synced env r t tu) = guid r ∧
  stackArn (synced env r t tu) = stackArn r ∧
  in_step (synced env r t tu) s ∧ is_Some (lastSyncAt (synced env r t tu)).
Proof.
  intros Hact Hd Hs.
  apply andb_true_iff in Hact as [Hav Harn]. apply negb_true_iff in Hav.
  unfold synced, described. rewrite Harn, Hd. cbn [negb head fst snd].
  split; [done|]. split; [|split].
  - unfold syncChanges. cbn [negb]. rewrite (bool_decide_eq_false_2 _ Hs).
    repeat (match goal with |- context [change_if ?b _ _] => destruct b end;
            cbn);
    repeat (match goal with |- context [if ?b then _ else _] => destruct b end;
            cbn); done.
  - by apply syncChanges_in_step.
  - unfold syncChanges. cbn [negb]. rewrite (bool_decide_eq_false_2 _ Hs).
    repeat (match goal with |- context [change_if ?b _ _] => destruct b end;
            cbn);
    repeat (match goal with |- context [if ?b then _ else _] => destruct b end;
            cbn); done.
Qed.

(** After a pass a linked record agrees with CloudFormation.  When the
    table accepts the writes and CloudFormation describes the stack of a
    linked record in another state than DELETE_COMPLETE, the pass leaves
    the record with the status, the name and the id of the description,
    with a time of creation if the description has one, with the outputs
    of the description if the stack is complete, and linked as before. *)
Theorem sync_adopts_description env w r s rest :
  (∀ n, write_error env n = None) →
  NoDup (map guid (table w)) →
  r ∈ table w → isActive r = true →
  describe_stacks env (default "" (stackArn r)) = Answer (s :: rest) →
  StackStatus_of s ≠ DELETE_COMPLETE →
  ∃ r',
    r' ∈ table (snd (syncAllStacks env w)) ∧
    guid r' = guid r ∧ stackArn r' = stackArn r ∧
    in_step r' s ∧ is_Some (lastSyncAt r').
Proof.
  intros Hacc Hnd Hr Hact Hd Hs.
  destruct (sync_pass_record env w r Hacc Hnd Hr Hact) as (t & tu & Hin).
  eexists. split; [exact Hin|]. by apply (synced_adopts env r s rest).
Qed.

Lemma sync_adopts_description_witness :
  ∃ r',
    r' ∈ table (snd (syncAllStacks steady_env
                       (world_of [linked id_a CREATE_IN_PROGRESS; fresh id_b]))) ∧
    guid r' = id_a ∧ status r' = CREATE_COMPLETE.
Proof.
  destruct (sync_adopts_description steady_env
              (world_of [linked id_a CREATE_IN_PROGRESS; fresh id_b])
              (linked id_a CREATE_IN_PROGRESS)
              {| StackName := stackName stale_record;
                 StackId := stackId stale_record;
                 StackStatus_of := CREATE_COMPLETE;
                 CreationTime := Some 5%N; Outputs := None |} [])
    as (r' & Hin & Hguid & _ & (Hstatus & _) & _).
  - done.
  - apply (bool_decide_unpack _). by vm_compute.
  - by left.
  - done.
  - done.
  - done.
  - exists r'. by repeat split.
Defined.

(** ** The stack output retriever *)

Lemma run_retriever_findStackByAccessCode accessCode w :
  retriever_findStackByAccessCode accessCode w =
  (Ok match find (same_guid accessCode) (table w) with
      | Some record =>
          if Js.uuidRegex_test accessCode && isActive record
          then Some (cached_stack record) else None
      | None => None
      end, w).
Proof.
  unfold retriever_findStackByAccessCode. apply run_rethrow_with_ok.
  rewrite run_bind, run_getStackRecord. cbn [fst snd]. rewrite run_bind.
  destruct (Js.uuidRegex_test accessCode) eqn:Huuid.
  - rewrite run_validateAccessCode by done. cbn [fst snd].
    destruct (find (same_guid accessCode) (table w)) as [r|]; [|done].
    rewrite bool_decide_eq_true_2 by done. unfold isActive. cbn [andb].
    by destruct (negb (isAvailable r) && Js.truthy (stackArn r)).
  - rewrite validateAccessCode_bad_format by done. cbn [fst snd andb].
    by destruct (find (same_guid accessCode) (table w)).
Qed.

Lemma fallback_outputs_convert cfOutputs :
  fallback_outputs cfOutputs = convertCloudFormationOutputs cfOutputs.
Proof.
  unfold fallback_outputs, convertCloudFormationOutputs.
  destruct cfOutputs as [l|]; [|done].
  set (keep := λ output : CfnOutput,
         Js.truthy (OutputKey output) && Js.truthy (OutputValue output)).
  set (conv := λ output : CfnOutput,
         {| outputKey := default "" (OutputKey output);
            outputValue := default "" (OutputValue output);
            description := Description output |}).
  enough (∀ acc,
    foldl (λ outputs output, if keep output then outputs ++ [conv output] else outputs)
      acc l = acc ++ map conv (List.filter keep l)) as H by apply (H []).
  induction l as [|x l IH]; intros acc; cbn [foldl List.filter map].
  - by rewrite app_nil_r.
  - rewrite IH. destruct (keep x); [|done]. cbn [map]. by rewrite <- app_assoc.
Qed.

(** What the fallback returns, and that it sends one request. *)
Lemma run_outputs_fallback env stack w :
  ∃ response w',
    outputs_fallback env stack w = (Ok response, w') ∧
    so_outputs response =
      match describe_stacks env (default "" (rt_stackName stack)) with
      | Answer (s :: _) => convertCloudFormationOutputs (Outputs s)
      | _ => []
      end ∧
    table w' = table w ∧ rules w' = rules w ∧ writes w' = writes w ∧
    calls w' = calls w ++ [DescribeStacks (default "" (rt_stackName stack))].
Proof.
  unfold outputs_fallback, send_DescribeStacks, cfn_send.
  rewrite run_try_catch, run_bind.
  destruct (describe_stacks env _) as [[|s rest]|e]; cbn [fst snd head].
  - eexists _, _. split; [reflexivity|]. by repeat split.
  - rewrite run_bind. unfold now at 1. cbn [fst snd]. rewrite run_ret.
    eexists _, _. split; [reflexivity|]. cbn [so_outputs].
    rewrite fallback_outputs_convert. by repeat split.
  - eexists _, _. split; [reflexivity|]. by repeat split.
Qed.

(** [getStackOutputs] for a code in the format of the pool. *)
Lemma run_getStackOutputs env accessCode w :
  Js.uuidRegex_test accessCode = true →
  getStackOutputs env accessCode w =
  match find (same_guid accessCode) (table w) with
  | Some r =>
      if isActive r then
        if negb (bool_decide (status r ∈ validOutputStates)) then
          if bool_decide (status r ∈ errorStates) then
            (Throw (ELambda {| statusCode := 400; code := "STACK_ERROR_STATE";
                               details := StackStatusDetails (status r) (stackName r) |}),
             w)
          else
            (Ok {| so_outputs := [];
                   so_lastUpdated := default (updatedAt r) (lastSyncAt r) |}, w)
        else if has_outputs (outputs r) then
          (Ok {| so_outputs := default [] (outputs r);
                 so_lastUpdated := default (updatedAt r) (lastSyncAt r) |}, w)
        else outputs_fallback env (cached_stack r) w
      else
        (Throw (ELambda {| statusCode := 404; code := "STACK_NOT_FOUND";
                           details := NoDetails |}), w)
  | None =>
      (Throw (ELambda {| statusCode := 404; code := "STACK_NOT_FOUND";
                         details := NoDetails |}), w)
  end.
Proof.
  intros Huuid.
  assert (retriever_validateAccessCodeFormat accessCode w = (Ok (), w)) as Hformat.
  { unfold retriever_validateAccessCodeFormat, Js.truthy.
    by rewrite (uuid_not_empty _ Huuid), Huuid. }
  unfold getStackOutputs.
  destruct (find (same_guid accessCode) (table w)) as [r|] eqn:Hfind.
  2: { apply run_rethrow_with_lambda.
       by rewrite run_bind, Hformat, run_bind, run_retriever_findStackByAccessCode,
         Hfind. }
  destruct (isActive r) eqn:Hact.
  2: { apply run_rethrow_with_lambda.
       by rewrite run_bind, Hformat, run_bind, run_retriever_findStackByAccessCode,
         Hfind, Huuid, Hact. }
  assert (∀ rest : option CachedStack → M StackOutputResponse,
    (retriever_validateAccessCodeFormat accessCode;;
     retriever_findStackByAccessCode accessCode ≫= rest) w =
    rest (Some (cached_stack r)) w) as Hrun.
  { intros rest.
    by rewrite run_bind, Hformat, run_bind, run_retriever_findStackByAccessCode,
      Hfind, Huuid, Hact. }
  destruct (bool_decide (status r ∈ validOutputStates)) eqn:Hvalid; cbn [negb].
  - destruct (has_outputs (outputs r)) eqn:Hout.
    + apply run_rethrow_with_ok. rewrite Hrun.
      cbn [cached_stack rt_status rt_outputs rt_stackName rt_lastUpdated].
      by rewrite Hvalid, Hout.
    + destruct (run_outputs_fallback env (cached_stack r) w)
        as (response & w' & Hfb & _).
      rewrite Hfb. apply run_rethrow_with_ok. rewrite Hrun.
      cbn [rt_status rt_outputs]. fold (cached_stack r).
      change (rt_status (cached_stack r)) with (status r).
      change (rt_outputs (cached_stack r)) with (outputs r).
      by rewrite Hvalid, Hout.
  - destruct (bool_decide (status r ∈ errorStates)) eqn:Herr.
    + apply run_rethrow_with_lambda. rewrite Hrun.
      cbn [cached_stack rt_status rt_outputs rt_stackName rt_lastUpdated].
      by rewrite Hvalid, Herr.
    + apply run_rethrow_with_ok. rewrite Hrun.
      cbn [cached_stack rt_status rt_outputs rt_stackName rt_lastUpdated].
      by rewrite Hvalid, Herr.
Qed.

Lemma find_guid_NoDup t r :
  NoDup (map guid t) → r ∈ t → find (same_guid (guid r)) t = Some r.
Proof.
  induction t as [|x t IH]; intros Hnd Hr; [by apply elem_of_nil in Hr|].
  cbn [map] in Hnd. apply list.NoDup_cons in Hnd as [Hx Hnd]. cbn [find].
  apply elem_of_cons in Hr as [->|Hr].
  - by rewrite (proj2 (same_guid_true (guid x) x)).
  - rewrite (proj2 (same_guid_false (guid r) x)); [by apply IH|].
    intros Heq. apply Hx. rewrite Heq. apply list_elem_of_fmap. by exists r.
Qed.

Lemma new_calls_same w w' : calls w' = calls w → new_calls w w' = [].
Proof. intros Hc. unfold new_calls. by rewrite Hc, drop_all. Qed.

(** The retriever answers alike for every code that has no stack.  A code
    in the format of the pool that has no record, whose record is
    AVAILABLE, or whose record has no stack gets the same error,
    STACK_NOT_FOUND (404) without details, and the call leaves no trace:
    nothing in the answer tells a code of the pool from any other. *)
Theorem getStackOutputs_not_found env accessCode w :
  Js.uuidRegex_test accessCode = true →
  (∀ r, find (same_guid accessCode) (table w) = Some r → isActive r = false) →
  getStackOutputs env accessCode w =
  (Throw (ELambda {| statusCode := 404; code := "STACK_NOT_FOUND";
                     details := NoDetails |}), w).
Proof.
  intros Huuid Hnone. rewrite run_getStackOutputs by done.
  destruct (find (same_guid accessCode) (table w)) as [r|]; [|done].
  by rewrite (Hnone r).
Qed.

Lemma getStackOutputs_not_found_witness :
  getStackOutputs quiet_env id_b
    (world_of [linked id_a CREATE_COMPLETE; fresh id_b]) =
  (Throw (ELambda {| statusCode := 404; code := "STACK_NOT_FOUND";
                     details := NoDetails |}),
   world_of [linked id_a CREATE_COMPLETE; fresh id_b]).
Proof.
  apply getStackOutputs_not_found; [reflexivity|].
  intros r [= <-]. reflexivity.
Defined.

(** What [getStackOutputs] does besides its answer.  It writes nothing:
    the table, the count of writes and the rules are as before.  It sends
    nothing, or one [DescribeStacks] by the stack name of the record, and
    that only for a linked record in a complete state that holds no
    outputs.  An error that leaves it is a [LambdaError] with one of four
    codes, raised before anything was sent; the error
    STACK_DETAILS_NOT_FOUND of the fallback and the exceptions of
    CloudFormation never leave it. *)
Theorem getStackOutputs_effects env accessCode w :
  let out := getStackOutputs env accessCode w in
  table (snd out) = table w ∧ writes (snd out) = writes w ∧
  rules (snd out) = rules w ∧
  (new_calls w (snd out) = [] ∨
   ∃ r, find (same_guid accessCode) (table w) = Some r ∧ isActive r = true ∧
        status r ∈ validOutputStates ∧ has_outputs (outputs r) = false ∧
        new_calls w (snd out) = [DescribeStacks (default "" (stackName r))]) ∧
  (∀ e, fst out = Throw e →
     snd out = w ∧ ∃ l, e = ELambda l ∧ code l ∈ retriever_codes).
Proof.
  cbn zeta.
  assert (∀ l, code l ∈ retriever_codes →
    let out := (Throw (ELambda l) : Outcome StackOutputResponse, w) in
    table (snd out) = table w ∧ writes (snd out) = writes w ∧
    rules (snd out) = rules w ∧
    (new_calls w (snd out) = [] ∨
     ∃ r, find (same_guid accessCode) (table w) = Some r ∧ isActive r = true ∧
          status r ∈ validOutputStates ∧ has_outputs (outputs r) = false ∧
          new_calls w (snd out) = [DescribeStacks (default "" (stackName r))]) ∧
    (∀ e, fst out = Throw e →
       snd out = w ∧ ∃ l, e = ELambda l ∧ code l ∈ retriever_codes)) as Hthrow.
  { intros l Hl. cbn. do 3 (split; [done|]).
    split; [left; by apply new_calls_same|].
    intros e [= <-]. split; [done|]. by exists l. }
  assert (∀ response : StackOutputResponse,
    let out := (Ok response, w) in
    table (snd out) = table w ∧ writes (snd out) = writes w ∧
    rules (snd out) = rules w ∧
    (new_calls w (snd out) = [] ∨
     ∃ r, find (same_guid accessCode) (table w) = Some r ∧ isActive r = true ∧
          status r ∈ validOutputStates ∧ has_outputs (outputs r) = false ∧
          new_calls w (snd out) = [DescribeStacks (default "" (stackName r))]) ∧
    (∀ e, fst out = Throw e →
       snd out = w ∧ ∃ l, e = ELambda l ∧ code l ∈ retriever_codes)) as Hok.
  { intros response. cbn. do 3 (split; [done|]).
    split; [left; by apply new_calls_same|done]. }
  destruct (Js.uuidRegex_test accessCode) eqn:Huuid.
  - rewrite run_getStackOutputs by done.
    destruct (find (same_guid accessCode) (table w)) as [r|] eqn:Hfind.
    2: { apply Hthrow. apply list_elem_of_In. cbn. auto 10. }
    destruct (isActive r) eqn:Hact.
    2: { apply Hthrow. apply list_elem_of_In. cbn. auto 10. }
    destruct (bool_decide (status r ∈ validOutputStates)) eqn:Hvalid; cbn [negb].
    + destruct (has_outputs (outputs r)) eqn:Hout; [apply Hok|].
      destruct (run_outputs_fallback env (cached_stack r) w)
        as (response & w' & -> & _ & Ht & Hr & Hw & Hc).
      cbn [fst snd]. do 3 (split; [done|]). split; [|done].
      right. exists r. do 2 (split; [done|]).
      split; [by apply bool_decide_eq_true in Hvalid|]. split; [done|].
      unfold new_calls. by rewrite Hc, drop_app_length.
    + destruct (bool_decide (status r ∈ errorStates)); [|apply Hok].
      apply Hthrow. apply list_elem_of_In. cbn. auto 10.
  - assert (getStackOutputs env accessCode w =
            (Throw (ELambda
               (if String.eqb accessCode ""
                then {| statusCode := 400; code := "MISSING_ACCESS_CODE";
                        details := NoDetails |}
                else {| statusCode := 400; code := "INVALID_ACCESS_CODE_FORMAT";
                        details := ProvidedDetails accessCode |})), w)) as ->.
    { unfold getStackOutputs. apply run_rethrow_with_lambda. rewrite run_bind.
      unfold retriever_validateAccessCodeFormat, Js.truthy. rewrite Huuid.
      by destruct (String.eqb accessCode ""). }
    apply Hthrow. apply list_elem_of_In.
    destruct (String.eqb accessCode ""); cbn; auto 10.
Qed.

(** What [getStackOutputs] answers for the code of a linked record, by the
    status that the record holds.  In an error state the call is refused
    with STACK_ERROR_STATE (400).  In a state that is neither an error
    state nor complete (a stack that is being created, updated or deleted)
    the answer has no outputs, also when the record holds some.  In a
    complete state the answer has the outputs of the record, without a
    request to CloudFormation; a record without outputs is answered from
    CloudFormation, by the outputs that [convertCloudFormationOutputs]
    would store for the first stack described, and with no outputs when
    the description fails or is empty. *)
Theorem getStackOutputs_linked env accessCode w r :
  Js.uuidRegex_test accessCode = true →
  find (same_guid accessCode) (table w) = Some r →
  isActive r = true →
  let out := getStackOutputs env accessCode w in
  let lastUpdated := default (updatedAt r) (lastSyncAt r) in
  (status r ∈ errorStates →
   out = (Throw (ELambda {| statusCode := 400; code := "STACK_ERROR_STATE";
                            details := StackStatusDetails (status r) (stackName r) |}),
          w)) ∧
  (status r ∉ errorStates → status r ∉ validOutputStates →
   out = (Ok {| so_outputs := []; so_lastUpdated := lastUpdated |}, w)) ∧
  (status r ∈ validOutputStates → has_outputs (outputs r) = true →
   out = (Ok {| so_outputs := default [] (outputs r);
                so_lastUpdated := lastUpdated |}, w)) ∧
  (status r ∈ validOutputStates → has_outputs (outputs r) = false →
   ∃ response,
     fst out = Ok response ∧
     so_outputs response =
       match describe_stacks env (default "" (stackName r)) with
       | Answer (s :: _) => convertCloudFormationOutputs (Outputs s)
       | _ => []
       end).
Proof.
  intros Huuid Hfind Hact. cbn zeta.
  rewrite run_getStackOutputs by done. rewrite Hfind, Hact.
  split; [|split; [|split]].
  - intros Herr.
    assert (status r ∉ validOutputStates) as Hvalid.
    { intros Hvalid. apply list_elem_of_In in Herr, Hvalid. cbn in Herr, Hvalid.
      destruct Hvalid as [Hv|[Hv|[]]]; rewrite <- Hv in Herr;
        intuition discriminate. }
    by rewrite (bool_decide_eq_false_2 _ Hvalid), (bool_decide_eq_true_2 _ Herr).
  - intros Herr Hvalid.
    by rewrite (bool_decide_eq_false_2 _ Hvalid), (bool_decide_eq_false_2 _ Herr).
  - intros Hvalid Hout. by rewrite (bool_decide_eq_true_2 _ Hvalid), Hout.
  - intros Hvalid Hout. rewrite (bool_decide_eq_true_2 _ Hvalid), Hout. cbn [negb].
    destruct (run_outputs_fallback env (cached_stack r) w)
      as (response & w' & -> & Hresp & _).
    by exists response.
Qed.

Lemma getStackOutputs_linked_witness :
  getStackOutputs quiet_env id_a
    (world_of [linked id_a UPDATE_FAILED; fresh id_b]) =
  (Throw (ELambda {| statusCode := 400; code := "STACK_ERROR_STATE";
                     details :=
                       StackStatusDetails UPDATE_FAILED
                         (stackName (linked id_a UPDATE_FAILED)) |}),
   world_of [linked id_a UPDATE_FAILED; fresh id_b]).
Proof.
  apply (proj1 (getStackOutputs_linked quiet_env id_a
                  (world_of [linked id_a UPDATE_FAILED; fresh id_b])
                  (linked id_a UPDATE_FAILED) eq_refl eq_refl eq_refl)).
  apply (bool_decide_unpack _). by vm_compute.
Defined.

(** The synchronisation and the retriever together.  When the table
    accepts the writes and CloudFormation describes the stack of a linked
    record as complete with outputs, then after one pass the holder of the
    code is shown these outputs, all those that have a key and a value,
    and the retriever answers from the table: it sends nothing and changes
    nothing. *)
Theorem sync_then_getStackOutputs env w r s rest :
  (∀ n, write_error env n = None) →
  NoDup (map guid (table w)) →
  r ∈ table w → isActive r = true →
  Js.uuidRegex_test (guid r) = true →
  describe_stacks env (default "" (stackArn r)) = Answer (s :: rest) →
  StackStatus_of s = CREATE_COMPLETE ∨ StackStatus_of s = UPDATE_COMPLETE →
  convertCloudFormationOutputs (Outputs s) ≠ [] →
  let w1 := snd (syncAllStacks env w) in
  ∃ response,
    getStackOutputs env (guid r) w1 = (Ok response, w1) ∧
    so_outputs response = convertCloudFormationOutputs (Outputs s).
Proof.
  intros Hacc Hnd Hr Hact Huuid Hd Hs Hout. cbn zeta.
  destruct (sync_pass_record env w r Hacc Hnd Hr Hact) as (t & tu & Hin).
  assert (StackStatus_of s ≠ DELETE_COMPLETE) as Hdc.
  { intros Heq. rewrite Heq in Hs. by destruct Hs. }
  destruct (synced_adopts env r s rest t tu Hact Hd Hdc)
    as (Hguid & Harn & (Hstatus & _ & _ & _ & Houtputs) & _).
  set (r' := synced env r t tu) in *.
  assert (NoDup (map guid (table (snd (syncAllStacks env w))))) as Hnd'.
  { rewrite (Forall2_map_eq guid (table w)); [done|].
    eapply list.Forall2_impl; [apply (sync_pass_ok env w Hacc Hnd)|].
    by intros x y [Hxy _]. }
  pose proof (find_guid_NoDup _ r' Hnd' Hin) as Hfind. rewrite Hguid in Hfind.
  assert (isActive r' = true) as Hact'.
  { unfold isActive, isAvailable, status_eqb. rewrite Harn, Hstatus.
    apply andb_true_iff in Hact as [_ ->].
    by rewrite bool_decide_eq_false_2. }
  assert (status r' ∈ validOutputStates) as Hvalid.
  { rewrite Hstatus. apply list_elem_of_In. cbn.
    destruct Hs as [->| ->]; auto. }
  specialize (Houtputs Hs).
  assert (has_outputs (outputs r') = true) as Hhas.
  { destruct (outputs r') as [[|o os]|]; cbn in Houtputs; try done;
      by rewrite <- Houtputs in Hout. }
  rewrite run_getStackOutputs by done.
  rewrite Hfind, Hact', (bool_decide_eq_true_2 _ Hvalid), Hhas. cbn [negb].
  eexists. split; [reflexivity|]. exact Houtputs.
Qed.

Lemma sync_then_getStackOutputs_witness :
  ∃ response,
    getStackOutputs complete_env id_a
      (snd (syncAllStacks complete_env
              (world_of [linked id_a CREATE_IN_PROGRESS; fresh id_b]))) =
    (Ok response,
     snd (syncAllStacks complete_env
            (world_of [linked id_a CREATE_IN_PROGRESS; fresh id_b]))) ∧
    so_outputs response =
      [{| outputKey := "WebsiteURL"; outputValue := "https://example.com";
          description := Some "The site" |}].
Proof.
  apply (sync_then_getStackOutputs complete_env
           (world_of [linked id_a CREATE_IN_PROGRESS; fresh id_b])
           (linked id_a CREATE_IN_PROGRESS) complete_stack []).
  - done.
  - apply (bool_decide_unpack _). by vm_compute.
  - by left.
  - done.
  - done.
  - done.
  - by left.
  - done.
Defined.

(** ** The deleter: a second [deleteAllStacks] *)

Lemma table_deleteOneOfAll_accepted env statuses stack w :
  (∀ n, write_error env n = None) →
  table (snd (deleteOneOfAll env statuses stack w)) =
  if deletable (fs_status stack) &&
     match delete_stack env (fs_stackName stack) with
     | Answer _ => true
     | Fails _ => false
     end
  then updateItem (fs_uniqueId stack)
         (applyUpdates set_DELETE_IN_PROGRESS (time_at env (clock w))) (table w)
  else table w.
Proof.
  intros Hacc. unfold deleteOneOfAll, deletable. rewrite run_try_catch.
  destruct (status_eqb (fs_status stack) DELETE_IN_PROGRESS); [done|].
  destruct (bool_decide (fs_status stack ∈ inProgressStates)); [done|].
  cbn [negb andb]. rewrite run_bind. unfold send_DeleteStack, cfn_send.
  destruct (delete_stack env (fs_stackName stack)) as [[]|e]; [|done].
  rewrite run_bind, run_advisory, run_updateStackRecord.
  cbn [writes log_call]. by rewrite Hacc.
Qed.

Lemma Forall2_diag_elem {A} (l l0 : list A) :
  (∀ x, x ∈ l → x ∈ l0) → Forall2 (λ x y, x ∈ l0 ∧ y = x) l l.
Proof.
  induction l as [|x l IH]; intros Hin; constructor.
  - split; [apply Hin; by left|done].
  - apply IH. intros y Hy. apply Hin. by right.
Qed.

Lemma deleteAll_rel_guid env t0 seen r r' :
  deleteAll_rel env t0 seen r r' → guid r' = guid r.
Proof.
  intros (_ & H). destruct (_ && _); [by destruct H as (tu & ->)|by subst].
Qed.

Lemma deleteAll_fold_accepted env t0 stacks :
  (∀ n, write_error env n = None) →
  NoDup (map guid t0) →
  ∀ seen statuses w,
    NoDup (map fs_uniqueId stacks) →
    (∀ s, s ∈ stacks → fs_uniqueId s ∉ seen) →
    (∀ s, s ∈ stacks →
       ∃ r, r ∈ t0 ∧ guid r = fs_uniqueId s ∧ fs_status s = status r ∧
            fs_stackName s = stackName r ∧ isActive r = true) →
    Forall2 (deleteAll_rel env t0 seen) t0 (table w) →
    Forall2 (deleteAll_rel env t0 (rev (map fs_uniqueId stacks) ++ seen)) t0
      (table (snd (foldM (deleteOneOfAll env) statuses stacks w))).
Proof.
  intros Hacc Hnd0.
  induction stacks as [|s stacks IH]; intros seen statuses w Hnd Hseen Hstacks Hrel;
    [done|].
  cbn [foldM]. rewrite run_bind.
  destruct (deleteOneOfAll_returns env statuses s w) as (statuses' & Hret).
  pose proof (table_deleteOneOfAll_accepted env statuses s w Hacc) as Htable.
  destruct (deleteOneOfAll env statuses s w) as [o w1].
  cbn [fst snd] in *. subst o.
  cbn [map] in Hnd. apply list.NoDup_cons in Hnd as [Hs Hnd].
  cbn [map rev]. rewrite <- app_assoc. cbn [app].
  apply IH; [done| |intros x Hx; apply Hstacks; by right|].
  { intros x Hx [Heq|Hin]%elem_of_cons.
    - apply Hs. rewrite <- Heq. apply list_elem_of_fmap. by exists x.
    - by apply (Hseen x); [right|]. }
  destruct (Hstacks s ltac:(by left)) as (r0 & Hr0 & Hg0 & Hst0 & Hn0 & Hact0).
  assert (fs_uniqueId s ∉ seen) as Hnew by (apply Hseen; by left).
  rewrite Htable, Hst0, Hn0. fold (delete_accepted env r0).
  assert (∀ r r', deleteAll_rel env t0 seen r r' → guid r = guid r0 →
            r = r0 ∧ r' = r0) as Hsame.
  { intros r r' (Hr & Hstep) Hg.
    assert (r = r0) as -> by by apply (guid_inj_on_table t0).
    split; [done|].
    rewrite bool_decide_eq_false_2 in Hstep; [done|]. by rewrite Hg0. }
  assert (∀ r r', deleteAll_rel env t0 seen r r' → guid r ≠ guid r0 →
            deleteAll_rel env t0 (fs_uniqueId s :: seen) r r') as Hother.
  { intros r r' (Hr & Hstep) Hg. split; [done|].
    assert (bool_decide (guid r ∈ fs_uniqueId s :: seen) =
            bool_decide (guid r ∈ seen)) as ->; [|done].
    apply bool_decide_ext. rewrite elem_of_cons. rewrite <- Hg0. tauto. }
  destruct (deletable (status r0) && delete_accepted env r0) eqn:Hcond.
  - unfold updateItem. apply Forall2_fmap_r.
    eapply list.Forall2_impl; [exact Hrel|]. intros r r' Hstep. unfold compose.
    destruct (decide (guid r = guid r0)) as [Hg|Hg].
    + destruct (Hsame r r' Hstep Hg) as [-> ->].
      rewrite (proj2 (same_guid_true (fs_uniqueId s) r0)) by done.
      split; [done|].
      rewrite bool_decide_eq_true_2 by (rewrite Hg0; by left).
      unfold marked_by_deleteAll. rewrite Hact0. cbn [andb]. rewrite Hcond.
      by eexists.
    + pose proof (deleteAll_rel_guid _ _ _ _ _ Hstep) as Hg'.
      rewrite (proj2 (same_guid_false (fs_uniqueId s) r')) by congruence.
      by apply Hother.
  - eapply list.Forall2_impl; [exact Hrel|]. intros r r' Hstep.
    destruct (decide (guid r = guid r0)) as [Hg|Hg]; [|by apply Hother].
    destruct (Hsame r r' Hstep Hg) as [-> ->]. split; [done|].
    unfold marked_by_deleteAll. rewrite Hact0. cbn [andb]. rewrite Hcond.
    by rewrite andb_false_r.
Qed.

Lemma NoDup_map_filter {A B} (f : A → B) (p : A → bool) l :
  NoDup (map f l) → NoDup (map f (List.filter p l)).
Proof.
  induction l as [|x l IH]; [done|]. cbn [map List.filter].
  intros [Hx Hnd]%list.NoDup_cons. destruct (p x); [|by apply IH].
  cbn [map]. apply list.NoDup_cons. split; [|by apply IH].
  intros (y & Hy & Hin)%list_elem_of_fmap. apply Hx.
  apply list_elem_of_fmap. exists y. split; [done|].
  apply list_elem_of_In. apply list_elem_of_In in Hin.
  by apply filter_In in Hin as [? _].
Qed.

(** The table after [deleteAllStacks], when it accepts the writes. *)
Lemma deleteAllStacks_marks env w :
  (∀ n, write_error env n = None) →
  NoDup (map guid (table w)) →
  Forall2
    (λ r r',
       if marked_by_deleteAll env r
       then ∃ tu, r' = applyUpdates set_DELETE_IN_PROGRESS tu r
       else r' = r)
    (table w) (table (snd (deleteAllStacks env w))).
Proof.
  intros Hacc Hnd. unfold deleteAllStacks, deleter_rethrow, getAllActiveStacks.
  rewrite run_try_catch, !run_bind, run_getAllStackRecords.
  destruct (run_mapM_toFoundStack env (List.filter isActive (table w)) w)
    as (stacks & w1 & Hrun & (Ht1 & _) & Hstacks).
  rewrite Hrun.
  assert (map fs_uniqueId stacks = map guid (List.filter isActive (table w))) as Hids.
  { clear Hrun. induction Hstacks as [|r f rs fs (Hg & _) _ IH]; [done|].
    cbn. by rewrite Hg, IH. }
  pose proof (deleteAll_fold_accepted env (table w) stacks Hacc Hnd [] ∅ w1) as Hfold.
  assert (Forall2 (deleteAll_rel env (table w) (rev (map fs_uniqueId stacks) ++ []))
            (table w) (table (snd (foldM (deleteOneOfAll env) ∅ stacks w1))))
    as Hrel.
  { apply Hfold.
    - rewrite Hids. by apply NoDup_map_filter.
    - intros s _. apply not_elem_of_nil.
    - intros s (i & Hi)%list_elem_of_lookup.
      destruct (Forall2_lookup_r _ _ _ _ _ Hstacks Hi) as (r & Hr & Hg & Hst & Hn).
      apply list_elem_of_lookup_2, elem_of_filter in Hr as [Hr Hact].
      by exists r.
    - rewrite Ht1.
      eapply list.Forall2_impl; [by apply (Forall2_diag_elem _ (table w))|].
      intros r r' [Hr ->]. split; [done|].
      rewrite bool_decide_eq_false_2; [done|apply not_elem_of_nil]. }
  assert (table (snd ((if (length stacks =? 0)%nat
                       then mret {| bd_success := true; bd_deletionStatuses := ∅ |}
                       else
                         statuses ← foldM (deleteOneOfAll env) ∅ stacks;
                         mret {| bd_success := true;
                                 bd_deletionStatuses := statuses |}) w1)) =
          table (snd (foldM (deleteOneOfAll env) ∅ stacks w1))) as Hsame.
  { destruct stacks as [|s stacks']; [done|]. cbn [length Nat.eqb].
    rewrite run_bind.
    destruct (foldM_returns_deleteOneOfAll env (s :: stacks') ∅ w1) as (st & Hst).
    destruct (foldM (deleteOneOfAll env) ∅ (s :: stacks') w1) as [o w2].
    cbn [fst snd] in *. by subst o. }
  match goal with
  | |- Forall2 _ _ (table (snd ?run)) =>
      assert (table (snd run) =
              table (snd (foldM (deleteOneOfAll env) ∅ stacks w1))) as ->
  end.
  { rewrite <- Hsame.
    match goal with
    | |- context [let (_, _) := ?m in _] => destruct m as [[a|[l|j]] w']
    end; reflexivity. }
  eapply list.Forall2_impl; [exact Hrel|]. intros r r' (Hr & Hstep).
  destruct (marked_by_deleteAll env r) eqn:Hm; [|by rewrite andb_false_r in Hstep].
  rewrite bool_decide_eq_true_2 in Hstep; [done|].
  rewrite app_nil_r. apply list_elem_of_In. apply -> in_rev.
  apply list_elem_of_In. rewrite Hids. apply list_elem_of_fmap. exists r.
  split; [done|]. apply list_elem_of_In, filter_In.
  split; [by apply list_elem_of_In|].
  unfold marked_by_deleteAll in Hm.
  by apply andb_true_iff in Hm as [[? _]%andb_true_iff _].
Qed.

Lemma filter_after_deleteAll env t t' :
  Forall2
    (λ r r',
       if marked_by_deleteAll env r
       then ∃ tu, r' = applyUpdates set_DELETE_IN_PROGRESS tu r
       else r' = r) t t' →
  List.filter (λ r, isActive r && deletable (status r)) t' =
  List.filter
    (λ r, isActive r && deletable (status r) && negb (delete_accepted env r)) t.
Proof.
  induction 1 as [|r r' t t' Hstep _ IH]; [done|]. cbn [List.filter].
  rewrite IH. unfold marked_by_deleteAll in Hstep.
  destruct (isActive r && deletable (status r)) eqn:Hc; cbn [andb] in *.
  - destruct (delete_accepted env r); cbn [negb].
    + destruct Hstep as (tu & ->). cbn [applyUpdates status set_DELETE_IN_PROGRESS
        u_status default]. unfold deletable at 1.
      cbn. by rewrite andb_false_r.
    + subst r'. by rewrite Hc.
  - subst r'. by rewrite Hc.
Qed.

(** A second [deleteAllStacks] does not repeat a deletion that
    CloudFormation accepted.  When the table accepts the writes, the call
    that follows a [deleteAllStacks] reports every stack whose deletion the
    first call started as ALREADY_DELETING, and it sends [DeleteStack] only
    for the linked stacks whose deletion CloudFormation refused the first
    time. *)
Theorem deleteAllStacks_again env w :
  (∀ n, write_error env n = None) →
  NoDup (map guid (table w)) →
  let w1 := snd (deleteAllStacks env w) in
  ∃ response w2,
    deleteAllStacks env w1 = (Ok response, w2) ∧
    (∀ r, r ∈ table w → isActive r = true → deletable (status r) = true →
       delete_accepted env r = true →
       bd_deletionStatuses response !! guid r = Some "ALREADY_DELETING") ∧
    new_calls w1 w2 =
      map (λ r, DeleteStack (stackName r))
        (List.filter
           (λ r, isActive r && deletable (status r) && negb (delete_accepted env r))
           (table w)).
Proof.
  intros Hacc Hnd. cbn zeta.
  pose proof (deleteAllStacks_marks env w Hacc Hnd) as Hmarks.
  assert (NoDup (map guid (table (snd (deleteAllStacks env w))))) as Hnd1.
  { rewrite (Forall2_guid _ _ _ Hmarks); [done|].
    intros r r' Hstep.
    destruct (marked_by_deleteAll env r); [by destruct Hstep as (tu & ->)|by subst]. }
  destruct (run_deleteAllStacks env _ Hnd1)
    as (response & w2 & Hrun & _ & Hin & _ & _ & Hcalls).
  exists response, w2. split; [done|]. split.
  - intros r (i & Hi)%list_elem_of_lookup Hact Hdel Hok.
    destruct (Forall2_lookup_l _ _ _ _ _ Hmarks Hi) as (r' & Hi' & Hstep).
    unfold marked_by_deleteAll in Hstep. rewrite Hact, Hdel, Hok in Hstep.
    destruct Hstep as (tu & ->).
    apply list_elem_of_lookup_2 in Hi'.
    apply andb_true_iff in Hact as [_ Harn].
    assert (isActive (applyUpdates set_DELETE_IN_PROGRESS tu r) = true) as Hact'.
    { unfold isActive. cbn. by rewrite Harn. }
    exact (Hin _ Hi' Hact').
  - by rewrite Hcalls, (filter_after_deleteAll env _ _ Hmarks).
Qed.

Lemma deleteAllStacks_again_witness :
  ∃ response w2,
    deleteAllStacks quiet_env
      (snd (deleteAllStacks quiet_env
              (world_of [linked id_a CREATE_COMPLETE; fresh id_b]))) =
    (Ok response, w2) ∧
    bd_deletionStatuses response !! id_a = Some "ALREADY_DELETING" ∧
    new_calls
      (snd (deleteAllStacks quiet_env
              (world_of [linked id_a CREATE_COMPLETE; fresh id_b]))) w2 = [].
Proof.
  destruct (deleteAllStacks_again quiet_env
              (world_of [linked id_a CREATE_COMPLETE; fresh id_b]))
    as (response & w2 & Hrun & Hin & Hcalls).
  - done.
  - apply (bool_decide_unpack _). by vm_compute.
  - exists response, w2. split; [exact Hrun|]. split; [|exact Hcalls].
    apply (Hin (linked id_a CREATE_COMPLETE)); [by left|done..].
Defined.

(** ** The access code manager *)

Lemma count_not_linked t :
  (length t - count_linked t =
   count_available t +
   length (List.filter (λ r, negb (isAvailable r) && negb (Js.truthy (stackArn r))) t))%nat.
Proof.
  unfold count_linked, count_available, isActive.
  induction t as [|r t IH]; [done|]. cbn [List.filter length].
  pose proof (filter_length_le (λ r, negb (isAvailable r) && Js.truthy (stackArn r)) t).
  destruct (isAvailable r), (Js.truthy (stackArn r)); cbn [negb andb length]; lia.
Qed.

(** What the manager lists.  On a table with one record per code,
    [getAllAccessCodeStatuses] refuses an empty table with
    ACCESS_CODE_POOL_EMPTY (500); otherwise it lists every code of the
    table once, in the order of the scan, each with the stack and the
    status of its own record, and the table is left as it is.  A code
    counts as linked when its record is not AVAILABLE and has a stack, so
    that [totalAvailable] also counts the records that are not AVAILABLE
    but have no stack. *)
Theorem getAllAccessCodeStatuses_entries w :
  NoDup (map guid (table w)) →
  (table w = [] →
   getAllAccessCodeStatuses w =
   (Throw (ELambda {| statusCode := 500; code := "ACCESS_CODE_POOL_EMPTY";
                      details := PoolSizeDetails 0 |}), w)) ∧
  (table w ≠ [] →
   ∃ response,
     getAllAccessCodeStatuses w = (Ok response, w) ∧
     Forall2
       (λ r s,
          acs_accessCode s = guid r ∧ acs_isLinked s = isActive r ∧
          acs_status s = (if isAvailable r then None else Some (status r)) ∧
          acs_stackName s = stackName r ∧ acs_stackId s = stackId r)
       (table w) (accessCodeStatuses response) ∧
     totalLinked response = Z.of_nat (count_linked (table w)) ∧
     totalAvailable response =
       Z.of_nat (count_available (table w)) +
       Z.of_nat (length (List.filter
                           (λ r, negb (isAvailable r) && negb (Js.truthy (stackArn r)))
                           (table w)))).
Proof.
  intros Hnd. split.
  - intros Hnil. unfold getAllAccessCodeStatuses.
    by rewrite run_bind, run_getAccessCodePool, Hnil.
  - intros Hne.
    destruct (run_getAllAccessCodeStatuses w Hnd Hne)
      as (response & Hrun & Hstatuses & Hlinked & Havailable).
    exists response. split; [done|]. split; [|split; [done|]].
    + rewrite Hstatuses. clear. induction (table w) as [|r t IH]; constructor; [|done].
      by unfold stackRecordToAccessCodeStatus, isActive.
    + rewrite Havailable. pose proof (count_not_linked (table w)) as Hcount.
      pose proof (filter_length_le isActive (table w)) as Hle.
      unfold count_linked in *. lia.
Qed.

Lemma getAllAccessCodeStatuses_entries_witness :
  ∃ response,
    getAllAccessCodeStatuses
      (world_of [linked id_a CREATE_COMPLETE; fresh id_b]) =
    (Ok response, world_of [linked id_a CREATE_COMPLETE; fresh id_b]) ∧
    totalLinked response = 1 ∧ totalAvailable response = 1.
Proof.
  assert (NoDup (map guid (table (world_of [linked id_a CREATE_COMPLETE; fresh id_b]))))
    as Hnd.
  { apply (bool_decide_unpack _). by vm_compute. }
  destruct (proj2 (getAllAccessCodeStatuses_entries _ Hnd))
    as (response & Hrun & _ & Hlinked & Havailable); [done|].
  exists response. split; [exact Hrun|]. split; [exact Hlinked|exact Havailable].
Defined.

(** ** The deployer and the retriever together *)

(** A code is known to the retriever as soon as its stack is started.
    When the table accepts the writes, the holder of a code that a response
    of [deployStacks] reports as started is answered by [getStackOutputs]
    at once, with no outputs yet, and not refused as unknown; the retriever
    sends nothing and changes nothing. *)
Theorem deploy_then_getStackOutputs env stackCount selected w response w' d :
  NoDup (map guid (table w)) →
  (∀ n, write_error env n = None) →
  deployStacks env stackCount selected w = (Ok response, w') →
  d ∈ deployedStacks response → started d = true →
  Js.uuidRegex_test (ds_uniqueId d) = true → ds_stackId d ≠ "" →
  ∃ out,
    getStackOutputs env (ds_uniqueId d) w' = (Ok out, w') ∧ so_outputs out = [].
Proof.
  intros Hnd Hacc Hrun Hd Hstarted Huuid Hid.
  destruct (proj1 (run_deployStacks_records env stackCount selected w response w'
                     Hnd Hacc Hrun) d Hd Hstarted)
    as (r & Hr & Hguid & Hstatus & Harn & _).
  assert (NoDup (map guid (table w'))) as Hnd'.
  { pose proof (run_op_rel env (Allocate stackCount selected) w Hnd) as Hrel.
    cbn [run_op] in Hrel. rewrite Hrun in Hrel. cbn [snd] in Hrel.
    rewrite (Forall2_guid _ _ _ Hrel); [done|]. by intros x y [? _]. }
  pose proof (find_guid_NoDup _ r Hnd' Hr) as Hfind. rewrite Hguid in Hfind.
  rewrite run_getStackOutputs by done. rewrite Hfind.
  assert (isActive r = true) as ->.
  { unfold isActive, isAvailable, status_eqb, Js.truthy. rewrite Hstatus, Harn.
    rewrite bool_decide_eq_false_2 by done. cbn [negb andb].
    apply negb_true_iff. by apply String.eqb_neq. }
  rewrite Hstatus. eexists. split; [reflexivity|done].
Qed.

Lemma deploy_then_getStackOutputs_witness :
  ∃ out,
    getStackOutputs quiet_env "00000000-0000-4000-8000-000000000001"
      (snd (deployStacks quiet_env 1 None idle_world)) =
    (Ok out, snd (deployStacks quiet_env 1 None idle_world)) ∧
    so_outputs out = [].
Proof.
  destruct (deployStacks quiet_env 1 None idle_world) as [[response|e] w'] eqn:Hrun.
  - assert (fst (deployStacks quiet_env 1 None idle_world) = Ok response) as Hresponse
      by by rewrite Hrun.
    vm_compute in Hresponse. injection Hresponse as Hresponse.
    apply (deploy_then_getStackOutputs quiet_env 1 None idle_world response w'
             {| ds_stackName :=
                  "deployment-stack-00000000-0000-4000-8000-000000000001-1000-1";
                ds_stackId :=
                  "arn:deployment-stack-00000000-0000-4000-8000-000000000001-1000-1";
                ds_uniqueId := "00000000-0000-4000-8000-000000000001";
                ds_status := CREATE_IN_PROGRESS;
                ds_createdAt := 1002%N |}).
    + apply (bool_decide_unpack _). by vm_compute.
    + done.
    + exact Hrun.
    + rewrite <- Hresponse. by left.
    + done.
    + done.
    + done.
  - exfalso.
    assert (fst (deployStacks quiet_env 1 None idle_world) = Throw e) as H
      by by rewrite Hrun.
    vm_compute in H. discriminate.
Defined.

(** ** The deployer: a request that CloudFormation accepts *)

Lemma deployLoop_all_started env stackCount stackPrefix timestamp codes :
  (∀ input, created_id (create_stack env input) ≠ None) →
  ∀ i st w,
    ∃ st' w',
      deployLoop env stackCount stackPrefix timestamp i codes st w = (Ok st', w') ∧
      map ds_uniqueId (p_deployedStacks st') =
        map ds_uniqueId (p_deployedStacks st) ++ codes ∧
      (Forall (λ d, started d = true) (p_deployedStacks st) →
       Forall (λ d, started d = true) (p_deployedStacks st')) ∧
      successfulDeployments st' =
        successfulDeployments st + Z.of_nat (length codes).
Proof.
  intros Hcreate. induction codes as [|c codes IH]; intros i st w; cbn [deployLoop].
  - exists st, w. rewrite run_ret, app_nil_r. cbn. repeat split; [done|lia].
  - rewrite run_bind, run_deployOne. cbn zeta.
    pose proof (Hcreate (create_input env stackPrefix timestamp i c w)) as Hid.
    destruct (created_id _) as [id|]; [|done]. cbn [fst snd].
    match goal with
    | |- context [deployLoop _ _ _ _ _ _ ?st1 ?w1] =>
        destruct (IH (i + 1) st1 w1) as (st' & w' & -> & Hids & Hstarted & Hcount)
    end.
    cbn [p_deployedStacks successfulDeployments] in *.
    exists st', w'. split; [done|]. split; [|split].
    + rewrite Hids, map_app, <- app_assoc. done.
    + intros Hall. apply Hstarted. apply Forall_app. split; [done|].
      by constructor.
    + rewrite Hcount, length_cons. lia.
Qed.

(** A request that is within the limits and that CloudFormation accepts is
    carried out in full.  When the count is positive and not above the
    size of the pool, the template URL is accepted, at least [stackCount]
    codes are available, CloudFormation starts every creation and the
    table accepts the writes, [deployStacks] with no selection answers
    with the first [stackCount] available codes of the scan, reports one
    started stack for each of them, in that order, leaves each of them
    linked to its stack in the table, and leaves the record of every other
    code as it was. *)
Theorem deployStacks_all_started env stackCount w :
  NoDup (map guid (table w)) →
  (∀ n, write_error env n = None) →
  (∀ input, created_id (create_stack env input) ≠ None) →
  0 < stackCount ≤ maxPoolSize env →
  validateTemplateUrl env (templateUrl (config env)) w = (Ok (), w) →
  stackCount ≤ Z.of_nat (length (available_ids (table w))) →
  ∃ response w',
    deployStacks env stackCount None w = (Ok response, w') ∧
    assignedAccessCodes response =
      take (Z.to_nat stackCount) (available_ids (table w)) ∧
    map ds_uniqueId (deployedStacks response) = assignedAccessCodes response ∧
    Forall (λ d, started d = true ∧ recorded (table w') d) (deployedStacks response) ∧
    (∀ r, r ∈ table w → guid r ∉ assignedAccessCodes response → r ∈ table w').
Proof.
  intros Hnd Hacc Hcreate Hrange Hurl Havailable.
  assert (table w ≠ []) as Hne.
  { intros Hnil. rewrite Hnil in Havailable. cbn in Havailable. lia. }
  set (assigned := take (Z.to_nat stackCount) (available_ids (table w))).
  assert (assignAccessCodes stackCount None w = (Ok assigned, w)) as Hassign.
  { rewrite assignAccessCodes_auto by auto.
    replace (_ <? stackCount) with false by (symmetry; apply Z.ltb_ge; lia).
    unfold Js.slice0.
    by replace (stackCount <? 0) with false by (symmetry; apply Z.ltb_ge; lia). }
  assert (take (Z.to_nat stackCount) assigned = assigned) as Htake.
  { unfold assigned. rewrite take_take. f_equal. lia. }
  set (stackPrefix := Js.or_default (stackNamePrefix (config env)) "deployment-stack").
  destruct (deployLoop_all_started env stackCount stackPrefix (time_at env (clock w))
              assigned Hcreate 0 no_progress (tick_clock w))
    as (st & w1 & Hloop & Hids & Hstarted & Hcount).
  unfold no_progress in *.
  cbn [p_deployedStacks successfulDeployments map app] in Hids, Hstarted, Hcount.
  assert (NoDup assigned) as Hdistinct.
  { eapply sublist_NoDup; [by apply NoDup_available_ids|apply sublist_take]. }
  destruct (deployLoop_records env stackCount stackPrefix (time_at env (clock w))
              assigned Hacc 0
              {| p_deployedStacks := []; successfulDeployments := 0;
                 failedDeployments := 0 |} (tick_clock w) st w1 Hdistinct)
    as (Hrecorded & _ & _); [..|exact Hloop|].
  { intros d Hd. by apply elem_of_nil in Hd. }
  { intros d Hd. by apply elem_of_nil in Hd. }
  { done. }
  pose proof (deployLoop_table env stackCount stackPrefix (time_at env (clock w))
                assigned 0
                {| p_deployedStacks := []; successfulDeployments := 0;
                   failedDeployments := 0 |} (tick_clock w)) as Htable.
  rewrite Hloop in Htable. cbn [snd table tick_clock] in Htable.
  destruct (same_table_manageRuleBasedOnStackCount env w1) as (Hsame & _).
  exists {| deployedStacks := p_deployedStacks st; assignedAccessCodes := assigned |},
    (snd (manageRuleBasedOnStackCount env w1)).
  split; [|split; [done|split; [done|split]]].
  - unfold deployStacks. rewrite run_try_catch, run_bind.
    destruct (validateStackCount_cases env stackCount w)
      as [(-> & _)|(e & _ & _ & _ & Hno)]; [|done].
    rewrite run_bind, Hurl, run_bind, Hassign, run_bind.
    unfold now at 1. cbn [fst snd]. rewrite run_bind, Htake.
    fold stackPrefix. rewrite Hloop, run_bind.
    replace (0 <? successfulDeployments st) with true
      by (symmetry; apply Z.ltb_lt; unfold assigned in Hcount;
          rewrite Hcount, length_take; lia).
    by rewrite run_advisory, run_ret.
  - cbn [deployedStacks]. apply list.Forall_forall. intros d Hd.
    assert (started d = true) as Hd'.
    { by apply (proj1 (list.Forall_forall _ _) (Hstarted ltac:(constructor))). }
    split; [done|]. rewrite Hsame. by apply Hrecorded.
  - cbn [assignedAccessCodes]. intros r (i & Hi)%list_elem_of_lookup Hother.
    rewrite Hsame.
    assert (∀ c, c ∈ assigned → c ∈ map guid (table w)) as Hpool.
    { intros c Hc. unfold assigned in Hc.
      apply elem_of_take in Hc as (j & Hj & _).
      apply list_elem_of_lookup_2 in Hj. unfold available_ids in Hj.
      apply list_elem_of_fmap in Hj as (x & -> & Hx).
      apply list_elem_of_fmap. exists x. split; [done|].
      apply list_elem_of_In. apply list_elem_of_In in Hx.
      by apply filter_In in Hx as [? _]. }
    destruct (Forall2_lookup_l _ _ _ _ _ (Htable Hpool) Hi)
      as (r' & Hi' & _ & Hkeep & _).
    rewrite (Hkeep Hother) in Hi'. by eapply list_elem_of_lookup_2.
Qed.

Lemma deployStacks_all_started_witness :
  ∃ response w',
    deployStacks quiet_env 2 None idle_world = (Ok response, w') ∧
    assignedAccessCodes response =
      ["00000000-0000-4000-8000-000000000001";
       "00000000-0000-4000-8000-000000000002"].
Proof.
  destruct (deployStacks_all_started quiet_env 2 idle_world)
    as (response & w' & Hrun & Hassigned & _).
  - apply (bool_decide_unpack _). by vm_compute.
  - done.
  - intros input. cbn. discriminate.
  - unfold maxPoolSize. cbn. lia.
  - reflexivity.
  - by vm_compute.
  - exists response, w'. split; [exact Hrun|exact Hassigned].
Defined.

(** ** C10: the writes that follow an accepted request are advisory *)

Lemma deployLoop_reports env stackCount stackPrefix timestamp codes :
  ∀ i st w st' w',
    deployLoop env stackCount stackPrefix timestamp i codes st w = (Ok st', w') →
    ∃ inputs news,
      calls w' = calls w ++ map CreateStack inputs ∧
      p_deployedStacks st' = p_deployedStacks st ++ news ∧
      Forall2 (reported env) inputs news ∧
      ((∀ n, write_error env n ≠ None) → table w' = table w).
Proof.
  induction codes as [|c codes IH]; intros i st w st' w'; cbn [deployLoop].
  - rewrite run_ret. intros [= <- <-]. exists [], []. by rewrite !app_nil_r.
  - rewrite run_bind, run_deployOne. cbn zeta.
    set (input := create_input env stackPrefix timestamp i c w).
    set (w3 := tick_clock (tick_clock (log_call (CreateStack input) (tick_clock w)))).
    destruct (created_id (create_stack env input)) as [id|] eqn:Hid.
    + intros Hrun.
      apply IH in Hrun as (inputs & news & Hcalls & Hnews & Hrep & Htable).
      rewrite calls_send_write in Hcalls. rewrite table_send_write in Htable.
      cbn [p_deployedStacks] in Hnews.
      exists (input :: inputs). eexists (_ :: news). split; [|split; [|split]].
      * rewrite Hcalls. cbn. by rewrite <- app_assoc.
      * rewrite Hnews, <- app_assoc. reflexivity.
      * constructor; [|done]. unfold reported. rewrite Hid. done.
      * intros Hwe. rewrite (Htable Hwe).
        destruct (write_error env (writes w3)) eqn:He; [done|]. by apply Hwe in He.
    + destruct (stackCount <? 2 * (failedDeployments st + 1)); [done|].
      intros Hrun.
      apply IH in Hrun as (inputs & news & Hcalls & Hnews & Hrep & Htable).
      rewrite calls_send_write in Hcalls. rewrite table_send_write in Htable.
      cbn [p_deployedStacks] in Hnews.
      exists (input :: inputs). eexists (_ :: news). split; [|split; [|split]].
      * rewrite Hcalls. cbn. by rewrite <- app_assoc.
      * rewrite Hnews, <- app_assoc. reflexivity.
      * constructor; [|done]. unfold reported. rewrite Hid. done.
      * intros Hwe. rewrite (Htable Hwe).
        destruct (write_error env (writes w3)) eqn:He; [done|]. by apply Hwe in He.
Qed.

Lemma run_deployStacks_reports env stackCount selected w response w' :
  deployStacks env stackCount selected w = (Ok response, w') →
  ∃ inputs extra,
    new_calls w w' = map CreateStack inputs ++ extra ∧
    Forall (λ c, is_eventbridge c = true) extra ∧
    Forall2 (reported env) inputs (deployedStacks response) ∧
    ((∀ n, write_error env n ≠ None) → table w' = table w).
Proof.
  unfold deployStacks. rewrite run_try_catch, run_bind.
  destruct (validateStackCount_cases env stackCount w)
    as [(-> & Hrange)|(e & -> & _)]; [|done].
  rewrite run_bind.
  destruct (validateTemplateUrl_cases env (templateUrl (config env)) w)
    as [->|(e & -> & _)]; [|done].
  rewrite run_bind.
  destruct (assignAccessCodes_cases stackCount selected w)
    as [(assigned & ->)|(e & -> & _)]; [|done].
  rewrite run_bind. unfold now at 1. cbn [fst snd]. rewrite run_bind.
  set (stackPrefix := Js.or_default (stackNamePrefix (config env)) "deployment-stack").
  set (codes := take (Z.to_nat stackCount) assigned).
  pose proof (deployLoop_reports env stackCount stackPrefix (time_at env (clock w))
                codes 0 no_progress (tick_clock w)) as Hloop.
  unfold no_progress in Hloop.
  destruct (deployLoop _ _ _ _ _ _ _ _) as [[st|e] w1]; [|by destruct e].
  destruct (Hloop st w1 eq_refl) as (inputs & news & Hcalls & Hnews & Hrep & Htable).
  clear Hloop. cbn [p_deployedStacks app calls table tick_clock] in *. subst news.
  rewrite run_bind.
  assert (∃ w2, (if 0 <? successfulDeployments st
                 then advisory (manageRuleBasedOnStackCount env) else mret ()) w1 =
                (Ok (), w2) ∧
                only_calls is_eventbridge w1 w2 ∧ table w2 = table w1)
    as (w2 & -> & (extra & Hextra & Hall) & Hsame).
  { destruct (0 <? successfulDeployments st).
    - rewrite run_advisory. eexists. split; [done|]. split.
      + by apply only_calls_manageRuleBasedOnStackCount.
      + by destruct (same_table_manageRuleBasedOnStackCount env w1) as (? & _).
    - rewrite run_ret. eexists. split; [done|]. split; [|done].
      exists []. by rewrite app_nil_r. }
  rewrite run_ret. intros [= <- <-]. cbn [deployedStacks].
  exists inputs, extra. split; [|split; [done|split; [done|]]].
  - unfold new_calls. by rewrite Hextra, Hcalls, <- app_assoc, drop_app_length.
  - intros Hwe. by rewrite Hsame, Htable.
Qed.

Lemma run_deployStacks_started env stackCount w :
  (∀ input, created_id (create_stack env input) ≠ None) →
  0 < stackCount ≤ maxPoolSize env →
  validateTemplateUrl env (templateUrl (config env)) w = (Ok (), w) →
  stackCount ≤ Z.of_nat (length (available_ids (table w))) →
  ∃ response w',
    deployStacks env stackCount None w = (Ok response, w') ∧
    map (λ d, (ds_uniqueId d, ds_status d)) (deployedStacks response) =
      map (λ c, (c, CREATE_IN_PROGRESS))
        (take (Z.to_nat stackCount) (available_ids (table w))).
Proof.
  intros Hcreate Hrange Hurl Havailable.
  assert (table w ≠ []) as Hne.
  { intros Hnil. rewrite Hnil in Havailable. cbn in Havailable. lia. }
  set (assigned := take (Z.to_nat stackCount) (available_ids (table w))).
  assert (assignAccessCodes stackCount None w = (Ok assigned, w)) as Hassign.
  { rewrite assignAccessCodes_auto by auto.
    replace (_ <? stackCount) with false by (symmetry; apply Z.ltb_ge; lia).
    unfold Js.slice0.
    by replace (stackCount <? 0) with false by (symmetry; apply Z.ltb_ge; lia). }
  assert (take (Z.to_nat stackCount) assigned = assigned) as Htake.
  { unfold assigned. rewrite take_take. f_equal. lia. }
  set (stackPrefix := Js.or_default (stackNamePrefix (config env)) "deployment-stack").
  destruct (deployLoop_all_started env stackCount stackPrefix (time_at env (clock w))
              assigned Hcreate 0 no_progress (tick_clock w))
    as (st & w1 & Hloop & Hids & Hstarted & Hcount).
  unfold no_progress in *.
  cbn [p_deployedStacks successfulDeployments map app] in Hids, Hstarted, Hcount.
  exists {| deployedStacks := p_deployedStacks st; assignedAccessCodes := assigned |},
    (snd (manageRuleBasedOnStackCount env w1)).
  split.
  - unfold deployStacks. rewrite run_try_catch, run_bind.
    destruct (validateStackCount_cases env stackCount w)
      as [(-> & _)|(e & _ & _ & _ & Hno)]; [|done].
    rewrite run_bind, Hurl, run_bind, Hassign, run_bind.
    unfold now at 1. cbn [fst snd]. rewrite run_bind, Htake.
    fold stackPrefix. rewrite Hloop, run_bind.
    replace (0 <? successfulDeployments st) with true
      by (symmetry; apply Z.ltb_lt; unfold assigned in Hcount;
          rewrite Hcount, length_take; lia).
    by rewrite run_advisory, run_ret.
  - cbn [deployedStacks]. fold assigned. rewrite <- Hids.
    specialize (Hstarted ltac:(constructor)).
    clear -Hstarted. induction Hstarted as [|d l Hd _ IH]; [done|].
    cbn. rewrite IH. unfold started in Hd. apply bool_decide_eq_true in Hd.
    by rewrite Hd.
Qed.

(** C10.  The writes to the table that follow an accepted request are
    advisory.  Whatever the table answers to the writes ([we]):
    [deployStacks] and [deleteStackByAccessCode] report the same outcome as
    with any other table; a turn of the deployment loop whose creation
    CloudFormation accepted adds a CREATE_IN_PROGRESS outcome and counts it
    as successful; [deleteStackByAccessCode] returns [success: true] once
    CloudFormation has accepted the [DeleteStack], also when the write of
    DELETE_IN_PROGRESS fails and the table stays as it was; every response
    of [deployStacks] lists, for each [CreateStack] that it sent, in order,
    the code of the request, as CREATE_IN_PROGRESS with the id of the stack
    when CloudFormation accepted the request, also when every write fails
    and the table stays as it was; and when the request is within the
    limits and CloudFormation accepts every creation, [deployStacks] does
    answer, with each of the first [stackCount] available codes as
    CREATE_IN_PROGRESS. *)
Theorem store_writes_are_advisory env we :
  (∀ stackCount selected w,
     fst (deployStacks (with_write_error we env) stackCount selected w) =
     fst (deployStacks env stackCount selected w)) ∧
  (∀ accessCode w,
     fst (deleteStackByAccessCode (with_write_error we env) accessCode w) =
     fst (deleteStackByAccessCode env accessCode w)) ∧
  (∀ stackCount stackPrefix timestamp i accessCode st w id,
     created_id
       (create_stack env (create_input env stackPrefix timestamp i accessCode w)) =
       Some id →
     fst (deployOne (with_write_error we env) stackCount stackPrefix timestamp i
            accessCode st w) =
     Ok {| p_deployedStacks :=
             p_deployedStacks st ++
               [{| ds_stackName := stackName_of stackPrefix accessCode timestamp i;
                   ds_stackId := id; ds_uniqueId := accessCode;
                   ds_status := CREATE_IN_PROGRESS;
                   ds_createdAt := time_at env (S (clock w)) |}];
           successfulDeployments := successfulDeployments st + 1;
           failedDeployments := failedDeployments st |}) ∧
  (∀ accessCode w record,
     Js.uuidRegex_test accessCode = true →
     find (same_guid accessCode) (table w) = Some record →
     isActive record = true →
     status record ≠ Cfn DELETE_IN_PROGRESS →
     status record ∉ inProgressStates →
     delete_stack env (stackName record) = Answer () →
     let out := deleteStackByAccessCode (with_write_error we env) accessCode w in
     fst out = Ok {| sd_success := true;
                     sd_deletionStatus := "DELETE_IN_PROGRESS" |} ∧
     calls (snd out) = calls w ++ [DeleteStack (stackName record)] ∧
     (we (writes w) ≠ None → table (snd out) = table w)) ∧
  (∀ stackCount selected w response w',
     deployStacks (with_write_error we env) stackCount selected w =
       (Ok response, w') →
     ∃ inputs extra,
       new_calls w w' = map CreateStack inputs ++ extra ∧
       Forall (λ c, is_eventbridge c = true) extra ∧
       Forall2
         (λ input d,
            ds_uniqueId d = cs_UniqueId input ∧
            ds_stackName d = cs_StackName input ∧
            ∀ id, created_id (create_stack env input) = Some id →
                  ds_status d = CREATE_IN_PROGRESS ∧ ds_stackId d = id)
         inputs (deployedStacks response) ∧
       ((∀ n, we n ≠ None) → table w' = table w)) ∧
  (∀ stackCount w,
     (∀ input, created_id (create_stack env input) ≠ None) →
     0 < stackCount ≤ maxPoolSize env →
     validateTemplateUrl env (templateUrl (config env)) w = (Ok (), w) →
     stackCount ≤ Z.of_nat (length (available_ids (table w))) →
     ∃ response w',
       deployStacks (with_write_error we env) stackCount None w =
         (Ok response, w') ∧
       map (λ d, (ds_uniqueId d, ds_status d)) (deployedStacks response) =
         map (λ c, (c, CREATE_IN_PROGRESS))
           (take (Z.to_nat stackCount) (available_ids (table w))) ∧
       ((∀ n, we n ≠ None) → table w' = table w)).
Proof.
  split; [|split; [|split; [|split; [|split]]]].
  - intros. apply deployStacks_write_independent.
  - intros. apply deleteStackByAccessCode_write_independent.
  - intros stackCount stackPrefix timestamp i accessCode st w id Hid.
    rewrite run_deployOne. cbn zeta.
    unfold create_input in *. cbn [time_at create_stack with_write_error].
    by rewrite Hid.
  - intros accessCode w record Huuid Hfind Hact Hne Hprog Haccepted. cbn zeta.
    destruct (run_deleteStackByAccessCode (with_write_error we env) accessCode w
                record Huuid Hfind) as [_ Hactive]. cbn zeta in Hactive.
    destruct (Hactive Hact) as (_ & _ & Hdel).
    destruct (Hdel Hne Hprog) as (Hcalls & Hreply).
    cbn [delete_stack write_error with_write_error] in Hreply.
    rewrite Haccepted in Hreply. destruct Hreply as (Hout & t & Htable).
    split; [exact Hout|]. split; [exact Hcalls|]. intros Hwe. rewrite Htable.
    by destruct (we (writes w)).
  - intros stackCount selected w response w' Hrun.
    destruct (run_deployStacks_reports _ _ _ _ _ _ Hrun)
      as (inputs & extra & Hcalls & Hextra & Hrep & Htable).
    exists inputs, extra. split; [done|]. split; [done|]. split; [|exact Htable].
    eapply list.Forall2_impl; [exact Hrep|].
    intros input d (Hid & Hname & Hstatus). split; [done|]. split; [done|].
    intros id Hcreated. cbn [create_stack with_write_error] in Hstatus.
    by rewrite Hcreated in Hstatus.
  - intros stackCount w Hcreate Hrange Hurl Havailable.
    destruct (run_deployStacks_started (with_write_error we env) stackCount w
                Hcreate Hrange Hurl Havailable) as (response & w' & Hrun & Hlist).
    exists response, w'. split; [exact Hrun|]. split; [exact Hlist|].
    by destruct (run_deployStacks_reports _ _ _ _ _ _ Hrun) as (_ & _ & _ & _ & _ & ?).
Qed.

Lemma store_writes_are_advisory_witness :
  (∃ response w',
     deployStacks (with_write_error refused_writes quiet_env) 2 None idle_world =
       (Ok response, w') ∧
     map (λ d, (ds_uniqueId d, ds_status d)) (deployedStacks response) =
       [("00000000-0000-4000-8000-000000000001", CREATE_IN_PROGRESS);
        ("00000000-0000-4000-8000-000000000002", CREATE_IN_PROGRESS)] ∧
     table w' = table idle_world) ∧
  fst (deleteStackByAccessCode (with_write_error refused_writes quiet_env) id_a
         (world_of [linked id_a CREATE_COMPLETE])) =
    Ok {| sd_success := true; sd_deletionStatus := "DELETE_IN_PROGRESS" |} ∧
  table (snd (deleteStackByAccessCode (with_write_error refused_writes quiet_env)
                id_a (world_of [linked id_a CREATE_COMPLETE]))) =
    [linked id_a CREATE_COMPLETE].
Proof.
  destruct (store_writes_are_advisory quiet_env refused_writes)
    as (_ & _ & _ & Hdelete & _ & Hdeploy).
  split.
  - destruct (Hdeploy 2 idle_world) as (response & w' & Hrun & Hlist & Htable).
    + intros input. cbn. discriminate.
    + unfold maxPoolSize. cbn. lia.
    + reflexivity.
    + by vm_compute.
    + exists response, w'. split; [exact Hrun|]. split; [exact Hlist|].
      apply Htable. intros n. discriminate.
  - destruct (Hdelete id_a (world_of [linked id_a CREATE_COMPLETE])
                (linked id_a CREATE_COMPLETE)) as (Hout & _ & Htable).
    + reflexivity.
    + reflexivity.
    + reflexivity.
    + discriminate.
    + intros Hin. apply list_elem_of_In in Hin. cbn in Hin.
      repeat (destruct Hin as [Hin|Hin]; [discriminate|]). done.
    + reflexivity.
    + split; [exact Hout|]. apply Htable. discriminate.
Defined.
